(** * WeasyPrint box tree construction ([weasy/boxes.py])

    A shallow embedding of the box model, of the tree builder
    [dom_to_box] and of the two normalisation passes [inline_in_block]
    and [block_in_inline], together with the properties established
    about them. *)

From Stdlib Require Import String Ascii.
From stdpp Require Import base option list strings.

Set Warnings "-register-all".

Local Open Scope string_scope.
Local Open Scope list_scope.

(** ** Python exceptions as an error monad *)

Inductive error : Type :=
| AssertionError
| NotImplementedError (msg : string)
| AttributeError
| ValueError
| TypeError
| OutOfFuel.

Inductive result (A : Type) : Type :=
| Ok (a : A)
| Err (e : error).
Arguments Ok {A} a.
Arguments Err {A} e.

#[global] Instance result_ret : MRet result := fun A a => Ok a.
#[global] Instance result_bind : MBind result := fun A B f m =>
  match m with
  | Ok a => f a
  | Err e => Err e
  end.

Definition is_ok {A} (r : result A) : bool :=
  match r with Ok _ => true | Err _ => false end.

(** ** The styled source tree

    An lxml-like element: [element.style.display], [element.text],
    [element.tail] and the child elements in document order.  [None] and
    the empty string are both falsy in the tests [if element.text:] and
    [if child_element.tail:]. *)

Inductive element : Type :=
  Element (display : string) (text : option string) (tail : option string)
          (kids : list element).

Abbreviation element_t := element.

Definition display (e : element) : string :=
  match e with Element d _ _ _ => d end.
Definition text (e : element) : option string :=
  match e with Element _ t _ _ => t end.
Definition tail (e : element) : option string :=
  match e with Element _ _ t _ => t end.
Definition kids (e : element) : list element :=
  match e with Element _ _ _ k => k end.

(** Truthiness of an optional string. *)
Definition truthy (o : option string) : option string :=
  match o with
  | Some s => if String.eqb s "" then None else Some s
  | None => None
  end.

(** ** Box classes

    [class BlockLevelBox(Box)], [class AnonymousBlockLevelBox(BlockLevelBox)],
    [class LineBox(Box)], [class InlineLevelBox(Box)], [class TextBox(Box)]. *)

Inductive cls : Type :=
| BlockLevelBox
| AnonymousBlockLevelBox
| LineBox
| InlineLevelBox
| TextBox.

#[global] Instance cls_eq_dec : EqDecision cls.
Proof. solve_decision. Defined.

(** [isinstance(box, BlockLevelBox)]: the anonymous class is a subclass. *)
Definition isinstance_BlockLevelBox (c : cls) : bool :=
  match c with
  | BlockLevelBox | AnonymousBlockLevelBox => true
  | _ => false
  end.
Definition isinstance_LineBox (c : cls) : bool :=
  match c with LineBox => true | _ => false end.
Definition isinstance_InlineLevelBox (c : cls) : bool :=
  match c with InlineLevelBox => true | _ => false end.

(** ** Box trees

    A box with its children, as reached through [children] from a root.
    A [TextBox] has [children = None] and a [text]; every other box has a
    list of children. *)

Inductive box : Type :=
| Box (c : cls) (e : element) (children : list box)
| Text (e : element) (t : string).

Abbreviation box_t := box.

Definition box_cls (b : box) : cls :=
  match b with Box c _ _ => c | Text _ _ => TextBox end.
Definition box_element (b : box) : element :=
  match b with Box _ e _ => e | Text e _ => e end.
Definition box_children (b : box) : option (list box) :=
  match b with Box _ _ ch => Some ch | Text _ _ => None end.

Definition is_block (b : box) : bool := isinstance_BlockLevelBox (box_cls b).
Definition is_line (b : box) : bool := isinstance_LineBox (box_cls b).
Definition is_inline (b : box) : bool := isinstance_InlineLevelBox (box_cls b).

(** ** Tree builder *)

Definition block_display (d : string) : bool :=
  String.eqb d "block" || String.eqb d "list-item" || String.eqb d "table"
  || String.prefix "table-" d.

Definition inline_display (d : string) : bool :=
  String.eqb d "inline" || String.eqb d "inline-block"
  || String.eqb d "inline-table" || String.eqb d "ruby".

Definition text_child (e : element) (o : option string) : list box :=
  match truthy o with
  | Some t => [Text e t]
  | None => []
  end.

(** The loop [for child_element in element] of [dom_to_box], over the
    recursive call [rec]. *)
Section children_loop.
Variable rec : element → result box.
Variable element : element_t.

Fixpoint children_loop (l : list element_t) : result (list box) :=
  match l with
  | [] => Ok []
  | child_element :: l' =>
      built ← (if negb (String.eqb (display child_element) "none")
               then b ← rec child_element; Ok [b]
               else Ok []);
      later ← children_loop l';
      Ok (built ++ text_child element (tail child_element) ++ later)
  end.
End children_loop.

Definition classify (d : string) : result cls :=
  if block_display d then Ok BlockLevelBox
  else if inline_display d then Ok InlineLevelBox
  else Err (NotImplementedError (String.append "Unsupported display: " d)).

Fixpoint dom_to_box (element : element_t) : result box_t :=
  let d := display element in
  if String.eqb d "none" then Err AssertionError else
  c ← classify d;
  rest ← children_loop dom_to_box element (kids element);
  Ok (Box c element (text_child element (text element) ++ rest)).

(** ** Inline-run normaliser

    [inline_in_block] rewrites the tree in place; no list is changed while
    it is iterated and every [add_child] keeps [parent] in step with
    [children], so the pass is a function from the tree under [box] to the
    tree under [box] afterwards.  [wrap_runs] is the loop over the former
    children: [line] holds [line_box.children] and [out] the new
    [box.children]. *)

Definition nonempty {A} (l : list A) : bool :=
  match l with [] => false | _ => true end.

Fixpoint wrap_runs (e : element) (children line out : list box)
  : result (list box) :=
  match children with
  | [] =>
      if nonempty line then
        if nonempty out
        then Ok (out ++ [Box AnonymousBlockLevelBox e [Box LineBox e line]])
        else Ok [Box LineBox e line]
      else Ok out
  | child_box :: rest =>
      if is_line child_box then Err AssertionError
      else if is_block child_box then
        if nonempty line
        then wrap_runs e rest []
               (out ++ [Box AnonymousBlockLevelBox e [Box LineBox e line]]
                    ++ [child_box])
        else wrap_runs e rest line (out ++ [child_box])
      else wrap_runs e rest (line ++ [child_box]) out
  end.

Definition already_done (children : list box) : bool :=
  match children with
  | [only] => is_line only
  | _ => false
  end.

(** [for child_box in ...: rec(child_box)] over a list that [rec] leaves
    alone. *)
Section each_child.
Variable rec : box → result box.

Fixpoint each_child (l : list box) : result (list box) :=
  match l with
  | [] => Ok []
  | child_box :: l' =>
      b ← rec child_box;
      bs ← each_child l';
      Ok (b :: bs)
  end.
End each_child.

Fixpoint inline_in_block (box : box_t) : result box_t :=
  match box with
  | Text e t => Ok (Text e t)
  | Box c e children =>
      children' ← each_child inline_in_block children;
      if negb (isinstance_BlockLevelBox c) then Ok (Box c e children')
      else if already_done children' then Ok (Box c e children')
      else
        new_children ← wrap_runs e children' [] [];
        Ok (Box c e new_children)
  end.

(** ** The object store

    [block_in_inline] follows [parent] links, changes lists that a caller
    is still iterating and rebinds [children] to new lists, so it is
    modelled over a store of objects.  A reference is an index into the
    store; a box object holds a reference to its [children] list object,
    and list objects live in a store of their own. *)

Abbreviation ref := nat.

Record obj : Type := Obj {
  o_cls : cls;
  o_element : element;
  o_parent : option ref;
  o_children : option ref;
  o_text : option string
}.

Record heap : Type := Heap {
  boxes : list obj;
  lists : list (list ref)
}.

Definition empty_heap : heap := Heap [] [].

Definition M (A : Type) : Type := heap → result (A * heap).

#[global] Instance M_ret : MRet M := fun A a h => Ok (a, h).
#[global] Instance M_bind : MBind M := fun A B f m h =>
  match m h with
  | Ok (a, h') => f a h'
  | Err e => Err e
  end.

Definition raise {A} (e : error) : M A := fun _ => Err e.

Definition get_box (r : ref) : M obj := fun h =>
  match boxes h !! r with
  | Some o => Ok (o, h)
  | None => Err AttributeError
  end.

Definition set_box (r : ref) (o : obj) : M unit := fun h =>
  Ok (tt, Heap (<[r:=o]> (boxes h)) (lists h)).

Definition new_box (o : obj) : M ref := fun h =>
  Ok (length (boxes h), Heap (boxes h ++ [o]) (lists h)).

Definition get_list (l : ref) : M (list ref) := fun h =>
  match lists h !! l with
  | Some xs => Ok (xs, h)
  | None => Err AttributeError
  end.

Definition set_list (l : ref) (xs : list ref) : M unit := fun h =>
  Ok (tt, Heap (boxes h) (<[l:=xs]> (lists h))).

Definition new_list (xs : list ref) : M ref := fun h =>
  Ok (length (lists h), Heap (boxes h) (lists h ++ [xs])).

(** Attribute reads and writes. *)

Definition get_parent (r : ref) : M (option ref) :=
  o ← get_box r; mret (o_parent o).

Definition set_parent (r : ref) (p : option ref) : M unit :=
  o ← get_box r;
  set_box r (Obj (o_cls o) (o_element o) p (o_children o) (o_text o)).

Definition get_children (r : ref) : M (option ref) :=
  o ← get_box r; mret (o_children o).

Definition set_children (r : ref) (l : option ref) : M unit :=
  o ← get_box r;
  set_box r (Obj (o_cls o) (o_element o) (o_parent o) l (o_text o)).

Definition get_cls (r : ref) : M cls :=
  o ← get_box r; mret (o_cls o).

Definition get_element (r : ref) : M element :=
  o ← get_box r; mret (o_element o).

(** [x.attr] where [x] may be [None]. *)
Definition deref (x : option ref) : M ref :=
  match x with
  | Some r => mret r
  | None => raise AttributeError
  end.

(** [Box.__init__] and [TextBox.__init__]. *)
Definition Box_init (c : cls) (e : element) : M ref :=
  l ← new_list [];
  new_box (Obj c e None (Some l) None).

Definition TextBox_init (e : element) (t : string) : M ref :=
  new_box (Obj TextBox e None None (Some t)).

(** [list.insert]: an index past the end appends. *)
Definition list_insert_at (i : nat) (x : ref) (xs : list ref) : list ref :=
  take i xs ++ x :: drop i xs.

(** [list.index]: position of the first occurrence. *)
Fixpoint list_index (x : ref) (xs : list ref) : option nat :=
  match xs with
  | [] => None
  | y :: ys => if Nat.eqb x y then Some 0 else S <$> list_index x ys
  end.

(** [list.remove]: drops the first occurrence. *)
Fixpoint list_remove (x : ref) (xs : list ref) : option (list ref) :=
  match xs with
  | [] => None
  | y :: ys => if Nat.eqb x y then Some ys else cons y <$> list_remove x ys
  end.

(** [Box.add_child]. *)
Definition add_child (self child : ref) (index : option nat) : M unit :=
  set_parent child (Some self);;
  l ← get_children self;
  l ← deref l;
  xs ← get_list l;
  match index with
  | None => set_list l (xs ++ [child])
  | Some i => set_list l (list_insert_at i child xs)
  end.

(** The [index] property. *)
Definition index (self : ref) : M (option nat) :=
  p ← get_parent self;
  match p with
  | None => mret None
  | Some p =>
      l ← get_children p;
      l ← deref l;
      xs ← get_list l;
      match list_index self xs with
      | Some i => mret (Some i)
      | None => raise ValueError
      end
  end.

(** [x.index + 1]. *)
Definition index_plus_1 (self : ref) : M nat :=
  i ← index self;
  match i with
  | Some i => mret (i + 1)
  | None => raise TypeError
  end.

(** ** Inline-chain splitter *)

(** A bound on the length of any acyclic [parent] chain of the store; a
    walk that exhausts it is going round a cycle and never ends. *)
Definition chain_bound : M nat := fun h => Ok (S (length (boxes h)), h).

(** The first loop over [box.parents]: collects the inline-level
    ancestors, nearest first, up to the first other ancestor. *)
Fixpoint collect_inline_parents (n : nat) (cur : ref) (inline_parents : list ref)
  : M (list ref * option ref) :=
  match n with
  | 0 => raise OutOfFuel
  | S n' =>
      p ← get_parent cur;
      match p with
      | None => mret (inline_parents, None)
      | Some parent =>
          c ← get_cls parent;
          if isinstance_InlineLevelBox c
          then collect_inline_parents n' parent (inline_parents ++ [parent])
          else mret (inline_parents, Some parent)
      end
  end.

(** [while inline_parents: parent = inline_parents.pop() ...]: the list is
    consumed from its end, so [rev_parents] is the list reversed. *)
Fixpoint clone_inline_parents (rev_parents : list ref)
    (next_anonymous_box : option ref) : M (option ref) :=
  match rev_parents with
  | [] => mret next_anonymous_box
  | parent :: rest =>
      e ← get_element parent;
      clone_inline_box ← Box_init InlineLevelBox e;
      nab ← deref next_anonymous_box;
      add_child nab clone_inline_box None;;
      clone_inline_parents rest (Some clone_inline_box)
  end.

Fixpoint add_children (next_anonymous_box : option ref) (next_children : list ref)
  : M unit :=
  match next_children with
  | [] => mret tt
  | child :: rest =>
      nab ← deref next_anonymous_box;
      add_child nab child None;;
      add_children next_anonymous_box rest
  end.

(** [x[i:]] and [x[:i]] need [x] to be a list. *)
Definition subscriptable (l : option ref) : M ref :=
  match l with
  | Some l => mret l
  | None => raise TypeError
  end.

(** The second loop over [box.parents]: [cur] is the state of the
    generator, which reads [parent] anew at every step. *)
Fixpoint move_next_children (n : nat) (cur parent_line_box : ref)
    (splitter_box : ref) (next_anonymous_box : option ref) : M unit :=
  match n with
  | 0 => raise OutOfFuel
  | S n' =>
      p ← get_parent cur;
      match p with
      | None => mret tt
      | Some parent =>
          if Nat.eqb parent parent_line_box then mret tt
          else
            l ← get_children parent;
            i ← index_plus_1 splitter_box;
            l ← subscriptable l;
            xs ← get_list l;
            let next_children := drop i xs in
            l ← get_children parent;
            i ← index splitter_box;
            l ← subscriptable l;
            xs ← get_list l;
            i ← match i with Some i => mret i | None => raise TypeError end;
            l' ← new_list (take i xs);
            set_children parent (Some l');;
            add_children next_anonymous_box next_children;;
            nab ← deref next_anonymous_box;
            nab' ← get_parent nab;
            move_next_children n' parent parent_line_box parent nab'
      end
  end.

(** The body of [if box.parent and isinstance(box.parent, InlineLevelBox)]. *)
Definition split (box : ref) : M unit :=
  n ← chain_bound;
  '(inline_parents, parent_line_box) ← collect_inline_parents n box [];
  (* Add an anonymous block level box before the block box *)
  plb ← deref parent_line_box;
  e ← get_element plb;
  previous_anonymous_box ← Box_init AnonymousBlockLevelBox e;
  p ← get_parent plb;
  p ← deref p;
  i ← index plb;
  add_child p previous_anonymous_box i;;
  p ← get_parent plb;
  p ← deref p;
  l ← get_children p;
  l ← deref l;
  xs ← get_list l;
  xs ← match list_remove plb xs with
       | Some xs => mret xs
       | None => raise ValueError
       end;
  set_list l xs;;
  add_child previous_anonymous_box plb None;;
  (* Add an anonymous block level box after the block box *)
  e ← get_element plb;
  next_anonymous_box ← Box_init AnonymousBlockLevelBox e;
  p ← get_parent previous_anonymous_box;
  p ← deref p;
  i ← index_plus_1 previous_anonymous_box;
  add_child p next_anonymous_box (Some i);;
  (* Recreate anonymous inline boxes clones from the split inline boxes *)
  next_anonymous_box ←
    clone_inline_parents (reverse inline_parents) (Some next_anonymous_box);
  n ← chain_bound;
  move_next_children n box plb box next_anonymous_box;;
  (* Put the block element before the next_anonymous_box *)
  p ← get_parent previous_anonymous_box;
  p ← deref p;
  i ← index_plus_1 previous_anonymous_box;
  add_child p box (Some i).

(** [box.parent and isinstance(box.parent, InlineLevelBox)]. *)
Definition parent_is_inline (box : ref) : M bool :=
  p ← get_parent box;
  match p with
  | None => mret false
  | Some p => c ← get_cls p; mret (isinstance_InlineLevelBox c)
  end.

(** The loop [for child_box in box.children or []] of [block_in_inline],
    over the recursive call [rec]: it holds on to the list object [l] and
    to a position [i] in it, and reads the list anew at every step. *)
Section child_boxes_loop.
Variable rec : ref → M unit.
Variable l : ref.

Fixpoint child_boxes_loop (n : nat) (i : nat) : M unit :=
  match n with
  | 0 => raise OutOfFuel
  | S n' =>
      xs ← get_list l;
      match xs !! i with
      | None => mret tt
      | Some child_box =>
          rec child_box;;
          child_boxes_loop n' (S i)
      end
  end.
End child_boxes_loop.

Fixpoint block_in_inline (fuel : nat) (box : ref) : M unit :=
  match fuel with
  | 0 => raise OutOfFuel
  | S fuel' =>
      c ← get_cls box;
      (if isinstance_BlockLevelBox c then
         inl ← parent_is_inline box;
         if inl : bool then split box else mret tt
       else mret tt);;
      l ← get_children box;
      match l with
      | None => mret tt
      | Some l =>
          xs ← get_list l;
          if nonempty xs
          then child_boxes_loop (block_in_inline fuel') l fuel' 0
          else mret tt
      end
  end.

(** ** Box trees in the store

    [load] builds the objects of a box tree the way [dom_to_box] and
    [inline_in_block] leave them: every box is added to its parent with
    [add_child].  [extract] reads the tree under a reference back, through
    the [children] lists as they are at that moment. *)

Section load_children.
Variable rec : box → M ref.
Variable r : ref.

Fixpoint load_children (l : list box) : M unit :=
  match l with
  | [] => mret tt
  | child :: l' =>
      cr ← rec child;
      add_child r cr None;;
      load_children l'
  end.
End load_children.

Fixpoint load (b : box_t) : M ref :=
  match b with
  | Text e t => TextBox_init e t
  | Box c e children =>
      r ← Box_init c e;
      load_children load r children;;
      mret r
  end.

Fixpoint extract (fuel : nat) (h : heap) (r : ref) : option box_t :=
  match fuel with
  | 0 => None
  | S fuel' =>
      o ← boxes h !! r;
      match o_children o with
      | None => t ← o_text o; Some (Text (o_element o) t)
      | Some l =>
          xs ← lists h !! l;
          children ← mapM (extract fuel' h) xs;
          Some (Box (o_cls o) (o_element o) children)
      end
  end.

(** Running the pass on the tree [b], loaded into an empty store, with
    [b] as the root box. *)
Definition run_block_in_inline (fuel : nat) (b : box_t) : result box_t :=
  match (r ← load b; block_in_inline fuel r;; mret r) empty_heap with
  | Ok (r, h) =>
      match extract fuel h r with
      | Some b' => Ok b'
      | None => Err OutOfFuel
      end
  | Err e => Err e
  end.


(** ** Observations on box trees *)

(** The text runs of a tree, left to right, each with the element its
    [TextBox] refers to. *)
Fixpoint text_leaves (b : box_t) : list (element * string) :=
  match b with
  | Text e t => [(e, t)]
  | Box _ _ children => mbind text_leaves children
  end.

(** What [inline_in_block] establishes: the children of a block-level box
    are exactly one [LineBox], or block-level boxes only. *)
Fixpoint normalized (b : box_t) : bool :=
  match b with
  | Text _ _ => true
  | Box c _ children =>
      (if isinstance_BlockLevelBox c
       then already_done children || forallb is_block children
       else true)
      && forallb normalized children
  end.

(** A block-level box somewhere in the tree. *)
Fixpoint has_block (b : box_t) : bool :=
  match b with
  | Text _ _ => false
  | Box c _ children => isinstance_BlockLevelBox c || existsb has_block children
  end.

(** No inline-level box has a block-level box in its subtree. *)
Fixpoint block_free_inlines (b : box_t) : bool :=
  match b with
  | Text _ _ => true
  | Box c _ children =>
      (if isinstance_InlineLevelBox c
       then negb (existsb has_block children)
       else true)
      && forallb block_free_inlines children
  end.

(** The check [assert not isinstance(child_box, LineBox)] never fires:
    a block-level box with a [LineBox] child has no other child. *)
Fixpoint no_nested_LineBox (b : box_t) : bool :=
  match b with
  | Text _ _ => true
  | Box c _ children =>
      (if isinstance_BlockLevelBox c
       then already_done children || forallb (λ x, negb (is_line x)) children
       else true)
      && forallb no_nested_LineBox children
  end.

(** Every [AnonymousBlockLevelBox] of the tree has exactly one child, a
    [LineBox]. *)
Fixpoint anonymous_wrap_lines (b : box_t) : bool :=
  match b with
  | Text _ _ => true
  | Box c _ children =>
      (if decide (c = AnonymousBlockLevelBox)
       then already_done children
       else true)
      && forallb anonymous_wrap_lines children
  end.

(** No [AnonymousBlockLevelBox] in the tree, as in every tree that
    [dom_to_box] builds. *)
Fixpoint no_anonymous (b : box_t) : bool :=
  match b with
  | Text _ _ => true
  | Box c _ children =>
      (if decide (c = AnonymousBlockLevelBox) then false else true)
      && forallb no_anonymous children
  end.

(** The elements [dom_to_box] can build: a block or an inline display,
    and so for every child element that is not skipped. *)
Fixpoint supported (e : element_t) : bool :=
  match e with
  | Element d _ _ kids =>
      (block_display d || inline_display d)
      && forallb (λ k, String.eqb (display k) "none" || supported k) kids
  end.

(** What one child element [k] of [element] adds to the children of the
    box being built: its own box unless its display is [none], then a
    [TextBox] for its tail text, if any. *)
Definition child_part (element k : element_t) (part : list box_t) : Prop :=
  ∃ built,
    (if String.eqb (display k) "none" then built = []
     else ∃ bk, dom_to_box k = Ok bk ∧ built = [bk])
    ∧ part = built ++ text_child element (tail k).

(** The reading under which a child element whose display is [none] adds
    nothing at all. *)
Definition child_part_skipping (element k : element_t) (part : list box_t)
  : Prop :=
  if String.eqb (display k) "none" then part = []
  else ∃ bk, dom_to_box k = Ok bk ∧ part = bk :: text_child element (tail k).

Definition built_from (part_of : element → element → list box → Prop)
    (e : element_t) (b : box_t) : Prop :=
  ∃ parts,
    Forall2 (part_of e) (kids e) parts
    ∧ box_children b = Some (text_child e (text e) ++ concat parts).

(** Number of elements of a source tree. *)
Fixpoint element_size (e : element_t) : nat :=
  match e with
  | Element _ _ _ kids => S (list_sum (map element_size kids))
  end.

(** The example of the docstring of [block_in_inline], as a document. *)
Definition more_text : element :=
  Element "block" (Some "More text") None [].
Definition more_text_again : element :=
  Element "block" (Some "More text again") None [].
Definition and_again : element :=
  Element "block" (Some "And again.") None [].
Definition em_text : element :=
  Element "inline" (Some "text") None [more_text; more_text_again].
Definition em_some : element :=
  Element "inline" (Some "Some ") None [em_text; and_again].
Definition em_hello : element :=
  Element "inline" (Some "Hello.") None [].
Definition docstring_element : element :=
  Element "block" None None [em_hello; em_some].

Definition docstring_input : box :=
  Box BlockLevelBox docstring_element
    [Box LineBox docstring_element
       [Box InlineLevelBox em_hello [Text em_hello "Hello."];
        Box InlineLevelBox em_some
          [Text em_some "Some ";
           Box InlineLevelBox em_text
             [Text em_text "text";
              Box BlockLevelBox more_text
                [Box LineBox more_text [Text more_text "More text"]];
              Box BlockLevelBox more_text_again
                [Box LineBox more_text_again
                   [Text more_text_again "More text again"]]];
           Box BlockLevelBox and_again
             [Box LineBox and_again [Text and_again "And again."]]]]].

(** A result that is not the model running out of fuel. *)
Definition settled {A} (r : result A) : Prop := r ≠ Err OutOfFuel.

(** Reading the store: the class of a box, the boxes in its [children]
    list, and its ancestors, nearest first, as the [parents] property
    yields them ([None] when the [parent] links go round a cycle). *)
Definition cls_of (h : heap) (r : ref) : option cls :=
  o_cls <$> boxes h !! r.

Definition children_refs (h : heap) (r : ref) : option (list ref) :=
  o ← boxes h !! r; l ← o_children o; lists h !! l.

Fixpoint parents_upto (n : nat) (h : heap) (r : ref) : option (list ref) :=
  match n with
  | 0 => None
  | S n' =>
      o ← boxes h !! r;
      match o_parent o with
      | None => Some []
      | Some p => cons p <$> parents_upto n' h p
      end
  end.

Definition parents (h : heap) (r : ref) : option (list ref) :=
  parents_upto (S (length (boxes h))) h r.

(** A tree whose block-level box [Q] holds an inline-level box directly,
    with a block-level box inside it. *)
Definition unnormalized_example : box :=
  Box BlockLevelBox (Element "block" None None [])
    [Box BlockLevelBox (Element "block" None None [])
       [Box InlineLevelBox (Element "inline" None None [])
          [Box BlockLevelBox (Element "block" None None []) []]]].

(** [box] is a block-level box whose parent is inline-level: the test
    that opens the splitting. *)
Definition triggers (h : heap) (box : ref) : bool :=
  match boxes h !! box with
  | Some o =>
      isinstance_BlockLevelBox (o_cls o)
      && match o_parent o with
         | Some p => bool_decide (cls_of h p = Some InlineLevelBox)
         | None => false
         end
  | None => false
  end.

(** The first ancestor of [box] that is not inline-level. *)
Definition enclosing_box (h : heap) (box : ref) : option ref :=
  ps ← parents h box;
  head (filter (λ p, cls_of h p ≠ Some InlineLevelBox) ps).

(** The reading under which the splitter refuses an enclosing box that is
    not a [LineBox]. *)
Definition refuses_other_than_LineBox : Prop :=
  ∀ (h : heap) (box plb : ref) (fuel : nat),
    triggers h box = true →
    enclosing_box h box = Some plb →
    cls_of h plb ≠ Some LineBox →
    is_ok (block_in_inline (S fuel) box h) = false.

(** An inline-level root with a block-level box in it. *)
Definition inline_root_example : box :=
  Box InlineLevelBox (Element "inline" None None [])
    [Box BlockLevelBox (Element "block" None None []) []].

(** A line box with text after the inline box that holds a block. *)
Definition trailing_text_example : box :=
  Box BlockLevelBox (Element "block" None None [])
    [Box LineBox (Element "block" None None [])
       [Box InlineLevelBox (Element "inline" None None [])
          [Box BlockLevelBox (Element "block" None None [])
             [Box LineBox (Element "block" None None [])
                [Text (Element "block" None None []) "x"]]];
        Text (Element "block" None None []) "y"]].

(** The text runs of a document, in document order: the text of an
    element, then for each child its own runs unless its display is
    [none], and its tail text.  Each run is paired with the element whose
    content it is part of. *)
Definition text_run (e : element) (o : option string)
  : list (element * string) :=
  match truthy o with
  | Some t => [(e, t)]
  | None => []
  end.

Fixpoint element_runs (e : element_t) : list (element * string) :=
  match e with
  | Element _ t _ ks =>
      text_run e t
      ++ mbind (λ k, (if String.eqb (display k) "none" then []
                      else element_runs k) ++ text_run e (tail k)) ks
  end.

(** The elements [dom_to_box] is called on, in the order of the calls. *)
Fixpoint displayed (e : element_t) : list element :=
  match e with
  | Element _ _ _ ks =>
      e :: mbind (λ k, if String.eqb (display k) "none" then []
                       else displayed k) ks
  end.

Definition classify_error (e : element) : option error :=
  match classify (display e) with
  | Ok _ => None
  | Err x => Some x
  end.

Fixpoint first_error (l : list element) : option error :=
  match l with
  | [] => None
  | k :: l' =>
      match classify_error k with
      | Some x => Some x
      | None => first_error l'
      end
  end.

Definition dom_to_box_error (e : element) : option error :=
  if String.eqb (display e) "none" then Some AssertionError
  else first_error (displayed e).

Definition error_of {A} (r : result A) : option error :=
  match r with
  | Ok _ => None
  | Err x => Some x
  end.

(** Every box has the class that the display of its own element calls
    for, and no [TextBox] is empty. *)
Fixpoint dom_shaped (b : box_t) : bool :=
  match b with
  | Text _ t => negb (String.eqb t "")
  | Box c e children =>
      match classify (display e) with
      | Ok c' => bool_decide (c = c')
      | Err _ => false
      end
      && forallb dom_shaped children
  end.

(** The two classes of box that [inline_in_block] creates. *)
Definition is_wrapper (c : cls) : bool :=
  match c with
  | LineBox | AnonymousBlockLevelBox => true
  | _ => false
  end.

(** The tree without its [LineBox] and [AnonymousBlockLevelBox] levels:
    the children of such a box take its place. *)
Fixpoint strip (b : box_t) : list box_t :=
  match b with
  | Text e t => [Text e t]
  | Box c e children =>
      if is_wrapper c then mbind strip children
      else [Box c e (mbind strip children)]
  end.

(** No [LineBox] and no [AnonymousBlockLevelBox] in the tree. *)
Fixpoint plain (b : box_t) : bool :=
  match b with
  | Text _ _ => true
  | Box c _ children => negb (is_wrapper c) && forallb plain children
  end.

(** Every [LineBox] of the tree has a child, and neither a block-level
    box nor a [LineBox] among its children. *)
Fixpoint lines_filled (b : box_t) : bool :=
  match b with
  | Text _ _ => true
  | Box c _ children =>
      (if isinstance_LineBox c
       then nonempty children
            && forallb (λ x, negb (is_block x) && negb (is_line x)) children
       else true)
      && forallb lines_filled children
  end.

(** The [parent] of a box of the store. *)
Definition parent_of (h : heap) (r : ref) : option ref :=
  o ← boxes h !! r; o_parent o.

(** Where [add_child] puts the child in a list of [n] boxes. *)
Definition insert_position (index : option nat) (n : nat) : nat :=
  match index with
  | None => n
  | Some i => i `min` n
  end.

(** The list object that is the [children] of a box of the store. *)
Definition clist (h : heap) (r : ref) : option ref :=
  o ← boxes h !! r; o_children o.

(** An object with its [parent] set anew. *)
Definition with_parent (p : option ref) (o : obj) : obj :=
  Obj (o_cls o) (o_element o) p (o_children o) (o_text o).

(** ** What a run of the splitter does to the store *)

(** [o'] is the object [o] at a later time: the same class, element and
    text, and still with a list of children if it had one. *)
Definition same_kind (o o' : obj) : Prop :=
  o_cls o' = o_cls o ∧ o_element o' = o_element o ∧ o_text o' = o_text o
  ∧ (is_Some (o_children o) → is_Some (o_children o')).

(** The objects that the splitter makes. *)
Definition created (o : obj) : Prop :=
  (o_cls o = AnonymousBlockLevelBox ∨ o_cls o = InlineLevelBox)
  ∧ o_text o = None ∧ is_Some (o_children o).

Record grows (h h' : heap) : Prop := Grows {
  grows_boxes : (length (boxes h) ≤ length (boxes h'))%nat;
  grows_lists : (length (lists h) ≤ length (lists h'))%nat;
  grows_old : ∀ r o, boxes h !! r = Some o →
                ∃ o', boxes h' !! r = Some o' ∧ same_kind o o';
  grows_new : ∀ r o', (length (boxes h) ≤ r)%nat →
                boxes h' !! r = Some o' → created o'
}.

(** Every box of the store refers to an element of [E]. *)
Definition elements_in (E : element → Prop) (h : heap) : Prop :=
  ∀ r o, boxes h !! r = Some o → E (o_element o).

(** A computation that leaves the store as it is. *)
Definition reads {A} (m : M A) : Prop :=
  ∀ h a h', m h = Ok (a, h') → h' = h.

(** A computation that keeps the elements in [E] and lets the store
    grow. *)
Definition keeps (E : element → Prop) {A} (m : M A) : Prop :=
  ∀ h a h', elements_in E h → m h = Ok (a, h') →
            elements_in E h' ∧ grows h h'.

(** The store of a block-level box with a line box, an inline-level box
    in it and a block-level box in that one. *)
Definition nested_block_store : heap :=
  Heap [Obj BlockLevelBox (Element "block" None None []) None (Some 0) None;
        Obj LineBox (Element "block" None None []) (Some 0) (Some 1) None;
        Obj InlineLevelBox (Element "inline" None None []) (Some 1) (Some 2)
          None;
        Obj BlockLevelBox (Element "table" None None []) (Some 2) (Some 3)
          None]
       [[1]; [2]; [3]; []].

(** ** Box trees in the store, by position

    [load] numbers the boxes of a tree in the order of a walk that takes
    every box before its children, and their lists of children likewise;
    a [TextBox] has no list. *)

Fixpoint size (b : box_t) : nat :=
  match b with
  | Text _ _ => 1
  | Box _ _ children => S (list_sum (map size children))
  end.

Fixpoint lsize (b : box_t) : nat :=
  match b with
  | Text _ _ => 0
  | Box _ _ children => S (list_sum (map lsize children))
  end.

Definition fsize (ts : list box_t) : nat := list_sum (map size ts).
Definition flsize (ts : list box_t) : nat := list_sum (map lsize ts).

(** The boxes at which the trees [ts] start, the first one at [a]. *)
Fixpoint roots (a : nat) (ts : list box_t) : list ref :=
  match ts with
  | [] => []
  | t :: rest => a :: roots (a + size t) rest
  end.

Section placed_list.
Variable rec : nat → nat → box_t → Prop.

Fixpoint placed_list (a la : nat) (ts : list box_t) : Prop :=
  match ts with
  | [] => True
  | t :: rest => rec a la t ∧ placed_list (a + size t) (la + lsize t) rest
  end.
End placed_list.

(** The store holds the tree [b] at the box [a], with its lists from [la]
    on, as [load] builds it, and [p] is the parent of [a]. *)
Fixpoint placed (h : heap) (p : option ref) (a la : nat) (b : box_t) : Prop :=
  match b with
  | Text e t => boxes h !! a = Some (Obj TextBox e p None (Some t))
  | Box c e children =>
      boxes h !! a = Some (Obj c e p (Some la) None)
      ∧ lists h !! la = Some (roots (a + 1) children)
      ∧ placed_list (placed h (Some a)) (a + 1) (la + 1) children
  end.

(** What [load] does with the tree [b], whatever the store. *)
Definition load_ok (b : box) : Prop :=
  ∀ h, ∃ h',
    load b h = Ok (length (boxes h), h')
    ∧ length (boxes h') = (length (boxes h) + size b)%nat
    ∧ length (lists h') = (length (lists h) + lsize b)%nat
    ∧ (∀ r, (r < length (boxes h))%nat → boxes h' !! r = boxes h !! r)
    ∧ (∀ l, (l < length (lists h))%nat → lists h' !! l = lists h !! l)
    ∧ placed h' None (length (boxes h)) (length (lists h)) b.

(** The parent [p] of a box at the root of the tree [b]: an inline-level
    one only if [b] is not block-level. *)
Definition parent_ok (h : heap) (p : option ref) (b : box_t) : Prop :=
  match p with
  | None => True
  | Some q =>
      ∃ po, boxes h !! q = Some po
            ∧ (is_block b = true
               → isinstance_InlineLevelBox (o_cls po) = false)
  end.

(** The children of a box are visited after the test on the box. *)
Definition visit_children (fuel : nat) (box : ref) : M unit :=
  l ← get_children box;
  match l with
  | None => mret tt
  | Some l =>
      xs ← get_list l;
      if nonempty xs
      then child_boxes_loop (block_in_inline fuel) l fuel 0
      else mret tt
  end.

(** ** The store while [block_in_inline] runs *)

Definition with_children (l : option ref) (o : obj) : obj :=
  Obj (o_cls o) (o_element o) (o_parent o) l (o_text o).

Definition ins (index : option nat) (child : ref) (xs : list ref) : list ref :=
  match index with None => xs ++ [child] | Some i => list_insert_at i child xs end.

(** clone phase *)
Fixpoint clone_heap (es : list element) (t lt : ref) (h : heap) : heap :=
  match es with
  | [] => h
  | e :: es' =>
      let c := length (boxes h) in
      let lc := length (lists h) in
      clone_heap es' c lc
        (Heap (boxes h ++ [Obj InlineLevelBox e (Some t) (Some lc) None])
              (<[lt:=[c]]> (lists h) ++ [[]]))
  end.

Definition last_clone (es : list element) (t : ref) (h : heap) : ref :=
  match es with [] => t | _ => length (boxes h) + length es - 1 end.

Definition element_of (h : heap) (r : ref) : option element :=
  o_element <$> boxes h !! r.

(** move phase *)
Record lvl : Type := Lvl {
  lv_J : ref; lv_lJ : ref; lv_pre : list ref; lv_post : list ref;
  lv_c : ref; lv_lc : ref
}.

Definition add_children_heap (c lc : ref) (post : list ref) (h : heap) : heap :=
  foldl (λ h s, Heap (alter (with_parent (Some c)) s (boxes h))
                     (alter (λ xs, xs ++ [s]) lc (lists h))) h post.

Definition move_level (lv : lvl) (h : heap) : heap :=
  add_children_heap (lv_c lv) (lv_lc lv) (lv_post lv)
    (Heap (alter (with_children (Some (length (lists h)))) (lv_J lv) (boxes h))
          (lists h ++ [lv_pre lv])).

Definition move_heap (lvs : list lvl) (h : heap) : heap :=
  foldl (λ h lv, move_level lv h) h lvs.

(** what the loop reads at one level *)
Definition lvl_ok (h : heap) (sp : ref) (lv : lvl) (up : ref) : Prop :=
  parent_of h sp = Some (lv_J lv)
  ∧ clist h (lv_J lv) = Some (lv_lJ lv)
  ∧ lists h !! lv_lJ lv = Some (lv_pre lv ++ sp :: lv_post lv)
  ∧ (sp ∉ lv_pre lv)
  ∧ clist h (lv_c lv) = Some (lv_lc lv)
  ∧ parent_of h (lv_c lv) = Some up.

Definition up_of (rest : list lvl) (top : ref) : ref :=
  match rest with [] => top | lv' :: _ => lv_c lv' end.

Fixpoint move_ready (h : heap) (Q sp : ref) (lvs : list lvl) (top : ref) : Prop :=
  match lvs with
  | [] => parent_of h sp = Some Q
  | lv :: rest =>
      (lv_J lv ≠ Q) ∧ lvl_ok h sp lv (up_of rest top)
      ∧ move_ready h Q (lv_J lv) rest top
  end.

(** old and new references are apart *)
Definition lvl_sep (N0 NL0 : nat) (h : heap) (lv : lvl) : Prop :=
  (lv_J lv < N0)%nat ∧ Forall (λ s, (s < N0)%nat) (lv_post lv)
  ∧ (N0 ≤ lv_c lv)%nat ∧ (lv_c lv < length (boxes h))%nat
  ∧ (lv_lJ lv < NL0)%nat ∧ (NL0 ≤ lv_lc lv)%nat
  ∧ (lv_lc lv < length (lists h))%nat.

(** The levels have distinct inline boxes, none of which is among the
    boxes to move. *)
Fixpoint lvls_apart (lvs : list lvl) : Prop :=
  match lvs with
  | [] => True
  | lv :: rest =>
      (lv_J lv ∉ lv_post lv)
      ∧ Forall (λ lv', (lv_J lv' ∉ lv_post lv) ∧ (lv_J lv' ≠ lv_J lv)) rest
      ∧ lvls_apart rest
  end.

Definition same_base (o o' : obj) : Prop :=
  o_cls o' = o_cls o ∧ o_element o' = o_element o ∧ o_text o' = o_text o
  ∧ (is_Some (o_children o') ↔ is_Some (o_children o)).

Definition based (bs bs' : list obj) : Prop :=
  ∀ r o', bs' !! r = Some o' → (r < length bs)%nat →
          ∃ o, bs !! r = Some o ∧ same_base o o'.

Record rlvl : Type := RLvl {
  r_J : ref; r_lJ : ref; r_pre : list ref; r_post : list ref; r_e : element
}.

Fixpoint rchain (h : heap) (Q sp : ref) (raws : list rlvl) : Prop :=
  match raws with
  | [] =>
      parent_of h sp = Some Q
      ∧ ∃ ks, children_refs h Q = Some ks ∧ sp ∈ ks
  | r :: rest =>
      parent_of h sp = Some (r_J r)
      ∧ cls_of h (r_J r) = Some InlineLevelBox
      ∧ element_of h (r_J r) = Some (r_e r)
      ∧ clist h (r_J r) = Some (r_lJ r)
      ∧ lists h !! r_lJ r = Some (r_pre r ++ sp :: r_post r)
      ∧ (sp ∉ r_pre r)
      ∧ rchain h Q (r_J r) rest
  end.

Definition all_posts (raws : list rlvl) : list ref := concat (map r_post raws).

Definition descending (h : heap) (ht : ref → nat) : Prop :=
  ∀ y ks c, children_refs h y = Some ks → c ∈ ks → (ht c < ht y)%nat.

Record inv (h : heap) : Prop := Inv {
  inv_clist_lt : ∀ r l, clist h r = Some l → (l < length (lists h))%nat;
  inv_clist_inj : ∀ r1 r2 l, clist h r1 = Some l → clist h r2 = Some l → r1 = r2;
  inv_kids_lt : ∀ y ks c,
    children_refs h y = Some ks → c ∈ ks → (c < length (boxes h))%nat;
  inv_cons : ∀ y ks c,
    children_refs h y = Some ks → c ∈ ks → parent_of h c = Some y;
  inv_nodup : ∀ y ks, children_refs h y = Some ks → NoDup ks;
  inv_line : ∀ y ks c,
    cls_of h y = Some InlineLevelBox → children_refs h y = Some ks → c ∈ ks →
    cls_of h c ≠ Some LineBox;
  inv_text : ∀ r o,
    boxes h !! r = Some o → o_children o = None → is_Some (o_text o);
  inv_parent_lt : ∀ r p, parent_of h r = Some p → (p < length (boxes h))%nat;
  inv_ht : ∃ ht, descending h ht;
  inv_leaf : ∀ r, cls_of h r = Some TextBox → clist h r = None
}.

(** [Q] is a box that is not inline-level, held by the block-level box [P]. *)
Record top (h : heap) (P Q : ref) : Prop := Top {
  top_P : ∃ c, cls_of h P = Some c ∧ isinstance_BlockLevelBox c = true;
  top_Q : ∃ c, cls_of h Q = Some c ∧ isinstance_InlineLevelBox c = false;
  top_parent : parent_of h Q = Some P;
  top_kid : ∃ ks, children_refs h P = Some ks ∧ Q ∈ ks
}.

(** The chain of inline boxes between two children: the nearest level
    has [r_pre] done and [r_post] to come. *)
Definition pend_chain (h : heap) (Q : ref) (fs : list rlvl) : Prop :=
  match fs with
  | [] => True
  | f :: rest =>
      cls_of h (r_J f) = Some InlineLevelBox
      ∧ element_of h (r_J f) = Some (r_e f)
      ∧ clist h (r_J f) = Some (r_lJ f)
      ∧ lists h !! r_lJ f = Some (r_pre f ++ r_post f)
      ∧ rchain h Q (r_J f) rest
  end.

(** The levels of the clones a split creates. *)
Fixpoint clone_lvls (N NL : nat) (raws : list rlvl) : list rlvl :=
  match raws with
  | [] => []
  | r :: rest =>
      RLvl (N + 2 + length rest) (NL + 2 + length rest) [] (r_post r) (r_e r)
      :: clone_lvls N NL rest
  end.

Definition outer (sp : ref) (raws : list rlvl) : ref :=
  default sp (last (map r_J raws)).

Definition inreg (a b n : nat) (r : ref) : Prop :=
  (a ≤ r)%nat ∧ (r < b)%nat ∨ (n ≤ r)%nat.

Definition closed (h : heap) (a b n : nat) : Prop :=
  ∀ y ks c, inreg a b n y → children_refs h y = Some ks → c ∈ ks →
            inreg a b n c.

(** What a split leaves behind. *)
Record split_res (h : heap) (x P Q : ref) (raws : list rlvl) (h' : heap)
  : Prop := SplitRes {
  sr_inv : inv h';
  sr_len : length (boxes h') = length (boxes h) + 2 + length raws;
  sr_llen : length (lists h') = length (lists h) + 2 + length raws + length raws;
  sr_based : based (boxes h) (boxes h');
  sr_boxes_old : ∀ r,
    (r < length (boxes h))%nat → r ≠ Q → r ≠ x →
    r ∉ map r_J raws → r ∉ all_posts raws →
    boxes h' !! r = boxes h !! r;
  sr_lists_old : ∀ l,
    (l < length (lists h))%nat → clist h P ≠ Some l →
    lists h' !! l = lists h !! l;
  sr_box_x : boxes h' !! x = with_parent (Some P) <$> boxes h !! x;
  sr_box_post : ∀ r1 r r2 s,
    raws = r1 ++ r :: r2 → s ∈ r_post r →
    boxes h' !! s
    = with_parent (Some (length (boxes h) + 2 + length r2)) <$> boxes h !! s;
  sr_kids_old : ∀ y,
    (y < length (boxes h))%nat → y ≠ P → y ∉ map r_J raws →
    children_refs h' y = children_refs h y;
  sr_kids_P : ∃ as_ bs_,
    children_refs h P = Some (as_ ++ Q :: bs_)
    ∧ children_refs h' P
      = Some (as_ ++ [length (boxes h); x; length (boxes h) + 1] ++ bs_);
  sr_top : top h' P (length (boxes h) + 1);
  sr_clist_old : ∀ r,
    (r < length (boxes h))%nat → r ∉ map r_J raws → clist h' r = clist h r;
  sr_anchor : ∀ A PA, top h PA A →
    ∃ PA', top h' PA' A
      ∧ (PA' = PA
         ∨ (PA' = length (boxes h)
            ∧ clist h' PA' = Some (length (lists h))));
  sr_pend :
    pend_chain h' (length (boxes h) + 1)
      (clone_lvls (length (boxes h)) (length (lists h)) raws);
  sr_trig : ∀ s, triggers h' s = true → triggers h s = true ∧ s ≠ x;
  sr_closed : ∀ a b n,
    closed h a b n → (n ≤ length (boxes h))%nat →
    inreg a b n x → inreg a b n Q → Forall (inreg a b n) (map r_J raws) →
    closed h' a b n
}.

(** The store after the two anonymous boxes are put around the box [Q]
    of the children [as_ ++ Q :: bs_] of [P]. *)
Definition wrap_heap (h : heap) (P Q : ref) (oQ : obj) (lP : ref)
    (as_ bs_ : list ref) : heap :=
  Heap (alter (with_parent (Some (length (boxes h)))) Q (boxes h)
          ++ [Obj AnonymousBlockLevelBox (o_element oQ) (Some P)
                (Some (length (lists h))) None;
              Obj AnonymousBlockLevelBox (o_element oQ) (Some P)
                (Some (length (lists h) + 1)) None])
       (<[lP:=as_ ++ [length (boxes h); length (boxes h) + 1] ++ bs_]> (lists h)
          ++ [[Q]; []]).

Fixpoint mk_lvls (N NL : nat) (raws : list rlvl) : list lvl :=
  match raws with
  | [] => []
  | r :: rest =>
      Lvl (r_J r) (r_lJ r) (r_pre r) (r_post r)
          (N + 1 + length raws) (NL + 1 + length raws)
      :: mk_lvls N NL rest
  end.

(** The store after the split at the box [x], under the inline-level
    boxes [raws] of the child [Q] of [P]. *)
Definition split_heap (h : heap) (x P Q : ref) (oQ : obj) (lP : ref)
    (as_ bs_ : list ref) (raws : list rlvl) : heap :=
  let N := length (boxes h) in
  let NL := length (lists h) in
  let hD := move_heap (mk_lvls N NL raws)
              (clone_heap (reverse (map r_e raws)) (N + 1) (NL + 1)
                 (wrap_heap h P Q oQ lP as_ bs_)) in
  Heap (alter (with_parent (Some P)) x (boxes hD))
       (<[lP:=as_ ++ [N; x; N + 1] ++ bs_]> (lists hD)).

Section loaded_list.
Variable rec : nat → nat → box → Prop.

Fixpoint loaded_list (a la : nat) (ts : list box) : Prop :=
  match ts with
  | [] => True
  | t :: rest => rec a la t ∧ loaded_list (a + size t) (la + lsize t) rest
  end.
End loaded_list.

(** The tree [b] sits at the box [a], its lists from [la] on, in the
    order [load] numbers them. *)
Fixpoint loaded (h : heap) (a la : nat) (b : box) : Prop :=
  match b with
  | Text _ _ => cls_of h a = Some TextBox ∧ clist h a = None
  | Box c _ children =>
      cls_of h a = Some c
      ∧ clist h a = Some la
      ∧ lists h !! la = Some (roots (a + 1) children)
      ∧ loaded_list (loaded h) (a + 1) (la + 1) children
  end.

Definition is_text (b : box) : bool :=
  match b with Text _ _ => true | _ => false end.

(** The shape [inline_in_block] leaves: a block-level box holds one
    [LineBox] or block-level boxes only, a [LineBox] holds inline-level
    boxes and text, an inline-level box holds no [LineBox]. *)
Fixpoint well_formed (b : box) : bool :=
  match b with
  | Text _ _ => true
  | Box c _ children =>
      match c with
      | InlineLevelBox => forallb (λ x, negb (is_line x)) children
      | LineBox => forallb (λ x, is_inline x || is_text x) children
      | BlockLevelBox | AnonymousBlockLevelBox =>
          already_done children || forallb is_block children
      | TextBox => false
      end
      && forallb well_formed children
  end.

Definition same_on (h h' : heap) (a b la lb : nat) : Prop :=
  (∀ r, (a ≤ r)%nat → (r < b)%nat →
        cls_of h' r = cls_of h r ∧ clist h' r = clist h r)
  ∧ (∀ l, (la ≤ l)%nat → (l < lb)%nat → lists h' !! l = lists h !! l).

Definition kframe (h h' : heap) (y : ref) : Prop :=
  boxes h' !! y = boxes h !! y ∧ children_refs h' y = children_refs h y.

Section pass_state.
Local Open Scope nat_scope.

Definition cfg (ra a rn : nat) (r : ref) : Prop := (ra ≤ r ∧ r < a) ∨ rn ≤ r.

Definition item_ok (x : box) : bool := negb (is_line x) && well_formed x.

Record pend : Type := Pend { p_a : nat; p_la : nat; p_ts : list box }.

(** The children still to come at every level of the inline chain: the
    trees [p_ts], loaded from [p_a] on, one level after the other. *)
Fixpoint pends (h : heap) (lo llo : nat) (fs : list rlvl) (ps : list pend)
    (z zl : nat) : Prop :=
  match fs, ps with
  | [], [] => lo ≤ z ∧ llo ≤ zl
  | f :: fs', p :: ps' =>
      lo ≤ p_a p ∧ llo ≤ p_la p
      ∧ r_post f = roots (p_a p) (p_ts p)
      ∧ loaded_list (loaded h) (p_a p) (p_la p) (p_ts p)
      ∧ forallb item_ok (p_ts p) = true
      ∧ pends h (p_a p + fsize (p_ts p)) (p_la p + flsize (p_ts p))
          fs' ps' z zl
  | _, _ => False
  end.

Definition kids_in (ra rb rn : nat) (h : heap) (B : ref) : Prop :=
  ∃ ks, children_refs h B = Some ks ∧ Forall (inreg ra rb rn) ks.

(** What the visit of the children of a block-level box leaves. *)
Record block_res (h h' : heap) (a sz la lsz : nat) : Prop := BlockRes {
  br_inv : inv h';
  br_len : length (boxes h) ≤ length (boxes h');
  br_llen : length (lists h) ≤ length (lists h');
  br_boxes : ∀ r, r < length (boxes h) → ¬ (a ≤ r ∧ r < a + sz) →
                  boxes h' !! r = boxes h !! r;
  br_lists : ∀ l, l < length (lists h) → ¬ (la ≤ l ∧ l < la + lsz) →
                  lists h' !! l = lists h !! l;
  br_trig : ∀ s, triggers h' s = true →
                 triggers h s = true ∧ ¬ (a < s ∧ s < a + sz);
  br_closed : closed h' a (a + sz) (length (boxes h))
}.

Record istate (h : heap) (P Q : ref) (f : rlvl) (fs : list rlvl)
    (a la : nat) (ts : list box) (ps : list pend) (z zl ra rb rn : nat)
  : Prop := IState {
  is_inv : inv h;
  is_top : top h P Q;
  is_chain : pend_chain h Q (f :: fs);
  is_pends : pends h a la (f :: fs) (Pend a la ts :: ps) z zl;
  is_cfgQ : cfg ra a rn Q;
  is_cfgJ : Forall (cfg ra a rn) (map r_J (f :: fs));
  is_P : P < ra ∨ rn ≤ P;
  is_lP : ∀ lP, clist h P = Some lP → ¬ (la ≤ lP ∧ lP < zl);
  is_ra : ra ≤ a;
  is_rb : z ≤ rb;
  is_rn : rb ≤ rn;
  is_len : rn ≤ length (boxes h);
  is_llen : zl ≤ length (lists h);
  is_closed : closed h ra rb rn
}.

Definition anchored (h h' : heap) (A PA : ref) : Prop :=
  ∃ PA', top h' PA' A ∧ clist h' A = clist h A
    ∧ ((PA' = PA ∧ clist h' PA = clist h PA)
       ∨ (length (boxes h) ≤ PA'
          ∧ ∃ l0, clist h' PA' = Some l0 ∧ length (lists h) ≤ l0)).

Record itrans (h h' : heap) (P : ref) (a a' la z zl ra rb rn : nat)
  : Prop := ITrans {
  it_len : length (boxes h) ≤ length (boxes h');
  it_llen : length (lists h) ≤ length (lists h');
  it_boxes : ∀ r, r < rn → ¬ (ra ≤ r ∧ r < z) →
                  boxes h' !! r = boxes h !! r;
  it_lists : ∀ l0, l0 < length (lists h) → ¬ (la ≤ l0 ∧ l0 < zl) →
                   clist h P ≠ Some l0 → lists h' !! l0 = lists h !! l0;
  it_clistP : clist h' P = clist h P;
  it_trig : ∀ s, triggers h' s = true →
                 triggers h s = true ∧ ¬ (a ≤ s ∧ s < a');
  it_anchor : ∀ A PA, top h PA A → ¬ (a ≤ A ∧ A < z) → anchored h h' A PA;
  it_kids_in : ∀ B0, B0 < ra → kids_in ra rb rn h B0 → kids_in ra rb rn h' B0
}.

Definition block_spec (t : box) : Prop :=
  ∀ h a la,
    inv h → loaded h a la t → well_formed t = true → is_block t = true →
    ∃ F h',
      (∀ fu, F ≤ fu → visit_children fu a h = Ok (tt, h'))
      ∧ block_res h h' a (size t) la (lsize t).

Definition item_spec (t : box) : Prop :=
  ∀ h P Q f fs a la rest ps z zl ra rb rn,
    istate h P Q f fs a la (t :: rest) ps z zl ra rb rn →
    ∃ F h' Q' f' fs',
      (∀ fu, F ≤ fu → block_in_inline fu a h = Ok (tt, h'))
      ∧ istate h' P Q' f' fs' (a + size t) (la + lsize t) rest ps
          z zl ra rb rn
      ∧ itrans h h' P a (a + size t) la z zl ra rb rn
      ∧ length fs' = length fs
      ∧ same_on h h' (a + size t) z (la + lsize t) zl.

(** The frame of the innermost level once the child at [a] is done. *)
Definition advance (f : rlvl) (a : ref) (post : list ref) : rlvl :=
  RLvl (r_J f) (r_lJ f) (r_pre f ++ [a]) post (r_e f).

(** What the visit of children of a line box leaves, whichever box holds
    the line box by then. *)
Record ltrans (h h' : heap) (PL : ref) (a a' la z zl ra rn : nat)
  : Prop := LTrans {
  lt_len : length (boxes h) ≤ length (boxes h');
  lt_llen : length (lists h) ≤ length (lists h');
  lt_boxes : ∀ r, r < rn → ¬ (ra ≤ r ∧ r < z) →
                  boxes h' !! r = boxes h !! r;
  lt_lists : ∀ l0, l0 < length (lists h) → ¬ (la ≤ l0 ∧ l0 < zl) →
                   clist h PL ≠ Some l0 → lists h' !! l0 = lists h !! l0;
  lt_trig : ∀ s, triggers h' s = true →
                 triggers h s = true ∧ ¬ (a ≤ s ∧ s < a');
  lt_anchor : ∀ A PA, top h PA A → ¬ (a ≤ A ∧ A < z) → anchored h h' A PA;
  lt_kids_in : ∀ B0, B0 < ra → kids_in ra z rn h B0 → kids_in ra z rn h' B0
}.

Definition line_ready (x : box) : Prop :=
  match x with
  | Box _ _ ch => Forall item_spec ch
  | Text _ _ => True
  end.

Definition kids_ready (x : box) : Prop :=
  match x with
  | Box _ _ ch => Forall line_ready ch
  | Text _ _ => True
  end.

(** The classes of box that [dom_to_box] creates with [Box]. *)
Definition flow_cls (c : cls) : bool :=
  match c with
  | BlockLevelBox | InlineLevelBox => true
  | _ => false
  end.

(** Block-level boxes, inline-level boxes and text only. *)
Fixpoint flow (b : box) : bool :=
  match b with
  | Text _ _ => true
  | Box c _ children => flow_cls c && forallb flow children
  end.

End pass_state.

(** * Properties *)

(** ** Induction over elements and over box trees *)

Section element_ind.
Variable P : element → Prop.
Hypothesis Hnode : ∀ d t tl kids, Forall P kids → P (Element d t tl kids).

Fixpoint element_ind' (e : element_t) : P e :=
  match e with
  | Element d t tl kids =>
      Hnode d t tl kids
        ((fix all (l : list element_t) : Forall P l :=
            match l with
            | [] => @List.Forall_nil _ P
            | k :: l' => @List.Forall_cons _ P k l' (element_ind' k) (all l')
            end) kids)
  end.
End element_ind.

Section box_ind.
Variable P : box → Prop.
Hypothesis Htext : ∀ e t, P (Text e t).
Hypothesis Hbox : ∀ c e children, Forall P children → P (Box c e children).

Fixpoint box_ind' (b : box_t) : P b :=
  match b with
  | Text e t => Htext e t
  | Box c e children =>
      Hbox c e children
        ((fix all (l : list box_t) : Forall P l :=
            match l with
            | [] => @List.Forall_nil _ P
            | k :: l' => @List.Forall_cons _ P k l' (box_ind' k) (all l')
            end) children)
  end.
End box_ind.

(** ** The tree builder *)

Lemma dom_to_box_unfold (e : element) :
  dom_to_box e =
    if String.eqb (display e) "none" then Err AssertionError else
    c ← classify (display e);
    rest ← children_loop dom_to_box e (kids e);
    Ok (Box c e (text_child e (text e) ++ rest)).
Proof. destruct e; reflexivity. Qed.

Lemma block_display_spec (d : string) :
  block_display d = true ↔
  d ∈ ["block"; "list-item"; "table"] ∨ String.prefix "table-" d = true.
Proof.
  unfold block_display. rewrite !orb_true_iff, !String.eqb_eq.
  rewrite !elem_of_cons, elem_of_nil. tauto.
Qed.

Lemma inline_display_spec (d : string) :
  inline_display d = true ↔
  d ∈ ["inline"; "inline-block"; "inline-table"; "ruby"].
Proof.
  unfold inline_display. rewrite !orb_true_iff, !String.eqb_eq.
  rewrite !elem_of_cons, elem_of_nil. tauto.
Qed.

Lemma inline_display_not_block (d : string) :
  inline_display d = true → block_display d = false.
Proof.
  rewrite inline_display_spec, !elem_of_cons, elem_of_nil.
  intros [->|[->|[->|[->|[]]]]]; reflexivity.
Qed.

Lemma children_loop_supported (e : element) (l : list element) :
  Forall (λ k, supported k = true → ∃ b, dom_to_box k = Ok b) l →
  forallb (λ k, String.eqb (display k) "none" || supported k) l = true →
  ∃ bs, children_loop dom_to_box e l = Ok bs.
Proof.
  induction 1 as [|k l Hk _ IH]; simpl; [eauto|].
  rewrite andb_true_iff, orb_true_iff. intros [Hd Hl].
  destruct (IH Hl) as [bs ->].
  destruct (String.eqb (display k) "none") eqn:E; simpl; [eauto|].
  destruct Hd as [?|Hs]; [discriminate|].
  destruct (Hk Hs) as [b ->]. simpl. eauto.
Qed.

Lemma supported_unfold (e : element) :
  supported e =
    (block_display (display e) || inline_display (display e))
    && forallb (λ k, String.eqb (display k) "none" || supported k) (kids e).
Proof. destruct e; reflexivity. Qed.

Lemma dom_to_box_supported (e : element) :
  supported e = true → ∃ b, dom_to_box e = Ok b.
Proof.
  induction e as [d t tl kids IH] using element_ind'.
  rewrite supported_unfold, dom_to_box_unfold. simpl.
  rewrite andb_true_iff. intros [Hd Hk].
  destruct (children_loop_supported (Element d t tl kids) kids IH Hk) as [bs Hbs].
  simpl in Hbs. unfold classify.
  destruct (String.eqb d "none") eqn:E.
  { apply String.eqb_eq in E. subst d. discriminate. }
  destruct (block_display d); simpl.
  - rewrite Hbs. simpl. eauto.
  - simpl in Hd. rewrite Hd. simpl. rewrite Hbs. simpl. eauto.
Qed.

Lemma dom_to_box_returns (e : element) (b : box) :
  dom_to_box e = Ok b →
  ∃ c rest,
    classify (display e) = Ok c ∧
    children_loop dom_to_box e (kids e) = Ok rest ∧
    b = Box c e (text_child e (text e) ++ rest).
Proof.
  rewrite dom_to_box_unfold.
  destruct (String.eqb (display e) "none"); [discriminate|].
  destruct (classify (display e)) as [c|]; [|discriminate]. simpl.
  destruct (children_loop dom_to_box e (kids e)) as [rest|]; [|discriminate].
  simpl. intros [= <-]. eauto.
Qed.

(** C5: an element whose display is [block], [list-item], [table] or
    starts with [table-] is built as a [BlockLevelBox]; one whose display
    is [inline], [inline-block], [inline-table] or [ruby] as an
    [InlineLevelBox]; every other display (but [none]) makes [dom_to_box]
    fail with the error that names the value, and no box is returned. *)
Theorem dom_to_box_classification (e : element) :
  display e ≠ "none" →
  (display e ∈ ["block"; "list-item"; "table"]
   ∨ String.prefix "table-" (display e) = true →
     (∀ b, dom_to_box e = Ok b → ∃ ch, b = Box BlockLevelBox e ch)
     ∧ (supported e = true → ∃ ch, dom_to_box e = Ok (Box BlockLevelBox e ch)))
  ∧ (display e ∈ ["inline"; "inline-block"; "inline-table"; "ruby"] →
     (∀ b, dom_to_box e = Ok b → ∃ ch, b = Box InlineLevelBox e ch)
     ∧ (supported e = true → ∃ ch, dom_to_box e = Ok (Box InlineLevelBox e ch)))
  ∧ (¬ (display e ∈ ["block"; "list-item"; "table"]
        ∨ String.prefix "table-" (display e) = true) →
     display e ∉ ["inline"; "inline-block"; "inline-table"; "ruby"] →
     dom_to_box e =
       Err (NotImplementedError
              (String.append "Unsupported display: " (display e)))).
Proof.
  intros Hnone.
  assert (Hcls : ∀ c, classify (display e) = Ok c →
            (∀ b, dom_to_box e = Ok b → ∃ ch, b = Box c e ch)
            ∧ (supported e = true → ∃ ch, dom_to_box e = Ok (Box c e ch))).
  { intros c Hc. split.
    - intros b Hb. apply dom_to_box_returns in Hb as (c' & rest & Hc' & _ & ->).
      rewrite Hc in Hc'. injection Hc' as <-. eauto.
    - intros Hs. destruct (dom_to_box_supported e Hs) as [b Hb].
      destruct (dom_to_box_returns e b Hb) as (c' & rest & Hc' & _ & ->).
      rewrite Hc in Hc'. injection Hc' as <-. eauto. }
  split; [|split].
  - intros Hb. apply Hcls. unfold classify.
    apply block_display_spec in Hb. rewrite Hb. reflexivity.
  - intros Hi. apply Hcls. unfold classify.
    apply inline_display_spec in Hi.
    rewrite (inline_display_not_block _ Hi), Hi. reflexivity.
  - intros Hb Hi. rewrite dom_to_box_unfold.
    destruct (String.eqb_spec (display e) "none") as [|_]; [contradiction|].
    unfold classify.
    destruct (block_display (display e)) eqn:Eb.
    { apply block_display_spec in Eb. contradiction. }
    destruct (inline_display (display e)) eqn:Ei.
    { apply inline_display_spec in Ei. contradiction. }
    reflexivity.
Qed.

Lemma dom_to_box_classification_witness :
  (∃ ch, dom_to_box (Element "table-row" (Some "a") None []) =
           Ok (Box BlockLevelBox (Element "table-row" (Some "a") None []) ch))
  ∧ (∃ ch, dom_to_box (Element "inline-block" None None []) =
           Ok (Box InlineLevelBox (Element "inline-block" None None []) ch))
  ∧ dom_to_box (Element "flex" None None []) =
      Err (NotImplementedError "Unsupported display: flex").
Proof.
  split; [|split].
  - apply (dom_to_box_classification (Element "table-row" (Some "a") None [])).
    + discriminate.
    + right. reflexivity.
    + reflexivity.
  - apply (dom_to_box_classification (Element "inline-block" None None [])).
    + discriminate.
    + rewrite !elem_of_cons. auto.
    + reflexivity.
  - apply (dom_to_box_classification (Element "flex" None None [])).
    + discriminate.
    + rewrite !elem_of_cons, elem_of_nil. simpl. intros [[?|[?|[?|[]]]]|?]; discriminate.
    + rewrite !elem_of_cons, elem_of_nil. intros [?|[?|[?|[?|[]]]]]; discriminate.
Defined.

Lemma children_loop_parts (e : element) (l : list element) (rest : list box) :
  children_loop dom_to_box e l = Ok rest →
  ∃ parts, Forall2 (child_part e) l parts ∧ rest = concat parts.
Proof.
  revert rest. induction l as [|k l IH]; simpl; intros rest.
  - intros [= <-]. exists []. split; [constructor|reflexivity].
  - destruct (String.eqb (display k) "none") eqn:E; simpl.
    + destruct (children_loop dom_to_box e l) as [later|]; [|discriminate].
      simpl. intros [= <-]. destruct (IH later eq_refl) as (parts & HF & ->).
      exists (([] ++ text_child e (tail k)) :: parts). split; [|reflexivity].
      constructor; [|assumption]. exists []. rewrite E. auto.
    + destruct (dom_to_box k) as [bk|] eqn:Ek; [|discriminate]. simpl.
      destruct (children_loop dom_to_box e l) as [later|]; [|discriminate].
      simpl. intros [= <-]. destruct (IH later eq_refl) as (parts & HF & ->).
      exists (([bk] ++ text_child e (tail k)) :: parts). split; [|reflexivity].
      constructor; [|assumption]. exists [bk]. rewrite E. eauto.
Qed.

(** C6, as the code has it: in document order, every child element adds
    its own box unless its display is [none], and then, whether it was
    skipped or not, a [TextBox] for its tail text when that is not empty. *)
Theorem dom_to_box_children (e : element) (b : box) :
  dom_to_box e = Ok b → built_from child_part e b.
Proof.
  intros Hb. apply dom_to_box_returns in Hb as (c & rest & _ & Hrest & ->).
  apply children_loop_parts in Hrest as (parts & HF & ->).
  exists parts. split; [assumption|reflexivity].
Qed.

Lemma dom_to_box_children_witness :
  built_from child_part
    (Element "block" (Some "a") None
       [Element "inline" None (Some "b") []; Element "none" None (Some "c") []])
    (Box BlockLevelBox
       (Element "block" (Some "a") None
          [Element "inline" None (Some "b") []; Element "none" None (Some "c") []])
       [Text (Element "block" (Some "a") None
          [Element "inline" None (Some "b") []; Element "none" None (Some "c") []]) "a";
        Box InlineLevelBox (Element "inline" None (Some "b") []) [];
        Text (Element "block" (Some "a") None
          [Element "inline" None (Some "b") []; Element "none" None (Some "c") []]) "b";
        Text (Element "block" (Some "a") None
          [Element "inline" None (Some "b") []; Element "none" None (Some "c") []]) "c"]).
Proof. apply dom_to_box_children. reflexivity. Defined.

(** C6, as stated, fails: the tail text of a child element whose display
    is [none] is still appended. *)
Lemma skipped_child_tail_is_appended :
  ¬ (∀ e b, dom_to_box e = Ok b → built_from child_part_skipping e b).
Proof.
  intros H.
  destruct (H (Element "block" None None [Element "none" None (Some "b") []])
              _ eq_refl) as (parts & HF & Hch).
  simpl in HF. inversion HF as [|k part l ps Hpart Hnil]; subst.
  inversion Hnil; subst. unfold child_part_skipping in Hpart. simpl in Hpart.
  subst part. discriminate Hch.
Qed.

Lemma in_concat_parts {A B} (R : A → list B → Prop) (l : list A)
    (parts : list (list B)) (x : B) :
  Forall2 R l parts → x ∈ concat parts →
  ∃ k part, k ∈ l ∧ R k part ∧ x ∈ part.
Proof.
  induction 1 as [|k part l parts HR _ IH]; simpl.
  - intros H. inversion H.
  - rewrite elem_of_app. intros [Hx|Hx].
    + exists k, part. split; [left|auto].
    + destruct (IH Hx) as (k' & part' & Hk' & HR' & Hx').
      exists k', part'. split; [right; assumption|auto].
Qed.

Lemma parts_in_concat {A B} (R : A → list B → Prop) (l : list A)
    (parts : list (list B)) (k : A) :
  Forall2 R l parts → k ∈ l →
  ∃ part, R k part ∧ ∀ x, x ∈ part → x ∈ concat parts.
Proof.
  induction 1 as [|k' part l parts HR _ IH]; simpl.
  - intros H. inversion H.
  - intros Hk. apply elem_of_cons in Hk as [->|Hk].
    + exists part. split; [assumption|]. intros x Hx.
      apply elem_of_app. auto.
    + destruct (IH Hk) as (part' & HR' & Hin). exists part'.
      split; [assumption|]. intros x Hx. apply elem_of_app. auto.
Qed.

Lemma element_size_kid (e k : element) :
  k ∈ kids e → element_size k < element_size e.
Proof.
  destruct e as [d t tl l]. simpl.
  induction l as [|k' l IH]; intros Hk; [inversion Hk|].
  apply elem_of_cons in Hk as [->|Hk]; simpl; [lia|].
  specialize (IH Hk). lia.
Qed.

Lemma kid_neq_parent (e k : element) : k ∈ kids e → k ≠ e.
Proof. intros Hk ->. apply element_size_kid in Hk. lia. Qed.

Lemma text_child_elem (e : element) (o : option string) (x : box) :
  x ∈ text_child e o ↔ ∃ t, truthy o = Some t ∧ x = Text e t.
Proof.
  unfold text_child. destruct (truthy o) as [t|].
  - rewrite list_elem_of_singleton. split.
    + intros ->. eauto.
    + intros (t' & [= <-] & ->). reflexivity.
  - split; [intros H; inversion H|intros (t' & [=] & _)].
Qed.

(** C10: the [TextBox] for the tail text of a child element refers to the
    element being built, not to that child; the box itself, its leading
    [TextBox] and the boxes built for the child elements refer to the
    element they come from. *)
Theorem tail_text_refers_to_parent (e : element) (b : box) :
  dom_to_box e = Ok b →
  ∃ children,
    box_children b = Some children
    ∧ box_element b = e
    ∧ (∀ t, truthy (text e) = Some t → head children = Some (Text e t))
    ∧ (∀ k t, k ∈ kids e → truthy (tail k) = Some t →
         Text e t ∈ children ∧ Text k t ∉ children)
    ∧ (∀ x, x ∈ children →
         (∃ t, x = Text e t)
         ∨ (∃ k, k ∈ kids e ∧ dom_to_box k = Ok x
                 ∧ box_element x = k ∧ box_cls x ≠ TextBox)).
Proof.
  intros Hb. destruct (dom_to_box_children e b Hb) as (parts & HF & Hch).
  apply dom_to_box_returns in Hb as (c & rest & _ & _ & ->).
  simpl in Hch. injection Hch as ->.
  assert (Hall : ∀ x, x ∈ text_child e (text e) ++ concat parts →
            (∃ t, x = Text e t)
            ∨ (∃ k, k ∈ kids e ∧ dom_to_box k = Ok x
                    ∧ box_element x = k ∧ box_cls x ≠ TextBox)).
  { intros x. rewrite elem_of_app. intros [Hx|Hx].
    - apply text_child_elem in Hx as (t & _ & ->). eauto.
    - destruct (in_concat_parts _ _ _ _ HF Hx) as (k & part & Hk & Hpart & Hxp).
      destruct Hpart as (built & Hbuilt & ->).
      apply elem_of_app in Hxp as [Hxb|Hxt].
      + destruct (String.eqb (display k) "none").
        * subst built. inversion Hxb.
        * destruct Hbuilt as (bk & Hbk & ->).
          apply list_elem_of_singleton in Hxb as ->. right. exists k.
          split; [assumption|]. split; [assumption|].
          apply dom_to_box_returns in Hbk as (ck & restk & Hck & _ & ->).
          split; [reflexivity|]. simpl. unfold classify in Hck.
          destruct (block_display (display k)); [congruence|].
          destruct (inline_display (display k)); congruence.
      + apply text_child_elem in Hxt as (t & _ & ->). eauto. }
  eexists. split; [reflexivity|]. split; [reflexivity|].
  split; [|split; [|exact Hall]].
  - intros t Ht. unfold text_child. rewrite Ht. reflexivity.
  - intros k t Hk Ht. split.
    + destruct (parts_in_concat _ _ _ _ HF Hk) as (part & (built & _ & ->) & Hin).
      apply elem_of_app. right. apply Hin. apply elem_of_app. right.
      apply text_child_elem. eauto.
    + intros Hin. destruct (Hall _ Hin) as [(t' & Heq)|(k' & _ & _ & _ & Hcls)].
      * injection Heq as -> _. exact (kid_neq_parent _ _ Hk eq_refl).
      * apply Hcls. reflexivity.
Qed.

Lemma tail_text_refers_to_parent_witness :
  Text (Element "block" None None [Element "inline" (Some "x") (Some "b") []]) "b"
    ∈ [Box InlineLevelBox (Element "inline" (Some "x") (Some "b") [])
         [Text (Element "inline" (Some "x") (Some "b") []) "x"];
       Text (Element "block" None None [Element "inline" (Some "x") (Some "b") []]) "b"]
  ∧ Text (Element "inline" (Some "x") (Some "b") []) "b"
    ∉ [Box InlineLevelBox (Element "inline" (Some "x") (Some "b") [])
         [Text (Element "inline" (Some "x") (Some "b") []) "x"];
       Text (Element "block" None None [Element "inline" (Some "x") (Some "b") []]) "b"].
Proof.
  destruct (tail_text_refers_to_parent
              (Element "block" None None [Element "inline" (Some "x") (Some "b") []])
              _ eq_refl) as (children & Hch & _ & _ & Htail & _).
  injection Hch as <-.
  apply (Htail (Element "inline" (Some "x") (Some "b") []) "b").
  - left.
  - reflexivity.
Defined.

(** ** The inline-run normaliser *)

Lemma each_child_Forall2 (f : box → result box) (l l' : list box) :
  each_child f l = Ok l' ↔ Forall2 (λ x y, f x = Ok y) l l'.
Proof.
  revert l'. induction l as [|x l IH]; simpl; intros l'.
  - split; [intros [= <-]; constructor|inversion 1; reflexivity].
  - split.
    + destruct (f x) as [y|] eqn:Ey; [|discriminate]. simpl.
      destruct (each_child f l) as [ys|]; [|discriminate]. simpl.
      intros [= <-]. constructor; [assumption|]. apply IH. reflexivity.
    + inversion 1 as [|? y ? ys Hy Hys]; subst. rewrite Hy. simpl.
      apply IH in Hys. rewrite Hys. reflexivity.
Qed.

Lemma each_child_is_ok (f : box → result box) (l : list box) :
  is_ok (each_child f l) = forallb (λ x, is_ok (f x)) l.
Proof.
  induction l as [|x l IH]; simpl; [reflexivity|].
  destruct (f x); simpl; [|reflexivity].
  rewrite <- IH. destruct (each_child f l); reflexivity.
Qed.

Lemma inline_in_block_unfold (c : cls) (e : element) (children : list box) :
  inline_in_block (Box c e children) =
    children' ← each_child inline_in_block children;
    if negb (isinstance_BlockLevelBox c) then Ok (Box c e children')
    else if already_done children' then Ok (Box c e children')
    else new_children ← wrap_runs e children' [] []; Ok (Box c e new_children).
Proof. reflexivity. Qed.

Lemma inline_in_block_cls (b b' : box) :
  inline_in_block b = Ok b' → box_cls b' = box_cls b.
Proof.
  destruct b as [c e children|e t]; simpl; [|intros [= <-]; reflexivity].
  destruct (each_child inline_in_block children) as [children'|];
    [|discriminate]. simpl.
  destruct (negb (isinstance_BlockLevelBox c)); [intros [= <-]; reflexivity|].
  destruct (already_done children'); [intros [= <-]; reflexivity|].
  destruct (wrap_runs e children' [] []); [|discriminate].
  intros [= <-]. reflexivity.
Qed.

Lemma Forall2_cls_forallb (p : cls → bool) (l l' : list box) :
  Forall2 (λ x y, box_cls y = box_cls x) l l' →
  forallb (λ x, p (box_cls x)) l' = forallb (λ x, p (box_cls x)) l.
Proof.
  induction 1 as [|x y l l' Hxy _ IH]; simpl; [reflexivity|].
  rewrite Hxy, IH. reflexivity.
Qed.

Lemma Forall2_cls_already_done (l l' : list box) :
  Forall2 (λ x y, box_cls y = box_cls x) l l' →
  already_done l' = already_done l.
Proof.
  intros H. destruct H as [|x y l l' Hxy Hl]; [reflexivity|].
  destruct Hl; [|reflexivity]. unfold already_done, is_line.
  rewrite Hxy. reflexivity.
Qed.

Lemma each_child_cls (l l' : list box) :
  each_child inline_in_block l = Ok l' →
  Forall2 (λ x y, box_cls y = box_cls x) l l'.
Proof.
  rewrite each_child_Forall2. intros H.
  eapply Forall2_impl; [exact H|]. intros x y. apply inline_in_block_cls.
Qed.

Lemma wrap_runs_is_ok (e : element) (children line out : list box) :
  is_ok (wrap_runs e children line out)
  = forallb (λ x, negb (is_line x)) children.
Proof.
  revert line out. induction children as [|x children IH]; simpl; intros line out.
  - destruct (nonempty line), (nonempty out); reflexivity.
  - destruct (is_line x); simpl; [reflexivity|].
    destruct (is_block x); [destruct (nonempty line)|]; apply IH.
Qed.

(** The checks of [inline_in_block] pass exactly on the trees without a
    nested [LineBox]. *)
Lemma inline_in_block_is_ok (b : box) :
  is_ok (inline_in_block b) = no_nested_LineBox b.
Proof.
  induction b as [e t|c e children IH] using box_ind'; [reflexivity|].
  rewrite inline_in_block_unfold. simpl.
  assert (Hok : is_ok (each_child inline_in_block children)
                = forallb no_nested_LineBox children).
  { rewrite each_child_is_ok. induction IH as [|x l Hx _ IHl]; simpl;
      [reflexivity|]. rewrite Hx, IHl. reflexivity. }
  destruct (each_child inline_in_block children) as [children'|] eqn:E;
    simpl in *; [|rewrite <- Hok; symmetry; apply andb_false_r].
  rewrite <- Hok, andb_true_r. apply each_child_cls in E.
  destruct (isinstance_BlockLevelBox c); simpl; [|reflexivity].
  rewrite <- (Forall2_cls_already_done _ _ E).
  destruct (already_done children'); simpl; [reflexivity|].
  assert (Hl : forallb (λ x, negb (is_line x)) children
               = forallb (λ x, negb (is_line x)) children').
  { symmetry.
    exact (Forall2_cls_forallb (λ c, negb (isinstance_LineBox c)) _ _ E). }
  rewrite Hl, <- (wrap_runs_is_ok e children' [] []).
  destruct (wrap_runs e children' [] []); reflexivity.
Qed.

Lemma nonempty_app_r {A} (l : list A) (x : A) : nonempty (l ++ [x]) = true.
Proof. destruct l; reflexivity. Qed.

(** The new children are one [LineBox], or block-level boxes only. *)
Lemma wrap_runs_shape (e : element) (children line out res : list box) :
  wrap_runs e children line out = Ok res →
  forallb is_block out = true →
  already_done res || forallb is_block res = true.
Proof.
  revert line out. induction children as [|x children IH]; simpl; intros line out.
  - destruct (nonempty line).
    + destruct out as [|o out]; simpl.
      * intros [= <-] _. reflexivity.
      * intros [= <-] Hout. apply orb_true_iff. right. simpl.
        apply andb_true_iff in Hout as [-> Hout]. simpl.
        rewrite forallb_app, Hout. reflexivity.
    + intros [= <-] ->. apply orb_true_r.
  - destruct (is_line x); [discriminate|].
    destruct (is_block x) eqn:Ex.
    + destruct (nonempty line); intros Hres Hout; apply (IH _ _ Hres);
        rewrite !forallb_app, Hout; simpl; rewrite Ex; reflexivity.
    + apply IH.
Qed.

(** A property of boxes that holds of the old children and is kept by the
    two wrappings holds of the new children. *)
Lemma wrap_runs_Forall (Q : box → Prop) (e : element) :
  (∀ l, Forall Q l → Q (Box LineBox e l)) →
  (∀ l, Forall Q l → Q (Box AnonymousBlockLevelBox e [Box LineBox e l])) →
  ∀ children line out res,
    wrap_runs e children line out = Ok res →
    Forall Q children → Forall Q line → Forall Q out → Forall Q res.
Proof.
  intros Hline Hanon.
  induction children as [|x children IH]; simpl; intros line out res.
  - destruct (nonempty line).
    + destruct (nonempty out); intros [= <-] _ Hl Ho.
      * apply Forall_app. split; [assumption|]. repeat constructor. auto.
      * repeat constructor. auto.
    + intros [= <-] _ _ Ho. assumption.
  - destruct (is_line x); [discriminate|]. intros Hres Hch Hl Ho.
    apply Forall_cons in Hch as [Hx Hch].
    destruct (is_block x).
    + destruct (nonempty line); apply (IH _ _ _ Hres); try assumption.
      * constructor.
      * rewrite !Forall_app. repeat split; try assumption;
          repeat constructor; auto.
      * rewrite !Forall_app. repeat split; try assumption.
        repeat constructor; auto.
    + apply (IH _ _ _ Hres); try assumption.
      rewrite Forall_app. split; [assumption|]. repeat constructor. assumption.
Qed.

Lemma text_leaves_app (l1 l2 : list box) :
  mbind text_leaves (l1 ++ l2) = mbind text_leaves l1 ++ mbind text_leaves l2.
Proof. apply bind_app. Qed.

Lemma wrap_runs_text_leaves (e : element) (children line out res : list box) :
  wrap_runs e children line out = Ok res →
  mbind text_leaves res
  = mbind text_leaves out ++ mbind text_leaves line ++ mbind text_leaves children.
Proof.
  revert line out res.
  induction children as [|x children IH]; simpl; intros line out res.
  - destruct (nonempty line) eqn:El.
    + destruct (nonempty out) eqn:Eo; intros [= <-].
      * rewrite text_leaves_app. simpl. rewrite !app_nil_r. reflexivity.
      * destruct out; [|discriminate]. simpl. rewrite !app_nil_r. reflexivity.
    + destruct line; [|discriminate]. intros [= <-]. simpl.
      rewrite app_nil_r. reflexivity.
  - destruct (is_line x); [discriminate|].
    destruct (is_block x).
    + destruct (nonempty line) eqn:El; intros Hres; rewrite (IH _ _ _ Hres).
      * rewrite !text_leaves_app. simpl. rewrite !app_nil_r, <- !app_assoc.
        reflexivity.
      * destruct line; [|discriminate]. rewrite !text_leaves_app. simpl.
        rewrite !app_nil_r, <- !app_assoc. reflexivity.
    + intros Hres. rewrite (IH _ _ _ Hres), !text_leaves_app. simpl.
      rewrite !app_nil_r, <- !app_assoc. reflexivity.
Qed.

Lemma wrap_runs_blocks (e : element) (children out : list box) :
  forallb is_block children = true →
  wrap_runs e children [] out = Ok (out ++ children).
Proof.
  revert out. induction children as [|x children IH]; simpl; intros out.
  - intros _. rewrite app_nil_r. reflexivity.
  - rewrite andb_true_iff. intros [Hx Hch].
    replace (is_line x) with false.
    2:{ unfold is_block, is_line in *. destruct (box_cls x); (discriminate || reflexivity). }
    rewrite Hx, (IH _ Hch), <- app_assoc. reflexivity.
Qed.

Lemma forallb_Forall {A} (f : A → bool) (l : list A) :
  forallb f l = true ↔ Forall (λ x, f x = true) l.
Proof.
  induction l as [|x l IH]; simpl.
  - split; [constructor|reflexivity].
  - rewrite andb_true_iff, Forall_cons, IH. reflexivity.
Qed.

Lemma each_child_fix (f : box → result box) (l : list box) :
  Forall (λ x, f x = Ok x) l → each_child f l = Ok l.
Proof.
  induction 1 as [|x l Hx _ IH]; simpl; [reflexivity|].
  rewrite Hx. simpl. rewrite IH. reflexivity.
Qed.

(** A property that the pass establishes for every child holds of all the
    children after the loop over them. *)
Lemma each_child_post (Q : box → Prop) (l l' : list box) :
  Forall (λ x, ∀ y, inline_in_block x = Ok y → Q y) l →
  each_child inline_in_block l = Ok l' → Forall Q l'.
Proof.
  intros HF. rewrite each_child_Forall2. intros H2.
  induction H2 as [|x y l l' Hxy _ IH]; [constructor|].
  apply Forall_cons in HF as [Hx HF]. constructor; auto.
Qed.

Lemma inline_in_block_returns (c : cls) (e : element) (children : list box)
    (b' : box) :
  inline_in_block (Box c e children) = Ok b' →
  ∃ children',
    each_child inline_in_block children = Ok children'
    ∧ ((isinstance_BlockLevelBox c = false ∨ already_done children' = true)
       ∧ b' = Box c e children'
       ∨ isinstance_BlockLevelBox c = true ∧ already_done children' = false
         ∧ ∃ res, wrap_runs e children' [] [] = Ok res ∧ b' = Box c e res).
Proof.
  rewrite inline_in_block_unfold.
  destruct (each_child inline_in_block children) as [children'|];
    [|discriminate]. simpl. intros H. exists children'. split; [reflexivity|].
  destruct (isinstance_BlockLevelBox c); simpl in *.
  - destruct (already_done children').
    + injection H as <-. auto.
    + destruct (wrap_runs e children' [] []) as [res|]; [|discriminate].
      injection H as <-. right. eauto.
  - injection H as <-. auto.
Qed.

Lemma inline_in_block_post_normalized (b b' : box) :
  inline_in_block b = Ok b' → normalized b' = true.
Proof.
  revert b'. induction b as [e t|c e children IH] using box_ind'; intros b'.
  { intros [= <-]. reflexivity. }
  intros Hb. apply inline_in_block_returns in Hb as (children' & Hch & Hb).
  pose proof (each_child_post (λ y, normalized y = true) _ _ IH Hch) as Hn.
  destruct Hb as [[Hc ->]|(Hc & Hd & res & Hres & ->)]; simpl.
  - apply andb_true_iff. split; [|apply forallb_Forall; assumption].
    destruct Hc as [->| ->]; [reflexivity|].
    destruct (isinstance_BlockLevelBox c); reflexivity.
  - rewrite Hc. apply andb_true_iff. split.
    + apply (wrap_runs_shape _ _ _ _ _ Hres). reflexivity.
    + apply forallb_Forall.
      apply (wrap_runs_Forall (λ y, normalized y = true) e) with children' [] [];
        try assumption; try constructor.
      * intros l Hl. simpl. apply forallb_Forall. assumption.
      * intros l Hl. simpl. rewrite andb_true_r. apply forallb_Forall.
        assumption.
Qed.

(** C3: once [inline_in_block] has run on the root, the children of
    every block-level box are exactly one [LineBox] or block-level boxes
    only; the pass runs to its end on every tree without a nested
    [LineBox], and on no other. *)
Theorem inline_in_block_normalizes (b : box) :
  is_ok (inline_in_block b) = no_nested_LineBox b
  ∧ ∀ b', inline_in_block b = Ok b' → normalized b' = true.
Proof.
  split; [apply inline_in_block_is_ok|apply inline_in_block_post_normalized].
Qed.

Lemma inline_in_block_fixpoint (b b' : box) :
  inline_in_block b = Ok b' → inline_in_block b' = Ok b'.
Proof.
  revert b'. induction b as [e t|c e children IH] using box_ind'; intros b'.
  { intros [= <-]. reflexivity. }
  intros Hb. apply inline_in_block_returns in Hb as (children' & Hch & Hb).
  pose proof (each_child_post (λ y, inline_in_block y = Ok y) _ _ IH Hch) as Hf.
  destruct Hb as [[Hc ->]|(Hc & Hd & res & Hres & ->)];
    rewrite inline_in_block_unfold.
  - rewrite (each_child_fix _ _ Hf). simpl.
    destruct Hc as [->| ->]; [reflexivity|].
    destruct (isinstance_BlockLevelBox c); reflexivity.
  - assert (Hfr : Forall (λ y, inline_in_block y = Ok y) res).
    { apply (wrap_runs_Forall (λ y, inline_in_block y = Ok y) e)
        with children' [] []; try assumption; try constructor.
      - intros l Hl. rewrite inline_in_block_unfold, (each_child_fix _ _ Hl).
        reflexivity.
      - intros l Hl. rewrite inline_in_block_unfold. simpl.
        rewrite (each_child_fix _ _ Hl). reflexivity. }
    rewrite (each_child_fix _ _ Hfr). simpl. rewrite Hc. simpl.
    destruct (already_done res) eqn:Ed; [reflexivity|].
    pose proof (wrap_runs_shape _ _ _ _ _ Hres eq_refl) as Hs.
    rewrite Ed in Hs. simpl in Hs.
    rewrite (wrap_runs_blocks e res [] Hs). reflexivity.
Qed.

(** C4: on a tree without a nested [LineBox] the pass returns, and a
    second run returns the same tree; a block-level box whose only child
    is a [LineBox] is itself left as it is, the pass only descends into
    that child. *)
Theorem inline_in_block_idempotent (b : box) :
  no_nested_LineBox b = true →
  (∃ b', inline_in_block b = Ok b' ∧ inline_in_block b' = Ok b')
  ∧ (∀ c e line line',
       isinstance_BlockLevelBox c = true → is_line line = true →
       inline_in_block line = Ok line' →
       inline_in_block (Box c e [line]) = Ok (Box c e [line'])).
Proof.
  intros Hb. split.
  - rewrite <- inline_in_block_is_ok in Hb.
    destruct (inline_in_block b) as [b'|] eqn:E; [|discriminate].
    exists b'. split; [reflexivity|]. apply (inline_in_block_fixpoint b b' E).
  - intros c e line line' Hc Hl Hline. rewrite inline_in_block_unfold. simpl.
    rewrite Hline. simpl. rewrite Hc. simpl.
    unfold is_line. rewrite (inline_in_block_cls _ _ Hline).
    unfold is_line in Hl. rewrite Hl. reflexivity.
Qed.

Lemma inline_in_block_idempotent_witness :
  ∃ b',
    inline_in_block
      (Box BlockLevelBox (Element "block" None None [])
         [Text (Element "block" None None []) "Some ";
          Box BlockLevelBox (Element "block" None None []) []]) = Ok b'
    ∧ inline_in_block b' = Ok b'.
Proof.
  apply (inline_in_block_idempotent
           (Box BlockLevelBox (Element "block" None None [])
              [Text (Element "block" None None []) "Some ";
               Box BlockLevelBox (Element "block" None None []) []])).
  reflexivity.
Defined.

(** C9: in a tree that had no [AnonymousBlockLevelBox] before the pass,
    so that each one found afterwards was created by it, every
    [AnonymousBlockLevelBox] has exactly one child when the pass returns,
    and that child is a [LineBox]. *)
Theorem created_anonymous_boxes_wrap_one_line (b b' : box) :
  no_anonymous b = true → inline_in_block b = Ok b' →
  anonymous_wrap_lines b' = true.
Proof.
  revert b'. induction b as [e t|c e children IH] using box_ind'; intros b'.
  { intros _ [= <-]. reflexivity. }
  simpl. rewrite andb_true_iff, forallb_Forall. intros [Hc Hna] Hb.
  destruct (decide (c = AnonymousBlockLevelBox)) as [|Hne]; [discriminate|].
  apply inline_in_block_returns in Hb as (children' & Hch & Hb).
  assert (IH' : Forall (λ x, ∀ y, inline_in_block x = Ok y →
                          anonymous_wrap_lines y = true) children).
  { rewrite Forall_forall in IH, Hna |- *. intros x Hx y. apply IH; auto. }
  pose proof (each_child_post (λ y, anonymous_wrap_lines y = true) _ _ IH' Hch)
    as Ha.
  destruct Hb as [[_ ->]|(_ & _ & res & Hres & ->)]; simpl;
    destruct (decide (c = AnonymousBlockLevelBox)); try contradiction; simpl;
    apply forallb_Forall; [assumption|].
  apply (wrap_runs_Forall (λ y, anonymous_wrap_lines y = true) e)
    with children' [] []; try assumption; try constructor.
  - intros l Hl. simpl. apply forallb_Forall. assumption.
  - intros l Hl. simpl. rewrite andb_true_r. apply forallb_Forall. assumption.
Qed.

Lemma created_anonymous_boxes_wrap_one_line_witness :
  anonymous_wrap_lines
    (Box BlockLevelBox (Element "block" None None [])
       [Box AnonymousBlockLevelBox (Element "block" None None [])
          [Box LineBox (Element "block" None None [])
             [Text (Element "block" None None []) "Some "]];
        Box BlockLevelBox (Element "block" None None []) []]) = true.
Proof.
  apply (created_anonymous_boxes_wrap_one_line
           (Box BlockLevelBox (Element "block" None None [])
              [Text (Element "block" None None []) "Some ";
               Box BlockLevelBox (Element "block" None None []) []])).
  - reflexivity.
  - reflexivity.
Defined.

Lemma each_child_text_leaves (l l' : list box) :
  Forall (λ x, ∀ y, inline_in_block x = Ok y → text_leaves y = text_leaves x) l →
  each_child inline_in_block l = Ok l' →
  mbind text_leaves l' = mbind text_leaves l.
Proof.
  intros HF. rewrite each_child_Forall2. intros H2.
  induction H2 as [|x y l l' Hxy _ IH]; [reflexivity|].
  apply Forall_cons in HF as [Hx HF].
  rewrite !bind_cons, (Hx _ Hxy), (IH HF). reflexivity.
Qed.

(** The normaliser keeps the text runs and their order. *)
Lemma inline_in_block_text_leaves (b b' : box) :
  inline_in_block b = Ok b' → text_leaves b' = text_leaves b.
Proof.
  revert b'. induction b as [e t|c e children IH] using box_ind'; intros b'.
  { intros [= <-]. reflexivity. }
  intros Hb. apply inline_in_block_returns in Hb as (children' & Hch & Hb).
  pose proof (each_child_text_leaves _ _ IH Hch) as Hl.
  destruct Hb as [[_ ->]|(_ & _ & res & Hres & ->)]; simpl; [assumption|].
  rewrite (wrap_runs_text_leaves _ _ _ _ _ Hres). simpl. assumption.
Qed.

(** ** The inline-chain splitter *)

(** *** Fuel *)

Lemma settled_Ok {A} (a : A) : settled (Ok a).
Proof. discriminate. Qed.
#[local] Hint Resolve settled_Ok : core.

Lemma child_boxes_loop_mono (rec rec' : ref → M unit) (l : ref) :
  (∀ c h, settled (rec c h) → rec' c h = rec c h) →
  ∀ (n n' i : nat) (h : heap),
    (n ≤ n')%nat → settled (child_boxes_loop rec l n i h) →
    child_boxes_loop rec' l n' i h = child_boxes_loop rec l n i h.
Proof.
  intros Hrec. induction n as [|n IH]; intros n' i h Hle.
  { intros H. exfalso. apply H. reflexivity. }
  destruct n' as [|n']; [lia|]. simpl. unfold mbind, M_bind.
  destruct (get_list l h) as [[xs h1]|]; [|reflexivity].
  destruct (xs !! i) as [c|]; [|reflexivity].
  intros Hs.
  assert (Hc : settled (rec c h1)).
  { intros Hc. apply Hs. rewrite Hc. reflexivity. }
  rewrite (Hrec _ _ Hc). destruct (rec c h1) as [[[] h2]|]; [|reflexivity].
  apply IH; [lia|assumption].
Qed.

Lemma block_in_inline_mono (fuel fuel' : nat) (box : ref) (h : heap) :
  (fuel ≤ fuel')%nat → settled (block_in_inline fuel box h) →
  block_in_inline fuel' box h = block_in_inline fuel box h.
Proof.
  revert fuel' box h. induction fuel as [|fuel IH]; intros fuel' box h Hle.
  { intros H. exfalso. apply H. reflexivity. }
  destruct fuel' as [|fuel']; [lia|]. simpl. unfold mbind, M_bind.
  destruct (get_cls box h) as [[c h1]|]; [|reflexivity].
  match goal with |- context [match ?m h1 with _ => _ end] =>
    destruct (m h1) as [[[] h2]|] end; [|reflexivity].
  destruct (get_children box h2) as [[[l|] h3]|]; try reflexivity.
  destruct (get_list l h3) as [[xs h4]|]; [|reflexivity].
  destruct (nonempty xs); [|reflexivity].
  apply child_boxes_loop_mono; [|lia].
  intros c' h'. apply IH. lia.
Qed.

(** *** Running store computations *)

Lemma M_bind_eq {A B} (m : M A) (f : A → M B) (h : heap) :
  (m ≫= f) h = match m h with Ok (a, h') => f a h' | Err e => Err e end.
Proof. reflexivity. Qed.

Lemma get_box_eq (h : heap) (r : ref) (o : obj) :
  boxes h !! r = Some o → get_box r h = Ok (o, h).
Proof. unfold get_box. intros ->. reflexivity. Qed.

Lemma get_cls_eq (h : heap) (r : ref) (o : obj) :
  boxes h !! r = Some o → get_cls r h = Ok (o_cls o, h).
Proof. intros H. unfold get_cls. rewrite M_bind_eq, (get_box_eq _ _ _ H). reflexivity. Qed.

Lemma get_parent_eq (h : heap) (r : ref) (o : obj) :
  boxes h !! r = Some o → get_parent r h = Ok (o_parent o, h).
Proof. intros H. unfold get_parent. rewrite M_bind_eq, (get_box_eq _ _ _ H). reflexivity. Qed.

Lemma get_children_eq (h : heap) (r : ref) (o : obj) :
  boxes h !! r = Some o → get_children r h = Ok (o_children o, h).
Proof. intros H. unfold get_children. rewrite M_bind_eq, (get_box_eq _ _ _ H). reflexivity. Qed.

Lemma get_element_eq (h : heap) (r : ref) (o : obj) :
  boxes h !! r = Some o → get_element r h = Ok (o_element o, h).
Proof. intros H. unfold get_element. rewrite M_bind_eq, (get_box_eq _ _ _ H). reflexivity. Qed.

Lemma get_list_eq (h : heap) (l : ref) (xs : list ref) :
  lists h !! l = Some xs → get_list l h = Ok (xs, h).
Proof. unfold get_list. intros ->. reflexivity. Qed.

Lemma parent_is_inline_eq (h : heap) (r p : ref) (o po : obj) :
  boxes h !! r = Some o → o_parent o = Some p → boxes h !! p = Some po →
  parent_is_inline r h = Ok (isinstance_InlineLevelBox (o_cls po), h).
Proof.
  intros Hr Hp Hpo. unfold parent_is_inline.
  rewrite M_bind_eq, (get_parent_eq _ _ _ Hr), Hp.
  rewrite M_bind_eq, (get_cls_eq _ _ _ Hpo). reflexivity.
Qed.

Lemma parent_is_inline_root (h : heap) (r : ref) (o : obj) :
  boxes h !! r = Some o → o_parent o = None →
  parent_is_inline r h = Ok (false, h).
Proof.
  intros Hr Hp. unfold parent_is_inline.
  rewrite M_bind_eq, (get_parent_eq _ _ _ Hr), Hp. reflexivity.
Qed.

(** *** The walk up to the enclosing line box *)

Lemma collect_inline_parents_all_inline (h : heap) :
  ∀ (n : nat) (box : ref) (ps acc : list ref),
    parents_upto n h box = Some ps →
    Forall (λ p, cls_of h p = Some InlineLevelBox) ps →
    collect_inline_parents n box acc h = Ok ((acc ++ ps, None), h).
Proof.
  induction n as [|n IH]; intros box ps acc; simpl; [discriminate|].
  unfold get_parent, get_cls, get_box, mbind, M_bind, mret, M_ret.
  destruct (boxes h !! box) as [o|]; simpl; [|discriminate].
  destruct (o_parent o) as [p|]; simpl.
  - destruct (parents_upto n h p) as [ps'|] eqn:E; simpl; [|discriminate].
    intros [= <-] Hall. apply Forall_cons in Hall as [Hp Hall].
    unfold cls_of in Hp. destruct (boxes h !! p) as [po|]; simpl in *;
      [|discriminate].
    injection Hp as Hp. rewrite Hp. simpl.
    rewrite (IH p ps' (acc ++ [p]) E Hall), <- app_assoc. reflexivity.
  - intros [= <-] _. rewrite app_nil_r. reflexivity.
Qed.

Lemma split_without_line_box (h : heap) (box : ref) (ips : list ref) :
  collect_inline_parents (S (length (boxes h))) box [] h = Ok ((ips, None), h) →
  split box h = Err AttributeError.
Proof.
  intros Hcol. unfold split. rewrite M_bind_eq. unfold chain_bound at 1.
  rewrite M_bind_eq, Hcol. reflexivity.
Qed.

(** C7, as the code has it: the first ancestor that is not inline-level is
    taken for the enclosing line box whatever its class; when every
    ancestor of the block-level box is inline-level, so that there is no
    such ancestor at all, the pass fails on reading an attribute of
    [None]. *)
Theorem no_enclosing_line_box_fails (h : heap) (box : ref) (ps : list ref)
    (fuel : nat) :
  (∃ c, cls_of h box = Some c ∧ isinstance_BlockLevelBox c = true) →
  parents h box = Some ps →
  ps ≠ [] →
  Forall (λ p, cls_of h p = Some InlineLevelBox) ps →
  block_in_inline (S fuel) box h = Err AttributeError.
Proof.
  intros (c & Hc & Hblock) Hps Hne Hall.
  pose proof (collect_inline_parents_all_inline h _ box ps [] Hps Hall) as Hcol.
  unfold parents in Hps. simpl in Hps. unfold cls_of in Hc.
  destruct (boxes h !! box) as [o|] eqn:Hbox; simpl in *; [|discriminate].
  injection Hc as Hc.
  destruct (o_parent o) as [p|] eqn:Hpar; simpl in Hps;
    [|injection Hps as <-; contradiction].
  destruct ps as [|p' ps]; [contradiction|].
  destruct (parents_upto (length (boxes h)) h p); simpl in Hps; [|discriminate].
  injection Hps as <- _. apply Forall_cons in Hall as [Hp _].
  unfold cls_of in Hp.
  destruct (boxes h !! p) as [po|] eqn:Hpo; simpl in Hp; [|discriminate].
  injection Hp as Hp.
  cbn [block_in_inline]. rewrite M_bind_eq, (get_cls_eq _ _ _ Hbox), Hc, Hblock.
  rewrite !M_bind_eq, (parent_is_inline_eq _ _ _ _ _ Hbox Hpar Hpo), Hp.
  cbn [isinstance_InlineLevelBox].
  rewrite (split_without_line_box _ _ _ Hcol). reflexivity.
Qed.

Lemma no_enclosing_line_box_fails_witness :
  ∃ h, load inline_root_example empty_heap = Ok (0, h)
       ∧ block_in_inline 1 1 h = Err AttributeError.
Proof.
  eexists. split; [reflexivity|].
  apply (no_enclosing_line_box_fails _ 1 [0] 0).
  - exists BlockLevelBox. split; reflexivity.
  - reflexivity.
  - discriminate.
  - repeat constructor.
Defined.

(** C7, as stated, fails: with a [BlockLevelBox] as the first ancestor
    that is not inline-level, the pass goes on and returns. *)
Lemma enclosing_box_class_is_not_checked : ¬ refuses_other_than_LineBox.
Proof.
  intros H.
  pose (h := match load unnormalized_example empty_heap with
             | Ok (_, h) => h
             | Err _ => empty_heap
             end).
  assert (Hfails : is_ok (block_in_inline 10 3 h) = false).
  { apply (H h 3 1 9).
    - vm_compute. reflexivity.
    - vm_compute. reflexivity.
    - vm_compute. discriminate. }
  vm_compute in Hfails. discriminate Hfails.
Qed.

Lemma extract_mono (h : heap) :
  ∀ (fuel fuel' : nat) (r : ref) (b : box),
    (fuel ≤ fuel')%nat → extract fuel h r = Some b → extract fuel' h r = Some b.
Proof.
  induction fuel as [|fuel IH]; intros fuel' r b Hle; [discriminate|].
  destruct fuel' as [|fuel']; [lia|]. simpl.
  destruct (boxes h !! r) as [o|]; simpl; [|discriminate].
  destruct (o_children o) as [l|]; [|auto].
  destruct (lists h !! l) as [xs|]; simpl; [|discriminate].
  destruct (mapM (extract fuel h) xs) as [children|] eqn:E; simpl;
    [|discriminate].
  intros [= <-]. apply mapM_Some in E.
  assert (E' : mapM (extract fuel' h) xs = Some children).
  { apply mapM_Some. eapply Forall2_impl; [exact E|]. intros x y.
    apply IH. lia. }
  rewrite E'. reflexivity.
Qed.

Lemma run_block_in_inline_mono (fuel fuel' : nat) (b b' : box) :
  (fuel ≤ fuel')%nat →
  run_block_in_inline fuel b = Ok b' → run_block_in_inline fuel' b = Ok b'.
Proof.
  intros Hle. unfold run_block_in_inline. rewrite !M_bind_eq.
  destruct (load b empty_heap) as [[r h]|]; [|discriminate].
  rewrite !M_bind_eq.
  destruct (block_in_inline fuel r h) as [[[] h']|] eqn:E; [|discriminate].
  rewrite (block_in_inline_mono fuel fuel' r h Hle), E
    by (rewrite E; apply settled_Ok).
  unfold mret, M_ret.
  destruct (extract fuel h' r) as [t|] eqn:Et; [|discriminate].
  rewrite (extract_mono h' fuel fuel' r t Hle Et). auto.
Qed.

(** C2, for [block_in_inline], on the example of its own docstring: the
    text run ["text"] of the inner inline box is in the tree before the
    pass and is gone after it, where the docstring keeps it. *)
Theorem block_in_inline_loses_text :
  dom_to_box docstring_element ≫= inline_in_block = Ok docstring_input
  ∧ snd <$> text_leaves docstring_input
    = ["Hello."; "Some "; "text"; "More text"; "More text again"; "And again."]
  ∧ ∃ b', (∀ fuel, (40 ≤ fuel)%nat →
             run_block_in_inline fuel docstring_input = Ok b')
          ∧ snd <$> text_leaves b'
            = ["Hello."; "Some "; "More text"; "More text again"; "And again."].
Proof.
  split; [reflexivity|]. split; [reflexivity|].
  destruct (run_block_in_inline 40 docstring_input) as [b'|] eqn:E;
    [|vm_compute in E; discriminate].
  exists b'. split.
  - intros fuel Hle. exact (run_block_in_inline_mono 40 fuel _ _ Hle E).
  - vm_compute in E. injection E as <-. reflexivity.
Qed.

(** Text that follows the split inline box in its line box stays in the
    line box, before the block it came after. *)
Lemma block_in_inline_reorders_text :
  snd <$> text_leaves trailing_text_example = ["x"; "y"]
  ∧ ∃ b', run_block_in_inline 40 trailing_text_example = Ok b'
          ∧ snd <$> text_leaves b' = ["y"; "x"].
Proof.
  split; [reflexivity|].
  destruct (run_block_in_inline 40 trailing_text_example) as [b'|] eqn:E;
    [|vm_compute in E; discriminate].
  exists b'. split; [reflexivity|].
  vm_compute in E. injection E as <-. reflexivity.
Qed.

(** C8: the line box [L] (reference 1) of a block-level box holds one
    inline box [I] (reference 2), which holds one block-level box [B]
    (reference 3).  After the pass, [L] is replaced in its parent by an
    anonymous block (4) around [L], whose inline box [I] is empty, then
    [B] itself, then an anonymous block (5) around a new, empty inline
    box (6) for the element of [I]. *)
Theorem split_scenario (cP cB : cls) (eP eL eI eB : element) (fuel : nat) :
  isinstance_BlockLevelBox cP = true →
  isinstance_BlockLevelBox cB = true →
  (10 ≤ fuel)%nat →
  ∃ h0 h,
    load (Box cP eP [Box LineBox eL [Box InlineLevelBox eI [Box cB eB []]]])
      empty_heap = Ok (0, h0)
    ∧ length (boxes h0) = 4
    ∧ extract 4 h0 1 = Some (Box LineBox eL [Box InlineLevelBox eI [Box cB eB []]])
    ∧ extract 4 h0 2 = Some (Box InlineLevelBox eI [Box cB eB []])
    ∧ extract 4 h0 3 = Some (Box cB eB [])
    ∧ block_in_inline fuel 0 h0 = Ok (tt, h)
    ∧ children_refs h 0 = Some [4; 3; 5]
    ∧ children_refs h 4 = Some [1]
    ∧ children_refs h 1 = Some [2]
    ∧ children_refs h 5 = Some [6]
    ∧ extract 4 h 4
      = Some (Box AnonymousBlockLevelBox eL
                [Box LineBox eL [Box InlineLevelBox eI []]])
    ∧ extract 4 h 3 = Some (Box cB eB [])
    ∧ extract 4 h 5
      = Some (Box AnonymousBlockLevelBox eL [Box InlineLevelBox eI []])
    ∧ run_block_in_inline fuel
        (Box cP eP [Box LineBox eL [Box InlineLevelBox eI [Box cB eB []]]])
      = Ok (Box cP eP
              [Box AnonymousBlockLevelBox eL
                 [Box LineBox eL [Box InlineLevelBox eI []]];
               Box cB eB [];
               Box AnonymousBlockLevelBox eL [Box InlineLevelBox eI []]]).
Proof.
  intros HP HB Hfuel.
  assert (Hrun : ∀ fuel' b' t,
            run_block_in_inline 10 t = Ok b' → (10 ≤ fuel')%nat →
            run_block_in_inline fuel' t = Ok b').
  { intros fuel' b' t E Hle. exact (run_block_in_inline_mono 10 fuel' _ _ Hle E). }
  assert (Hbii : ∀ fuel' h0 x,
            block_in_inline 10 0 h0 = Ok x → (10 ≤ fuel')%nat →
            block_in_inline fuel' 0 h0 = Ok x).
  { intros fuel' h0 x E Hle.
    rewrite (block_in_inline_mono 10 fuel' 0 h0 Hle); [assumption|].
    rewrite E. apply settled_Ok. }
  assert (Hcases : ∀ c, isinstance_BlockLevelBox c = true →
            c = BlockLevelBox ∨ c = AnonymousBlockLevelBox).
  { intros []; simpl; auto; discriminate. }
  destruct (Hcases cP HP) as [-> | ->], (Hcases cB HB) as [-> | ->];
    (eexists (Heap _ _); eexists (Heap _ _);
     split; [vm_compute; reflexivity|];
     split; [vm_compute; reflexivity|];
     split; [vm_compute; reflexivity|];
     split; [vm_compute; reflexivity|];
     split; [vm_compute; reflexivity|];
     split; [apply Hbii; [vm_compute; reflexivity|assumption]|];
     split; [vm_compute; reflexivity|];
     split; [vm_compute; reflexivity|];
     split; [vm_compute; reflexivity|];
     split; [vm_compute; reflexivity|];
     split; [vm_compute; reflexivity|];
     split; [vm_compute; reflexivity|];
     split; [vm_compute; reflexivity|];
     apply Hrun; [vm_compute; reflexivity|assumption]).
Qed.

Lemma split_scenario_witness :
  run_block_in_inline 10
    (Box BlockLevelBox (Element "block" None None [])
       [Box LineBox (Element "block" None None [])
          [Box InlineLevelBox (Element "inline" None None [])
             [Box BlockLevelBox (Element "table" None None []) []]]])
  = Ok (Box BlockLevelBox (Element "block" None None [])
          [Box AnonymousBlockLevelBox (Element "block" None None [])
             [Box LineBox (Element "block" None None [])
                [Box InlineLevelBox (Element "inline" None None []) []]];
           Box BlockLevelBox (Element "table" None None []) [];
           Box AnonymousBlockLevelBox (Element "block" None None [])
             [Box InlineLevelBox (Element "inline" None None []) []]]).
Proof.
  destruct (split_scenario BlockLevelBox BlockLevelBox
              (Element "block" None None []) (Element "block" None None [])
              (Element "inline" None None []) (Element "table" None None [])
              10 eq_refl eq_refl (le_n 10))
    as (h0 & h & H).
  apply H.
Defined.

Lemma element_runs_unfold (e : element) :
  element_runs e =
    text_run e (text e)
    ++ mbind (λ k, (if String.eqb (display k) "none" then []
                    else element_runs k) ++ text_run e (tail k)) (kids e).
Proof. destruct e; reflexivity. Qed.

Lemma displayed_unfold (e : element) :
  displayed e =
    e :: mbind (λ k, if String.eqb (display k) "none" then []
                     else displayed k) (kids e).
Proof. destruct e; reflexivity. Qed.

Lemma text_child_leaves (e : element) (o : option string) :
  mbind text_leaves (text_child e o) = text_run e o.
Proof.
  unfold text_child, text_run. destruct (truthy o); reflexivity.
Qed.

Lemma children_loop_text_leaves (e : element) (l : list element)
    (bs : list box) :
  Forall (λ k, ∀ b, dom_to_box k = Ok b → text_leaves b = element_runs k) l →
  children_loop dom_to_box e l = Ok bs →
  mbind text_leaves bs
  = mbind (λ k, (if String.eqb (display k) "none" then []
                 else element_runs k) ++ text_run e (tail k)) l.
Proof.
  intros HF. revert bs.
  induction HF as [|k l Hk _ IH]; intros bs.
  - intros [= <-]. reflexivity.
  - cbn [children_loop]. rewrite bind_cons.
    destruct (String.eqb (display k) "none"); cbn [negb].
    + cbn [mbind result_bind].
      destruct (children_loop dom_to_box e l) as [later|]; [|discriminate].
      intros [= <-]. cbn [app]. rewrite text_leaves_app, text_child_leaves.
      rewrite (IH later eq_refl). reflexivity.
    + destruct (dom_to_box k) as [b|] eqn:Eb; [|discriminate].
      cbn [mbind result_bind].
      destruct (children_loop dom_to_box e l) as [later|]; [|discriminate].
      intros [= <-]. rewrite bind_cons, text_leaves_app, text_child_leaves.
      rewrite (IH later eq_refl), (Hk b eq_refl), <- app_assoc.
      reflexivity.
Qed.

(** X4: the text runs of the tree built from an element are the text
    runs of the document in document order: the text of the element,
    then for every child its own runs, unless its display is [none], and
    its tail text; every run comes with the element whose content it is. *)
Theorem dom_to_box_text_runs (e : element) (b : box) :
  dom_to_box e = Ok b → text_leaves b = element_runs e.
Proof.
  revert b. induction e as [d t tl ks IH] using element_ind'. intros b Hb.
  apply dom_to_box_returns in Hb as (c & rest & _ & Hrest & ->).
  rewrite element_runs_unfold. cbn [text_leaves].
  rewrite text_leaves_app, text_child_leaves.
  rewrite (children_loop_text_leaves _ _ _ IH Hrest). reflexivity.
Qed.

Lemma dom_to_box_text_runs_witness :
  text_leaves
    (Box BlockLevelBox
       (Element "block" (Some "a") None
          [Element "none" (Some "hidden") (Some "b") []])
       [Text (Element "block" (Some "a") None
                [Element "none" (Some "hidden") (Some "b") []]) "a";
        Text (Element "block" (Some "a") None
                [Element "none" (Some "hidden") (Some "b") []]) "b"])
  = element_runs
      (Element "block" (Some "a") None
         [Element "none" (Some "hidden") (Some "b") []]).
Proof. apply dom_to_box_text_runs. reflexivity. Defined.

Lemma first_error_app (l1 l2 : list element) :
  first_error (l1 ++ l2)
  = match first_error l1 with
    | Some x => Some x
    | None => first_error l2
    end.
Proof.
  induction l1 as [|k l1 IH]; simpl; [reflexivity|].
  destruct (classify_error k); [reflexivity|exact IH].
Qed.

Lemma children_loop_error (e : element) (l : list element) :
  Forall (λ k, error_of (dom_to_box k) = dom_to_box_error k) l →
  error_of (children_loop dom_to_box e l)
  = first_error (mbind (λ k, if String.eqb (display k) "none" then []
                             else displayed k) l).
Proof.
  induction 1 as [|k l Hk _ IH]; [reflexivity|].
  cbn [children_loop]. rewrite bind_cons, first_error_app.
  unfold dom_to_box_error in Hk.
  destruct (String.eqb (display k) "none"); cbn [negb].
  - cbn [mbind result_bind first_error]. rewrite <- IH.
    destruct (children_loop dom_to_box e l); reflexivity.
  - rewrite <- Hk. destruct (dom_to_box k) as [b|x]; [|reflexivity].
    cbn [mbind result_bind error_of]. rewrite <- IH.
    destruct (children_loop dom_to_box e l); reflexivity.
Qed.

(** X2: [dom_to_box] fails with an [AssertionError] exactly on an
    element whose own display is [none]; on any other element it fails
    with the error of the first element with an unsupported display, in
    the order of the calls, which pass over the children with display
    [none]; it returns when there is no such element. *)
Theorem dom_to_box_fails_with (e : element) :
  error_of (dom_to_box e) = dom_to_box_error e.
Proof.
  induction e as [d t tl ks IH] using element_ind'.
  pose proof (children_loop_error (Element d t tl ks) ks IH) as Hl.
  rewrite dom_to_box_unfold. unfold dom_to_box_error.
  rewrite displayed_unfold. cbn [display kids] in *.
  destruct (String.eqb d "none"); [reflexivity|].
  cbn [first_error]. unfold classify_error. cbn [display].
  destruct (classify d) as [c|x]; [|reflexivity].
  cbn [mbind result_bind]. rewrite <- Hl.
  destruct (children_loop dom_to_box (Element d t tl ks) ks); reflexivity.
Qed.

Lemma classify_error_None (k : element) :
  classify_error k = None
  ↔ block_display (display k) || inline_display (display k) = true.
Proof.
  unfold classify_error, classify.
  destruct (block_display (display k)); [tauto|].
  destruct (inline_display (display k)); simpl; [tauto|].
  split; discriminate.
Qed.

Lemma children_loop_is_ok (e : element) (l : list element) :
  Forall (λ k, is_ok (dom_to_box k) = supported k) l →
  is_ok (children_loop dom_to_box e l)
  = forallb (λ k, String.eqb (display k) "none" || supported k) l.
Proof.
  induction 1 as [|k l Hk _ IH]; [reflexivity|].
  cbn [children_loop forallb]. rewrite <- IH, <- Hk.
  destruct (String.eqb (display k) "none"); cbn [negb orb].
  - cbn [mbind result_bind].
    destruct (children_loop dom_to_box e l); reflexivity.
  - destruct (dom_to_box k) as [b|x]; [|reflexivity].
    cbn [mbind result_bind].
    destruct (children_loop dom_to_box e l); reflexivity.
Qed.

(** X1: [dom_to_box] returns a box exactly on the elements whose
    display is a block or an inline one, and so for every child whose
    display is not [none], all the way down. *)
Theorem dom_to_box_returns_iff_supported (e : element) :
  is_ok (dom_to_box e) = supported e.
Proof.
  induction e as [d t tl ks IH] using element_ind'.
  pose proof (children_loop_is_ok (Element d t tl ks) ks IH) as Hl.
  rewrite dom_to_box_unfold, supported_unfold. cbn [display kids] in *.
  rewrite <- Hl. unfold classify.
  destruct (String.eqb_spec d "none") as [->|_]; [reflexivity|].
  destruct (block_display d); cbn [orb andb mbind result_bind].
  - destruct (children_loop dom_to_box (Element d t tl ks) ks); reflexivity.
  - destruct (inline_display d); cbn [andb mbind result_bind]; [|reflexivity].
    destruct (children_loop dom_to_box (Element d t tl ks) ks); reflexivity.
Qed.

Lemma text_child_shaped (e : element) (o : option string) :
  forallb dom_shaped (text_child e o) = true.
Proof.
  unfold text_child, truthy. destruct o as [s|]; [|reflexivity].
  destruct (String.eqb s "") eqn:E; [reflexivity|].
  cbn [forallb dom_shaped]. rewrite E. reflexivity.
Qed.

Lemma children_loop_shaped (e : element) (l : list element) (bs : list box) :
  Forall (λ k, ∀ b, dom_to_box k = Ok b → dom_shaped b = true) l →
  children_loop dom_to_box e l = Ok bs →
  forallb dom_shaped bs = true.
Proof.
  intros HF. revert bs.
  induction HF as [|k l Hk _ IH]; intros bs.
  - intros [= <-]. reflexivity.
  - cbn [children_loop].
    destruct (String.eqb (display k) "none"); cbn [negb].
    + cbn [mbind result_bind].
      destruct (children_loop dom_to_box e l) as [later|]; [|discriminate].
      intros [= <-]. cbn [app].
      rewrite forallb_app, text_child_shaped, (IH later eq_refl). reflexivity.
    + destruct (dom_to_box k) as [b|] eqn:Eb; [|discriminate].
      cbn [mbind result_bind].
      destruct (children_loop dom_to_box e l) as [later|]; [|discriminate].
      intros [= <-]. cbn [app forallb].
      rewrite forallb_app, text_child_shaped, (IH later eq_refl), (Hk b eq_refl).
      reflexivity.
Qed.

(** X3: in a tree that [dom_to_box] builds, every box has the class
    that the display of its own element calls for, all the way down, and
    no [TextBox] holds the empty string. *)
Theorem dom_to_box_shaped (e : element) (b : box) :
  dom_to_box e = Ok b → dom_shaped b = true.
Proof.
  revert b. induction e as [d t tl ks IH] using element_ind'. intros b Hb.
  apply dom_to_box_returns in Hb as (c & rest & Hc & Hrest & ->).
  cbn [dom_shaped]. rewrite Hc, forallb_app, text_child_shaped.
  rewrite (children_loop_shaped _ _ _ IH Hrest).
  rewrite bool_decide_eq_true_2 by reflexivity. reflexivity.
Qed.

Lemma dom_to_box_shaped_witness :
  dom_shaped
    (Box BlockLevelBox
       (Element "block" (Some "a") None [Element "inline" None (Some "") []])
       [Text (Element "block" (Some "a") None
                [Element "inline" None (Some "") []]) "a";
        Box InlineLevelBox (Element "inline" None (Some "") []) []]) = true.
Proof.
  apply (dom_to_box_shaped
           (Element "block" (Some "a") None
              [Element "inline" None (Some "") []])).
  reflexivity.
Defined.

Lemma strip_app (l1 l2 : list box) :
  mbind strip (l1 ++ l2) = mbind strip l1 ++ mbind strip l2.
Proof. apply bind_app. Qed.

Lemma wrap_runs_strip (e : element) (children line out res : list box) :
  wrap_runs e children line out = Ok res →
  mbind strip res = mbind strip out ++ mbind strip line ++ mbind strip children.
Proof.
  revert line out res.
  induction children as [|x children IH]; simpl; intros line out res.
  - destruct (nonempty line) eqn:El.
    + destruct (nonempty out) eqn:Eo; intros [= <-].
      * rewrite strip_app. simpl. rewrite !app_nil_r. reflexivity.
      * destruct out; [|discriminate]. simpl. rewrite !app_nil_r. reflexivity.
    + destruct line; [|discriminate]. intros [= <-]. simpl.
      rewrite app_nil_r. reflexivity.
  - destruct (is_line x); [discriminate|].
    destruct (is_block x).
    + destruct (nonempty line) eqn:El; intros Hres; rewrite (IH _ _ _ Hres).
      * rewrite !strip_app. simpl. rewrite !app_nil_r, <- !app_assoc.
        reflexivity.
      * destruct line; [|discriminate]. rewrite !strip_app. simpl.
        rewrite !app_nil_r, <- !app_assoc. reflexivity.
    + intros Hres. rewrite (IH _ _ _ Hres), !strip_app. simpl.
      rewrite !app_nil_r, <- !app_assoc. reflexivity.
Qed.

Lemma each_child_strip (l l' : list box) :
  Forall (λ x, ∀ y, inline_in_block x = Ok y → strip y = strip x) l →
  each_child inline_in_block l = Ok l' →
  mbind strip l' = mbind strip l.
Proof.
  intros HF. rewrite each_child_Forall2. intros H2.
  induction H2 as [|x y l l' Hxy _ IH]; [reflexivity|].
  apply Forall_cons in HF as [Hx HF].
  rewrite !bind_cons, (Hx _ Hxy), (IH HF). reflexivity.
Qed.

Lemma inline_in_block_strip (b b' : box) :
  inline_in_block b = Ok b' → strip b' = strip b.
Proof.
  revert b'. induction b as [e t|c e children IH] using box_ind'; intros b'.
  { intros [= <-]. reflexivity. }
  intros Hb. apply inline_in_block_returns in Hb as (children' & Hch & Hb).
  pose proof (each_child_strip _ _ IH Hch) as Hl.
  destruct Hb as [[_ ->]|(_ & _ & res & Hres & ->)]; cbn [strip].
  - rewrite Hl. reflexivity.
  - rewrite (wrap_runs_strip _ _ _ _ _ Hres). simpl. rewrite Hl. reflexivity.
Qed.

Lemma strip_plain (b : box) : plain b = true → strip b = [b].
Proof.
  induction b as [e t|c e children IH] using box_ind'; [reflexivity|].
  cbn [plain strip]. rewrite andb_true_iff, negb_true_iff. intros [-> Hch].
  f_equal. f_equal. apply forallb_Forall in Hch.
  induction IH as [|x l Hx _ IHl]; [reflexivity|].
  apply Forall_cons in Hch as [Hpx Hl].
  rewrite bind_cons, (Hx Hpx), (IHl Hl). reflexivity.
Qed.

(** X7: [inline_in_block] only puts [LineBox] and
    [AnonymousBlockLevelBox] levels in: without these levels the tree is
    the same before and after, and it is the tree given when that one
    has no such box. *)
Theorem inline_in_block_only_wraps (b b' : box) :
  inline_in_block b = Ok b' →
  strip b' = strip b ∧ (plain b = true → strip b' = [b]).
Proof.
  intros Hb. pose proof (inline_in_block_strip _ _ Hb) as Hs.
  split; [exact Hs|]. intros Hp. rewrite Hs. apply strip_plain, Hp.
Qed.

Lemma inline_in_block_only_wraps_witness :
  strip (Box BlockLevelBox (Element "block" None None [])
           [Box AnonymousBlockLevelBox (Element "block" None None [])
              [Box LineBox (Element "block" None None [])
                 [Text (Element "block" None None []) "a"]];
            Box BlockLevelBox (Element "block" None None []) []])
  = strip (Box BlockLevelBox (Element "block" None None [])
             [Text (Element "block" None None []) "a";
              Box BlockLevelBox (Element "block" None None []) []])
  ∧ strip (Box BlockLevelBox (Element "block" None None [])
             [Box AnonymousBlockLevelBox (Element "block" None None [])
                [Box LineBox (Element "block" None None [])
                   [Text (Element "block" None None []) "a"]];
              Box BlockLevelBox (Element "block" None None []) []])
    = [Box BlockLevelBox (Element "block" None None [])
         [Text (Element "block" None None []) "a";
          Box BlockLevelBox (Element "block" None None []) []]].
Proof.
  destruct (inline_in_block_only_wraps
              (Box BlockLevelBox (Element "block" None None [])
                 [Text (Element "block" None None []) "a";
                  Box BlockLevelBox (Element "block" None None []) []])
              (Box BlockLevelBox (Element "block" None None [])
                 [Box AnonymousBlockLevelBox (Element "block" None None [])
                    [Box LineBox (Element "block" None None [])
                       [Text (Element "block" None None []) "a"]];
                  Box BlockLevelBox (Element "block" None None []) []])
              eq_refl) as [H1 H2].
  split; [exact H1|apply H2; reflexivity].
Defined.

Lemma each_child_same_length (l l' : list box) :
  each_child inline_in_block l = Ok l' → nonempty l' = nonempty l.
Proof.
  rewrite each_child_Forall2. intros H. destruct H; reflexivity.
Qed.

Lemma wrap_runs_lines_filled (e : element) :
  ∀ children line out res,
    wrap_runs e children line out = Ok res →
    Forall (λ x, lines_filled x = true) children →
    Forall (λ x, lines_filled x = true
                 ∧ negb (is_block x) && negb (is_line x) = true) line →
    Forall (λ x, lines_filled x = true) out →
    Forall (λ x, lines_filled x = true) res.
Proof.
  assert (Hline : ∀ line,
    Forall (λ x, lines_filled x = true
                 ∧ negb (is_block x) && negb (is_line x) = true) line →
    nonempty line = true → lines_filled (Box LineBox e line) = true).
  { intros line Hl Hne. cbn [lines_filled isinstance_LineBox]. rewrite Hne.
    apply andb_true_iff. split; [|apply forallb_Forall];
      [apply forallb_Forall|]; (eapply Forall_impl; [exact Hl|]);
      simpl; tauto. }
  assert (Hanon : ∀ line,
    Forall (λ x, lines_filled x = true
                 ∧ negb (is_block x) && negb (is_line x) = true) line →
    nonempty line = true →
    lines_filled (Box AnonymousBlockLevelBox e [Box LineBox e line]) = true).
  { intros line Hl Hne. pose proof (Hline line Hl Hne) as H.
    cbn [lines_filled isinstance_LineBox forallb] in *. rewrite H. reflexivity. }
  induction children as [|x children IH]; simpl; intros line out res.
  - destruct (nonempty line) eqn:El.
    + destruct (nonempty out); intros [= <-] _ Hl Ho.
      * apply Forall_app. split; [assumption|]. repeat constructor. auto.
      * repeat constructor. auto.
    + intros [= <-] _ _ Ho. assumption.
  - destruct (is_line x) eqn:Exl; [discriminate|]. intros Hres Hch Hl Ho.
    apply Forall_cons in Hch as [Hx Hch].
    destruct (is_block x) eqn:Exb.
    + destruct (nonempty line) eqn:El; apply (IH _ _ _ Hres); try assumption.
      * constructor.
      * rewrite !Forall_app. repeat split; try assumption;
          repeat constructor; auto.
      * rewrite !Forall_app. repeat split; try assumption.
        repeat constructor; auto.
    + apply (IH _ _ _ Hres); try assumption.
      rewrite Forall_app. split; [assumption|]. repeat constructor;
        [assumption|]. rewrite Exl, Exb. reflexivity.
Qed.

(** X8: [inline_in_block] makes no empty [LineBox], and puts no
    block-level box and no [LineBox] into one: when every [LineBox] of the
    tree has a child and no such child, so it is afterwards. *)
Theorem inline_in_block_fills_lines (b b' : box) :
  inline_in_block b = Ok b' → lines_filled b = true → lines_filled b' = true.
Proof.
  revert b'. induction b as [e t|c e children IH] using box_ind'; intros b'.
  { intros [= <-]. reflexivity. }
  intros Hb Hf. cbn [lines_filled] in Hf.
  apply andb_true_iff in Hf as [Hc Hch]. apply forallb_Forall in Hch.
  apply inline_in_block_returns in Hb as (children' & Hres & Hb).
  assert (Hch' : Forall (λ y, lines_filled y = true) children').
  { apply (each_child_post (λ y, lines_filled y = true) children); [|exact Hres].
    eapply Forall_impl; [apply Forall_and; split; [exact IH|exact Hch]|].
    simpl. intros x [Hx Hfx] y Hy. exact (Hx y Hy Hfx). }
  destruct Hb as [[_ ->]|(Hblock & _ & res & Hwrap & ->)]; cbn [lines_filled].
  - apply andb_true_iff. split; [|apply forallb_Forall; exact Hch'].
    destruct (isinstance_LineBox c); [|reflexivity].
    rewrite (each_child_same_length _ _ Hres).
    unfold is_block, is_line in *.
    rewrite (Forall2_cls_forallb
               (λ c, negb (isinstance_BlockLevelBox c)
                     && negb (isinstance_LineBox c)) _ _
               (each_child_cls _ _ Hres)).
    exact Hc.
  - replace (isinstance_LineBox c) with false
      by (destruct c; (discriminate || reflexivity)).
    apply forallb_Forall.
    apply (wrap_runs_lines_filled e children' [] [] res Hwrap Hch');
      constructor.
Qed.

Lemma inline_in_block_fills_lines_witness :
  lines_filled
    (Box BlockLevelBox (Element "block" None None [])
       [Box AnonymousBlockLevelBox (Element "block" None None [])
          [Box LineBox (Element "block" None None [])
             [Text (Element "block" None None []) "a"]];
        Box BlockLevelBox (Element "block" None None []) []]) = true.
Proof.
  apply (inline_in_block_fills_lines
           (Box BlockLevelBox (Element "block" None None [])
              [Text (Element "block" None None []) "a";
               Box BlockLevelBox (Element "block" None None []) []]));
    reflexivity.
Defined.

(** X6: the text runs of the tree and their order are the same after the
    pass, whenever it returns. *)
Theorem inline_in_block_keeps_text (b b' : box) :
  inline_in_block b = Ok b' → text_leaves b' = text_leaves b.
Proof. apply inline_in_block_text_leaves. Qed.

Lemma inline_in_block_keeps_text_witness :
  text_leaves
    (Box BlockLevelBox (Element "block" None None [])
       [Box AnonymousBlockLevelBox (Element "block" None None [])
          [Box LineBox (Element "block" None None [])
             [Text (Element "block" None None []) "a"]];
        Box BlockLevelBox (Element "block" None None []) []])
  = text_leaves
      (Box BlockLevelBox (Element "block" None None [])
         [Text (Element "block" None None []) "a";
          Box BlockLevelBox (Element "block" None None []) []]).
Proof. apply inline_in_block_keeps_text. reflexivity. Defined.

Lemma classify_Ok (d : string) (c : cls) :
  classify d = Ok c → c = BlockLevelBox ∨ c = InlineLevelBox.
Proof.
  unfold classify. destruct (block_display d); [intros [= <-]; auto|].
  destruct (inline_display d); [intros [= <-]; auto|discriminate].
Qed.

Lemma text_child_plain (e : element) (o : option string) :
  forallb plain (text_child e o) = true.
Proof. unfold text_child. destruct (truthy o); reflexivity. Qed.

Lemma children_loop_plain (e : element) (l : list element) (bs : list box) :
  Forall (λ k, ∀ b, dom_to_box k = Ok b → plain b = true) l →
  children_loop dom_to_box e l = Ok bs →
  forallb plain bs = true.
Proof.
  intros HF. revert bs.
  induction HF as [|k l Hk _ IH]; intros bs.
  - intros [= <-]. reflexivity.
  - cbn [children_loop].
    destruct (String.eqb (display k) "none"); cbn [negb].
    + cbn [mbind result_bind].
      destruct (children_loop dom_to_box e l) as [later|]; [|discriminate].
      intros [= <-]. cbn [app].
      rewrite forallb_app, text_child_plain, (IH later eq_refl). reflexivity.
    + destruct (dom_to_box k) as [b|] eqn:Eb; [|discriminate].
      cbn [mbind result_bind].
      destruct (children_loop dom_to_box e l) as [later|]; [|discriminate].
      intros [= <-]. cbn [app forallb].
      rewrite forallb_app, text_child_plain, (IH later eq_refl), (Hk b eq_refl).
      reflexivity.
Qed.

Lemma dom_to_box_plain (e : element) (b : box) :
  dom_to_box e = Ok b → plain b = true.
Proof.
  revert b. induction e as [d t tl ks IH] using element_ind'. intros b Hb.
  apply dom_to_box_returns in Hb as (c & rest & Hc & Hrest & ->).
  cbn [plain]. rewrite forallb_app, text_child_plain.
  rewrite (children_loop_plain _ _ _ IH Hrest).
  apply classify_Ok in Hc as [-> | ->]; reflexivity.
Qed.

Lemma plain_no_nested_LineBox (b : box) :
  plain b = true → no_nested_LineBox b = true.
Proof.
  induction b as [e t|c e children IH] using box_ind'; [reflexivity|].
  cbn [plain no_nested_LineBox]. rewrite andb_true_iff. intros [Hc Hch].
  apply forallb_Forall in Hch. apply andb_true_iff. split.
  - destruct (isinstance_BlockLevelBox c); [|reflexivity].
    apply orb_true_iff. right. apply forallb_Forall.
    eapply Forall_impl; [exact Hch|]. simpl. intros x Hx.
    destruct x as [cx ex chx|ex tx]; [|reflexivity].
    cbn [plain] in Hx. apply andb_true_iff in Hx as [Hcx _].
    unfold is_line. simpl. destruct cx; (discriminate || reflexivity).
  - apply forallb_Forall.
    eapply Forall_impl; [apply Forall_and; split; [exact IH|exact Hch]|].
    simpl. intros x [Hx Hpx]. exact (Hx Hpx).
Qed.

(** X5: on every element that [dom_to_box] accepts, [inline_in_block]
    runs to its end on the tree built: its assertion cannot fire.  The
    result has every block-level box hold one [LineBox] or block-level
    boxes only, and is the tree built with [LineBox] and
    [AnonymousBlockLevelBox] levels put in. *)
Theorem dom_to_box_then_inline_in_block (e : element) :
  supported e = true →
  ∃ b b', dom_to_box e = Ok b ∧ inline_in_block b = Ok b'
          ∧ normalized b' = true ∧ strip b' = [b].
Proof.
  intros Hs. destruct (dom_to_box_supported e Hs) as [b Hb].
  pose proof (dom_to_box_plain _ _ Hb) as Hp.
  pose proof (inline_in_block_is_ok b) as Hok.
  rewrite (plain_no_nested_LineBox _ Hp) in Hok.
  destruct (inline_in_block b) as [b'|] eqn:Hb'; [|discriminate].
  exists b, b'. split; [exact Hb|]. split; [exact Hb'|].
  split; [exact (inline_in_block_post_normalized _ _ Hb')|].
  rewrite (inline_in_block_strip _ _ Hb'). apply strip_plain, Hp.
Qed.

Lemma dom_to_box_then_inline_in_block_witness :
  ∃ b b', dom_to_box (Element "block" (Some "a") None
                        [Element "block" None None []]) = Ok b
          ∧ inline_in_block b = Ok b'
          ∧ normalized b' = true ∧ strip b' = [b].
Proof. apply dom_to_box_then_inline_in_block. reflexivity. Defined.

Lemma set_parent_eq (h : heap) (r : ref) (o : obj) (p : option ref) :
  boxes h !! r = Some o →
  set_parent r p h
  = Ok (tt, Heap (<[r:=with_parent p o]> (boxes h)) (lists h)).
Proof.
  intros H. unfold set_parent. rewrite M_bind_eq, (get_box_eq _ _ _ H).
  reflexivity.
Qed.

Lemma clist_Some (h : heap) (r l : ref) :
  clist h r = Some l ↔ ∃ o, boxes h !! r = Some o ∧ o_children o = Some l.
Proof.
  unfold clist. destruct (boxes h !! r) as [o|]; simpl.
  - split; [eauto|]. intros (o' & [= <-] & H). exact H.
  - split; [discriminate|]. intros (o' & H & _). discriminate.
Qed.

Lemma children_refs_clist (h : heap) (r : ref) :
  children_refs h r = (l ← clist h r; lists h !! l).
Proof.
  unfold children_refs, clist. destruct (boxes h !! r); reflexivity.
Qed.

Lemma take_min_length {A} (i : nat) (xs : list A) :
  take (i `min` length xs) xs = take i xs.
Proof.
  destruct (Nat.le_ge_cases i (length xs)) as [H|H].
  - rewrite Nat.min_l by exact H. reflexivity.
  - rewrite Nat.min_r by exact H. rewrite firstn_all, take_ge by exact H.
    reflexivity.
Qed.

Lemma drop_min_length {A} (i : nat) (xs : list A) :
  drop (i `min` length xs) xs = drop i xs.
Proof.
  destruct (Nat.le_ge_cases i (length xs)) as [H|H].
  - rewrite Nat.min_l by exact H. reflexivity.
  - rewrite Nat.min_r by exact H. rewrite !drop_ge by lia. reflexivity.
Qed.


Lemma list_index_first (x : ref) (pre post : list ref) :
  x ∉ pre → list_index x (pre ++ x :: post) = Some (length pre).
Proof.
  induction pre as [|y pre IH]; simpl; intros Hx.
  - rewrite Nat.eqb_refl. reflexivity.
  - apply not_elem_of_cons in Hx as [Hxy Hx].
    destruct (Nat.eqb_spec x y) as [|_]; [contradiction|].
    rewrite (IH Hx). reflexivity.
Qed.

Lemma list_index_Some (x : ref) (xs : list ref) (i : nat) :
  list_index x xs = Some i ↔ xs !! i = Some x ∧ x ∉ take i xs.
Proof.
  revert i. induction xs as [|y xs IH]; intros i; simpl.
  - split; [discriminate|]. intros [H _]. destruct i; discriminate.
  - destruct (Nat.eqb_spec x y) as [->|Hxy].
    + split.
      * intros [= <-]. split; [reflexivity|]. simpl. apply not_elem_of_nil.
      * intros [Hi Hn]. destruct i as [|i]; [reflexivity|].
        exfalso. apply Hn. simpl. left.
    + destruct i as [|i]; simpl.
      * split.
        -- destruct (list_index x xs); discriminate.
        -- intros [[= ->] _]. contradiction.
      * rewrite not_elem_of_cons. specialize (IH i).
        destruct (list_index x xs) as [j|]; simpl.
        -- split.
           ++ intros [= <-]. destruct IH as [IH _].
              destruct (IH eq_refl). auto.
           ++ intros [Hi [_ Hn]]. destruct IH as [_ IH].
              injection (IH (conj Hi Hn)) as ->. reflexivity.
        -- split; [discriminate|]. intros [Hi [_ Hn]].
           destruct IH as [_ IH]. discriminate (IH (conj Hi Hn)).
Qed.

Lemma list_index_None (x : ref) (xs : list ref) :
  list_index x xs = None ↔ x ∉ xs.
Proof.
  induction xs as [|y xs IH]; simpl.
  - split; [intros _; apply not_elem_of_nil|reflexivity].
  - rewrite not_elem_of_cons. destruct (Nat.eqb_spec x y) as [->|Hxy].
    + split; [discriminate|intros [? _]; contradiction].
    + rewrite <- IH. destruct (list_index x xs); simpl;
        split; try discriminate; try tauto. intros [_ ?]. discriminate.
Qed.

(** What [add_child] does to a store in which both boxes exist and
    [self] has a list of children. *)
Lemma add_child_run (h : heap) (self child l : ref) (oc : obj)
    (xs : list ref) (index : option nat) :
  boxes h !! child = Some oc → clist h self = Some l →
  lists h !! l = Some xs →
  add_child self child index h
  = Ok (tt, Heap (<[child:=with_parent (Some self) oc]> (boxes h))
                 (<[l:=take (insert_position index (length xs)) xs
                       ++ child
                       :: drop (insert_position index (length xs)) xs]>
                    (lists h))).
Proof.
  intros Hc Hl Hxs. unfold add_child.
  rewrite M_bind_eq, (set_parent_eq _ _ _ _ Hc), M_bind_eq.
  apply clist_Some in Hl as (os & Hs & Hl).
  assert (Hs' : ∃ os', boxes (Heap (<[child:=with_parent (Some self) oc]>
                                      (boxes h)) (lists h)) !! self = Some os'
                       ∧ o_children os' = Some l).
  { cbn [boxes]. destruct (decide (self = child)) as [->|Hne].
    - exists (with_parent (Some child) oc). split.
      + apply list_lookup_insert_eq. eapply lookup_lt_Some; eauto.
      + rewrite Hc in Hs. injection Hs as <-. exact Hl.
    - exists os. split; [|exact Hl].
      rewrite list_lookup_insert_ne by congruence. exact Hs. }
  destruct Hs' as (os' & Hs' & Hl').
  rewrite (get_children_eq _ _ _ Hs'), Hl'. cbn [deref].
  rewrite M_bind_eq. unfold mret at 1, M_ret at 1. rewrite M_bind_eq.
  unfold get_list at 1. cbn [lists]. rewrite Hxs.
  destruct index as [i|]; cbn [insert_position].
  - unfold set_list, list_insert_at. cbn [boxes lists].
    rewrite take_min_length, drop_min_length. reflexivity.
  - unfold set_list. cbn [boxes lists].
    rewrite firstn_all, drop_all. reflexivity.
Qed.

(** X9: [add_child] sets the parent of the child and puts the child at
    the given position of the children, at the end when there is no
    position or one past the end; the [index] of the child is then that
    position, unless the child was among the children before it. *)
Theorem add_child_then_index (h : heap) (self child l : ref)
    (xs : list ref) (index_ : option nat) :
  clist h self = Some l → lists h !! l = Some xs →
  is_Some (boxes h !! child) →
  child ∉ take (insert_position index_ (length xs)) xs →
  ∃ h', add_child self child index_ h = Ok (tt, h')
        ∧ parent_of h' child = Some self
        ∧ children_refs h' self
          = Some (take (insert_position index_ (length xs)) xs
                  ++ child :: drop (insert_position index_ (length xs)) xs)
        ∧ index child h'
          = Ok (Some (insert_position index_ (length xs)), h').
Proof.
  intros Hl Hxs [oc Hc] Hnew.
  set (pos := insert_position index_ (length xs)) in *.
  assert (Hpos : (pos ≤ length xs)%nat).
  { unfold pos, insert_position. destruct index_; lia. }
  eexists. split; [apply (add_child_run _ _ _ _ _ _ _ Hc Hl Hxs)|].
  fold pos.
  set (h' := Heap _ _).
  assert (Hc' : boxes h' !! child = Some (with_parent (Some self) oc)).
  { apply list_lookup_insert_eq. eapply lookup_lt_Some; eauto. }
  assert (Hl' : clist h' self = Some l).
  { apply clist_Some. apply clist_Some in Hl as (os & Hs & Hl).
    destruct (decide (self = child)) as [->|Hne].
    - exists (with_parent (Some child) oc). split; [exact Hc'|].
      rewrite Hc in Hs. injection Hs as <-. exact Hl.
    - exists os. split; [|exact Hl]. unfold h'. cbn [boxes].
      rewrite list_lookup_insert_ne by congruence. exact Hs. }
  assert (Hxs' : lists h' !! l = Some (take pos xs ++ child :: drop pos xs)).
  { apply list_lookup_insert_eq. eapply lookup_lt_Some; eauto. }
  split; [|split].
  - unfold parent_of. rewrite Hc'. reflexivity.
  - rewrite children_refs_clist, Hl'. exact Hxs'.
  - apply clist_Some in Hl' as (os' & Hs' & Hl').
    unfold index.
    rewrite M_bind_eq, (get_parent_eq _ _ _ Hc'). cbn [with_parent o_parent].
    rewrite M_bind_eq, (get_children_eq _ _ _ Hs'), Hl'. cbn [deref].
    rewrite M_bind_eq. unfold mret at 1, M_ret at 1.
    rewrite M_bind_eq, (get_list_eq _ _ _ Hxs').
    rewrite (list_index_first _ _ _ Hnew), length_take.
    rewrite Nat.min_l by exact Hpos. reflexivity.
Qed.

Lemma add_child_then_index_witness :
  ∃ h', add_child 0 1 (Some 5)
          (Heap [Obj BlockLevelBox (Element "block" None None []) None
                   (Some 0) None;
                 Obj InlineLevelBox (Element "inline" None None []) None
                   (Some 1) None] [[]; []]) = Ok (tt, h')
        ∧ parent_of h' 1 = Some 0
        ∧ children_refs h' 0 = Some [1]
        ∧ index 1 h' = Ok (Some 0, h').
Proof.
  apply (add_child_then_index
           (Heap [Obj BlockLevelBox (Element "block" None None []) None
                    (Some 0) None;
                  Obj InlineLevelBox (Element "inline" None None []) None
                    (Some 1) None] [[]; []]) 0 1 0 [] (Some 5)).
  - reflexivity.
  - reflexivity.
  - eexists. reflexivity.
  - apply not_elem_of_nil.
Defined.

(** X10: a [TextBox] has no list of children: giving it a child fails with
    an [AttributeError], with a position or without. *)
Theorem text_box_takes_no_child (h : heap) (e : element) (t : string)
    (child : ref) (index_ : option nat) :
  is_Some (boxes h !! child) →
  (self ← TextBox_init e t; add_child self child index_) h
  = Err AttributeError.
Proof.
  intros [oc Hc]. rewrite M_bind_eq. unfold TextBox_init, new_box.
  unfold add_child.
  assert (Hc' : boxes (Heap (boxes h ++ [Obj TextBox e None None (Some t)])
                         (lists h)) !! child = Some oc).
  { cbn [boxes]. apply lookup_app_l_Some. exact Hc. }
  rewrite M_bind_eq, (set_parent_eq _ _ _ _ Hc'), M_bind_eq.
  set (h1 := Heap _ _).
  assert (Hs : boxes h1 !! length (boxes h)
               = Some (Obj TextBox e None None (Some t))).
  { unfold h1. cbn [boxes].
    rewrite list_lookup_insert_ne
      by (apply lookup_lt_Some in Hc; lia).
    rewrite lookup_app_r by lia. rewrite Nat.sub_diag. reflexivity. }
  rewrite (get_children_eq _ _ _ Hs). reflexivity.
Qed.

Lemma text_box_takes_no_child_witness :
  (self ← TextBox_init (Element "inline" None None []) "a";
   add_child self 0 None)
    (Heap [Obj InlineLevelBox (Element "inline" None None []) None
             (Some 0) None] [[]])
  = Err AttributeError.
Proof. apply text_box_takes_no_child. eexists. reflexivity. Defined.

(** X11: the [index] of a box with a parent is the position of its first
    occurrence among the children of the parent, and it fails with a
    [ValueError] exactly when the parent does not hold the box. *)
Theorem index_is_first_occurrence (h : heap) (self p : ref)
    (xs : list ref) :
  parent_of h self = Some p → children_refs h p = Some xs →
  (∀ i, index self h = Ok (Some i, h)
        ↔ xs !! i = Some self ∧ self ∉ take i xs)
  ∧ (index self h = Err ValueError ↔ self ∉ xs).
Proof.
  unfold parent_of. intros Hpar Hxs.
  destruct (boxes h !! self) as [o|] eqn:Ho; [|discriminate].
  cbn in Hpar. rewrite children_refs_clist in Hxs.
  destruct (clist h p) as [l|] eqn:Hl; [|discriminate]. cbn in Hxs.
  apply clist_Some in Hl as (po & Hp & Hl).
  assert (Hidx : index self h
                 = match list_index self xs with
                   | Some i => Ok (Some i, h)
                   | None => Err ValueError
                   end).
  { unfold index. rewrite M_bind_eq, (get_parent_eq _ _ _ Ho), Hpar.
    rewrite M_bind_eq, (get_children_eq _ _ _ Hp), Hl. cbn [deref].
    rewrite M_bind_eq. unfold mret at 1, M_ret at 1.
    rewrite M_bind_eq, (get_list_eq _ _ _ Hxs).
    destruct (list_index self xs); reflexivity. }
  rewrite Hidx. split.
  - intros i. rewrite <- list_index_Some.
    destruct (list_index self xs) as [j|]; [|split; discriminate].
    split; intros [= <-]; reflexivity.
  - rewrite <- list_index_None.
    destruct (list_index self xs) as [j|]; [split; discriminate|].
    split; reflexivity.
Qed.

Lemma index_is_first_occurrence_witness :
  (∀ i, index 1
          (Heap [Obj BlockLevelBox (Element "block" None None []) None
                   (Some 0) None;
                 Obj InlineLevelBox (Element "inline" None None [])
                   (Some 0) (Some 1) None] [[1; 1]; []])
        = Ok (Some i,
              Heap [Obj BlockLevelBox (Element "block" None None []) None
                      (Some 0) None;
                    Obj InlineLevelBox (Element "inline" None None [])
                      (Some 0) (Some 1) None] [[1; 1]; []])
        ↔ [1; 1] !! i = Some 1 ∧ 1 ∉ take i [1; 1])
  ∧ (index 1
       (Heap [Obj BlockLevelBox (Element "block" None None []) None
                (Some 0) None;
              Obj InlineLevelBox (Element "inline" None None [])
                (Some 0) (Some 1) None] [[1; 1]; []])
     = Err ValueError ↔ 1 ∉ [1; 1]).
Proof.
  apply (index_is_first_occurrence
           (Heap [Obj BlockLevelBox (Element "block" None None []) None
                    (Some 0) None;
                  Obj InlineLevelBox (Element "inline" None None [])
                    (Some 0) (Some 1) None] [[1; 1]; []]) 1 0 [1; 1]);
    reflexivity.
Defined.

(** ** The [parents] of a box *)

Lemma parents_upto_S (n : nat) (h : heap) (r : ref) :
  parents_upto (S n) h r
  = (o ← boxes h !! r;
     match o_parent o with
     | None => Some []
     | Some p => cons p <$> parents_upto n h p
     end).
Proof. reflexivity. Qed.

Lemma parents_upto_mono (h : heap) :
  ∀ n n' r ps, parents_upto n h r = Some ps → (n ≤ n')%nat →
               parents_upto n' h r = Some ps.
Proof.
  induction n as [|n IH]; intros n' r ps H Hle; [discriminate|].
  destruct n' as [|n']; [lia|]. rewrite parents_upto_S in H |- *.
  destruct (boxes h !! r) as [o|]; [|discriminate]. cbn in H |- *.
  destruct (o_parent o) as [p|]; [|exact H].
  destruct (parents_upto n h p) as [ps'|] eqn:E; [|discriminate].
  rewrite (IH n' p ps' E) by lia. exact H.
Qed.

Lemma parents_upto_length (h : heap) :
  ∀ n r ps, parents_upto n h r = Some ps →
            parents_upto (S (length ps)) h r = Some ps.
Proof.
  induction n as [|n IH]; intros r ps H; [discriminate|].
  rewrite parents_upto_S in H |- *.
  destruct (boxes h !! r) as [o|]; [|discriminate]. cbn in H |- *.
  destruct (o_parent o) as [p|]; [|injection H as <-; reflexivity].
  destruct (parents_upto n h p) as [ps'|] eqn:E; [|discriminate].
  injection H as <-. cbn [length]. rewrite (IH p ps' E). reflexivity.
Qed.

Lemma parents_upto_det (h : heap) (n n' : nat) (r : ref) (ps ps' : list ref) :
  parents_upto n h r = Some ps → parents_upto n' h r = Some ps' → ps = ps'.
Proof.
  intros H H'.
  apply (parents_upto_mono h n (n `max` n')) in H; [|lia].
  apply (parents_upto_mono h n' (n `max` n')) in H'; [|lia].
  congruence.
Qed.

Lemma parents_upto_from (h : heap) :
  ∀ n r ps q, parents_upto n h r = Some ps → q ∈ ps →
    ∃ ps1 ps2, ps = ps1 ++ q :: ps2 ∧ parents_upto n h q = Some ps2.
Proof.
  induction n as [|n IH]; intros r ps q H Hq; [discriminate|].
  rewrite parents_upto_S in H.
  destruct (boxes h !! r) as [o|]; [|discriminate]. cbn in H.
  destruct (o_parent o) as [p|]; [|injection H as <-; inversion Hq].
  destruct (parents_upto n h p) as [ps'|] eqn:E; [|discriminate].
  injection H as <-. apply elem_of_cons in Hq as [->|Hq].
  - exists [], ps'. split; [reflexivity|].
    apply (parents_upto_mono h n); [exact E|lia].
  - destruct (IH p ps' q E Hq) as (ps1 & ps2 & -> & H2).
    exists (p :: ps1), ps2. split; [reflexivity|].
    apply (parents_upto_mono h n); [exact H2|lia].
Qed.

Lemma parents_upto_not_self (h : heap) (n : nat) (r : ref) (ps : list ref) :
  parents_upto n h r = Some ps → r ∉ ps.
Proof.
  intros H Hr.
  destruct (parents_upto_from h n r ps r H Hr) as (ps1 & ps2 & Heq & H2).
  pose proof (parents_upto_det _ _ _ _ _ _ H H2) as Hps.
  apply (f_equal length) in Heq. rewrite length_app in Heq. cbn in Heq.
  rewrite Hps in Heq. lia.
Qed.

Lemma parents_upto_NoDup (h : heap) :
  ∀ n r ps, parents_upto n h r = Some ps → NoDup (r :: ps).
Proof.
  induction n as [|n IH]; intros r ps H; [discriminate|].
  apply NoDup_cons. split; [exact (parents_upto_not_self _ _ _ _ H)|].
  rewrite parents_upto_S in H.
  destruct (boxes h !! r) as [o|]; [|discriminate]. cbn in H.
  destruct (o_parent o) as [p|]; [|injection H as <-; constructor].
  destruct (parents_upto n h p) as [ps'|] eqn:E; [|discriminate].
  injection H as <-. exact (IH p ps' E).
Qed.

Lemma parents_upto_valid (h : heap) :
  ∀ n r ps, parents_upto n h r = Some ps →
            Forall (λ q, (q < length (boxes h))%nat) (r :: ps).
Proof.
  induction n as [|n IH]; intros r ps H; [discriminate|].
  rewrite parents_upto_S in H.
  destruct (boxes h !! r) as [o|] eqn:Ho; [|discriminate]. cbn in H.
  apply lookup_lt_Some in Ho.
  destruct (o_parent o) as [p|].
  - destruct (parents_upto n h p) as [ps'|] eqn:E; [|discriminate].
    injection H as <-. constructor; [exact Ho|exact (IH p ps' E)].
  - injection H as <-. repeat constructor. exact Ho.
Qed.

Lemma NoDup_bounded_length (l : list nat) (n : nat) :
  NoDup l → Forall (λ r, (r < n)%nat) l → (length l ≤ n)%nat.
Proof.
  intros Hnd HF.
  assert (Hsub : l ⊆+ seq 0 n).
  { apply NoDup_submseteq; [exact Hnd|]. intros r Hr.
    rewrite Forall_forall in HF. specialize (HF _ Hr).
    apply elem_of_seq. lia. }
  apply submseteq_length in Hsub. rewrite length_seq in Hsub. exact Hsub.
Qed.

(** X12: a walk up the [parent] links that ends yields no box twice and
    never the box it starts from, so it has fewer steps than the store
    has boxes: [parents] finds every chain of ancestors that ends. *)
Theorem parents_walk_is_bounded (h : heap) (n : nat) (r : ref)
    (ps : list ref) :
  parents_upto n h r = Some ps →
  parents h r = Some ps ∧ NoDup (r :: ps)
  ∧ (length ps < length (boxes h))%nat.
Proof.
  intros H.
  pose proof (parents_upto_NoDup _ _ _ _ H) as Hnd.
  pose proof (NoDup_bounded_length _ _ Hnd (parents_upto_valid _ _ _ _ H))
    as Hlen.
  cbn [length] in Hlen. split; [|split; [exact Hnd|lia]].
  unfold parents.
  apply (parents_upto_mono h (S (length ps))); [|lia].
  exact (parents_upto_length _ _ _ _ H).
Qed.

Lemma parents_walk_is_bounded_witness :
  parents
    (Heap [Obj BlockLevelBox (Element "block" None None []) None
             (Some 0) None;
           Obj InlineLevelBox (Element "inline" None None [])
             (Some 0) (Some 1) None] [[1]; []]) 1 = Some [0]
  ∧ NoDup [1; 0]
  ∧ (length [0] < 2)%nat.
Proof.
  apply (parents_walk_is_bounded
           (Heap [Obj BlockLevelBox (Element "block" None None []) None
                    (Some 0) None;
                  Obj InlineLevelBox (Element "inline" None None [])
                    (Some 0) (Some 1) None] [[1]; []]) 7 1 [0]).
  reflexivity.
Defined.

(** ** The store under the splitter *)

Lemma same_kind_refl (o : obj) : same_kind o o.
Proof. unfold same_kind. auto. Qed.

Lemma same_kind_trans (o1 o2 o3 : obj) :
  same_kind o1 o2 → same_kind o2 o3 → same_kind o1 o3.
Proof.
  unfold same_kind. intros (H1 & H2 & H3 & H4) (K1 & K2 & K3 & K4).
  repeat split; try congruence. auto.
Qed.

Lemma created_same_kind (o o' : obj) :
  created o → same_kind o o' → created o'.
Proof.
  unfold created, same_kind. intros (Hc & Ht & Hl) (K1 & K2 & K3 & K4).
  rewrite K1, K3. auto.
Qed.

Lemma grows_refl (h : heap) : grows h h.
Proof.
  constructor; auto.
  - intros r o Ho. exists o. split; [exact Ho|apply same_kind_refl].
  - intros r o' Hr Ho. apply lookup_lt_Some in Ho. lia.
Qed.

Lemma grows_trans (h1 h2 h3 : heap) :
  grows h1 h2 → grows h2 h3 → grows h1 h3.
Proof.
  intros [A1 A2 A3 A4] [B1 B2 B3 B4]. constructor; try lia.
  - intros r o Ho. destruct (A3 r o Ho) as (o2 & Ho2 & Hk2).
    destruct (B3 r o2 Ho2) as (o3 & Ho3 & Hk3).
    exists o3. split; [exact Ho3|]. eapply same_kind_trans; eauto.
  - intros r o3 Hr Ho3.
    destruct (decide (r < length (boxes h2))%nat) as [Hlt|Hge].
    + destruct (lookup_lt_is_Some_2 _ _ Hlt) as [o2 Ho2].
      destruct (B3 r o2 Ho2) as (o3' & Ho3' & Hk).
      rewrite Ho3 in Ho3'. injection Ho3' as <-.
      eapply created_same_kind; [|exact Hk]. eapply A4; eauto.
    + eapply B4; [|exact Ho3]. lia.
Qed.

Section keeps.
Variable E : element → Prop.

Lemma keeps_reads {A} (m : M A) : reads m → keeps E m.
Proof.
  intros Hm h a h' HE H. apply Hm in H. subst h'.
  split; [exact HE|apply grows_refl].
Qed.

Lemma keeps_bind {A B} (m : M A) (f : A → M B) :
  keeps E m → (∀ a, keeps E (f a)) → keeps E (m ≫= f).
Proof.
  intros Hm Hf h b h' HE H. rewrite M_bind_eq in H.
  destruct (m h) as [[a h1]|] eqn:E1; [|discriminate].
  destruct (Hm _ _ _ HE E1) as [HE1 G1].
  destruct (Hf a _ _ _ HE1 H) as [HE2 G2].
  split; [exact HE2|]. eapply grows_trans; eauto.
Qed.

Lemma keeps_bind_element {B} (r : ref) (f : element → M B) :
  (∀ e, E e → keeps E (f e)) → keeps E (get_element r ≫= f).
Proof.
  intros Hf h b h' HE H. rewrite M_bind_eq in H.
  unfold get_element in H. rewrite M_bind_eq in H. unfold get_box in H.
  destruct (boxes h !! r) as [o|] eqn:Ho; [|discriminate].
  exact (Hf _ (HE _ _ Ho) _ _ _ HE H).
Qed.

Lemma keeps_raise {A} (e : error) : keeps E (raise e : M A).
Proof. intros h a h' _ H. discriminate. Qed.

Lemma keeps_update (r : ref) (f : obj → obj) :
  (∀ o, same_kind o (f o)) →
  keeps E (o ← get_box r; set_box r (f o)).
Proof.
  intros Hf h a h' HE H. rewrite M_bind_eq in H. unfold get_box in H.
  destruct (boxes h !! r) as [o|] eqn:Ho; [|discriminate].
  injection H as _ <-. split.
  - intros r' o'. cbn [boxes].
    destruct (decide (r' = r)) as [->|Hne].
    + rewrite list_lookup_insert_eq by (eapply lookup_lt_Some; eauto).
      intros [= <-]. destruct (Hf o) as (_ & -> & _). eapply HE; eauto.
    + rewrite list_lookup_insert_ne by congruence. apply HE.
  - constructor; cbn [boxes lists]; rewrite ?length_insert; auto.
    + intros r' o' Ho'. destruct (decide (r' = r)) as [->|Hne].
      * rewrite list_lookup_insert_eq by (eapply lookup_lt_Some; eauto).
        rewrite Ho in Ho'. injection Ho' as <-. eauto.
      * rewrite list_lookup_insert_ne by congruence.
        exists o'. split; [exact Ho'|apply same_kind_refl].
    + intros r' o' Hr Ho'. apply lookup_lt_Some in Ho'.
      rewrite length_insert in Ho'. lia.
Qed.

Lemma keeps_set_parent (r : ref) (p : option ref) : keeps E (set_parent r p).
Proof.
  apply (keeps_update r (λ o, Obj (o_cls o) (o_element o) p (o_children o)
                                  (o_text o))).
  intros o. unfold same_kind. cbn. auto.
Qed.

Lemma keeps_set_children (r l : ref) : keeps E (set_children r (Some l)).
Proof.
  apply (keeps_update r (λ o, Obj (o_cls o) (o_element o) (o_parent o)
                                  (Some l) (o_text o))).
  intros o. unfold same_kind. cbn. eauto.
Qed.

Lemma keeps_set_list (l : ref) (xs : list ref) : keeps E (set_list l xs).
Proof.
  intros h a h' HE [= _ <-]. split; [exact HE|].
  constructor; cbn [boxes lists]; rewrite ?length_insert; auto.
  - intros r o Ho. exists o. split; [exact Ho|apply same_kind_refl].
  - intros r o' Hr Ho. apply lookup_lt_Some in Ho. lia.
Qed.

Lemma keeps_new_list (xs : list ref) : keeps E (new_list xs).
Proof.
  intros h a h' HE [= _ <-]. split; [exact HE|].
  constructor; cbn [boxes lists]; rewrite ?length_app; try lia.
  - intros r o Ho. exists o. split; [exact Ho|apply same_kind_refl].
  - intros r o' Hr Ho. apply lookup_lt_Some in Ho. lia.
Qed.

Lemma keeps_Box_init (c : cls) (e : element) :
  c = AnonymousBlockLevelBox ∨ c = InlineLevelBox → E e →
  keeps E (Box_init c e).
Proof.
  intros Hc He h a h' HE [= _ <-]. split.
  - intros r o. cbn [boxes]. intros Ho.
    apply lookup_app_Some in Ho as [Ho|[_ Ho]]; [eapply HE; eauto|].
    apply list_lookup_singleton_Some in Ho as [_ <-]. exact He.
  - constructor; cbn [boxes lists]; rewrite ?length_app; try lia.
    + intros r o Ho. exists o. split; [|apply same_kind_refl].
      apply lookup_app_l_Some. exact Ho.
    + intros r o' Hr Ho.
      apply lookup_app_Some in Ho as [Ho|[_ Ho]].
      { apply lookup_lt_Some in Ho. lia. }
      apply list_lookup_singleton_Some in Ho as [_ <-].
      unfold created. cbn. eauto.
Qed.

End keeps.

Lemma reads_ret {A} (a : A) : reads (mret a : M A).
Proof. intros h a' h' [= _ <-]. reflexivity. Qed.

Lemma reads_raise {A} (e : error) : reads (raise e : M A).
Proof. intros h a h' H. discriminate. Qed.

Lemma reads_bind {A B} (m : M A) (f : A → M B) :
  reads m → (∀ a, reads (f a)) → reads (m ≫= f).
Proof.
  intros Hm Hf h b h' H. rewrite M_bind_eq in H.
  destruct (m h) as [[a h1]|] eqn:E1; [|discriminate].
  apply Hm in E1. subst h1. exact (Hf _ _ _ _ H).
Qed.

Lemma reads_get_box (r : ref) : reads (get_box r).
Proof.
  intros h o h'. unfold get_box.
  destruct (boxes h !! r); [intros [= _ <-]; reflexivity|discriminate].
Qed.

Lemma reads_get_list (l : ref) : reads (get_list l).
Proof.
  intros h o h'. unfold get_list.
  destruct (lists h !! l); [intros [= _ <-]; reflexivity|discriminate].
Qed.

Lemma reads_chain_bound : reads chain_bound.
Proof. intros h n h' [= _ <-]. reflexivity. Qed.

Ltac reads_step :=
  first
    [ assumption
    | apply reads_ret
    | apply reads_raise
    | apply reads_get_box
    | apply reads_get_list
    | apply reads_chain_bound
    | apply reads_bind; [|intros ?]
    | match goal with
      | |- reads (match ?x with _ => _ end) => destruct x
      | |- reads (if ?x then _ else _) => destruct x
      end ].

Lemma reads_get_parent (r : ref) : reads (get_parent r).
Proof. unfold get_parent. repeat reads_step. Qed.

Lemma reads_get_children (r : ref) : reads (get_children r).
Proof. unfold get_children. repeat reads_step. Qed.

Lemma reads_get_cls (r : ref) : reads (get_cls r).
Proof. unfold get_cls. repeat reads_step. Qed.

Lemma reads_get_element (r : ref) : reads (get_element r).
Proof. unfold get_element. repeat reads_step. Qed.

Lemma reads_deref (x : option ref) : reads (deref x).
Proof. unfold deref. repeat reads_step. Qed.

Lemma reads_subscriptable (x : option ref) : reads (subscriptable x).
Proof. unfold subscriptable. repeat reads_step. Qed.

Lemma reads_index (r : ref) : reads (index r).
Proof.
  unfold index.
  repeat first [apply reads_get_parent | apply reads_get_children
               | apply reads_deref | reads_step].
Qed.

Lemma reads_index_plus_1 (r : ref) : reads (index_plus_1 r).
Proof. unfold index_plus_1. repeat first [apply reads_index | reads_step]. Qed.

Lemma reads_parent_is_inline (r : ref) : reads (parent_is_inline r).
Proof.
  unfold parent_is_inline.
  repeat first [apply reads_get_parent | apply reads_get_cls | reads_step].
Qed.

Lemma reads_collect_inline_parents (n : nat) :
  ∀ cur ips, reads (collect_inline_parents n cur ips).
Proof.
  induction n as [|n IH]; intros cur ips; cbn [collect_inline_parents].
  - apply reads_raise.
  - repeat first [apply reads_get_parent | apply reads_get_cls | apply IH
                 | reads_step].
Qed.

Section keeps_ops.
Variable E : element → Prop.

Ltac keeps_step :=
  first
    [ assumption
    | apply keeps_raise
    | apply keeps_set_parent
    | apply keeps_set_children
    | apply keeps_set_list
    | apply keeps_new_list
    | apply keeps_reads;
      first [ apply reads_ret | apply reads_get_parent
            | apply reads_get_children | apply reads_get_cls
            | apply reads_get_list | apply reads_deref
            | apply reads_subscriptable | apply reads_index
            | apply reads_index_plus_1 | apply reads_chain_bound
            | apply reads_parent_is_inline
            | apply reads_collect_inline_parents
            | apply reads_raise | apply reads_get_box ]
    | apply keeps_bind_element; intros ? ?
    | apply keeps_bind; [|intros ?]
    | match goal with
      | |- keeps _ (match ?x with _ => _ end) => destruct x
      | |- keeps _ (if ?x then _ else _) => destruct x
      end ].

Lemma keeps_add_child (self child : ref) (index_ : option nat) :
  keeps E (add_child self child index_).
Proof. unfold add_child. repeat keeps_step. Qed.

Lemma keeps_clone_inline_parents (rev_parents : list ref) :
  ∀ nab, keeps E (clone_inline_parents rev_parents nab).
Proof.
  induction rev_parents as [|p rest IH]; intros nab;
    cbn [clone_inline_parents].
  - repeat keeps_step.
  - apply keeps_bind_element. intros e He.
    apply keeps_bind; [apply keeps_Box_init; auto|]. intros c.
    repeat first [apply keeps_add_child | apply IH | keeps_step].
Qed.

Lemma keeps_add_children (nab : option ref) (next_children : list ref) :
  keeps E (add_children nab next_children).
Proof.
  induction next_children as [|c rest IH]; cbn [add_children].
  - repeat keeps_step.
  - repeat first [apply keeps_add_child | apply IH | keeps_step].
Qed.

Lemma keeps_move_next_children (n : nat) :
  ∀ cur plb sp nab, keeps E (move_next_children n cur plb sp nab).
Proof.
  induction n as [|n IH]; intros cur plb sp nab;
    cbn [move_next_children].
  - apply keeps_raise.
  - repeat first [apply keeps_add_children | apply IH | keeps_step].
Qed.

Lemma keeps_split (box : ref) : keeps E (split box).
Proof.
  unfold split.
  repeat first [ apply keeps_add_child | apply keeps_clone_inline_parents
               | apply keeps_move_next_children
               | apply keeps_Box_init; [auto|assumption]
               | keeps_step ].
Qed.

Lemma keeps_child_boxes_loop (rec : ref → M unit) (l : ref) :
  (∀ c, keeps E (rec c)) →
  ∀ n i, keeps E (child_boxes_loop rec l n i).
Proof.
  intros Hrec. induction n as [|n IH]; intros i; cbn [child_boxes_loop].
  - apply keeps_raise.
  - repeat first [apply Hrec | apply IH | keeps_step].
Qed.

Lemma keeps_block_in_inline (fuel : nat) :
  ∀ box, keeps E (block_in_inline fuel box).
Proof.
  induction fuel as [|fuel IH]; intros box; cbn [block_in_inline].
  - apply keeps_raise.
  - repeat first [ apply keeps_split
                 | apply keeps_child_boxes_loop; exact IH
                 | keeps_step ].
Qed.

End keeps_ops.

(** X13: whatever the store and the box, a run of [block_in_inline] that
    ends removes no object and changes neither the class nor the element
    nor the text of one, and leaves a list of children to every box that
    had one; the objects it makes are [AnonymousBlockLevelBox] and
    [InlineLevelBox] objects with a list of children; and every element
    that a box refers to afterwards is one that a box referred to
    before. *)
Theorem block_in_inline_keeps_boxes (fuel : nat) (box : ref) (h h' : heap) :
  block_in_inline fuel box h = Ok (tt, h') →
  (length (boxes h) ≤ length (boxes h'))%nat
  ∧ (∀ r o, boxes h !! r = Some o →
       ∃ o', boxes h' !! r = Some o'
             ∧ o_cls o' = o_cls o ∧ o_element o' = o_element o
             ∧ o_text o' = o_text o
             ∧ (is_Some (o_children o) → is_Some (o_children o')))
  ∧ (∀ r o', (length (boxes h) ≤ r)%nat → boxes h' !! r = Some o' →
       (o_cls o' = AnonymousBlockLevelBox ∨ o_cls o' = InlineLevelBox)
       ∧ o_text o' = None ∧ is_Some (o_children o'))
  ∧ (∀ r o', boxes h' !! r = Some o' →
       ∃ r0 o0, boxes h !! r0 = Some o0 ∧ o_element o0 = o_element o').
Proof.
  intros H.
  destruct (keeps_block_in_inline
              (λ e, ∃ r0 o0, boxes h !! r0 = Some o0 ∧ o_element o0 = e)
              fuel box h tt h') as [HE [G1 _ G3 G4]]; [|exact H|].
  { intros r o Ho. eauto. }
  split; [exact G1|]. split; [exact G3|]. split; [exact G4|].
  intros r o' Ho'. exact (HE r o' Ho').
Qed.

Lemma block_in_inline_keeps_boxes_witness :
  ∃ h', block_in_inline 10 0 nested_block_store = Ok (tt, h')
    ∧ (length (boxes nested_block_store) ≤ length (boxes h'))%nat
    ∧ (∀ r o, boxes nested_block_store !! r = Some o →
         ∃ o', boxes h' !! r = Some o'
               ∧ o_cls o' = o_cls o ∧ o_element o' = o_element o
               ∧ o_text o' = o_text o
               ∧ (is_Some (o_children o) → is_Some (o_children o')))
    ∧ (∀ r o', (length (boxes nested_block_store) ≤ r)%nat →
         boxes h' !! r = Some o' →
         (o_cls o' = AnonymousBlockLevelBox ∨ o_cls o' = InlineLevelBox)
         ∧ o_text o' = None ∧ is_Some (o_children o'))
    ∧ (∀ r o', boxes h' !! r = Some o' →
         ∃ r0 o0, boxes nested_block_store !! r0 = Some o0
                  ∧ o_element o0 = o_element o').
Proof.
  eexists (Heap _ _). split; [vm_compute; reflexivity|].
  apply (block_in_inline_keeps_boxes 10 0 nested_block_store).
  vm_compute. reflexivity.
Defined.

(** ** Trees in the store *)

Lemma size_pos (b : box) : (0 < size b)%nat.
Proof. destruct b; simpl; lia. Qed.

Lemma fsize_cons (t : box) (ts : list box) :
  fsize (t :: ts) = (size t + fsize ts)%nat.
Proof. reflexivity. Qed.

Lemma flsize_cons (t : box) (ts : list box) :
  flsize (t :: ts) = (lsize t + flsize ts)%nat.
Proof. reflexivity. Qed.

Lemma fsize_app (ts1 ts2 : list box) :
  fsize (ts1 ++ ts2) = (fsize ts1 + fsize ts2)%nat.
Proof. unfold fsize. rewrite map_app, list_sum_app. reflexivity. Qed.

Lemma flsize_app (ts1 ts2 : list box) :
  flsize (ts1 ++ ts2) = (flsize ts1 + flsize ts2)%nat.
Proof. unfold flsize. rewrite map_app, list_sum_app. reflexivity. Qed.

Lemma size_Box (c : cls) (e : element) (ch : list box) :
  size (Box c e ch) = S (fsize ch).
Proof. reflexivity. Qed.

Lemma lsize_Box (c : cls) (e : element) (ch : list box) :
  lsize (Box c e ch) = S (flsize ch).
Proof. reflexivity. Qed.

Lemma fsize_length (ts : list box) : (length ts ≤ fsize ts)%nat.
Proof.
  induction ts as [|t ts IH]; [reflexivity|].
  rewrite fsize_cons. pose proof (size_pos t). simpl. lia.
Qed.

Lemma roots_length (ts : list box) (a : nat) : length (roots a ts) = length ts.
Proof.
  revert a. induction ts as [|t ts IH]; intros a; simpl; [|rewrite IH];
    reflexivity.
Qed.

Lemma roots_app (ts1 ts2 : list box) (a : nat) :
  roots a (ts1 ++ ts2) = roots a ts1 ++ roots (a + fsize ts1) ts2.
Proof.
  revert a. induction ts1 as [|t ts1 IH]; intros a; simpl.
  - rewrite Nat.add_0_r. reflexivity.
  - rewrite IH, fsize_cons, Nat.add_assoc. reflexivity.
Qed.

Lemma roots_range : ∀ ts a r,
  r ∈ roots a ts → (a ≤ r)%nat ∧ (r < a + fsize ts)%nat.
Proof.
  induction ts as [|t ts IH]; intros a r Hr; [inversion Hr|].
  simpl in Hr. rewrite fsize_cons. pose proof (size_pos t).
  apply elem_of_cons in Hr as [->|Hr]; [lia|].
  apply IH in Hr. lia.
Qed.

Lemma placed_list_app (rec : nat → nat → box → Prop) (ts1 ts2 : list box) :
  ∀ a la,
    placed_list rec a la (ts1 ++ ts2)
    ↔ placed_list rec a la ts1
      ∧ placed_list rec (a + fsize ts1) (la + flsize ts1) ts2.
Proof.
  induction ts1 as [|t ts1 IH]; intros a la; simpl.
  - rewrite !Nat.add_0_r. tauto.
  - rewrite IH, fsize_cons, flsize_cons, !Nat.add_assoc. tauto.
Qed.

(** A tree in the store and the box at which a child starts. *)
Lemma placed_list_root (rec : nat → nat → box → Prop) :
  ∀ ts a la c, placed_list rec a la ts → c ∈ roots a ts →
    ∃ t lc, t ∈ ts ∧ rec c lc t.
Proof.
  induction ts as [|t ts IH]; intros a la c Hp Hc; [inversion Hc|].
  destruct Hp as [Ht Hrest]. simpl in Hc.
  apply elem_of_cons in Hc as [->|Hc].
  - exists t, la. split; [left|exact Ht].
  - destruct (IH _ _ _ Hrest Hc) as (t' & lc & Hin & Hr).
    exists t', lc. split; [right; exact Hin|exact Hr].
Qed.

Lemma placed_list_frame (h h' : heap) (q : option ref) (ts : list box) :
  Forall (λ b, ∀ p a la,
            placed h p a la b →
            (∀ r, (a ≤ r < a + size b)%nat → boxes h' !! r = boxes h !! r) →
            (∀ l, (la ≤ l < la + lsize b)%nat →
                  lists h' !! l = lists h !! l) →
            placed h' p a la b) ts →
  ∀ a la,
    placed_list (placed h q) a la ts →
    (∀ r, (a ≤ r < a + fsize ts)%nat → boxes h' !! r = boxes h !! r) →
    (∀ l, (la ≤ l < la + flsize ts)%nat → lists h' !! l = lists h !! l) →
    placed_list (placed h' q) a la ts.
Proof.
  induction 1 as [|t ts Ht _ IH]; intros a la; [trivial|].
  rewrite fsize_cons, flsize_cons. cbn [placed_list].
  intros [H1 H2] HB HL. pose proof (size_pos t). split.
  - apply Ht; [exact H1| |]; intros; [apply HB|apply HL]; lia.
  - apply IH; [exact H2| |]; intros; [apply HB|apply HL]; lia.
Qed.

(** The store matters only where the tree is. *)
Lemma placed_frame (h h' : heap) (b : box) :
  ∀ p a la,
    placed h p a la b →
    (∀ r, (a ≤ r < a + size b)%nat → boxes h' !! r = boxes h !! r) →
    (∀ l, (la ≤ l < la + lsize b)%nat → lists h' !! l = lists h !! l) →
    placed h' p a la b.
Proof.
  induction b as [e t|c e children IH] using box_ind'; intros p a la.
  - cbn [placed size]. intros Hb HB _. rewrite HB by lia. exact Hb.
  - cbn [placed]. rewrite size_Box, lsize_Box.
    intros (Hb & Hl & Hch) HB HL.
    split; [rewrite HB by lia; exact Hb|].
    split; [rewrite HL by lia; exact Hl|].
    apply (placed_list_frame h h' (Some a) children IH); [exact Hch| |];
      intros; [apply HB|apply HL]; lia.
Qed.

Lemma placed_list_frame' (h h' : heap) (q : option ref) (ts : list box)
    (a la : nat) :
  placed_list (placed h q) a la ts →
  (∀ r, (a ≤ r < a + fsize ts)%nat → boxes h' !! r = boxes h !! r) →
  (∀ l, (la ≤ l < la + flsize ts)%nat → lists h' !! l = lists h !! l) →
  placed_list (placed h' q) a la ts.
Proof.
  apply placed_list_frame. apply Forall_forall. intros b _ p a0 la0.
  apply placed_frame.
Qed.

Lemma placed_root (h : heap) (p : option ref) (a la : nat) (b : box) :
  placed h p a la b →
  ∃ o, boxes h !! a = Some o ∧ o_parent o = p ∧ o_cls o = box_cls b.
Proof.
  destruct b as [c e ch|e t]; cbn [placed].
  - intros (Hb & _). eexists. split; [exact Hb|]. split; reflexivity.
  - intros Hb. eexists. split; [exact Hb|]. split; reflexivity.
Qed.

(** The tree under a box stays where it is when the box gets another
    parent. *)
Lemma placed_reparent (h h' : heap) (p q : option ref) (a la : nat)
    (b : box) (o : obj) :
  placed h p a la b → boxes h !! a = Some o →
  boxes h' !! a = Some (with_parent q o) →
  (∀ r, (a < r < a + size b)%nat → boxes h' !! r = boxes h !! r) →
  (∀ l, (la ≤ l < la + lsize b)%nat → lists h' !! l = lists h !! l) →
  placed h' q a la b.
Proof.
  destruct b as [c e ch|e t]; cbn [placed].
  - rewrite size_Box, lsize_Box. intros (Hb & Hl & Hch) Ho Ho' HB HL.
    rewrite Ho in Hb. injection Hb as ->.
    split; [exact Ho'|]. split; [rewrite HL by lia; exact Hl|].
    apply (placed_list_frame' h h'); [exact Hch| |]; intros;
      [apply HB|apply HL]; lia.
  - intros Hb Ho Ho' _ _. rewrite Ho in Hb. injection Hb as ->. exact Ho'.
Qed.

Lemma load_Box (c : cls) (e : element) (children : list box) (h : heap) :
  load (Box c e children) h
  = (r ← Box_init c e; load_children load r children;; mret r) h.
Proof. reflexivity. Qed.

Lemma load_children_cons (r : ref) (t : box) (ts : list box) (h : heap) :
  load_children load r (t :: ts) h
  = (cr ← load t; add_child r cr None;; load_children load r ts) h.
Proof. reflexivity. Qed.

Lemma load_children_placed (r la : nat) (o : obj) (ts2 : list box) :
  o_children o = Some la →
  Forall load_ok ts2 →
  ∀ ts1 h,
    length (boxes h) = (r + 1 + fsize ts1)%nat →
    length (lists h) = (la + 1 + flsize ts1)%nat →
    boxes h !! r = Some o →
    lists h !! la = Some (roots (r + 1) ts1) →
    placed_list (placed h (Some r)) (r + 1) (la + 1) ts1 →
    ∃ h',
      load_children load r ts2 h = Ok (tt, h')
      ∧ length (boxes h') = (r + 1 + fsize (ts1 ++ ts2))%nat
      ∧ length (lists h') = (la + 1 + flsize (ts1 ++ ts2))%nat
      ∧ boxes h' !! r = Some o
      ∧ lists h' !! la = Some (roots (r + 1) (ts1 ++ ts2))
      ∧ placed_list (placed h' (Some r)) (r + 1) (la + 1) (ts1 ++ ts2)
      ∧ (∀ r', (r' < r)%nat → boxes h' !! r' = boxes h !! r')
      ∧ (∀ l, (l < la)%nat → lists h' !! l = lists h !! l).
Proof.
  intros Hla. induction 1 as [|t ts2 Ht _ IH]; intros ts1 h Hlen Hllen Hr Hl Hp.
  - exists h. rewrite app_nil_r. repeat split; auto.
  - destruct (Ht h) as (h1 & Hload & Hlen1 & Hllen1 & Hold1 & Hlold1 & Hp1).
    destruct (placed_root _ _ _ _ _ Hp1) as (oc & Hoc & Hpar & _).
    assert (Hr1 : boxes h1 !! r = Some o) by (rewrite Hold1 by lia; exact Hr).
    assert (Hl1 : lists h1 !! la = Some (roots (r + 1) ts1))
      by (rewrite Hlold1 by lia; exact Hl).
    assert (Hc1 : clist h1 r = Some la) by (apply clist_Some; eauto).
    pose proof (add_child_run h1 r (length (boxes h)) la oc _ None
                  Hoc Hc1 Hl1) as Hadd.
    cbn [insert_position] in Hadd. rewrite firstn_all, drop_all in Hadd.
    set (h2 := Heap _ _) in Hadd.
    destruct (IH (ts1 ++ [t]) h2) as (h' & Hrun & A1 & A2 & A3 & A4 & A5 & A6 & A7).
    + unfold h2. cbn [boxes]. rewrite length_insert, Hlen1, Hlen, fsize_app.
      unfold fsize at 3. simpl. lia.
    + unfold h2. cbn [lists]. rewrite length_insert, Hllen1, Hllen, flsize_app.
      unfold flsize at 3. simpl. lia.
    + unfold h2. cbn [boxes]. rewrite list_lookup_insert_ne by lia. exact Hr1.
    + unfold h2. cbn [lists].
      rewrite list_lookup_insert_eq by (eapply lookup_lt_Some; eauto).
      rewrite roots_app. cbn [roots]. rewrite Hlen. reflexivity.
    + apply placed_list_app. split.
      * apply (placed_list_frame' h h2); [exact Hp| |].
        -- intros r' Hr'. unfold h2. cbn [boxes].
           rewrite list_lookup_insert_ne by lia. apply Hold1. lia.
        -- intros l Hl'. unfold h2. cbn [lists].
           rewrite list_lookup_insert_ne by lia. apply Hlold1. lia.
      * cbn [placed_list]. split; [|trivial].
        rewrite <- Hlen, <- Hllen.
        apply (placed_reparent h1 h2 None (Some r) _ _ t oc Hp1 Hoc).
        -- unfold h2. cbn [boxes]. apply list_lookup_insert_eq.
           eapply lookup_lt_Some; eauto.
        -- intros r' Hr'. unfold h2. cbn [boxes].
           rewrite list_lookup_insert_ne by lia. reflexivity.
        -- intros l Hl'. unfold h2. cbn [lists].
           rewrite list_lookup_insert_ne by lia. reflexivity.
    + exists h'. rewrite <- app_assoc in A1, A2, A4, A5. cbn [app] in *.
      split.
      { rewrite load_children_cons, M_bind_eq, Hload, M_bind_eq, Hadd.
        exact Hrun. }
      repeat split; try assumption.
      * intros r' Hr'. rewrite A6 by exact Hr'. unfold h2. cbn [boxes].
        rewrite list_lookup_insert_ne by lia. apply Hold1. lia.
      * intros l Hl'. rewrite A7 by exact Hl'. unfold h2. cbn [lists].
        rewrite list_lookup_insert_ne by lia. apply Hlold1. lia.
Qed.

(** [load] puts the tree at the end of the store and leaves the rest of
    the store as it is. *)
Lemma load_placed (b : box) : load_ok b.
Proof.
  induction b as [e t|c e children IH] using box_ind'; intros h.
  - eexists. split; [reflexivity|]. cbn [boxes lists size lsize placed].
    rewrite length_app. cbn [length].
    split; [reflexivity|]. split; [lia|].
    split; [intros r Hr; apply lookup_app_l; exact Hr|].
    split; [reflexivity|].
    rewrite lookup_app_r by lia. rewrite Nat.sub_diag. reflexivity.
  - set (o := Obj c e None (Some (length (lists h))) None).
    set (h0 := Heap (boxes h ++ [o]) (lists h ++ [[]])).
    destruct (load_children_placed (length (boxes h)) (length (lists h)) o
                children eq_refl IH [] h0)
      as (h' & Hrun & A1 & A2 & A3 & A4 & A5 & A6 & A7).
    + unfold h0. cbn [boxes]. rewrite length_app. cbn. lia.
    + unfold h0. cbn [lists]. rewrite length_app. cbn. lia.
    + unfold h0. cbn [boxes]. rewrite lookup_app_r by lia.
      rewrite Nat.sub_diag. reflexivity.
    + unfold h0. cbn [lists]. rewrite lookup_app_r by lia.
      rewrite Nat.sub_diag. reflexivity.
    + exact I.
    + cbn [app] in *. exists h'. split.
      { rewrite load_Box, M_bind_eq.
        change (Box_init c e h) with (Ok (length (boxes h), h0)).
        cbv beta iota. rewrite M_bind_eq, Hrun. reflexivity. }
      rewrite size_Box, lsize_Box.
      split; [lia|]. split; [lia|].
      split. { intros r Hr. rewrite A6 by exact Hr. apply lookup_app_l. exact Hr. }
      split. { intros l Hl. rewrite A7 by exact Hl. apply lookup_app_l. exact Hl. }
      cbn [placed]. split; [exact A3|]. split; [exact A4|exact A5].
Qed.

(** ** Reading a tree back *)

Lemma extract_S (fuel : nat) (h : heap) (r : ref) :
  extract (S fuel) h r
  = (o ← boxes h !! r;
     match o_children o with
     | None => t ← o_text o; Some (Text (o_element o) t)
     | Some l =>
         xs ← lists h !! l;
         children ← mapM (extract fuel h) xs;
         Some (Box (o_cls o) (o_element o) children)
     end).
Proof. reflexivity. Qed.

Lemma extract_roots (h : heap) (q : option ref) (fuel : nat)
    (ts : list box) :
  Forall (λ b, ∀ p a la, placed h p a la b → (size b ≤ fuel)%nat →
               extract fuel h a = Some b) ts →
  ∀ a la, placed_list (placed h q) a la ts → (fsize ts ≤ fuel)%nat →
          mapM (extract fuel h) (roots a ts) = Some ts.
Proof.
  intros HF a la Hp Hfuel. apply mapM_Some. revert a la Hp Hfuel.
  induction HF as [|t ts Ht _ IH]; intros a la Hp Hfuel; [constructor|].
  destruct Hp as [H1 H2]. rewrite fsize_cons in Hfuel. cbn [roots].
  constructor; [apply (Ht _ _ _ H1); lia|apply (IH _ _ H2); lia].
Qed.

Lemma extract_placed (h : heap) (b : box) :
  ∀ fuel p a la, placed h p a la b → (size b ≤ fuel)%nat →
                 extract fuel h a = Some b.
Proof.
  induction b as [e t|c e children IH] using box_ind'; intros fuel p a la.
  - cbn [placed size]. intros Hb Hfuel.
    destruct fuel as [|fuel]; [lia|]. rewrite extract_S, Hb. reflexivity.
  - cbn [placed]. rewrite size_Box. intros (Hb & Hl & Hch) Hfuel.
    destruct fuel as [|fuel]; [lia|]. rewrite extract_S, Hb. cbn.
    rewrite Hl. cbn.
    rewrite (extract_roots h (Some a) fuel children) with (la := (la + 1)%nat);
      [reflexivity| |exact Hch|lia].
    eapply Forall_impl; [exact IH|]. cbn. intros b Hb' p' a' la'.
    apply Hb'.
Qed.

(** ** Passing over the boxes that need no splitting *)

Lemma bii_unfold (fuel : nat) (box : ref) (h : heap) :
  block_in_inline (S fuel) box h
  = (c ← get_cls box;
     (if isinstance_BlockLevelBox c then
        inl ← parent_is_inline box;
        if inl : bool then split box else mret tt
      else mret tt);;
     visit_children fuel box) h.
Proof. reflexivity. Qed.

Lemma loop_end (rec : ref → M unit) (l : ref) (h : heap) (xs : list ref)
    (n i : nat) :
  lists h !! l = Some xs → (length xs ≤ i)%nat →
  child_boxes_loop rec l (S n) i h = Ok (tt, h).
Proof.
  intros Hl Hi. simpl. rewrite M_bind_eq, (get_list_eq _ _ _ Hl).
  rewrite lookup_ge_None_2 by exact Hi. reflexivity.
Qed.

Lemma loop_step (rec : ref → M unit) (l : ref) (h h1 : heap) (xs : list ref)
    (n i : nat) (c : ref) :
  lists h !! l = Some xs → xs !! i = Some c → rec c h = Ok (tt, h1) →
  child_boxes_loop rec l (S n) i h = child_boxes_loop rec l n (S i) h1.
Proof.
  intros Hl Hi Hrec. simpl. rewrite M_bind_eq, (get_list_eq _ _ _ Hl), Hi.
  rewrite M_bind_eq, Hrec. reflexivity.
Qed.

(** A loop over children that are all passed over. *)
Lemma loop_id (rec : ref → M unit) (l : ref) (h : heap) (xs : list ref) :
  lists h !! l = Some xs →
  ∀ n i, (∀ c, c ∈ drop i xs → rec c h = Ok (tt, h)) →
         (length xs - i < n)%nat →
         child_boxes_loop rec l n i h = Ok (tt, h).
Proof.
  intros Hl. induction n as [|n IH]; intros i Hrec Hn; [lia|].
  destruct (xs !! i) as [c|] eqn:Hi.
  - rewrite (loop_step _ _ _ h _ _ _ _ Hl Hi).
    + apply IH.
      * intros c' Hc'. apply Hrec. rewrite (drop_S _ _ _ Hi). right. exact Hc'.
      * apply lookup_lt_Some in Hi. lia.
    + apply Hrec. rewrite (drop_S _ _ _ Hi). left.
  - apply (loop_end _ _ _ _ _ _ Hl). apply lookup_ge_None. exact Hi.
Qed.

Lemma has_block_is_block (b : box) : is_block b = true → has_block b = true.
Proof.
  destruct b as [c e ch|e t]; [|discriminate]. unfold is_block. cbn.
  intros ->. reflexivity.
Qed.

Lemma bii_placed (h : heap) (b : box) :
  ∀ fuel p a la,
    placed h p a la b → block_free_inlines b = true → parent_ok h p b →
    (size b < fuel)%nat →
    block_in_inline fuel a h = Ok (tt, h).
Proof.
  induction b as [e t|c e children IH] using box_ind'; intros fuel p a la.
  - cbn [placed size]. intros Hb _ _ Hfuel.
    destruct fuel as [|fuel]; [lia|].
    rewrite bii_unfold, M_bind_eq, (get_cls_eq _ _ _ Hb). cbn [o_cls].
    cbn [isinstance_BlockLevelBox]. rewrite M_bind_eq.
    unfold mret at 1, M_ret at 1. unfold visit_children.
    rewrite M_bind_eq, (get_children_eq _ _ _ Hb). reflexivity.
  - cbn [placed]. rewrite size_Box. intros (Hb & Hl & Hch) Hfree Hpar Hfuel.
    destruct fuel as [|fuel]; [lia|].
    rewrite bii_unfold, M_bind_eq, (get_cls_eq _ _ _ Hb). cbn [o_cls].
    assert (Htest : (if isinstance_BlockLevelBox c
                     then inl ← parent_is_inline a;
                          if inl : bool then split a else mret tt
                     else mret tt) h = Ok (tt, h)).
    { destruct (isinstance_BlockLevelBox c) eqn:Hc; [|reflexivity].
      destruct p as [q|].
      - destruct Hpar as (po & Hpo & Hq).
        rewrite M_bind_eq,
          (parent_is_inline_eq h a q _ po Hb eq_refl Hpo), (Hq Hc).
        reflexivity.
      - rewrite M_bind_eq, (parent_is_inline_root h a _ Hb eq_refl).
        reflexivity. }
    rewrite M_bind_eq, Htest. unfold visit_children.
    rewrite M_bind_eq, (get_children_eq _ _ _ Hb). cbn [o_children].
    rewrite M_bind_eq, (get_list_eq _ _ _ Hl).
    destruct (nonempty (roots (a + 1) children)); [|reflexivity].
    apply (loop_id _ _ _ _ Hl).
    2:{ rewrite roots_length. pose proof (fsize_length children). lia. }
    intros x Hx. rewrite drop_0 in Hx.
    destruct (placed_list_root _ _ _ _ _ Hch Hx) as (t & lt & Ht & Hpt).
    cbn [block_free_inlines] in Hfree.
    apply andb_true_iff in Hfree as [Hinl Hfree].
    rewrite forallb_forall in Hfree.
    rewrite Forall_forall in IH.
    apply (IH t Ht fuel (Some a) x lt Hpt).
    + apply Hfree. apply list_elem_of_In. exact Ht.
    + exists (Obj c e p (Some la) None). split; [exact Hb|].
      intros Hblock. cbn [o_cls].
      destruct (isinstance_InlineLevelBox c) eqn:Hc; [|reflexivity].
      apply negb_true_iff in Hinl.
      assert (Hex : existsb has_block children = true).
      { apply existsb_exists. exists t. split;
          [apply list_elem_of_In; exact Ht|apply has_block_is_block, Hblock]. }
      congruence.
    + assert (size t ≤ fsize children)%nat.
      { clear -Ht. induction Ht as [t l|t t' l _ IHl];
          rewrite fsize_cons; lia. }
      lia.
Qed.

(** X14: on a tree in which no inline-level box holds a block-level box
    at any depth, [block_in_inline] changes nothing: run on the root, it
    returns, and the tree is the one given.  More fuel than the tree has
    boxes is enough. *)
Theorem block_in_inline_leaves_settled_tree (b : box) (fuel : nat) :
  block_free_inlines b = true → (size b < fuel)%nat →
  run_block_in_inline fuel b = Ok b.
Proof.
  intros Hfree Hfuel.
  destruct (load_placed b empty_heap) as (h & Hload & _ & _ & _ & _ & Hp).
  cbn [empty_heap boxes lists length] in Hload, Hp.
  unfold run_block_in_inline.
  rewrite M_bind_eq, Hload, M_bind_eq.
  rewrite (bii_placed h b fuel None 0 0 Hp Hfree I Hfuel).
  cbn. rewrite (extract_placed h b fuel None 0 0 Hp) by lia. reflexivity.
Qed.

Lemma block_in_inline_leaves_settled_tree_witness :
  run_block_in_inline 5
    (Box BlockLevelBox (Element "block" None None [])
       [Box LineBox (Element "block" None None [])
          [Box InlineLevelBox (Element "inline" (Some "a") None [])
             [Text (Element "inline" (Some "a") None []) "a"]]])
  = Ok (Box BlockLevelBox (Element "block" None None [])
          [Box LineBox (Element "block" None None [])
             [Box InlineLevelBox (Element "inline" (Some "a") None [])
                [Text (Element "inline" (Some "a") None []) "a"]]]).
Proof.
  apply block_in_inline_leaves_settled_tree; [reflexivity|].
  vm_compute. lia.
Defined.

(** ** The pass, on every tree *)

Lemma M_ret_bind {A B} (a : A) (f : A → M B) (h : heap) :
  (mret a ≫= f) h = f a h.
Proof. reflexivity. Qed.

Lemma mret_eq {A} (a : A) (h : heap) : (mret a : M A) h = Ok (a, h).
Proof. reflexivity. Qed.

(* field updates *)

Lemma set_box_eq h r o : set_box r o h = Ok (tt, Heap (<[r:=o]> (boxes h)) (lists h)).
Proof. reflexivity. Qed.
Lemma new_box_eq h o : new_box o h = Ok (length (boxes h), Heap (boxes h ++ [o]) (lists h)).
Proof. reflexivity. Qed.
Lemma new_list_eq h xs : new_list xs h = Ok (length (lists h), Heap (boxes h) (lists h ++ [xs])).
Proof. reflexivity. Qed.
Lemma set_list_eq h l xs : set_list l xs h = Ok (tt, Heap (boxes h) (<[l:=xs]> (lists h))).
Proof. reflexivity. Qed.

Lemma set_children_eq h r o l :
  boxes h !! r = Some o →
  set_children r l h = Ok (tt, Heap (<[r:=with_children l o]> (boxes h)) (lists h)).
Proof. intros H. unfold set_children. rewrite M_bind_eq, (get_box_eq _ _ _ H). reflexivity. Qed.

Lemma Box_init_eq h c e :
  Box_init c e h =
    Ok (length (boxes h),
        Heap (boxes h ++ [Obj c e None (Some (length (lists h))) None]) (lists h ++ [[]])).
Proof. reflexivity. Qed.

Lemma add_child_eq h self child index oc os l xs :
  boxes h !! child = Some oc →
  self ≠ child →
  boxes h !! self = Some os →
  o_children os = Some l →
  lists h !! l = Some xs →
  add_child self child index h =
    Ok (tt, Heap (<[child:=with_parent (Some self) oc]> (boxes h))
                 (<[l:=ins index child xs]> (lists h))).
Proof.
  intros Hc Hne Hs Hl Hxs. unfold add_child.
  rewrite M_bind_eq, (set_parent_eq _ _ _ _ Hc).
  rewrite M_bind_eq.
  assert (Hs' : boxes (Heap (<[child:=with_parent (Some self) oc]> (boxes h)) (lists h)) !! self = Some os).
  { simpl. rewrite list_lookup_insert_ne; auto. }
  rewrite (get_children_eq _ _ _ Hs'), Hl. simpl.
  rewrite M_ret_bind, M_bind_eq. unfold get_list at 1. simpl. rewrite Hxs.
  destruct index; reflexivity.
Qed.

(** list operations on a list cut around an element *)
Lemma list_index_app (x : ref) (pre post : list ref) :
  x ∉ pre → list_index x (pre ++ x :: post) = Some (length pre).
Proof.
  induction pre as [|y pre IH]; simpl; intros Hx.
  - rewrite Nat.eqb_refl. reflexivity.
  - apply not_elem_of_cons in Hx as [Hne Hx].
    destruct (Nat.eqb_spec x y) as [->|_]; [contradiction|].
    rewrite (IH Hx). reflexivity.
Qed.

Lemma list_remove_app (x : ref) (pre post : list ref) :
  x ∉ pre → list_remove x (pre ++ x :: post) = Some (pre ++ post).
Proof.
  induction pre as [|y pre IH]; simpl; intros Hx.
  - rewrite Nat.eqb_refl. reflexivity.
  - apply not_elem_of_cons in Hx as [Hne Hx].
    destruct (Nat.eqb_spec x y) as [->|_]; [contradiction|].
    rewrite (IH Hx). reflexivity.
Qed.

Lemma list_insert_at_app (x : ref) (pre post : list ref) :
  list_insert_at (length pre) x (pre ++ post) = pre ++ x :: post.
Proof.
  unfold list_insert_at. rewrite take_app_length, drop_app_length. reflexivity.
Qed.

Lemma index_eq (h : heap) (self p l : ref) (o po : obj) (pre post : list ref) :
  boxes h !! self = Some o → o_parent o = Some p →
  boxes h !! p = Some po → o_children po = Some l →
  lists h !! l = Some (pre ++ self :: post) → self ∉ pre →
  index self h = Ok (Some (length pre), h).
Proof.
  intros Hs Hp Hpo Hl Hxs Hpre. unfold index.
  rewrite M_bind_eq, (get_parent_eq _ _ _ Hs), Hp.
  rewrite M_bind_eq, (get_children_eq _ _ _ Hpo), Hl. cbn [deref]. rewrite M_ret_bind.
  rewrite M_bind_eq, (get_list_eq _ _ _ Hxs), (list_index_app _ _ _ Hpre).
  reflexivity.
Qed.

Lemma index_plus_1_eq (h : heap) (self p l : ref) (o po : obj) (pre post : list ref) :
  boxes h !! self = Some o → o_parent o = Some p →
  boxes h !! p = Some po → o_children po = Some l →
  lists h !! l = Some (pre ++ self :: post) → self ∉ pre →
  index_plus_1 self h = Ok (length pre + 1, h).
Proof.
  intros Hs Hp Hpo Hl Hxs Hpre. unfold index_plus_1.
  rewrite M_bind_eq, (index_eq _ _ _ _ _ _ _ _ Hs Hp Hpo Hl Hxs Hpre).
  reflexivity.
Qed.

Lemma insert_alter {A} (f : A → A) (l : list A) (i : nat) (x : A) :
  l !! i = Some x → <[i:=f x]> l = alter f i l.
Proof.
  intros H. apply list_eq. intros j.
  destruct (decide (i = j)) as [<-|Hne].
  - rewrite list_lookup_insert_eq by (eapply lookup_lt_Some; eauto).
    rewrite list_lookup_alter_eq, H. reflexivity.
  - rewrite list_lookup_insert_ne, list_lookup_alter_ne by assumption. reflexivity.
Qed.

Lemma set_parent_alter h r o p :
  boxes h !! r = Some o →
  set_parent r p h = Ok (tt, Heap (alter (with_parent p) r (boxes h)) (lists h)).
Proof. intros H. rewrite (set_parent_eq _ _ _ _ H), (insert_alter _ _ _ _ H). reflexivity. Qed.

Lemma set_children_alter h r o l :
  boxes h !! r = Some o →
  set_children r l h = Ok (tt, Heap (alter (with_children l) r (boxes h)) (lists h)).
Proof. intros H. rewrite (set_children_eq _ _ _ _ H), (insert_alter _ _ _ _ H). reflexivity. Qed.

Lemma add_child_alter h self child index oc os l xs :
  boxes h !! child = Some oc →
  self ≠ child →
  boxes h !! self = Some os →
  o_children os = Some l →
  lists h !! l = Some xs →
  add_child self child index h =
    Ok (tt, Heap (alter (with_parent (Some self)) child (boxes h))
                 (<[l:=ins index child xs]> (lists h))).
Proof.
  intros Hc Hne Hs Hl Hxs.
  rewrite (add_child_eq _ _ _ _ _ _ _ _ Hc Hne Hs Hl Hxs), (insert_alter _ _ _ _ Hc).
  reflexivity.
Qed.

(** Adding a freshly created box (the last of the store). *)
Lemma add_child_new bs ls self c e l index os xs :
  bs !! self = Some os → o_children os = Some l → ls !! l = Some xs →
  (l < length ls)%nat →
  add_child self (length bs) index
    (Heap (bs ++ [Obj c e None (Some (length ls)) None]) (ls ++ [[]])) =
  Ok (tt, Heap (bs ++ [Obj c e (Some self) (Some (length ls)) None])
               (<[l:=ins index (length bs) xs]> ls ++ [[]])).
Proof.
  intros Hs Hl Hxs Hlt.
  rewrite (add_child_alter _ self (length bs) index
             (Obj c e None (Some (length ls)) None) os l xs); simpl.
  - rewrite alter_app_r_alt by lia. rewrite Nat.sub_diag. simpl.
    rewrite insert_app_l by assumption. reflexivity.
  - apply list_lookup_middle. reflexivity.
  - intros ->. apply lookup_lt_Some in Hs. lia.
  - apply lookup_app_l_Some. assumption.
  - assumption.
  - apply lookup_app_l_Some. assumption.
Qed.

Lemma clone_exec :
  ∀ (Js : list ref) (es : list element) (t lt : ref) (h : heap) (ot : obj),
    Forall2 (λ J e, element_of h J = Some e) Js es →
    boxes h !! t = Some ot → o_children ot = Some lt →
    lists h !! lt = Some [] →
    clone_inline_parents Js (Some t) h
    = Ok (Some (last_clone es t h), clone_heap es t lt h).
Proof.
  intros Js es. revert Js. induction es as [|e es IH]; intros Js t lt h ot HF Ht Hlt Hl.
  { inversion HF; subst. reflexivity. }
  inversion HF as [|J e' Js' es' HJ HF']; subst. simpl.
  unfold element_of in HJ. destruct (boxes h !! J) as [oJ|] eqn:EJ; [|discriminate].
  injection HJ as HJ.
  rewrite M_bind_eq, (get_element_eq _ _ _ EJ), HJ.
  rewrite M_bind_eq, Box_init_eq. rewrite M_ret_bind.
  assert (Hltl : (lt < length (lists h))%nat) by (eapply lookup_lt_Some; eauto).
  rewrite M_bind_eq, (add_child_new _ _ _ _ _ _ _ _ _ Ht Hlt Hl Hltl).
  simpl ins.
  erewrite IH.
  - f_equal. f_equal. f_equal. unfold last_clone. simpl.
    rewrite length_app. simpl. destruct es; simpl; lia.
  - eapply Forall2_impl; [exact HF'|]. intros J' e'' H. unfold element_of in *.
    simpl. destruct (boxes h !! J') eqn:E'; [|discriminate].
    rewrite (lookup_app_l_Some _ _ _ _ E'). assumption.
  - simpl. apply list_lookup_middle. reflexivity.
  - reflexivity.
  - simpl. rewrite lookup_app_r by (rewrite length_insert; lia).
    rewrite length_insert, Nat.sub_diag. reflexivity.
Qed.

Lemma add_children_heap_lengths c lc post h :
  length (boxes (add_children_heap c lc post h)) = length (boxes h)
  ∧ length (lists (add_children_heap c lc post h)) = length (lists h).
Proof.
  revert h. induction post as [|s post IH]; intros h; simpl; [auto|].
  destruct (IH (Heap (alter (with_parent (Some c)) s (boxes h))
                     (alter (λ xs, xs ++ [s]) lc (lists h)))) as [H1 H2].
  unfold add_children_heap in *. rewrite H1, H2. cbn [boxes lists].
  rewrite !length_alter. auto.
Qed.

Lemma add_children_exec :
  ∀ (post : list ref) (c lc : ref) (h : heap),
    Forall (λ s, s < length (boxes h))%nat post →
    c ∉ post → clist h c = Some lc → (lc < length (lists h))%nat →
    add_children (Some c) post h = Ok (tt, add_children_heap c lc post h).
Proof.
  induction post as [|s post IH]; intros c lc h Hex Hc Hcl Hlc; [reflexivity|].
  simpl. apply Forall_cons in Hex as [Hs Hex].
  apply not_elem_of_cons in Hc as [Hcs Hc].
  rewrite M_ret_bind.
  destruct (lookup_lt_is_Some_2 _ _ Hs) as [os Hos].
  destruct (lookup_lt_is_Some_2 _ _ Hlc) as [xs Hxs].
  unfold clist in Hcl. destruct (boxes h !! c) as [oc|] eqn:Eoc; [|discriminate].
  simpl in Hcl.
  rewrite M_bind_eq, (add_child_alter _ _ _ None _ _ _ _ Hos Hcs Eoc Hcl Hxs).
  simpl ins.
  replace (alter (λ xs0 : list ref, xs0 ++ [s]) lc (lists h))
    with (<[lc:=xs ++ [s]]> (lists h))
    by (exact (insert_alter (λ xs0, xs0 ++ [s]) _ _ _ Hxs)).
  apply IH; cbn [boxes lists].
  - rewrite length_alter. assumption.
  - assumption.
  - unfold clist. cbn [boxes lists]. rewrite list_lookup_alter_ne by auto.
    rewrite Eoc. assumption.
  - rewrite length_insert. assumption.
Qed.

Lemma add_children_heap_cons c lc s post h :
  add_children_heap c lc (s :: post) h
  = add_children_heap c lc post
      (Heap (alter (with_parent (Some c)) s (boxes h))
            (alter (λ xs, xs ++ [s]) lc (lists h))).
Proof. reflexivity. Qed.

Lemma parent_of_alter_children (bs : list obj) (ls : list (list ref)) l J r :
  parent_of (Heap (alter (with_children l) J bs) ls) r = parent_of (Heap bs ls) r.
Proof.
  unfold parent_of. cbn [boxes]. destruct (decide (J = r)) as [->|Hne].
  - rewrite list_lookup_alter_eq. destruct (bs !! r); reflexivity.
  - rewrite list_lookup_alter_ne by assumption. reflexivity.
Qed.

Lemma clist_alter_parent (bs : list obj) (ls : list (list ref)) p s r :
  clist (Heap (alter (with_parent p) s bs) ls) r = clist (Heap bs ls) r.
Proof.
  unfold clist. cbn [boxes]. destruct (decide (s = r)) as [->|Hne].
  - rewrite list_lookup_alter_eq. destruct (bs !! r); reflexivity.
  - rewrite list_lookup_alter_ne by assumption. reflexivity.
Qed.

Lemma clist_alter_children_ne (bs : list obj) (ls : list (list ref)) l J r :
  r ≠ J →
  clist (Heap (alter (with_children l) J bs) ls) r = clist (Heap bs ls) r.
Proof.
  intros Hne. unfold clist. cbn [boxes].
  rewrite list_lookup_alter_ne by auto. reflexivity.
Qed.

Lemma add_children_heap_parent c lc post h r :
  r ∉ post →
  parent_of (add_children_heap c lc post h) r = parent_of h r.
Proof.
  revert h. induction post as [|s post IH]; intros h Hr; [reflexivity|].
  apply not_elem_of_cons in Hr as [Hrs Hr].
  rewrite add_children_heap_cons, IH by assumption.
  unfold parent_of. cbn [boxes]. rewrite list_lookup_alter_ne by auto. reflexivity.
Qed.

Lemma add_children_heap_parent_in c lc post h r :
  r ∈ post → (r < length (boxes h))%nat →
  parent_of (add_children_heap c lc post h) r = Some c.
Proof.
  revert h. induction post as [|s post IH]; intros h Hr Hlt; [inversion Hr|].
  rewrite add_children_heap_cons. destruct (decide (r ∈ post)) as [Hin|Hnin].
  - apply IH; [assumption|]. cbn [boxes]. rewrite length_alter. assumption.
  - apply elem_of_cons in Hr as [->|Hr]; [|contradiction].
    rewrite add_children_heap_parent by assumption.
    unfold parent_of. cbn [boxes]. rewrite list_lookup_alter_eq.
    destruct (lookup_lt_is_Some_2 _ _ Hlt) as [o ->]. reflexivity.
Qed.

Lemma add_children_heap_clist c lc post h r :
  clist (add_children_heap c lc post h) r = clist h r.
Proof.
  revert h. induction post as [|s post IH]; intros h; [reflexivity|].
  rewrite add_children_heap_cons, IH, clist_alter_parent.
  destruct h; reflexivity.
Qed.

Lemma add_children_heap_lists_ne c lc post h l :
  l ≠ lc → lists (add_children_heap c lc post h) !! l = lists h !! l.
Proof.
  revert h. induction post as [|s post IH]; intros h Hl; [reflexivity|].
  rewrite add_children_heap_cons, IH by assumption.
  cbn [lists]. rewrite list_lookup_alter_ne by auto. reflexivity.
Qed.

Lemma add_children_heap_lists_eq c lc post h xs :
  lists h !! lc = Some xs →
  lists (add_children_heap c lc post h) !! lc = Some (xs ++ post).
Proof.
  revert h xs. induction post as [|s post IH]; intros h xs Hxs.
  - rewrite app_nil_r. assumption.
  - rewrite add_children_heap_cons. rewrite (IH _ (xs ++ [s])).
    + rewrite <- app_assoc. reflexivity.
    + cbn [lists]. rewrite list_lookup_alter_eq, Hxs. reflexivity.
Qed.

Lemma add_children_heap_cls c lc post h r :
  cls_of (add_children_heap c lc post h) r = cls_of h r
  ∧ element_of (add_children_heap c lc post h) r = element_of h r.
Proof.
  revert h. induction post as [|s post IH]; intros h; [auto|].
  rewrite add_children_heap_cons.
  destruct (IH (Heap (alter (with_parent (Some c)) s (boxes h))
                     (alter (λ xs, xs ++ [s]) lc (lists h)))) as [-> ->].
  unfold cls_of, element_of. cbn [boxes].
  destruct (decide (s = r)) as [->|Hne].
  - rewrite list_lookup_alter_eq. destruct (boxes h !! r); auto.
  - rewrite list_lookup_alter_ne by assumption. auto.
Qed.

Lemma move_level_lengths lv h :
  length (boxes (move_level lv h)) = length (boxes h)
  ∧ length (lists (move_level lv h)) = S (length (lists h)).
Proof.
  unfold move_level.
  destruct (add_children_heap_lengths (lv_c lv) (lv_lc lv) (lv_post lv)
    (Heap (alter (with_children (Some (length (lists h)))) (lv_J lv) (boxes h))
          (lists h ++ [lv_pre lv]))) as [-> ->].
  cbn [boxes lists]. rewrite length_alter, length_app. simpl. split; lia.
Qed.

Lemma move_level_parent lv h r :
  r ∉ lv_post lv → parent_of (move_level lv h) r = parent_of h r.
Proof.
  intros Hr. unfold move_level. rewrite add_children_heap_parent by assumption.
  rewrite parent_of_alter_children. unfold parent_of. reflexivity.
Qed.

Lemma move_level_parent_in lv h r :
  r ∈ lv_post lv → (r < length (boxes h))%nat →
  parent_of (move_level lv h) r = Some (lv_c lv).
Proof.
  intros Hr Hlt. unfold move_level. apply add_children_heap_parent_in; [assumption|].
  cbn [boxes]. rewrite length_alter. assumption.
Qed.

Lemma move_level_clist_ne lv h r :
  r ≠ lv_J lv → clist (move_level lv h) r = clist h r.
Proof.
  intros Hr. unfold move_level. rewrite add_children_heap_clist.
  unfold clist. cbn [boxes]. rewrite list_lookup_alter_ne by auto. reflexivity.
Qed.

Lemma move_level_clist_eq lv h :
  (lv_J lv < length (boxes h))%nat →
  clist (move_level lv h) (lv_J lv) = Some (length (lists h)).
Proof.
  intros Hlt. unfold move_level. rewrite add_children_heap_clist.
  unfold clist. cbn [boxes]. rewrite list_lookup_alter_eq.
  destruct (lookup_lt_is_Some_2 _ _ Hlt) as [o ->]. reflexivity.
Qed.

Lemma move_level_lists_old lv h l :
  (l < length (lists h))%nat → l ≠ lv_lc lv →
  lists (move_level lv h) !! l = lists h !! l.
Proof.
  intros Hlt Hne. unfold move_level. rewrite add_children_heap_lists_ne by assumption.
  cbn [lists]. apply lookup_app_l. assumption.
Qed.

Lemma move_level_lists_new lv h :
  (lv_lc lv < length (lists h))%nat →
  lists (move_level lv h) !! length (lists h) = Some (lv_pre lv).
Proof.
  intros Hlt. unfold move_level. rewrite add_children_heap_lists_ne by lia.
  cbn [lists]. apply list_lookup_middle. reflexivity.
Qed.

Lemma move_level_lists_clone lv h xs :
  lists h !! lv_lc lv = Some xs →
  lists (move_level lv h) !! lv_lc lv = Some (xs ++ lv_post lv).
Proof.
  intros Hxs. unfold move_level. apply add_children_heap_lists_eq.
  cbn [lists]. apply lookup_app_l_Some. assumption.
Qed.

Lemma move_level_cls lv h r :
  cls_of (move_level lv h) r = cls_of h r
  ∧ element_of (move_level lv h) r = element_of h r.
Proof.
  unfold move_level.
  destruct (add_children_heap_cls (lv_c lv) (lv_lc lv) (lv_post lv)
    (Heap (alter (with_children (Some (length (lists h)))) (lv_J lv) (boxes h))
          (lists h ++ [lv_pre lv])) r) as [-> ->].
  unfold cls_of, element_of. cbn [boxes].
  destruct (decide (lv_J lv = r)) as [<-|Hne].
  - rewrite list_lookup_alter_eq. destruct (boxes h !! lv_J lv); auto.
  - rewrite list_lookup_alter_ne by assumption. auto.
Qed.

Lemma parent_of_Some h r p :
  parent_of h r = Some p → ∃ o, boxes h !! r = Some o ∧ o_parent o = Some p.
Proof.
  unfold parent_of. destruct (boxes h !! r) as [o|]; [|discriminate].
  simpl. eauto.
Qed.

Lemma lvl_sep_move_level N0 NL0 h lv lv' :
  lvl_sep N0 NL0 h lv' → lvl_sep N0 NL0 (move_level lv h) lv'.
Proof.
  unfold lvl_sep. destruct (move_level_lengths lv h) as [-> ->].
  intros (?&?&?&?&?&?&?). repeat split; auto; lia.
Qed.

Lemma lvl_ok_move_level N0 NL0 h lv sp' lv' up :
  lvl_sep N0 NL0 h lv → lvl_sep N0 NL0 h lv' →
  sp' ∉ lv_post lv → lv_J lv' ≠ lv_J lv →
  lvl_ok h sp' lv' up → lvl_ok (move_level lv h) sp' lv' up.
Proof.
  intros (HJ & Hpost & Hc & Hcl & HlJ & Hlc & Hlcl)
         (HJ' & Hpost' & Hc' & Hcl' & HlJ' & Hlc' & Hlcl') Hsp HJJ
         (H1 & H2 & H3 & H4 & H5 & H6).
  assert (Hcpost : lv_c lv' ∉ lv_post lv).
  { intros Hin. rewrite Forall_forall in Hpost. specialize (Hpost _ Hin). lia. }
  unfold lvl_ok.
  rewrite move_level_parent by assumption.
  rewrite move_level_clist_ne by assumption.
  rewrite move_level_lists_old by lia.
  rewrite move_level_clist_ne by lia.
  rewrite move_level_parent by assumption.
  auto 10.
Qed.

Lemma move_ready_move_level N0 NL0 h lv Q top :
  lvl_sep N0 NL0 h lv →
  ∀ rest sp',
    Forall (lvl_sep N0 NL0 h) rest →
    sp' ∉ lv_post lv →
    Forall (λ lv', (lv_J lv' ∉ lv_post lv) ∧ (lv_J lv' ≠ lv_J lv)) rest →
    move_ready h Q sp' rest top → move_ready (move_level lv h) Q sp' rest top.
Proof.
  intros Hsep. induction rest as [|lv' rest IH]; intros sp' Hseps Hsp Hdis; simpl.
  - rewrite move_level_parent by assumption. auto.
  - apply Forall_cons in Hseps as [Hsep' Hseps].
    apply Forall_cons in Hdis as [[HJp HJJ] Hdis].
    intros (HQ & Hok & Hready). split; [assumption|]. split.
    + eapply lvl_ok_move_level; eauto.
    + apply IH; assumption.
Qed.

Lemma move_heap_cons lv rest h :
  move_heap (lv :: rest) h = move_heap rest (move_level lv h).
Proof. reflexivity. Qed.

Lemma move_exec (N0 NL0 : nat) (Q top : ref) :
  ∀ (lvs : list lvl) (n : nat) (sp : ref) (h : heap),
    (length lvs < n)%nat →
    move_ready h Q sp lvs top →
    Forall (lvl_sep N0 NL0 h) lvs →
    lvls_apart lvs →
    move_next_children n sp Q sp (Some (up_of lvs top)) h
    = Ok (tt, move_heap lvs h).
Proof.
  induction lvs as [|lv rest IH]; intros n sp h Hn Hready Hseps Hapart.
  - destruct n as [|n]; [simpl in Hn; lia|]. simpl in Hready |- *.
    apply parent_of_Some in Hready as (o & Ho & Hp).
    rewrite M_bind_eq, (get_parent_eq _ _ _ Ho), Hp, Nat.eqb_refl. reflexivity.
  - destruct n as [|n]; [simpl in Hn; lia|]. simpl in Hn.
    destruct Hready as (HQ & Hok & Hready).
    apply Forall_cons in Hseps as [Hsep Hseps].
    destruct Hapart as (HJpost & Hdis & Hapart).
    destruct Hok as (Hpar & HclJ & Hlist & Hpre & Hclc & Hparc).
    pose proof Hsep as (HJ & Hpost & Hc & Hcl & HlJ & Hlc & Hlcl).
    apply parent_of_Some in Hpar as (osp & Hosp & Hpsp).
    apply clist_Some in HclJ as (oJ & HoJ & HlJo).
    cbn [move_next_children up_of].
    rewrite M_bind_eq, (get_parent_eq _ _ _ Hosp), Hpsp.
    destruct (Nat.eqb_spec (lv_J lv) Q) as [|_]; [contradiction|].
    rewrite M_bind_eq, (get_children_eq _ _ _ HoJ), HlJo.
    rewrite M_bind_eq,
      (index_plus_1_eq _ _ _ _ _ _ _ _ Hosp Hpsp HoJ HlJo Hlist Hpre).
    cbn [subscriptable]. rewrite M_ret_bind.
    rewrite M_bind_eq, (get_list_eq _ _ _ Hlist).
    rewrite M_bind_eq, (get_children_eq _ _ _ HoJ), HlJo.
    rewrite M_bind_eq, (index_eq _ _ _ _ _ _ _ _ Hosp Hpsp HoJ HlJo Hlist Hpre).
    cbn [subscriptable]. rewrite M_ret_bind.
    rewrite M_bind_eq, (get_list_eq _ _ _ Hlist). rewrite M_ret_bind.
    rewrite M_bind_eq, new_list_eq.
    rewrite M_bind_eq.
    rewrite (set_children_alter (Heap (boxes h) (lists h ++ [_])) _ _ _ HoJ).
    cbn [boxes lists].
    replace (drop (length (lv_pre lv) + 1) (lv_pre lv ++ sp :: lv_post lv))
      with (lv_post lv).
    2:{ rewrite drop_app_add'; [|reflexivity]. reflexivity. }
    rewrite take_app_length.
    rewrite M_bind_eq.
    assert (Hcpost : lv_c lv ∉ lv_post lv).
    { intros Hin. rewrite Forall_forall in Hpost. specialize (Hpost _ Hin). lia. }
    rewrite (add_children_exec (lv_post lv) (lv_c lv) (lv_lc lv)).
    + fold (move_level lv h). cbn [deref]. rewrite M_ret_bind.
      assert (Hparc' : parent_of (move_level lv h) (lv_c lv) = Some (up_of rest top)).
      { rewrite move_level_parent by assumption. assumption. }
      apply parent_of_Some in Hparc' as (oc & Hoc & Hpc).
      rewrite M_bind_eq, (get_parent_eq _ _ _ Hoc), Hpc.
      rewrite move_heap_cons. apply IH.
      * lia.
      * eapply move_ready_move_level; eauto.
      * eapply Forall_impl; [exact Hseps|]. intros lv'. apply lvl_sep_move_level.
      * assumption.
    + cbn [boxes]. rewrite length_alter. eapply Forall_impl; [exact Hpost|].
      intros s Hs. simpl in Hs. lia.
    + assumption.
    + rewrite clist_alter_children_ne by lia. unfold clist in *. assumption.
    + cbn [lists]. rewrite length_app. simpl. lia.
Qed.

(** ** What the clone phase leaves *)

Lemma clone_heap_cons e es t lt h :
  clone_heap (e :: es) t lt h
  = clone_heap es (length (boxes h)) (length (lists h))
      (Heap (boxes h ++ [Obj InlineLevelBox e (Some t) (Some (length (lists h))) None])
            (<[lt:=[length (boxes h)]]> (lists h) ++ [[]])).
Proof. reflexivity. Qed.

Lemma clone_heap_lengths es : ∀ t lt h,
  length (boxes (clone_heap es t lt h)) = length (boxes h) + length es
  ∧ length (lists (clone_heap es t lt h)) = length (lists h) + length es.
Proof.
  induction es as [|e es IH]; intros t lt h; [simpl; lia|].
  rewrite clone_heap_cons.
  destruct (IH (length (boxes h)) (length (lists h))
    (Heap (boxes h ++ [Obj InlineLevelBox e (Some t) (Some (length (lists h))) None])
          (<[lt:=[length (boxes h)]]> (lists h) ++ [[]]))) as [-> ->].
  cbn [boxes lists]. rewrite !length_app, length_insert. simpl. lia.
Qed.

Lemma clone_heap_boxes_old es : ∀ t lt h r,
  (r < length (boxes h))%nat →
  boxes (clone_heap es t lt h) !! r = boxes h !! r.
Proof.
  induction es as [|e es IH]; intros t lt h r Hr; [reflexivity|].
  rewrite clone_heap_cons, IH.
  - cbn [boxes]. apply lookup_app_l. assumption.
  - cbn [boxes]. rewrite length_app. simpl. lia.
Qed.

Lemma clone_heap_lists_old es : ∀ t lt h l,
  (l < length (lists h))%nat → l ≠ lt →
  lists (clone_heap es t lt h) !! l = lists h !! l.
Proof.
  induction es as [|e es IH]; intros t lt h l Hl Hne; [reflexivity|].
  rewrite clone_heap_cons, IH.
  - cbn [lists]. rewrite lookup_app_l by (rewrite length_insert; assumption).
    apply list_lookup_insert_ne. auto.
  - cbn [lists]. rewrite length_app, length_insert. simpl. lia.
  - lia.
Qed.

Lemma clone_heap_boxes_new es : ∀ t lt h i e,
  es !! i = Some e →
  boxes (clone_heap es t lt h) !! (length (boxes h) + i)
  = Some (Obj InlineLevelBox e
            (Some (match i with 0 => t | S i' => length (boxes h) + i' end))
            (Some (length (lists h) + i)) None).
Proof.
  induction es as [|e0 es IH]; intros t lt h i e Hi; [discriminate|].
  rewrite clone_heap_cons. destruct i as [|i].
  - injection Hi as ->. rewrite clone_heap_boxes_old.
    + cbn [boxes]. rewrite Nat.add_0_r. rewrite list_lookup_middle by reflexivity.
      rewrite Nat.add_0_r. reflexivity.
    + cbn [boxes]. rewrite length_app. simpl. lia.
  - simpl in Hi.
    specialize (IH (length (boxes h)) (length (lists h))
      (Heap (boxes h ++ [Obj InlineLevelBox e0 (Some t) (Some (length (lists h))) None])
            (<[lt:=[length (boxes h)]]> (lists h) ++ [[]])) i e Hi).
    cbn [boxes lists] in IH. rewrite !length_app, length_insert in IH. simpl in IH.
    replace (length (boxes h) + S i) with (length (boxes h) + 1 + i) by lia.
    rewrite IH. f_equal. f_equal; [|f_equal; lia].
    destruct i; f_equal; lia.
Qed.

Lemma clone_heap_lists_tail es : ∀ t lt h,
  (lt < length (lists h))%nat →
  lists (clone_heap es t lt h) !! lt
  = match es with [] => lists h !! lt | _ => Some [length (boxes h)] end.
Proof.
  destruct es as [|e es]; intros t lt h Hlt; [reflexivity|].
  rewrite clone_heap_cons, clone_heap_lists_old.
  - cbn [lists]. rewrite lookup_app_l by (rewrite length_insert; assumption).
    apply list_lookup_insert_eq. assumption.
  - cbn [lists]. rewrite length_app, length_insert. simpl. lia.
  - cbn [lists]. lia.
Qed.

Lemma clone_heap_lists_new es : ∀ t lt h i,
  (i < length es)%nat → (lt < length (lists h))%nat →
  lists (clone_heap es t lt h) !! (length (lists h) + i)
  = Some (if decide (S i < length es)%nat then [length (boxes h) + S i] else []).
Proof.
  induction es as [|e0 es IH]; intros t lt h i Hi Hlt; [simpl in Hi; lia|].
  rewrite clone_heap_cons. destruct i as [|i].
  - rewrite Nat.add_0_r.
    rewrite clone_heap_lists_tail
      by (cbn [lists]; rewrite length_app, length_insert; simpl; lia).
    cbn [boxes lists]. destruct es as [|e1 es].
    + rewrite list_lookup_middle by (rewrite length_insert; reflexivity).
      simpl. reflexivity.
    + rewrite length_app. cbn [length].
      destruct (decide (1 < S (S (length es)))%nat) as [_|Hn]; [reflexivity|lia].
  - simpl in Hi.
    specialize (IH (length (boxes h)) (length (lists h))
      (Heap (boxes h ++ [Obj InlineLevelBox e0 (Some t) (Some (length (lists h))) None])
            (<[lt:=[length (boxes h)]]> (lists h) ++ [[]])) i ltac:(lia)).
    cbn [boxes lists] in IH. rewrite !length_app, length_insert in IH. simpl in IH.
    replace (length (lists h) + S i) with (length (lists h) + 1 + i) by lia.
    rewrite IH by lia. simpl. f_equal.
    destruct (decide (S i < length es)%nat), (decide (S (S i) < S (length es))%nat);
      try lia; [f_equal; lia|reflexivity].
Qed.

(** ** What the move phase leaves *)

Lemma move_heap_app l1 l2 h :
  move_heap (l1 ++ l2) h = move_heap l2 (move_heap l1 h).
Proof. unfold move_heap. apply foldl_app. Qed.

Lemma move_heap_lengths lvs : ∀ h,
  length (boxes (move_heap lvs h)) = length (boxes h)
  ∧ length (lists (move_heap lvs h)) = length (lists h) + length lvs.
Proof.
  induction lvs as [|lv lvs IH]; intros h; [simpl; lia|].
  rewrite move_heap_cons. destruct (IH (move_level lv h)) as [-> ->].
  destruct (move_level_lengths lv h) as [-> ->]. simpl. lia.
Qed.

Lemma move_heap_cls lvs : ∀ h r,
  cls_of (move_heap lvs h) r = cls_of h r
  ∧ element_of (move_heap lvs h) r = element_of h r.
Proof.
  induction lvs as [|lv lvs IH]; intros h r; [auto|].
  rewrite move_heap_cons. destruct (IH (move_level lv h) r) as [-> ->].
  apply move_level_cls.
Qed.

Lemma move_heap_parent_out lvs : ∀ h r,
  Forall (λ lv, r ∉ lv_post lv) lvs →
  parent_of (move_heap lvs h) r = parent_of h r.
Proof.
  induction lvs as [|lv lvs IH]; intros h r Hr; [reflexivity|].
  apply Forall_cons in Hr as [Hr Hrs].
  rewrite move_heap_cons, IH by assumption. apply move_level_parent. assumption.
Qed.

Lemma move_heap_parent_in l1 lv l2 h r :
  r ∈ lv_post lv → Forall (λ lv', r ∉ lv_post lv') l2 →
  (r < length (boxes h))%nat →
  parent_of (move_heap (l1 ++ lv :: l2) h) r = Some (lv_c lv).
Proof.
  intros Hr Hl2 Hlt. rewrite move_heap_app, move_heap_cons.
  rewrite move_heap_parent_out by assumption.
  apply move_level_parent_in; [assumption|].
  destruct (move_heap_lengths l1 h) as [-> _]. assumption.
Qed.

Lemma move_heap_clist_out lvs : ∀ h r,
  r ∉ map lv_J lvs → clist (move_heap lvs h) r = clist h r.
Proof.
  induction lvs as [|lv lvs IH]; intros h r Hr; [reflexivity|].
  simpl in Hr. apply not_elem_of_cons in Hr as [Hr Hrs].
  rewrite move_heap_cons, IH by assumption. apply move_level_clist_ne. assumption.
Qed.

Lemma move_heap_clist_in l1 lv l2 h :
  lv_J lv ∉ map lv_J l2 → (lv_J lv < length (boxes h))%nat →
  clist (move_heap (l1 ++ lv :: l2) h) (lv_J lv)
  = Some (length (lists h) + length l1).
Proof.
  intros Hl2 Hlt. rewrite move_heap_app, move_heap_cons.
  rewrite move_heap_clist_out by assumption.
  rewrite move_level_clist_eq.
  - destruct (move_heap_lengths l1 h) as [_ ->]. reflexivity.
  - destruct (move_heap_lengths l1 h) as [-> _]. assumption.
Qed.

Lemma move_heap_lists_old lvs : ∀ h l,
  (l < length (lists h))%nat → l ∉ map lv_lc lvs →
  lists (move_heap lvs h) !! l = lists h !! l.
Proof.
  induction lvs as [|lv lvs IH]; intros h l Hl Hne; [reflexivity|].
  simpl in Hne. apply not_elem_of_cons in Hne as [Hne Hnes].
  rewrite move_heap_cons, IH; [| |assumption].
  - apply move_level_lists_old; assumption.
  - destruct (move_level_lengths lv h) as [_ ->]. lia.
Qed.

Lemma move_heap_lists_clone l1 lv l2 h xs :
  lv_lc lv ∉ map lv_lc l1 → lv_lc lv ∉ map lv_lc l2 →
  lists h !! lv_lc lv = Some xs →
  lists (move_heap (l1 ++ lv :: l2) h) !! lv_lc lv = Some (xs ++ lv_post lv).
Proof.
  intros H1 H2 Hxs.
  assert (Hlt : (lv_lc lv < length (lists h))%nat) by (eapply lookup_lt_Some; eauto).
  rewrite move_heap_app, move_heap_cons.
  rewrite move_heap_lists_old; [| |assumption].
  - apply move_level_lists_clone. rewrite move_heap_lists_old; assumption.
  - destruct (move_level_lengths lv (move_heap l1 h)) as [_ ->].
    destruct (move_heap_lengths l1 h) as [_ ->]. lia.
Qed.

Lemma move_heap_lists_new l1 lv l2 h :
  Forall (λ lv', (lv_lc lv' < length (lists h))%nat) (l1 ++ lv :: l2) →
  lists (move_heap (l1 ++ lv :: l2) h) !! (length (lists h) + length l1)
  = Some (lv_pre lv).
Proof.
  intros Hlc. rewrite move_heap_app, move_heap_cons.
  apply Forall_app in Hlc as [Hl1 Hl2]. apply Forall_cons in Hl2 as [Hlv Hl2].
  destruct (move_heap_lengths l1 h) as [_ Hlen].
  rewrite move_heap_lists_old.
  - rewrite <- Hlen. apply move_level_lists_new. lia.
  - destruct (move_level_lengths lv (move_heap l1 h)) as [_ ->]. lia.
  - intros Hin. apply list_elem_of_fmap in Hin as (lv' & Heq & Hin).
    rewrite Forall_forall in Hl2. specialize (Hl2 _ Hin). lia.
Qed.

(** ** Boxes keep their class, element and text *)

Lemma same_base_refl o : same_base o o.
Proof. unfold same_base. tauto. Qed.

Lemma same_base_trans o1 o2 o3 :
  same_base o1 o2 → same_base o2 o3 → same_base o1 o3.
Proof.
  unfold same_base. intros (?&?&?&?) (?&?&?&?).
  repeat split; try congruence; tauto.
Qed.

Lemma based_refl bs : based bs bs.
Proof. intros r o' H _. exists o'. split; [assumption|apply same_base_refl]. Qed.

Lemma based_trans bs1 bs2 bs3 :
  (length bs1 ≤ length bs2)%nat →
  based bs1 bs2 → based bs2 bs3 → based bs1 bs3.
Proof.
  intros Hlen H12 H23 r o3 H3 Hr.
  destruct (H23 r o3 H3 ltac:(lia)) as (o2 & H2 & Hb23).
  destruct (H12 r o2 H2 Hr) as (o1 & H1 & Hb12).
  exists o1. split; [assumption|]. eapply same_base_trans; eauto.
Qed.

Lemma based_alter_parent (bs : list obj) p s :
  based bs (alter (with_parent p) s bs).
Proof.
  intros r o' H _. destruct (decide (s = r)) as [->|Hne].
  - rewrite list_lookup_alter_eq in H. destruct (bs !! r) as [o|]; [|discriminate].
    injection H as <-. exists o. split; [reflexivity|].
    unfold same_base. simpl. tauto.
  - rewrite list_lookup_alter_ne in H by assumption. exists o'.
    split; [assumption|apply same_base_refl].
Qed.

Lemma based_alter_children (bs : list obj) l J :
  (∀ o, bs !! J = Some o → is_Some (o_children o)) →
  based bs (alter (with_children (Some l)) J bs).
Proof.
  intros HJ r o' H _. destruct (decide (J = r)) as [->|Hne].
  - rewrite list_lookup_alter_eq in H. destruct (bs !! r) as [o|] eqn:E; [|discriminate].
    injection H as <-. exists o. split; [reflexivity|].
    unfold same_base. simpl. repeat split; auto.
  - rewrite list_lookup_alter_ne in H by assumption. exists o'.
    split; [assumption|apply same_base_refl].
Qed.

Lemma based_app (bs news : list obj) : based bs (bs ++ news).
Proof.
  intros r o' H Hr. rewrite lookup_app_l in H by assumption. exists o'.
  split; [assumption|apply same_base_refl].
Qed.

Lemma add_children_heap_based c lc post : ∀ h,
  based (boxes h) (boxes (add_children_heap c lc post h)).
Proof.
  induction post as [|s post IH]; intros h; [apply based_refl|].
  rewrite add_children_heap_cons.
  eapply based_trans; [| |apply IH].
  - cbn [boxes]. rewrite length_alter. lia.
  - apply based_alter_parent.
Qed.

Lemma add_children_heap_boxes_out c lc post : ∀ h r,
  r ∉ post → boxes (add_children_heap c lc post h) !! r = boxes h !! r.
Proof.
  induction post as [|s post IH]; intros h r Hr; [reflexivity|].
  apply not_elem_of_cons in Hr as [Hne Hr].
  rewrite add_children_heap_cons, IH by assumption.
  cbn [boxes]. apply list_lookup_alter_ne. auto.
Qed.

Lemma move_level_based lv h :
  is_Some (clist h (lv_J lv)) →
  based (boxes h) (boxes (move_level lv h)).
Proof.
  intros HJ. unfold move_level.
  eapply based_trans; [| |apply add_children_heap_based].
  - cbn [boxes]. rewrite length_alter. lia.
  - cbn [boxes]. apply based_alter_children. intros o Ho.
    unfold clist in HJ. rewrite Ho in HJ. exact HJ.
Qed.

Lemma move_level_boxes_out lv h r :
  r ≠ lv_J lv → r ∉ lv_post lv →
  boxes (move_level lv h) !! r = boxes h !! r.
Proof.
  intros Hne Hr. unfold move_level.
  rewrite add_children_heap_boxes_out by assumption.
  cbn [boxes]. apply list_lookup_alter_ne. auto.
Qed.

Lemma move_heap_boxes_out lvs : ∀ h r,
  r ∉ map lv_J lvs → Forall (λ lv, r ∉ lv_post lv) lvs →
  boxes (move_heap lvs h) !! r = boxes h !! r.
Proof.
  induction lvs as [|lv lvs IH]; intros h r HJ Hp; [reflexivity|].
  cbn [map] in HJ. apply not_elem_of_cons in HJ as [HJ HJs].
  apply Forall_cons in Hp as [Hp Hps].
  rewrite move_heap_cons, IH by assumption.
  apply move_level_boxes_out; assumption.
Qed.

Lemma move_heap_based lvs : ∀ h,
  NoDup (map lv_J lvs) →
  Forall (λ lv, is_Some (clist h (lv_J lv))) lvs →
  based (boxes h) (boxes (move_heap lvs h)).
Proof.
  induction lvs as [|lv lvs IH]; intros h Hnd HJ; [apply based_refl|].
  cbn [map] in Hnd. apply NoDup_cons in Hnd as [Hlv Hnd].
  apply Forall_cons in HJ as [HJ HJs].
  rewrite move_heap_cons.
  eapply based_trans; [|apply move_level_based; exact HJ|apply IH].
  - destruct (move_level_lengths lv h) as [-> _]. lia.
  - assumption.
  - rewrite Forall_forall in HJs |- *. intros lv' Hin.
    rewrite move_level_clist_ne; [apply HJs; assumption|].
    intros Heq. apply Hlv. rewrite <- Heq. apply list_elem_of_fmap. eauto.
Qed.

Lemma add_children_heap_boxes_in c lc post : ∀ h s,
  s ∈ post →
  boxes (add_children_heap c lc post h) !! s
  = with_parent (Some c) <$> boxes h !! s.
Proof.
  induction post as [|s0 post IH]; intros h s Hs; [inversion Hs|].
  rewrite add_children_heap_cons. destruct (decide (s ∈ post)) as [Hin|Hnin].
  - rewrite IH by assumption. cbn [boxes].
    destruct (decide (s0 = s)) as [->|Hne].
    + rewrite list_lookup_alter_eq. destruct (boxes h !! s); reflexivity.
    + rewrite list_lookup_alter_ne by assumption. reflexivity.
  - apply elem_of_cons in Hs as [->|Hs]; [|contradiction].
    rewrite add_children_heap_boxes_out by assumption.
    cbn [boxes]. apply list_lookup_alter_eq.
Qed.

Lemma move_level_boxes_in lv h s :
  s ∈ lv_post lv → s ≠ lv_J lv →
  boxes (move_level lv h) !! s = with_parent (Some (lv_c lv)) <$> boxes h !! s.
Proof.
  intros Hs Hne. unfold move_level. rewrite add_children_heap_boxes_in by assumption.
  cbn [boxes]. rewrite list_lookup_alter_ne by auto. reflexivity.
Qed.

Lemma move_heap_boxes_in l1 lv l2 h s :
  s ∈ lv_post lv →
  s ∉ map lv_J (l1 ++ lv :: l2) →
  Forall (λ lv', s ∉ lv_post lv') l1 →
  Forall (λ lv', s ∉ lv_post lv') l2 →
  boxes (move_heap (l1 ++ lv :: l2) h) !! s
  = with_parent (Some (lv_c lv)) <$> boxes h !! s.
Proof.
  intros Hs HJ H1 H2. rewrite map_app in HJ. cbn [map] in HJ.
  rewrite elem_of_app, elem_of_cons in HJ.
  rewrite move_heap_app, move_heap_cons.
  rewrite move_heap_boxes_out by tauto.
  rewrite move_level_boxes_in by tauto.
  rewrite move_heap_boxes_out by tauto. reflexivity.
Qed.

(** ** The levels of the inline chain *)

Lemma cls_of_Some h r c :
  cls_of h r = Some c → ∃ o, boxes h !! r = Some o ∧ o_cls o = c.
Proof.
  unfold cls_of. destruct (boxes h !! r) as [o|]; [|discriminate].
  simpl. intros [= <-]. eauto.
Qed.

Lemma parent_of_lt h' r p : parent_of h' r = Some p → (r < length (boxes h'))%nat.
Proof.
  intros H. apply parent_of_Some in H as (o & Ho & _).
  eapply lookup_lt_Some; eauto.
Qed.

Lemma cls_of_lt h' r c : cls_of h' r = Some c → (r < length (boxes h'))%nat.
Proof.
  intros H. apply cls_of_Some in H as (o & Ho & _).
  eapply lookup_lt_Some; eauto.
Qed.

(** ** Invariants of the store *)

Lemma children_refs_Some (h : heap) (y : ref) (ks : list ref) :
  children_refs h y = Some ks
  ↔ ∃ l, clist h y = Some l ∧ lists h !! l = Some ks.
Proof.
  unfold children_refs, clist. destruct (boxes h !! y) as [o|]; simpl.
  - destruct (o_children o) as [l|]; simpl.
    + split; [eauto|]. intros (l' & [= <-] & H). exact H.
    + split; [discriminate|]. intros (l' & [=] & _).
  - split; [discriminate|]. intros (l' & [=] & _).
Qed.

Lemma outer_cons sp r rest : outer sp (r :: rest) = outer (r_J r) rest.
Proof.
  unfold outer. cbn [map]. rewrite last_cons.
  destruct (last (map r_J rest)); reflexivity.
Qed.

Lemma rchain_kids_head h Q sp r rest :
  rchain h Q sp (r :: rest) →
  children_refs h (r_J r) = Some (r_pre r ++ sp :: r_post r).
Proof.
  intros (_ & _ & _ & Hcl & Hl & _). apply children_refs_Some. eauto.
Qed.

Lemma rchain_app h Q : ∀ r1 r2 sp,
  rchain h Q sp (r1 ++ r2) → rchain h Q (outer sp r1) r2.
Proof.
  induction r1 as [|r r1 IH]; intros r2 sp Hch; [exact Hch|].
  rewrite outer_cons. apply IH.
  destruct Hch as (_ & _ & _ & _ & _ & _ & Hrest). exact Hrest.
Qed.

Lemma rchain_cls h Q : ∀ raws sp,
  rchain h Q sp raws →
  Forall (λ r, cls_of h (r_J r) = Some InlineLevelBox) raws.
Proof.
  induction raws as [|r rest IH]; intros sp Hch; [constructor|].
  destruct Hch as (_ & Hc & _ & _ & _ & _ & Hrest).
  constructor; [assumption|eauto].
Qed.

Lemma rchain_ht h Q ht : descending h ht → ∀ raws sp,
  rchain h Q sp raws →
  Forall (λ r, (ht sp < ht (r_J r))%nat) raws ∧ (ht sp < ht Q)%nat.
Proof.
  intros Hd. induction raws as [|r rest IH]; intros sp Hch.
  - destruct Hch as (_ & ks & Hks & Hin). split; [constructor|]. eapply Hd; eauto.
  - pose proof (rchain_kids_head _ _ _ _ _ Hch) as Hks.
    destruct Hch as (_ & _ & _ & _ & _ & _ & Hrest).
    destruct (IH _ Hrest) as [IH1 IH2].
    assert (Hlt : (ht sp < ht (r_J r))%nat).
    { eapply Hd; [exact Hks|]. apply elem_of_app. right. left. }
    split; [|lia]. constructor; [exact Hlt|].
    eapply Forall_impl; [exact IH1|]. simpl. intros. lia.
Qed.

Lemma rchain_sp_notin_J h Q ht : descending h ht → ∀ raws sp,
  rchain h Q sp raws → sp ∉ map r_J raws.
Proof.
  intros Hd raws sp Hch Hin. destruct (rchain_ht _ _ _ Hd _ _ Hch) as [HF _].
  apply list_elem_of_fmap in Hin as (r & -> & Hr).
  rewrite Forall_forall in HF. specialize (HF _ Hr). lia.
Qed.

Lemma rchain_nodup h Q ht : descending h ht → ∀ raws sp,
  rchain h Q sp raws → NoDup (map r_J raws).
Proof.
  intros Hd. induction raws as [|r rest IH]; intros sp Hch; [constructor|].
  destruct Hch as (_ & _ & _ & _ & _ & _ & Hrest). cbn [map].
  constructor; [|eauto]. eapply rchain_sp_notin_J; eauto.
Qed.

Lemma rchain_parent_J h Q : ∀ raws sp J,
  rchain h Q sp raws → J ∈ map r_J raws →
  ∃ p, parent_of h J = Some p ∧ (p = Q ∨ p ∈ map r_J raws).
Proof.
  induction raws as [|r rest IH]; intros sp J Hch Hin; [inversion Hin|].
  destruct Hch as (_ & _ & _ & _ & _ & _ & Hrest). cbn [map] in *.
  apply elem_of_cons in Hin as [->|Hin].
  - destruct rest as [|r' rest'].
    + destruct Hrest as [Hp _]. exists Q. auto.
    + destruct Hrest as [Hp _]. exists (r_J r'). split; [exact Hp|].
      right. right. left.
  - destruct (IH _ _ Hrest Hin) as (p & Hp & Hcase). exists p.
    split; [exact Hp|]. destruct Hcase as [->|Hpin]; [left; reflexivity|].
    right. right. exact Hpin.
Qed.

Lemma rchain_post_parent h Q : inv h → ∀ raws sp s,
  rchain h Q sp raws → s ∈ all_posts raws →
  ∃ J, J ∈ map r_J raws ∧ parent_of h s = Some J.
Proof.
  intros Hinv. induction raws as [|r rest IH]; intros sp s Hch Hin;
    [inversion Hin|].
  pose proof (rchain_kids_head _ _ _ _ _ Hch) as Hks.
  destruct Hch as (_ & _ & _ & _ & _ & _ & Hrest).
  unfold all_posts in Hin. cbn [map concat] in *.
  apply elem_of_app in Hin as [Hin|Hin].
  - exists (r_J r). split; [left|].
    eapply inv_cons; [exact Hinv|exact Hks|].
    apply elem_of_app. right. right. exact Hin.
  - destruct (IH _ _ Hrest Hin) as (J & HJ & Hp). exists J.
    split; [right; exact HJ|exact Hp].
Qed.

Lemma rchain_posts_lt h Q : inv h → ∀ raws sp,
  rchain h Q sp raws →
  Forall (λ r, Forall (λ s, (s < length (boxes h))%nat) (r_post r)) raws.
Proof.
  intros Hinv. induction raws as [|r rest IH]; intros sp Hch; [constructor|].
  pose proof (rchain_kids_head _ _ _ _ _ Hch) as Hks.
  destruct Hch as (_ & _ & _ & _ & _ & _ & Hrest).
  constructor; [|eauto]. apply Forall_forall. intros s Hs.
  eapply inv_kids_lt; [exact Hinv|exact Hks|].
  apply elem_of_app. right. right. exact Hs.
Qed.

Lemma rchain_notin_posts h Q : inv h → ∀ raws sp,
  rchain h Q sp raws → NoDup (map r_J raws) → Q ∉ map r_J raws →
  (sp ∉ all_posts raws) ∧ ∀ J, J ∈ map r_J raws → J ∉ all_posts raws.
Proof.
  intros Hinv. induction raws as [|r rest IH]; intros sp Hch Hnd HQ.
  - split; [inversion 1|]. intros J HJ. inversion HJ.
  - pose proof (rchain_kids_head _ _ _ _ _ Hch) as Hks.
    pose proof (inv_nodup _ Hinv _ _ Hks) as Hndk.
    destruct Hch as (Hp & _ & _ & _ & _ & _ & Hrest).
    cbn [map] in *. apply NoDup_cons in Hnd as [HJr Hnd].
    apply not_elem_of_cons in HQ as [HQr HQ].
    destruct (IH _ Hrest Hnd HQ) as [IH1 IH2].
    assert (Hpost : ∀ s, s ∈ r_post r → parent_of h s = Some (r_J r)).
    { intros s Hs. eapply inv_cons; [exact Hinv|exact Hks|].
      apply elem_of_app. right. right. exact Hs. }
    unfold all_posts. cbn [map concat]. fold (all_posts rest). split.
    + intros Hin. apply elem_of_app in Hin as [Hin|Hin].
      * apply NoDup_app in Hndk as (_ & _ & Hndk).
        apply NoDup_cons in Hndk as [Hndk _]. contradiction.
      * destruct (rchain_post_parent _ _ Hinv _ _ _ Hrest Hin) as (J & HJ & HpJ).
        rewrite Hp in HpJ. injection HpJ as <-. contradiction.
    + intros J HJ Hin. apply elem_of_cons in HJ as [->|HJ].
      * apply elem_of_app in Hin as [Hin|Hin]; [|contradiction].
        specialize (Hpost _ Hin).
        destruct rest as [|r' rest'].
        -- destruct Hrest as [Hp' _]. rewrite Hp' in Hpost.
           injection Hpost as Heq. apply HQr. exact Heq.
        -- destruct Hrest as [Hp' _]. rewrite Hp' in Hpost.
           injection Hpost as Heq. apply HJr. rewrite <- Heq. left.
      * apply elem_of_app in Hin as [Hin|Hin]; [|exact (IH2 _ HJ Hin)].
        specialize (Hpost _ Hin).
        destruct (rchain_parent_J _ _ _ _ _ Hrest HJ) as (p & Hp' & Hcase).
        rewrite Hp' in Hpost. injection Hpost as Heq.
        destruct Hcase as [Hc|Hc]; [apply HQr; congruence|].
        apply HJr. rewrite <- Heq. exact Hc.
Qed.

Lemma rchain_posts_nodup h Q : inv h → ∀ raws sp,
  rchain h Q sp raws → NoDup (map r_J raws) → NoDup (all_posts raws).
Proof.
  intros Hinv. induction raws as [|r rest IH]; intros sp Hch Hnd; [constructor|].
  pose proof (rchain_kids_head _ _ _ _ _ Hch) as Hks.
  pose proof (inv_nodup _ Hinv _ _ Hks) as Hndk.
  destruct Hch as (Hp & _ & _ & _ & _ & _ & Hrest).
  cbn [map] in *. apply NoDup_cons in Hnd as [HJr Hnd].
  unfold all_posts. cbn [map concat]. fold (all_posts rest).
  apply NoDup_app. split; [|split].
  - apply NoDup_app in Hndk as (_ & _ & Hndk).
    apply NoDup_cons in Hndk as [_ Hndk]. exact Hndk.
  - intros s Hs Hin.
    destruct (rchain_post_parent _ _ Hinv _ _ _ Hrest Hin) as (J & HJ & HpJ).
    assert (Hps : parent_of h s = Some (r_J r)).
    { eapply inv_cons; [exact Hinv|exact Hks|].
      apply elem_of_app. right. right. exact Hs. }
    rewrite Hps in HpJ. injection HpJ as <-. contradiction.
  - eauto.
Qed.

Lemma block_not_inline (c : cls) :
  isinstance_BlockLevelBox c = true → c ≠ InlineLevelBox.
Proof. intros H ->. discriminate. Qed.

Lemma decomp_at {A} (l : list A) (i : nat) :
  (i < length l)%nat → ∃ l1 a l2, l = l1 ++ a :: l2 ∧ length l2 = i.
Proof.
  intros Hi.
  destruct (lookup_lt_is_Some_2 l (length l - 1 - i)) as [a Ha]; [lia|].
  exists (take (length l - 1 - i) l), a, (drop (S (length l - 1 - i)) l).
  split; [symmetry; apply take_drop_middle; exact Ha|].
  rewrite length_drop. lia.
Qed.

Lemma decomp_unique {A} (l1 l2 l1' l2' : list A) (a a' : A) :
  l1 ++ a :: l2 = l1' ++ a' :: l2' → length l2 = length l2' →
  l1 = l1' ∧ a = a' ∧ l2 = l2'.
Proof.
  intros Heq Hlen.
  assert (Hl : length l1 = length l1').
  { apply (f_equal length) in Heq. rewrite !length_app in Heq. simpl in Heq. lia. }
  apply app_inj_1 in Heq as [-> Heq]; [|exact Hl].
  injection Heq as -> ->. auto.
Qed.

Lemma based_cls (bs bs' : list obj) (r : ref) :
  based bs bs' → (length bs ≤ length bs')%nat → (r < length bs)%nat →
  o_cls <$> bs' !! r = o_cls <$> bs !! r.
Proof.
  intros Hb Hlen Hr.
  destruct (lookup_lt_is_Some_2 bs' r) as [o' Ho']; [lia|].
  destruct (Hb _ _ Ho' Hr) as (o & Ho & Hc & _).
  rewrite Ho, Ho'. simpl. congruence.
Qed.

Lemma based_element (bs bs' : list obj) (r : ref) :
  based bs bs' → (length bs ≤ length bs')%nat → (r < length bs)%nat →
  o_element <$> bs' !! r = o_element <$> bs !! r.
Proof.
  intros Hb Hlen Hr.
  destruct (lookup_lt_is_Some_2 bs' r) as [o' Ho']; [lia|].
  destruct (Hb _ _ Ho' Hr) as (o & Ho & _ & He & _).
  rewrite Ho, Ho'. simpl. congruence.
Qed.

Lemma NoDup_fmap_decomp {A B} (f : A → B) (l1 l2 l1' l2' : list A) (a a' : A) :
  NoDup (map f (l1 ++ a :: l2)) → l1 ++ a :: l2 = l1' ++ a' :: l2' →
  f a = f a' → l1 = l1' ∧ a = a' ∧ l2 = l2'.
Proof.
  revert l1'. induction l1 as [|b l1 IH]; intros l1' Hnd Heq Hf.
  - destruct l1' as [|b' l1']; simpl in *.
    + injection Heq as -> ->. auto.
    + injection Heq as -> ->. apply NoDup_cons in Hnd as [Hnin _].
      exfalso. apply Hnin. rewrite Hf. rewrite map_app. apply elem_of_app.
      right. left.
  - destruct l1' as [|b' l1']; simpl in *.
    + injection Heq as -> <-. apply NoDup_cons in Hnd as [Hnin _].
      exfalso. apply Hnin. rewrite <- Hf. rewrite map_app. apply elem_of_app.
      right. left.
    + injection Heq as -> Heq. apply NoDup_cons in Hnd as [_ Hnd].
      destruct (IH _ Hnd Heq Hf) as (-> & -> & ->). auto.
Qed.

Lemma elem_of_all_posts (raws : list rlvl) (s : ref) :
  s ∈ all_posts raws ↔ ∃ r, r ∈ raws ∧ s ∈ r_post r.
Proof.
  unfold all_posts. induction raws as [|r0 rest IH]; simpl.
  - split; [inversion 1|]. intros (r & Hr & _). inversion Hr.
  - rewrite elem_of_app, IH. split.
    + intros [Hs|(r & Hr & Hs)]; [exists r0|exists r]; split; auto; [left|right; auto].
    + intros (r & Hr & Hs). apply elem_of_cons in Hr as [->|Hr]; eauto.
Qed.

Lemma triggers_spec (h : heap) (s : ref) :
  triggers h s = true
  ↔ ∃ c p, cls_of h s = Some c ∧ isinstance_BlockLevelBox c = true
           ∧ parent_of h s = Some p ∧ cls_of h p = Some InlineLevelBox.
Proof.
  unfold triggers, parent_of. destruct (boxes h !! s) as [o|] eqn:Ho; simpl.
  - split.
    + intros H. apply andb_true_iff in H as [Hb Hp].
      destruct (o_parent o) as [p|]; [|discriminate].
      apply bool_decide_eq_true in Hp. exists (o_cls o), p.
      split; [unfold cls_of; rewrite Ho; reflexivity|auto].
    + intros (c & p & Hc & Hb & Hp & Hcp). unfold cls_of in Hc.
      rewrite Ho in Hc. injection Hc as <-. rewrite Hb, Hp. simpl.
      apply bool_decide_eq_true. exact Hcp.
  - split; [discriminate|]. intros (c & p & Hc & _). unfold cls_of in Hc.
    rewrite Ho in Hc. discriminate.
Qed.

Section wrap.
Variables (h : heap) (P Q : ref) (oP oQ : obj) (lP : ref) (as_ bs_ : list ref).
Hypothesis HP : boxes h !! P = Some oP.
Hypothesis HlP : o_children oP = Some lP.
Hypothesis HksP : lists h !! lP = Some (as_ ++ Q :: bs_).
Hypothesis HQas : Q ∉ as_.
Hypothesis Has : Forall (λ r, (r < length (boxes h))%nat) as_.
Hypothesis HQ : boxes h !! Q = Some oQ.
Hypothesis HQp : o_parent oQ = Some P.
Hypothesis HPQ : P ≠ Q.

Let N := length (boxes h).
Let NL := length (lists h).

Let wheap : heap := wrap_heap h P Q oQ lP as_ bs_.

Lemma wrap_exec {A} (k : ref → ref → M A) :
  (e ← get_element Q;
   previous_anonymous_box ← Box_init AnonymousBlockLevelBox e;
   p ← get_parent Q;
   p ← deref p;
   i ← index Q;
   add_child p previous_anonymous_box i;;
   p ← get_parent Q;
   p ← deref p;
   l ← get_children p;
   l ← deref l;
   xs ← get_list l;
   xs ← match list_remove Q xs with
        | Some xs => mret xs
        | None => raise ValueError
        end;
   set_list l xs;;
   add_child previous_anonymous_box Q None;;
   e ← get_element Q;
   next_anonymous_box ← Box_init AnonymousBlockLevelBox e;
   p ← get_parent previous_anonymous_box;
   p ← deref p;
   i ← index_plus_1 previous_anonymous_box;
   add_child p next_anonymous_box (Some i);;
   k previous_anonymous_box next_anonymous_box) h
  = k N (N + 1) wheap.
Proof.
  assert (HQN : (Q < N)%nat) by (eapply lookup_lt_Some; eauto).
  assert (HPN : (P < N)%nat) by (eapply lookup_lt_Some; eauto).
  assert (HlPN : (lP < NL)%nat) by (eapply lookup_lt_Some; eauto).
  rewrite M_bind_eq, (get_element_eq _ _ _ HQ).
  rewrite M_bind_eq, Box_init_eq. fold N NL.
  set (prev0 := Obj AnonymousBlockLevelBox (o_element oQ) None (Some NL) None).
  set (h1 := Heap (boxes h ++ [prev0]) (lists h ++ [[]])).
  assert (HQ1 : boxes h1 !! Q = Some oQ) by (apply lookup_app_l_Some; assumption).
  assert (HP1 : boxes h1 !! P = Some oP) by (apply lookup_app_l_Some; assumption).
  assert (Hks1 : lists h1 !! lP = Some (as_ ++ Q :: bs_))
    by (apply lookup_app_l_Some; assumption).
  rewrite M_bind_eq, (get_parent_eq _ _ _ HQ1), HQp. cbn [deref].
  rewrite M_ret_bind.
  rewrite M_bind_eq, (index_eq _ _ _ _ _ _ _ _ HQ1 HQp HP1 HlP Hks1 HQas).
  rewrite M_bind_eq. subst h1 prev0.
  rewrite (add_child_new _ _ _ _ _ _ _ _ _ HP HlP HksP HlPN).
  cbn [ins]. rewrite list_insert_at_app. fold N NL.
  set (prev1 := Obj AnonymousBlockLevelBox (o_element oQ) (Some P) (Some NL) None).
  set (h2 := Heap (boxes h ++ [prev1]) (<[lP:=as_ ++ N :: Q :: bs_]> (lists h) ++ [[]])).
  assert (HQ2 : boxes h2 !! Q = Some oQ) by (apply lookup_app_l_Some; assumption).
  assert (HP2 : boxes h2 !! P = Some oP) by (apply lookup_app_l_Some; assumption).
  assert (Hks2 : lists h2 !! lP = Some (as_ ++ N :: Q :: bs_)).
  { apply lookup_app_l_Some. apply list_lookup_insert_eq. assumption. }
  rewrite M_bind_eq, (get_parent_eq _ _ _ HQ2), HQp. cbn [deref].
  rewrite M_ret_bind.
  rewrite M_bind_eq, (get_children_eq _ _ _ HP2), HlP. cbn [deref].
  rewrite M_ret_bind.
  rewrite M_bind_eq, (get_list_eq _ _ _ Hks2).
  replace (as_ ++ N :: Q :: bs_) with ((as_ ++ [N]) ++ Q :: bs_)
    by (rewrite <- app_assoc; reflexivity).
  rewrite list_remove_app.
  2:{ rewrite elem_of_app, list_elem_of_singleton. intros [?|?]; [contradiction|lia]. }
  rewrite M_ret_bind. rewrite M_bind_eq, set_list_eq. subst h2. cbn [boxes lists].
  rewrite insert_app_l by (rewrite length_insert; assumption).
  rewrite list_insert_insert_eq.
  set (h3 := Heap (boxes h ++ [prev1]) (<[lP:=(as_ ++ [N]) ++ bs_]> (lists h) ++ [[]])).
  rewrite M_bind_eq.
  rewrite (add_child_alter h3 N Q None oQ prev1 NL []).
  2:{ apply lookup_app_l_Some. assumption. }
  2:{ lia. }
  2:{ apply list_lookup_middle. reflexivity. }
  2:{ reflexivity. }
  2:{ subst h3. cbn [lists]. apply list_lookup_middle. rewrite length_insert. reflexivity. }
  subst h3. cbn [boxes lists ins].
  rewrite alter_app_l by assumption.
  rewrite insert_app_r_alt by (rewrite length_insert; fold NL; lia).
  rewrite length_insert. fold NL. rewrite Nat.sub_diag. cbn [insert list_insert].
  change ([] ++ [Q]) with [Q].
  set (bs4 := alter (with_parent (Some N)) Q (boxes h) ++ [prev1]).
  set (ls4 := <[lP:=(as_ ++ [N]) ++ bs_]> (lists h) ++ [[Q]]).
  assert (HQ4 : bs4 !! Q = Some (with_parent (Some N) oQ)).
  { subst bs4. apply lookup_app_l_Some. rewrite list_lookup_alter_eq, HQ. reflexivity. }
  rewrite M_bind_eq, (get_element_eq (Heap bs4 ls4) _ _ HQ4). cbn [with_parent o_element].
  rewrite M_bind_eq, Box_init_eq. cbn [boxes lists].
  assert (Hlen4 : length bs4 = N + 1).
  { subst bs4. rewrite length_app, length_alter. reflexivity. }
  assert (Hlenl4 : length ls4 = NL + 1).
  { subst ls4. rewrite length_app, length_insert. reflexivity. }
  assert (Hprev4 : bs4 !! N = Some prev1).
  { subst bs4. apply list_lookup_middle. rewrite length_alter. reflexivity. }
  assert (HP4 : bs4 !! P = Some oP).
  { subst bs4. apply lookup_app_l_Some. rewrite list_lookup_alter_ne by auto. assumption. }
  assert (Hks4 : ls4 !! lP = Some (as_ ++ N :: bs_)).
  { subst ls4. apply lookup_app_l_Some. rewrite list_lookup_insert_eq by assumption.
    rewrite <- app_assoc. reflexivity. }
  set (next0 := Obj AnonymousBlockLevelBox (o_element oQ) None (Some (length ls4)) None).
  assert (Hprev5 : (bs4 ++ [next0]) !! N = Some prev1) by (apply lookup_app_l_Some; assumption).
  assert (HP5 : (bs4 ++ [next0]) !! P = Some oP) by (apply lookup_app_l_Some; assumption).
  assert (Hks5 : (ls4 ++ [[]]) !! lP = Some (as_ ++ N :: bs_)) by (apply lookup_app_l_Some; assumption).
  assert (HNas : N ∉ as_).
  { intros Hin. rewrite Forall_forall in Has. specialize (Has _ Hin). fold N in Has. lia. }
  rewrite M_bind_eq, (get_parent_eq (Heap (bs4 ++ [next0]) (ls4 ++ [[]])) _ _ Hprev5).
  cbn [prev1 o_parent deref]. rewrite M_ret_bind.
  rewrite M_bind_eq.
  rewrite (index_plus_1_eq (Heap (bs4 ++ [next0]) (ls4 ++ [[]])) N P lP prev1 oP as_ bs_
             Hprev5 eq_refl HP5 HlP Hks5 HNas).
  rewrite M_bind_eq. subst next0.
  rewrite (add_child_new bs4 ls4 P _ _ lP (Some (length as_ + 1)) oP (as_ ++ N :: bs_)
             HP4 HlP Hks4 ltac:(lia)).
  rewrite Hlen4, Hlenl4. unfold wheap, wrap_heap. fold N NL. f_equal. f_equal.
  - subst bs4 prev1. rewrite <- app_assoc. reflexivity.
  - subst ls4. cbn [ins]. rewrite insert_app_l by (rewrite length_insert; assumption).
    rewrite list_insert_insert_eq.
    replace (as_ ++ N :: bs_) with ((as_ ++ [N]) ++ bs_) by (rewrite <- app_assoc; reflexivity).
    replace (length as_ + 1) with (length (as_ ++ [N])) by (rewrite length_app; reflexivity).
    rewrite list_insert_at_app. rewrite <- !app_assoc. reflexivity.
Qed.
End wrap.

Lemma mk_lvls_length N NL raws : length (mk_lvls N NL raws) = length raws.
Proof. induction raws; simpl; auto. Qed.

Lemma mk_lvls_app N NL r1 r2 :
  mk_lvls N NL (r1 ++ r2)
  = mk_lvls (N + length r2) (NL + length r2) r1 ++ mk_lvls N NL r2.
Proof.
  induction r1 as [|r r1 IH]; [reflexivity|].
  simpl. rewrite IH, length_app. f_equal. f_equal; lia.
Qed.

Lemma mk_lvls_J_gen N NL raws' : map lv_J (mk_lvls N NL raws') = map r_J raws'.
Proof. induction raws' as [|r rest IH]; simpl; [|rewrite IH]; reflexivity. Qed.

Lemma mk_lvls_post_gen N NL raws' (p : ref → Prop) :
  Forall (λ r, Forall p (r_post r)) raws' →
  Forall (λ lv, Forall p (lv_post lv)) (mk_lvls N NL raws').
Proof.
  induction 1 as [|r rest Hr _ IH]; simpl; constructor; auto.
Qed.

Lemma mk_lvls_notin_posts N NL raws' s :
  s ∉ all_posts raws' →
  Forall (λ lv, s ∉ lv_post lv) (mk_lvls N NL raws').
Proof.
  unfold all_posts. induction raws' as [|r rest IH]; simpl; intros Hs;
    [constructor|].
  rewrite elem_of_app in Hs. constructor; [tauto|]. apply IH. tauto.
Qed.

Lemma mk_lvls_lc_gen N NL raws' l :
  l ∈ map lv_lc (mk_lvls N NL raws') → (NL + 2 ≤ l ≤ NL + 1 + length raws')%nat.
Proof.
  induction raws' as [|r rest IH]; simpl; intros Hin; [inversion Hin|].
  apply elem_of_cons in Hin as [->|Hin]; [lia|]. specialize (IH Hin). lia.
Qed.

Lemma collect_rchain (h : heap) (Q : ref) (cQ : cls) :
  cls_of h Q = Some cQ → isinstance_InlineLevelBox cQ = false →
  ∀ (raws : list rlvl) (n : nat) (sp : ref) (acc : list ref),
    (length raws < n)%nat → rchain h Q sp raws →
    collect_inline_parents n sp acc h
    = Ok ((acc ++ map r_J raws, Some Q), h).
Proof.
  intros HQ HcQ. apply cls_of_Some in HQ as (oQ & HoQ & HcQ').
  induction raws as [|r rest IH]; intros n sp acc Hn Hch;
    (destruct n as [|n]; [simpl in Hn; lia|]); simpl in Hch |- *.
  - destruct Hch as [Hch _]. apply parent_of_Some in Hch as (o & Ho & Hp).
    rewrite M_bind_eq, (get_parent_eq _ _ _ Ho), Hp.
    rewrite M_bind_eq, (get_cls_eq _ _ _ HoQ), HcQ', HcQ, app_nil_r. reflexivity.
  - destruct Hch as (Hp & Hc & _ & _ & _ & _ & Hrest).
    apply parent_of_Some in Hp as (o & Ho & Hp).
    apply cls_of_Some in Hc as (oJ & HoJ & HcJ).
    rewrite M_bind_eq, (get_parent_eq _ _ _ Ho), Hp.
    rewrite M_bind_eq, (get_cls_eq _ _ _ HoJ), HcJ. cbn [isinstance_InlineLevelBox].
    rewrite (IH n (r_J r) (acc ++ [r_J r])); [|simpl in Hn; lia|assumption].
    rewrite <- app_assoc. reflexivity.
Qed.

Section split_exec.
Variables (h : heap) (x P Q : ref) (oP oQ : obj) (lP : ref)
          (as_ bs_ : list ref) (raws : list rlvl).
Hypothesis HP : boxes h !! P = Some oP.
Hypothesis HlP : o_children oP = Some lP.
Hypothesis HksP : lists h !! lP = Some (as_ ++ Q :: bs_).
Hypothesis HQas : Q ∉ as_.
Hypothesis Has : Forall (λ r, (r < length (boxes h))%nat) as_.
Hypothesis HQ : boxes h !! Q = Some oQ.
Hypothesis HQp : o_parent oQ = Some P.
Hypothesis HPQ : P ≠ Q.
Hypothesis HQcls : isinstance_InlineLevelBox (o_cls oQ) = false.
Hypothesis Hchain : rchain h Q x raws.
Hypothesis Hk : (length raws ≤ length (boxes h))%nat.
Hypothesis Hposts :
  Forall (λ r, Forall (λ s, (s < length (boxes h))%nat) (r_post r)) raws.
Hypothesis HND : NoDup (map r_J raws).
Hypothesis HJposts : ∀ J, J ∈ map r_J raws → J ∉ all_posts raws.
Hypothesis Hposts_nd : NoDup (all_posts raws).
Hypothesis Hxposts : x ∉ all_posts raws.
Hypothesis HQposts : Q ∉ all_posts raws.
Hypothesis HxJ : x ∉ map r_J raws.
Hypothesis HxQ : x ≠ Q.
Hypothesis HxP : x ≠ P.
Hypothesis HJQ : Q ∉ map r_J raws.
Hypothesis HJP : P ∉ map r_J raws.
Hypothesis HlJP : lP ∉ map r_lJ raws.

Let N := length (boxes h).
Let NL := length (lists h).
Let lvs := mk_lvls N NL raws.
Let es := reverse (map r_e raws).
Let hB := wrap_heap h P Q oQ lP as_ bs_.
Let hC := clone_heap es (N + 1) (NL + 1) hB.
Let hD := move_heap lvs hC.

Let sheap : heap := split_heap h x P Q oQ lP as_ bs_ raws.

Ltac open_split :=
  unfold sheap;
  change (split_heap h x P Q oQ lP as_ bs_ raws)
    with (Heap (alter (with_parent (Some P)) x (boxes hD))
               (<[lP:=as_ ++ [N; x; N + 1] ++ bs_]> (lists hD))).

(** the store after the wrapping *)
Lemma hB_lengths : length (boxes hB) = N + 2 ∧ length (lists hB) = NL + 2.
Proof.
  unfold hB, wrap_heap. cbn [boxes lists].
  rewrite !length_app, length_alter, length_insert. simpl. auto.
Qed.

Lemma hB_boxes_old r :
  (r < N)%nat →
  boxes hB !! r = (if decide (r = Q) then with_parent (Some N) else id) <$> boxes h !! r.
Proof.
  intros Hr. unfold hB, wrap_heap. cbn [boxes].
  rewrite lookup_app_l by (rewrite length_alter; assumption).
  destruct (decide (r = Q)) as [->|Hne].
  - apply list_lookup_alter_eq.
  - rewrite list_lookup_alter_ne by auto. destruct (boxes h !! r); reflexivity.
Qed.

Lemma hB_prev :
  boxes hB !! N
  = Some (Obj AnonymousBlockLevelBox (o_element oQ) (Some P) (Some NL) None).
Proof.
  unfold hB, wrap_heap. cbn [boxes]. apply list_lookup_middle.
  rewrite length_alter. reflexivity.
Qed.

Lemma hB_next :
  boxes hB !! (N + 1)
  = Some (Obj AnonymousBlockLevelBox (o_element oQ) (Some P) (Some (NL + 1)) None).
Proof.
  unfold hB, wrap_heap. cbn [boxes].
  rewrite lookup_app_r by (rewrite length_alter; fold N; lia).
  rewrite length_alter. fold N. replace (N + 1 - N) with 1 by lia. reflexivity.
Qed.

Lemma hB_lists_old l :
  (l < NL)%nat → l ≠ lP → lists hB !! l = lists h !! l.
Proof.
  intros Hl Hne. unfold hB, wrap_heap. cbn [lists].
  rewrite lookup_app_l by (rewrite length_insert; assumption).
  apply list_lookup_insert_ne. auto.
Qed.

Lemma hB_lists_P : lists hB !! lP = Some (as_ ++ [N; N + 1] ++ bs_).
Proof.
  assert (HlPN : (lP < NL)%nat) by (eapply lookup_lt_Some; eauto).
  unfold hB, wrap_heap. cbn [lists].
  rewrite lookup_app_l by (rewrite length_insert; assumption).
  apply list_lookup_insert_eq. assumption.
Qed.

Lemma hB_lists_prev : lists hB !! NL = Some [Q].
Proof.
  unfold hB, wrap_heap. cbn [lists]. apply list_lookup_middle.
  rewrite length_insert. reflexivity.
Qed.

Lemma hB_lists_next : lists hB !! (NL + 1) = Some [].
Proof.
  unfold hB, wrap_heap. cbn [lists].
  rewrite lookup_app_r by (rewrite length_insert; fold NL; lia).
  rewrite length_insert. fold NL. replace (NL + 1 - NL) with 1 by lia. reflexivity.
Qed.

(** the store after the cloning *)
Lemma es_length : length es = length raws.
Proof. unfold es. rewrite length_reverse, length_map. reflexivity. Qed.

Lemma hC_lengths :
  length (boxes hC) = N + 2 + length raws
  ∧ length (lists hC) = NL + 2 + length raws.
Proof.
  unfold hC. destruct (clone_heap_lengths es (N + 1) (NL + 1) hB) as [-> ->].
  destruct hB_lengths as [-> ->]. rewrite es_length. auto.
Qed.

Lemma hC_boxes_old r : (r < N + 2)%nat → boxes hC !! r = boxes hB !! r.
Proof.
  intros Hr. apply clone_heap_boxes_old. destruct hB_lengths as [-> _]. assumption.
Qed.

Lemma hC_lists_old l :
  (l < NL + 2)%nat → l ≠ NL + 1 → lists hC !! l = lists hB !! l.
Proof.
  intros Hl Hne. apply clone_heap_lists_old; [|assumption].
  destruct hB_lengths as [_ ->]. assumption.
Qed.

Lemma hC_clone i e :
  es !! i = Some e →
  boxes hC !! (N + 2 + i)
  = Some (Obj InlineLevelBox e (Some (N + 1 + i)) (Some (NL + 2 + i)) None).
Proof.
  intros Hi. unfold hC.
  pose proof (clone_heap_boxes_new es (N + 1) (NL + 1) hB i e Hi) as H.
  destruct hB_lengths as [Hb Hl]. rewrite Hb, Hl in H. rewrite H.
  f_equal. f_equal. destruct i; f_equal; lia.
Qed.

Lemma hC_lists_next :
  lists hC !! (NL + 1)
  = Some (if decide (length raws = 0) then [] else [N + 2]).
Proof.
  unfold hC. rewrite clone_heap_lists_tail by (destruct hB_lengths as [_ ->]; lia).
  destruct hB_lengths as [-> _].
  pose proof es_length as Hlen.
  remember es as es' eqn:Ees. destruct es' as [|e es'].
  - rewrite decide_True by (simpl in Hlen; lia). apply hB_lists_next.
  - rewrite decide_False by (simpl in Hlen; lia). reflexivity.
Qed.

Lemma hC_lists_clone i :
  (i < length raws)%nat →
  lists hC !! (NL + 2 + i)
  = Some (if decide (S i < length raws)%nat then [N + 3 + i] else []).
Proof.
  intros Hi. unfold hC.
  pose proof (clone_heap_lists_new es (N + 1) (NL + 1) hB i) as H.
  destruct hB_lengths as [Hb Hl]. rewrite Hb, Hl, es_length in H.
  rewrite H by lia. f_equal.
  destruct (decide (S i < length raws)%nat); [f_equal; lia|reflexivity].
Qed.

Lemma hC_parent_old r :
  (r < N)%nat → r ≠ Q → parent_of hC r = parent_of h r.
Proof.
  intros Hr Hne. unfold parent_of.
  rewrite hC_boxes_old, hB_boxes_old by lia.
  rewrite decide_False by assumption. destruct (boxes h !! r); reflexivity.
Qed.

Lemma hC_clist_old r : (r < N)%nat → clist hC r = clist h r.
Proof.
  intros Hr. unfold clist. rewrite hC_boxes_old, hB_boxes_old by lia.
  destruct (decide (r = Q)), (boxes h !! r); reflexivity.
Qed.

Lemma hC_cls_old r :
  (r < N)%nat →
  cls_of hC r = cls_of h r ∧ element_of hC r = element_of h r.
Proof.
  intros Hr. unfold cls_of, element_of. rewrite hC_boxes_old, hB_boxes_old by lia.
  destruct (decide (r = Q)), (boxes h !! r); auto.
Qed.

Lemma up_of_mk_lvls rest :
  up_of (mk_lvls N NL rest) (N + 1) = N + 1 + length rest.
Proof. destruct rest; simpl; lia. Qed.

Lemma move_ready_hC :
  ∀ (raws' : list rlvl) (sp : ref),
    (length raws' ≤ length raws)%nat →
    rchain h Q sp raws' → sp ≠ Q →
    Q ∉ map r_J raws' → lP ∉ map r_lJ raws' →
    move_ready hC Q sp (mk_lvls N NL raws') (N + 1).
Proof.
  induction raws' as [|r rest IH]; intros sp Hlen Hch Hsp HQJ HlPJ.
  - simpl in *. destruct Hch as [Hch _].
    rewrite hC_parent_old; [assumption| |assumption].
    eapply parent_of_lt; eauto.
  - destruct Hch as (Hp & Hc & He & Hcl & Hl & Hpre & Hrest).
    simpl in HQJ, HlPJ, Hlen.
    apply not_elem_of_cons in HQJ as [HQJ HQJs].
    apply not_elem_of_cons in HlPJ as [HlPJ HlPJs].
    assert (HJN : (r_J r < N)%nat) by (eapply cls_of_lt; eauto).
    assert (HlJN : (r_lJ r < NL)%nat) by (eapply lookup_lt_Some; eauto).
    cbn [mk_lvls move_ready]. split; [auto|]. split.
    + unfold lvl_ok. cbn [lv_J lv_lJ lv_pre lv_post lv_c lv_lc].
      rewrite up_of_mk_lvls.
      rewrite hC_parent_old; [|eapply parent_of_lt; eauto|assumption].
      rewrite hC_clist_old by assumption.
      rewrite hC_lists_old, hB_lists_old by (auto; lia).
      destruct (lookup_lt_is_Some_2 es (length rest)) as [e Hes].
      { rewrite es_length. lia. }
      unfold clist, parent_of. cbn [length].
      replace (N + 1 + S (length rest)) with (N + 2 + length rest) by lia.
      rewrite (hC_clone _ _ Hes). cbn [mbind option_bind o_children o_parent].
      repeat split; auto; f_equal; lia.
    + apply IH; auto. lia.
Qed.

Lemma rchain_lt :
  ∀ (raws' : list rlvl) (sp : ref),
    rchain h Q sp raws' →
    Forall (λ r, (r_J r < N)%nat ∧ (r_lJ r < NL)%nat) raws'.
Proof.
  induction raws' as [|r rest IH]; intros sp Hch; [constructor|].
  destruct Hch as (Hp & Hc & He & Hcl & Hl & Hpre & Hrest).
  constructor; [|eapply IH; eauto]. split.
  - eapply cls_of_lt; eauto.
  - eapply lookup_lt_Some; eauto.
Qed.

Lemma lvl_sep_hC :
  ∀ (raws' : list rlvl),
    (length raws' ≤ length raws)%nat →
    Forall (λ r, (r_J r < N)%nat ∧ (r_lJ r < NL)%nat) raws' →
    Forall (λ r, Forall (λ s, (s < N)%nat) (r_post r)) raws' →
    Forall (lvl_sep N NL hC) (mk_lvls N NL raws').
Proof.
  induction raws' as [|r rest IH]; intros Hlen Hlt Hpo; [constructor|].
  apply Forall_cons in Hlt as [[HJ HlJ] Hlt].
  apply Forall_cons in Hpo as [Hp Hpo]. simpl in Hlen.
  cbn [mk_lvls]. constructor; [|apply IH; auto; lia].
  unfold lvl_sep. cbn [lv_J lv_lJ lv_pre lv_post lv_c lv_lc length].
  destruct hC_lengths as [-> ->]. repeat split; auto; lia.
Qed.

Lemma rchain_elements :
  ∀ (raws' : list rlvl) (sp : ref),
    rchain h Q sp raws' →
    Forall2 (λ J e, element_of hB J = Some e) (map r_J raws') (map r_e raws').
Proof.
  induction raws' as [|r rest IH]; intros sp Hch; [constructor|].
  destruct Hch as (Hp & Hc & He & Hcl & Hl & Hpre & Hrest).
  simpl. constructor; [|eapply IH; eauto].
  unfold element_of in *. rewrite hB_boxes_old by (eapply cls_of_lt; eauto).
  destruct (decide (r_J r = Q)), (boxes h !! r_J r); simpl in *; auto.
Qed.

Lemma last_clone_eq : last_clone es (N + 1) hB = N + 1 + length raws.
Proof.
  unfold last_clone. pose proof es_length as Hlen.
  destruct hB_lengths as [-> _].
  remember es as es' eqn:Ees. destruct es'; simpl in *; lia.
Qed.

Lemma hD_lengths :
  length (boxes hD) = N + 2 + length raws
  ∧ length (lists hD) = NL + 2 + length raws + length raws.
Proof.
  unfold hD. destruct (move_heap_lengths lvs hC) as [-> ->].
  destruct hC_lengths as [-> ->]. unfold lvs. rewrite mk_lvls_length. auto.
Qed.

Lemma mk_lvls_J raws' : map lv_J (mk_lvls N NL raws') = map r_J raws'.
Proof. induction raws' as [|r rest IH]; simpl; [|rewrite IH]; reflexivity. Qed.

Lemma mk_lvls_lc raws' l :
  l ∈ map lv_lc (mk_lvls N NL raws') → (NL + 2 ≤ l ≤ NL + 1 + length raws')%nat.
Proof.
  induction raws' as [|r rest IH]; simpl; intros Hin; [inversion Hin|].
  apply elem_of_cons in Hin as [->|Hin]; [lia|]. specialize (IH Hin). lia.
Qed.

Lemma mk_lvls_post raws' (p : ref → Prop) :
  Forall (λ r, Forall p (r_post r)) raws' →
  Forall (λ lv, Forall p (lv_post lv)) (mk_lvls N NL raws').
Proof.
  induction 1 as [|r rest Hr _ IH]; simpl; constructor; auto.
Qed.

Lemma rchain_sp_lt raws' sp : rchain h Q sp raws' → (sp < N)%nat.
Proof.
  destruct raws' as [|r rest]; simpl.
  - intros [Hp _]. eapply parent_of_lt; eauto.
  - intros [Hp _]. eapply parent_of_lt; eauto.
Qed.

Lemma hD_parent_new r :
  (N ≤ r)%nat → parent_of hD r = parent_of hC r.
Proof.
  intros Hr. unfold hD. apply move_heap_parent_out.
  unfold lvs. eapply Forall_impl; [apply (mk_lvls_post _ _ Hposts)|].
  intros lv Hlv Hin. rewrite Forall_forall in Hlv. specialize (Hlv _ Hin).
  simpl in Hlv. fold N in Hlv. lia.
Qed.

Lemma hD_clist_out r :
  r ∉ map r_J raws → clist hD r = clist hC r.
Proof.
  intros Hr. unfold hD. apply move_heap_clist_out. unfold lvs.
  rewrite mk_lvls_J. assumption.
Qed.

Lemma hD_lists_old l :
  (l < NL + 2)%nat → lists hD !! l = lists hC !! l.
Proof.
  intros Hl. unfold hD. apply move_heap_lists_old.
  - destruct hC_lengths as [_ ->]. lia.
  - intros Hin. apply mk_lvls_lc in Hin. lia.
Qed.

Lemma lvls_apart_mk :
  ∀ (raws' : list rlvl),
    NoDup (map r_J raws') →
    (∀ J, J ∈ map r_J raws' → J ∉ all_posts raws') →
    lvls_apart (mk_lvls N NL raws').
Proof.
  induction raws' as [|r rest IH]; intros Hnd Hdis; [exact I|].
  simpl in Hnd, Hdis. apply NoDup_cons in Hnd as [Hr Hnd].
  cbn [mk_lvls lvls_apart lv_J lv_post]. split; [|split].
  - intros Hin. apply (Hdis (r_J r)); [left|]. unfold all_posts. simpl.
    apply elem_of_app. auto.
  - apply Forall_forall. intros lv' Hlv'. split.
    + intros Hin. apply (Hdis (lv_J lv')).
      * right. rewrite <- (mk_lvls_J rest). apply list_elem_of_fmap. eauto.
      * unfold all_posts. simpl. apply elem_of_app. auto.
    + intros Heq. apply Hr. rewrite <- Heq, <- (mk_lvls_J rest).
      apply list_elem_of_fmap. eauto.
  - apply IH; [assumption|]. intros J HJ Hin.
    apply (Hdis J); [right; assumption|]. unfold all_posts. simpl.
    apply elem_of_app. auto.
Qed.

Lemma split_exec : split x h = Ok (tt, sheap).
Proof.
  pose proof (rchain_lt _ _ Hchain) as Hlt.
  unfold split. rewrite M_bind_eq. unfold chain_bound at 1.
  rewrite M_bind_eq.
  rewrite (collect_rchain h Q (o_cls oQ)) with (raws := raws);
    [|unfold cls_of; rewrite HQ; reflexivity|assumption|lia|assumption].
  cbn [app deref]. rewrite M_ret_bind.
  rewrite (wrap_exec h P Q oP oQ lP as_ bs_ HP HlP HksP HQas Has HQ HQp HPQ).
  fold N NL hB.
  rewrite M_bind_eq.
  rewrite (clone_exec (reverse (map r_J raws)) es (N + 1) (NL + 1) hB _
             (Forall2_reverse _ _ _ (rchain_elements _ _ Hchain)) hB_next eq_refl
             hB_lists_next).
  fold hC. rewrite last_clone_eq, <- up_of_mk_lvls. fold lvs.
  rewrite M_bind_eq. unfold chain_bound at 1. rewrite M_bind_eq.
  rewrite (move_exec N NL Q (N + 1) lvs).
  2:{ unfold lvs. rewrite mk_lvls_length. destruct hC_lengths as [-> _]. lia. }
  2:{ apply move_ready_hC; auto. }
  2:{ apply lvl_sep_hC; auto. }
  2:{ apply lvls_apart_mk; assumption. }
  fold hD.
  (* put the block after the previous anonymous box *)
  assert (HxN : (x < N)%nat) by (eapply rchain_sp_lt; eauto).
  assert (HPN : (P < N)%nat) by (eapply lookup_lt_Some; eauto).
  assert (HlPN : (lP < NL)%nat) by (eapply lookup_lt_Some; eauto).
  assert (Hprev : parent_of hD N = Some P).
  { rewrite hD_parent_new by lia. unfold parent_of.
    rewrite hC_boxes_old, hB_prev by lia. reflexivity. }
  apply parent_of_Some in Hprev as (oprev & Hoprev & Hpprev).
  assert (HclP : clist hD P = Some lP).
  { rewrite hD_clist_out, hC_clist_old by assumption.
    unfold clist. rewrite HP. assumption. }
  apply clist_Some in HclP as (oP' & HoP' & HlP').
  assert (HksD : lists hD !! lP = Some (as_ ++ N :: (N + 1) :: bs_)).
  { rewrite hD_lists_old, hC_lists_old, hB_lists_P by lia. reflexivity. }
  assert (HNas : N ∉ as_).
  { intros Hin. rewrite Forall_forall in Has. specialize (Has _ Hin). fold N in Has. lia. }
  destruct (lookup_lt_is_Some_2 (boxes hD) x) as [ox Hox].
  { destruct hD_lengths as [-> _]. lia. }
  rewrite M_bind_eq, (get_parent_eq _ _ _ Hoprev), Hpprev. cbn [deref].
  rewrite M_ret_bind.
  rewrite M_bind_eq,
    (index_plus_1_eq _ _ _ _ _ _ _ _ Hoprev Hpprev HoP' HlP' HksD HNas).
  rewrite (add_child_alter hD P x _ ox oP' lP _ Hox (not_eq_sym HxP) HoP' HlP' HksD).
  open_split. f_equal. f_equal. f_equal. cbn [ins].
  replace (as_ ++ N :: (N + 1) :: bs_) with ((as_ ++ [N]) ++ (N + 1) :: bs_)
    by (rewrite <- app_assoc; reflexivity).
  replace (length as_ + 1) with (length (as_ ++ [N]))
    by (rewrite length_app; reflexivity).
  rewrite list_insert_at_app, <- app_assoc. reflexivity.
Qed.

(** ** The store after the split *)

Let k := length raws.

Lemma sh_lengths :
  length (boxes sheap) = N + 2 + k
  ∧ length (lists sheap) = NL + 2 + k + k.
Proof.
  open_split. cbn [boxes lists]. rewrite length_alter, length_insert.
  apply hD_lengths.
Qed.

Lemma rchain_clist_hC :
  ∀ (raws' : list rlvl) (sp : ref),
    rchain h Q sp raws' →
    Forall (λ lv, is_Some (clist hC (lv_J lv))) (mk_lvls N NL raws').
Proof.
  induction raws' as [|r rest IH]; intros sp Hch; [constructor|].
  destruct Hch as (Hp & Hc & He & Hcl & Hl & Hpre & Hrest).
  cbn [mk_lvls]. constructor; [|eapply IH; eauto].
  cbn [lv_J]. rewrite hC_clist_old by (eapply cls_of_lt; eauto).
  rewrite Hcl. eauto.
Qed.

Lemma hD_based : based (boxes h) (boxes hD).
Proof.
  pose proof (rchain_lt _ _ Hchain) as Hlt.
  eapply based_trans; [| |apply move_heap_based].
  - destruct hC_lengths as [-> _]. fold N. lia.
  - intros r o' Ho' Hr. fold N in Hr.
    rewrite hC_boxes_old, hB_boxes_old in Ho' by lia.
    destruct (boxes h !! r) as [o|]; [|discriminate]. exists o.
    split; [reflexivity|]. simpl in Ho'. injection Ho' as <-.
    destruct (decide (r = Q)); [|apply same_base_refl].
    unfold same_base. simpl. tauto.
  - unfold lvs. rewrite mk_lvls_J. assumption.
  - unfold lvs. eapply rchain_clist_hC; eauto.
Qed.

Lemma sh_based : based (boxes h) (boxes sheap).
Proof.
  open_split. cbn [boxes].
  eapply based_trans; [|apply hD_based|apply based_alter_parent].
  destruct hD_lengths as [-> _]. fold N. lia.
Qed.

Lemma sh_parent_x : parent_of sheap x = Some P.
Proof.
  open_split; unfold parent_of. cbn [boxes]. rewrite list_lookup_alter_eq.
  destruct (lookup_lt_is_Some_2 (boxes hD) x) as [ox ->]; [|reflexivity].
  destruct hD_lengths as [-> _]. pose proof (rchain_sp_lt _ _ Hchain). lia.
Qed.

Lemma sh_parent_ne r : r ≠ x → parent_of sheap r = parent_of hD r.
Proof.
  intros Hne. open_split; unfold parent_of. cbn [boxes].
  rewrite list_lookup_alter_ne by auto. reflexivity.
Qed.

Lemma sh_clist r : clist sheap r = clist hD r.
Proof. open_split. rewrite clist_alter_parent. reflexivity. Qed.

Lemma sh_boxes_ne r : r ≠ x → boxes sheap !! r = boxes hD !! r.
Proof.
  intros Hne. open_split. cbn [boxes]. apply list_lookup_alter_ne. auto.
Qed.

Lemma sh_lists_ne l : l ≠ lP → lists sheap !! l = lists hD !! l.
Proof.
  intros Hne. open_split. cbn [lists]. apply list_lookup_insert_ne. auto.
Qed.

Lemma sh_lists_P : lists sheap !! lP = Some (as_ ++ [N; x; N + 1] ++ bs_).
Proof.
  open_split. cbn [lists]. apply list_lookup_insert_eq.
  destruct hD_lengths as [_ ->]. apply lookup_lt_Some in HksP. fold NL in HksP. lia.
Qed.

Lemma hD_boxes_new r : (N ≤ r)%nat → boxes hD !! r = boxes hC !! r.
Proof.
  intros Hr. pose proof (rchain_lt _ _ Hchain) as Hlt.
  unfold hD. apply move_heap_boxes_out.
  - unfold lvs. rewrite mk_lvls_J. intros Hin.
    apply list_elem_of_fmap in Hin as (r0 & -> & Hin).
    rewrite Forall_forall in Hlt. specialize (Hlt _ Hin). lia.
  - unfold lvs. eapply Forall_impl; [apply (mk_lvls_post _ _ Hposts)|].
    intros lv Hlv Hin. rewrite Forall_forall in Hlv. specialize (Hlv _ Hin).
    simpl in Hlv. fold N in Hlv. lia.
Qed.

Lemma sh_prev :
  boxes sheap !! N
  = Some (Obj AnonymousBlockLevelBox (o_element oQ) (Some P) (Some NL) None).
Proof.
  pose proof (rchain_sp_lt _ _ Hchain).
  rewrite sh_boxes_ne, hD_boxes_new, hC_boxes_old by lia. apply hB_prev.
Qed.

Lemma sh_next :
  boxes sheap !! (N + 1)
  = Some (Obj AnonymousBlockLevelBox (o_element oQ) (Some P) (Some (NL + 1)) None).
Proof.
  pose proof (rchain_sp_lt _ _ Hchain).
  rewrite sh_boxes_ne, hD_boxes_new, hC_boxes_old by lia. apply hB_next.
Qed.

Lemma sh_parent_Q : parent_of sheap Q = Some N.
Proof.
  rewrite sh_parent_ne by auto. unfold hD.
  rewrite move_heap_parent_out.
  - unfold parent_of. rewrite hC_boxes_old, hB_boxes_old
      by (apply lookup_lt_Some in HQ; fold N in HQ; lia).
    rewrite decide_True by reflexivity. rewrite HQ. reflexivity.
  - apply mk_lvls_notin_posts. assumption.
Qed.

Lemma sh_parent_old r :
  (r < N)%nat → r ≠ Q → r ≠ x → r ∉ all_posts raws →
  parent_of sheap r = parent_of h r.
Proof.
  intros Hr HrQ Hrx Hrp. rewrite sh_parent_ne by assumption. unfold hD.
  rewrite move_heap_parent_out by (apply mk_lvls_notin_posts; assumption).
  apply hC_parent_old; assumption.
Qed.

Lemma sh_clist_old r :
  (r < N)%nat → r ∉ map r_J raws → clist sheap r = clist h r.
Proof.
  intros Hr HrJ. rewrite sh_clist, hD_clist_out by assumption.
  apply hC_clist_old. assumption.
Qed.

Lemma sh_lists_old l :
  (l < NL)%nat → l ≠ lP → lists sheap !! l = lists h !! l.
Proof.
  intros Hl Hne.
  rewrite sh_lists_ne, hD_lists_old, hC_lists_old, hB_lists_old by (auto; lia).
  reflexivity.
Qed.

Lemma sh_lists_prev : lists sheap !! NL = Some [Q].
Proof.
  assert (HlPN : (lP < NL)%nat) by (eapply lookup_lt_Some; eauto).
  rewrite sh_lists_ne, hD_lists_old, hC_lists_old by lia. apply hB_lists_prev.
Qed.

Lemma sh_lists_next :
  lists sheap !! (NL + 1)
  = Some (if decide (length raws = 0) then [] else [N + 2]).
Proof.
  assert (HlPN : (lP < NL)%nat) by (eapply lookup_lt_Some; eauto).
  rewrite sh_lists_ne, hD_lists_old by lia. apply hC_lists_next.
Qed.

Lemma sh_boxes_x : boxes sheap !! x = with_parent (Some P) <$> boxes h !! x.
Proof.
  pose proof (rchain_sp_lt _ _ Hchain) as HxN.
  open_split. cbn [boxes]. rewrite list_lookup_alter_eq. f_equal.
  unfold hD. rewrite move_heap_boxes_out.
  - rewrite hC_boxes_old, hB_boxes_old by lia.
    rewrite decide_False by assumption. destruct (boxes h !! x); reflexivity.
  - unfold lvs. rewrite mk_lvls_J. assumption.
  - apply mk_lvls_notin_posts. assumption.
Qed.

Lemma sh_boxes_Q : boxes sheap !! Q = with_parent (Some N) <$> boxes h !! Q.
Proof.
  assert (HQN : (Q < N)%nat) by (eapply lookup_lt_Some; eauto).
  rewrite sh_boxes_ne by auto. unfold hD. rewrite move_heap_boxes_out.
  - rewrite hC_boxes_old, hB_boxes_old by lia.
    rewrite decide_True by reflexivity. reflexivity.
  - unfold lvs. rewrite mk_lvls_J. assumption.
  - apply mk_lvls_notin_posts. assumption.
Qed.

Lemma sh_boxes_old r :
  (r < N)%nat → r ≠ Q → r ≠ x → r ∉ map r_J raws → r ∉ all_posts raws →
  boxes sheap !! r = boxes h !! r.
Proof.
  intros Hr HrQ Hrx HrJ Hrp. rewrite sh_boxes_ne by assumption.
  unfold hD. rewrite move_heap_boxes_out.
  - rewrite hC_boxes_old, hB_boxes_old by lia.
    rewrite decide_False by assumption. destruct (boxes h !! r); reflexivity.
  - unfold lvs. rewrite mk_lvls_J. assumption.
  - apply mk_lvls_notin_posts. assumption.
Qed.

Section level.
Variables (r1 r2 : list rlvl) (r : rlvl).
Hypothesis Hraws : raws = r1 ++ r :: r2.

Lemma lvs_split :
  lvs = mk_lvls (N + S (length r2)) (NL + S (length r2)) r1
        ++ Lvl (r_J r) (r_lJ r) (r_pre r) (r_post r)
               (N + 2 + length r2) (NL + 2 + length r2)
        :: mk_lvls N NL r2.
Proof.
  unfold lvs. rewrite Hraws, mk_lvls_app. cbn [mk_lvls length].
  f_equal. f_equal. f_equal; lia.
Qed.

Lemma k_split : k = length r1 + S (length r2).
Proof. unfold k. rewrite Hraws, length_app. reflexivity. Qed.

Lemma es_level : es !! length r2 = Some (r_e r).
Proof.
  unfold es. rewrite Hraws, map_app, reverse_app. cbn [map].
  rewrite reverse_cons, <- app_assoc. apply list_lookup_middle.
  rewrite length_reverse, length_map. reflexivity.
Qed.

Lemma level_J_lt : (r_J r < N)%nat ∧ (r_lJ r < NL)%nat.
Proof.
  pose proof (rchain_lt _ _ Hchain) as Hlt. rewrite Forall_forall in Hlt.
  apply Hlt. rewrite Hraws. apply elem_of_app. right. left.
Qed.

Lemma level_J_notin_r2 : r_J r ∉ map r_J r2.
Proof.
  pose proof HND as Hnd. rewrite Hraws, map_app in Hnd. cbn [map] in Hnd.
  apply NoDup_app in Hnd as (_ & _ & Hnd). apply NoDup_cons in Hnd as [Hnd _].
  exact Hnd.
Qed.

Lemma sh_clist_J : clist sheap (r_J r) = Some (NL + 2 + k + length r1).
Proof.
  rewrite sh_clist. unfold hD. rewrite lvs_split.
  pose proof (move_heap_clist_in
    (mk_lvls (N + S (length r2)) (NL + S (length r2)) r1)
    (Lvl (r_J r) (r_lJ r) (r_pre r) (r_post r)
         (N + 2 + length r2) (NL + 2 + length r2))
    (mk_lvls N NL r2) hC) as H.
  cbn [lv_J] in H. rewrite H.
  - rewrite mk_lvls_length. destruct hC_lengths as [_ ->]. reflexivity.
  - rewrite mk_lvls_J_gen. apply level_J_notin_r2.
  - destruct hC_lengths as [-> _]. destruct level_J_lt. lia.
Qed.

Lemma sh_lists_pre :
  lists sheap !! (NL + 2 + k + length r1) = Some (r_pre r).
Proof.
  assert (HlPN : (lP < NL)%nat) by (eapply lookup_lt_Some; eauto).
  rewrite sh_lists_ne by lia. unfold hD.
  pose proof (move_heap_lists_new
    (mk_lvls (N + S (length r2)) (NL + S (length r2)) r1)
    (Lvl (r_J r) (r_lJ r) (r_pre r) (r_post r)
         (N + 2 + length r2) (NL + 2 + length r2))
    (mk_lvls N NL r2) hC) as H.
  rewrite <- lvs_split in H. rewrite mk_lvls_length in H.
  destruct hC_lengths as [_ Hl]. rewrite Hl in H. apply H.
  apply Forall_forall. intros lv Hin.
  assert (Hlc : lv_lc lv ∈ map lv_lc lvs) by (apply list_elem_of_fmap; eauto).
  apply mk_lvls_lc in Hlc. fold k in Hlc. fold k. lia.
Qed.

Lemma sh_clone_box :
  boxes sheap !! (N + 2 + length r2)
  = Some (Obj InlineLevelBox (r_e r) (Some (N + 1 + length r2))
            (Some (NL + 2 + length r2)) None).
Proof.
  pose proof (rchain_sp_lt _ _ Hchain).
  rewrite sh_boxes_ne, hD_boxes_new by lia. apply hC_clone. apply es_level.
Qed.

Lemma sh_clone_list :
  lists sheap !! (NL + 2 + length r2)
  = Some ((if decide (length r1 = 0) then [] else [N + 3 + length r2])
          ++ r_post r).
Proof.
  assert (HlPN : (lP < NL)%nat) by (eapply lookup_lt_Some; eauto).
  rewrite sh_lists_ne by lia. unfold hD. rewrite lvs_split.
  pose proof (move_heap_lists_clone
    (mk_lvls (N + S (length r2)) (NL + S (length r2)) r1)
    (Lvl (r_J r) (r_lJ r) (r_pre r) (r_post r)
         (N + 2 + length r2) (NL + 2 + length r2))
    (mk_lvls N NL r2) hC
    (if decide (S (length r2) < length raws)%nat
     then [N + 3 + length r2] else [])) as H.
  cbn [lv_lc lv_post] in H. rewrite H.
  - f_equal. f_equal. fold k. rewrite k_split.
    destruct (decide (S (length r2) < length r1 + S (length r2))%nat),
             (decide (length r1 = 0)); (reflexivity || lia).
  - intros Hin. apply mk_lvls_lc_gen in Hin. lia.
  - intros Hin. apply mk_lvls_lc_gen in Hin. lia.
  - apply hC_lists_clone. fold k. rewrite k_split. lia.
Qed.

Lemma sh_parent_post s :
  s ∈ r_post r → parent_of sheap s = Some (N + 2 + length r2).
Proof.
  intros Hs.
  assert (Hsx : s ≠ x).
  { intros ->. apply Hxposts. unfold all_posts. rewrite Hraws, map_app, concat_app.
    apply elem_of_app. right. simpl. apply elem_of_app. auto. }
  assert (HsN : (s < N)%nat).
  { rewrite Forall_forall in Hposts.
    assert (Hr : r ∈ raws) by (rewrite Hraws; apply elem_of_app; right; left).
    specialize (Hposts _ Hr). rewrite Forall_forall in Hposts.
    apply Hposts. assumption. }
  rewrite sh_parent_ne by assumption. unfold hD. rewrite lvs_split.
  pose proof (move_heap_parent_in
    (mk_lvls (N + S (length r2)) (NL + S (length r2)) r1)
    (Lvl (r_J r) (r_lJ r) (r_pre r) (r_post r)
         (N + 2 + length r2) (NL + 2 + length r2))
    (mk_lvls N NL r2) hC s) as H.
  cbn [lv_post lv_c] in H. apply H.
  - assumption.
  - apply mk_lvls_notin_posts. intros Hin.
    pose proof Hposts_nd as Hnd. unfold all_posts in Hnd, Hin.
    rewrite Hraws, map_app, concat_app in Hnd. cbn [map concat] in Hnd.
    apply NoDup_app in Hnd as (_ & _ & Hnd).
    apply NoDup_app in Hnd as (_ & Hnd & _). exact (Hnd _ Hs Hin).
  - destruct hC_lengths as [-> _]. lia.
Qed.

Lemma level_in : r ∈ raws.
Proof. rewrite Hraws. apply elem_of_app. right. left. Qed.

Lemma sh_boxes_post s :
  s ∈ r_post r →
  boxes sheap !! s = with_parent (Some (N + 2 + length r2)) <$> boxes h !! s.
Proof.
  intros Hs.
  assert (Hsall : s ∈ all_posts raws).
  { unfold all_posts. rewrite Hraws, map_app, concat_app.
    apply elem_of_app. right. simpl. apply elem_of_app. auto. }
  assert (Hsx : s ≠ x) by (intros ->; contradiction).
  assert (HsQ : s ≠ Q) by (intros ->; contradiction).
  assert (HsN : (s < N)%nat).
  { rewrite Forall_forall in Hposts. specialize (Hposts _ level_in).
    rewrite Forall_forall in Hposts. apply Hposts. assumption. }
  pose proof Hposts_nd as Hnd. unfold all_posts in Hnd.
  rewrite Hraws, map_app, concat_app in Hnd. cbn [map concat] in Hnd.
  apply NoDup_app in Hnd as (_ & Hnd1 & Hnd).
  apply NoDup_app in Hnd as (_ & Hnd2 & _).
  rewrite sh_boxes_ne by assumption. unfold hD. rewrite lvs_split.
  pose proof (move_heap_boxes_in
    (mk_lvls (N + S (length r2)) (NL + S (length r2)) r1)
    (Lvl (r_J r) (r_lJ r) (r_pre r) (r_post r)
         (N + 2 + length r2) (NL + 2 + length r2))
    (mk_lvls N NL r2) hC s) as H.
  cbn [lv_post lv_c] in H. rewrite H.
  - rewrite hC_boxes_old, hB_boxes_old by lia.
    rewrite decide_False by assumption. destruct (boxes h !! s); reflexivity.
  - assumption.
  - rewrite <- lvs_split. unfold lvs. rewrite mk_lvls_J. intros Hin.
    exact (HJposts _ Hin Hsall).
  - apply mk_lvls_notin_posts. intros Hin.
    apply (Hnd1 s Hin). apply elem_of_app. auto.
  - apply mk_lvls_notin_posts. intros Hin. exact (Hnd2 _ Hs Hin).
Qed.
End level.

(** ** The children of every box after the split *)

Hypothesis Hinv : inv h.
Hypothesis Hne : raws ≠ [].
Hypothesis HPblock : isinstance_BlockLevelBox (o_cls oP) = true.

Lemma k_pos : (0 < k)%nat.
Proof. unfold k. destruct raws; [congruence|simpl; lia]. Qed.

Lemma P_lt : (P < N)%nat.
Proof. eapply lookup_lt_Some; eauto. Qed.

Lemma Q_lt : (Q < N)%nat.
Proof. eapply lookup_lt_Some; eauto. Qed.

Lemma clist_P : clist h P = Some lP.
Proof. unfold clist. rewrite HP. exact HlP. Qed.

Lemma kids_P : children_refs h P = Some (as_ ++ Q :: bs_).
Proof. apply children_refs_Some. exists lP. split; [apply clist_P|exact HksP]. Qed.

Lemma sh_cls_old r : (r < N)%nat → cls_of sheap r = cls_of h r.
Proof.
  intros Hr. unfold cls_of. apply based_cls; [apply sh_based| |exact Hr].
  destruct sh_lengths as [-> _]. fold N. lia.
Qed.

Lemma sh_element_old r : (r < N)%nat → element_of sheap r = element_of h r.
Proof.
  intros Hr. unfold element_of. apply based_element; [apply sh_based| |exact Hr].
  destruct sh_lengths as [-> _]. fold N. lia.
Qed.

Lemma sh_kids_P :
  children_refs sheap P = Some (as_ ++ [N; x; N + 1] ++ bs_).
Proof.
  apply children_refs_Some. exists lP. split; [|apply sh_lists_P].
  rewrite sh_clist_old; [apply clist_P|apply P_lt|exact HJP].
Qed.

Lemma sh_kids_prev : children_refs sheap N = Some [Q].
Proof.
  apply children_refs_Some. exists NL. split; [|apply sh_lists_prev].
  unfold clist. rewrite sh_prev. reflexivity.
Qed.

Lemma sh_kids_next : children_refs sheap (N + 1) = Some [N + 2].
Proof.
  apply children_refs_Some. exists (NL + 1). split.
  - unfold clist. rewrite sh_next. reflexivity.
  - rewrite sh_lists_next. pose proof k_pos. unfold k in *.
    destruct (decide (length raws = 0)); [lia|reflexivity].
Qed.

Lemma sh_kids_old y :
  (y < N)%nat → y ≠ P → y ∉ map r_J raws →
  children_refs sheap y = children_refs h y.
Proof.
  intros Hy HyP HyJ. rewrite !children_refs_clist.
  rewrite sh_clist_old by assumption.
  destruct (clist h y) as [l|] eqn:Hl; [|reflexivity]. simpl.
  apply sh_lists_old.
  - eapply inv_clist_lt; eauto.
  - intros ->. apply HyP. eapply inv_clist_inj; eauto. apply clist_P.
Qed.

Lemma sh_parent_prev : parent_of sheap N = Some P.
Proof. unfold parent_of. rewrite sh_prev. reflexivity. Qed.

Lemma sh_parent_next : parent_of sheap (N + 1) = Some P.
Proof. unfold parent_of. rewrite sh_next. reflexivity. Qed.

Section level_kids.
Variables (r1 r2 : list rlvl) (r : rlvl).
Hypothesis Hraws : raws = r1 ++ r :: r2.

Lemma sh_kids_J : children_refs sheap (r_J r) = Some (r_pre r).
Proof.
  apply children_refs_Some. exists (NL + 2 + k + length r1).
  split; [eapply sh_clist_J; eauto|eapply sh_lists_pre; eauto].
Qed.

Lemma sh_kids_clone :
  children_refs sheap (N + 2 + length r2)
  = Some ((if decide (length r1 = 0) then [] else [N + 3 + length r2])
          ++ r_post r).
Proof.
  apply children_refs_Some. exists (NL + 2 + length r2). split.
  - unfold clist. rewrite (sh_clone_box r1 r2 r Hraws). reflexivity.
  - eapply sh_clone_list; eauto.
Qed.

Lemma sh_parent_clone :
  parent_of sheap (N + 2 + length r2) = Some (N + 1 + length r2).
Proof. unfold parent_of. rewrite (sh_clone_box r1 r2 r Hraws). reflexivity. Qed.

Lemma sh_cls_clone :
  cls_of sheap (N + 2 + length r2) = Some InlineLevelBox.
Proof. unfold cls_of. rewrite (sh_clone_box r1 r2 r Hraws). reflexivity. Qed.

Lemma level_chain :
  rchain h Q (outer x r1) (r :: r2).
Proof. apply rchain_app. rewrite <- Hraws. exact Hchain. Qed.

Lemma level_kids :
  children_refs h (r_J r) = Some (r_pre r ++ outer x r1 :: r_post r).
Proof. eapply rchain_kids_head. apply level_chain. Qed.
End level_kids.

Lemma sh_kids_inv y ks :
  children_refs sheap y = Some ks →
  (y = P ∧ ks = as_ ++ [N; x; N + 1] ++ bs_)
  ∨ (∃ r1 r r2, raws = r1 ++ r :: r2 ∧ y = r_J r ∧ ks = r_pre r)
  ∨ (y = N ∧ ks = [Q])
  ∨ (y = N + 1 ∧ ks = [N + 2])
  ∨ (∃ r1 r r2, raws = r1 ++ r :: r2 ∧ y = N + 2 + length r2
       ∧ ks = (if decide (length r1 = 0) then [] else [N + 3 + length r2])
              ++ r_post r)
  ∨ ((y < N)%nat ∧ y ≠ P ∧ (y ∉ map r_J raws) ∧ children_refs h y = Some ks).
Proof.
  intros Hks.
  assert (Hy : (y < N + 2 + k)%nat).
  { unfold children_refs in Hks.
    destruct (boxes sheap !! y) as [o|] eqn:Ho; [|discriminate].
    apply lookup_lt_Some in Ho. destruct sh_lengths as [Hl _].
    rewrite Hl in Ho. exact Ho. }
  destruct (decide (y < N)%nat) as [HyN|HyN].
  - destruct (decide (y = P)) as [->|HyP].
    { left. rewrite sh_kids_P in Hks. injection Hks as <-. auto. }
    destruct (decide (y ∈ map r_J raws)) as [HyJ|HyJ].
    { right. left. apply list_elem_of_fmap in HyJ as (r & -> & Hr).
      apply list_elem_of_split in Hr as (r1 & r2 & Hraws).
      rewrite (sh_kids_J r1 r2 r Hraws) in Hks. injection Hks as <-.
      exists r1, r, r2. auto. }
    do 5 right. rewrite sh_kids_old in Hks by assumption. auto.
  - destruct (decide (y = N)) as [->|HyN0].
    { right. right. left. rewrite sh_kids_prev in Hks. injection Hks as <-. auto. }
    destruct (decide (y = N + 1)) as [->|HyN1].
    { do 3 right. left. rewrite sh_kids_next in Hks. injection Hks as <-. auto. }
    do 4 right. left.
    destruct (decomp_at raws (y - N - 2)) as (r1 & r & r2 & Hraws & Hlen);
      [fold k; lia|].
    assert (Hyeq : y = N + 2 + length r2) by lia.
    rewrite Hyeq in Hks. rewrite (sh_kids_clone r1 r2 r Hraws) in Hks.
    injection Hks as <-. exists r1, r, r2. auto.
Qed.

(** ** The invariants after the split *)

Lemma x_parent_J :
  ∃ r0 rest, raws = r0 :: rest ∧ parent_of h x = Some (r_J r0).
Proof.
  pose proof Hchain as Hch. destruct raws as [|r0 rest]; [congruence|].
  destruct Hch as [Hp _]. eauto.
Qed.

Lemma x_parent_in : ∃ J, J ∈ map r_J raws ∧ parent_of h x = Some J.
Proof.
  destruct x_parent_J as (r0 & rest & -> & Hp). exists (r_J r0).
  split; [left|exact Hp].
Qed.

Lemma Q_parent : parent_of h Q = Some P.
Proof. unfold parent_of. rewrite HQ. exact HQp. Qed.

Lemma old_kid y ks c :
  children_refs h y = Some ks → c ∈ ks → y ∉ map r_J raws →
  c ≠ x ∧ (c ∉ all_posts raws) ∧ (y ≠ P → c ≠ Q)
  ∧ parent_of h c = Some y ∧ (c < N)%nat.
Proof.
  intros Hks Hc HyJ.
  pose proof (inv_cons _ Hinv _ _ _ Hks Hc) as Hp.
  repeat split.
  - intros ->. destruct x_parent_in as (J & HJ & HpJ). congruence.
  - intros Hin.
    destruct (rchain_post_parent _ _ Hinv _ _ _ Hchain Hin) as (J & HJ & HpJ).
    congruence.
  - intros HyP ->. rewrite Q_parent in Hp. congruence.
  - exact Hp.
  - eapply inv_kids_lt; eauto.
Qed.

Section level_inv.
Variables (r1 r2 : list rlvl) (r : rlvl).
Hypothesis Hraws : raws = r1 ++ r :: r2.

Lemma level_J_in : r_J r ∈ map r_J raws.
Proof. rewrite Hraws, map_app. apply elem_of_app. right. left. Qed.

Lemma level_post_in s : s ∈ r_post r → s ∈ all_posts raws.
Proof.
  intros Hs. unfold all_posts. rewrite Hraws, map_app, concat_app.
  apply elem_of_app. right. simpl. apply elem_of_app. auto.
Qed.

Lemma level_nodup : NoDup (r_pre r ++ outer x r1 :: r_post r).
Proof. eapply inv_nodup; [exact Hinv|]. apply (level_kids r1 r2 r Hraws). Qed.

Lemma post_kid s :
  s ∈ r_post r →
  parent_of h s = Some (r_J r) ∧ (s < N)%nat ∧ (s ∉ r_pre r) ∧ s ≠ outer x r1.
Proof.
  intros Hs. pose proof (level_kids r1 r2 r Hraws) as Hks.
  pose proof level_nodup as Hnd.
  assert (Hin : s ∈ r_pre r ++ outer x r1 :: r_post r).
  { apply elem_of_app. right. right. exact Hs. }
  split; [eapply inv_cons; eauto|]. split; [eapply inv_kids_lt; eauto|].
  apply NoDup_app in Hnd as (_ & Hd & Hnd2).
  apply NoDup_cons in Hnd2 as [Hsp _]. split.
  - intros Hpre. apply (Hd _ Hpre). right. exact Hs.
  - intros ->. contradiction.
Qed.

End level_inv.

Section level_pre.
Variables (r1 r2 : list rlvl) (r : rlvl).
Hypothesis Hraws : raws = r1 ++ r :: r2.

Lemma pre_kid c :
  c ∈ r_pre r →
  c ≠ x ∧ (c ∉ all_posts raws) ∧ c ≠ Q
  ∧ parent_of h c = Some (r_J r) ∧ (c < N)%nat.
Proof.
  intros Hc. pose proof (level_kids r1 r2 r Hraws) as Hks.
  pose proof (level_nodup r1 r2 r Hraws) as Hnd.
  assert (Hin : c ∈ r_pre r ++ outer x r1 :: r_post r).
  { apply elem_of_app. left. exact Hc. }
  pose proof (inv_cons _ Hinv _ _ _ Hks Hin) as Hp.
  assert (HndJ : NoDup (map r_J (r1 ++ r :: r2))) by (rewrite <- Hraws; exact HND).
  repeat split.
  - intros ->. destruct x_parent_J as (r0 & rest & Hraws0 & Hp0).
    rewrite Hp0 in Hp. injection Hp as Heq.
    assert (Hdec : r1 ++ r :: r2 = [] ++ r0 :: rest) by (rewrite <- Hraws; exact Hraws0).
    destruct (NoDup_fmap_decomp r_J _ _ _ _ _ _ HndJ Hdec (eq_sym Heq))
      as (-> & _ & _).
    apply NoDup_app in Hnd as (_ & Hd & _). apply (Hd _ Hc). left.
  - intros Hpost. apply elem_of_all_posts in Hpost as (r' & Hr' & Hcp).
    apply list_elem_of_split in Hr' as (r1' & r2' & Hraws').
    destruct (post_kid r1' r2' r' Hraws' c Hcp) as [Hp' _].
    rewrite Hp' in Hp. injection Hp as Heq.
    assert (Hdec : r1 ++ r :: r2 = r1' ++ r' :: r2') by (rewrite <- Hraws; exact Hraws').
    destruct (NoDup_fmap_decomp r_J _ _ _ _ _ _ HndJ Hdec (eq_sym Heq))
      as (_ & <- & _).
    apply NoDup_app in Hnd as (_ & Hd & _). apply (Hd _ Hc). right. exact Hcp.
  - intros ->. rewrite Q_parent in Hp. injection Hp as ->.
    apply HJP. apply (level_J_in r1 r2 r Hraws).
  - exact Hp.
  - eapply inv_kids_lt; eauto.
Qed.
End level_pre.

Lemma P_kid c :
  c ∈ as_ ∨ c ∈ bs_ →
  c ≠ x ∧ (c ∉ all_posts raws) ∧ c ≠ Q ∧ parent_of h c = Some P ∧ (c < N)%nat.
Proof.
  intros Hc. pose proof kids_P as Hks.
  pose proof (inv_nodup _ Hinv _ _ Hks) as Hnd.
  assert (Hin : c ∈ as_ ++ Q :: bs_).
  { apply elem_of_app. destruct Hc; [left|right; right]; assumption. }
  destruct (old_kid _ _ _ Hks Hin HJP) as (H1 & H2 & _ & H4 & H5).
  repeat split; try assumption.
  intros ->. apply NoDup_app in Hnd as (_ & _ & Hnd).
  apply NoDup_cons in Hnd as [HQbs _]. destruct Hc; contradiction.
Qed.

Lemma sh_clist_inv r l :
  clist sheap r = Some l →
  ((r < N)%nat ∧ (r ∉ map r_J raws) ∧ clist h r = Some l ∧ (l < NL)%nat)
  ∨ (∃ r1 r' r2, raws = r1 ++ r' :: r2 ∧ r = r_J r'
       ∧ l = NL + 2 + k + length r1)
  ∨ (r = N ∧ l = NL)
  ∨ (r = N + 1 ∧ l = NL + 1)
  ∨ (∃ r1 r' r2, raws = r1 ++ r' :: r2 ∧ r = N + 2 + length r2
       ∧ l = NL + 2 + length r2).
Proof.
  intros Hl.
  assert (Hr : (r < N + 2 + k)%nat).
  { apply clist_Some in Hl as (o & Ho & _). apply lookup_lt_Some in Ho.
    destruct sh_lengths as [Hlen _]. rewrite Hlen in Ho. exact Ho. }
  destruct (decide (r < N)%nat) as [HrN|HrN].
  - destruct (decide (r ∈ map r_J raws)) as [HrJ|HrJ].
    + right. left. apply list_elem_of_fmap in HrJ as (r' & -> & Hr').
      apply list_elem_of_split in Hr' as (r1 & r2 & Hraws).
      rewrite (sh_clist_J r1 r2 r' Hraws) in Hl. injection Hl as <-.
      exists r1, r', r2. auto.
    + left. rewrite sh_clist_old in Hl by assumption.
      repeat split; auto. eapply inv_clist_lt; eauto.
  - destruct (decide (r = N)) as [->|HrN0].
    { right. right. left. unfold clist in Hl. rewrite sh_prev in Hl.
      simpl in Hl. injection Hl as <-. auto. }
    destruct (decide (r = N + 1)) as [->|HrN1].
    { do 3 right. left. unfold clist in Hl. rewrite sh_next in Hl.
      simpl in Hl. injection Hl as <-. auto. }
    do 4 right.
    destruct (decomp_at raws (r - N - 2)) as (r1 & r' & r2 & Hraws & Hlen);
      [fold k; lia|].
    assert (Hreq : r = N + 2 + length r2) by lia.
    rewrite Hreq in Hl. unfold clist in Hl.
    rewrite (sh_clone_box r1 r2 r' Hraws) in Hl. simpl in Hl.
    injection Hl as <-. exists r1, r', r2. auto.
Qed.

Lemma sh_inv_clist_lt r l :
  clist sheap r = Some l → (l < length (lists sheap))%nat.
Proof.
  intros Hl. destruct sh_lengths as [_ ->].
  destruct (sh_clist_inv _ _ Hl)
    as [(_ & _ & _ & Hlt)|[(r1 & r' & r2 & Hraws & _ & ->)
       |[[_ ->]|[[_ ->]|(r1 & r' & r2 & Hraws & _ & ->)]]]];
    try pose proof (k_split r1 r2 r' Hraws); lia.
Qed.

Lemma sh_inv_clist_inj ra rb l :
  clist sheap ra = Some l → clist sheap rb = Some l → ra = rb.
Proof.
  intros Ha Hb.
  destruct (sh_clist_inv _ _ Ha)
    as [(_ & _ & Ha3 & Ha4)|[(a1 & ra' & a2 & Hra & Era & Ela)
       |[[Era Ela]|[[Era Ela]|(a1 & ra' & a2 & Hra & Era & Ela)]]]];
  destruct (sh_clist_inv _ _ Hb)
    as [(_ & _ & Hb3 & Hb4)|[(b1 & rb' & b2 & Hrb & Erb & Elb)
       |[[Erb Elb]|[[Erb Elb]|(b1 & rb' & b2 & Hrb & Erb & Elb)]]]];
  try pose proof (k_split a1 a2 ra' Hra);
  try pose proof (k_split b1 b2 rb' Hrb);
  try lia.
  - eapply inv_clist_inj; eauto.
  - assert (Hlen : length a1 = length b1) by lia.
    rewrite Hra in Hrb. apply app_inj_1 in Hrb as [_ Hrb]; [|exact Hlen].
    injection Hrb as -> _. congruence.
Qed.

Lemma x_lt : (x < N)%nat.
Proof. eapply rchain_sp_lt; eauto. Qed.

Lemma decomp_snoc (a1 a2 : list rlvl) (r : rlvl) :
  raws = a1 ++ r :: a2 → length a1 ≠ 0 →
  ∃ a1' r', a1 = a1' ++ [r'] ∧ raws = a1' ++ r' :: (r :: a2)
            ∧ outer x a1 = r_J r'.
Proof.
  intros Hraws Hlen.
  destruct (decide (a1 = [])) as [->|Hne1]; [simpl in Hlen; congruence|].
  destruct (exists_last Hne1) as (a1' & r' & ->).
  exists a1', r'. split; [reflexivity|]. split.
  - rewrite Hraws, <- app_assoc. reflexivity.
  - unfold outer. rewrite map_app. simpl. rewrite last_snoc. reflexivity.
Qed.

Lemma sh_inv_kids_lt y ks c :
  children_refs sheap y = Some ks → c ∈ ks →
  (c < length (boxes sheap))%nat.
Proof.
  intros Hks Hc. destruct sh_lengths as [-> _]. pose proof k_pos as Hk0.
  pose proof x_lt. pose proof Q_lt.
  destruct (sh_kids_inv _ _ Hks)
    as [(-> & ->)|[(r1 & r & r2 & Hraws & -> & ->)|[(-> & ->)|[(-> & ->)
       |[(r1 & r & r2 & Hraws & -> & ->)|(HyN & HyP & HyJ & Hold)]]]]].
  - rewrite !elem_of_app in Hc. destruct Hc as [Hc|[Hc|Hc]].
    + destruct (P_kid c) as (_ & _ & _ & _ & ?); [auto|lia].
    + rewrite !elem_of_cons in Hc. destruct Hc as [->|[->|[->|Hc]]];
        [lia|lia|lia|inversion Hc].
    + destruct (P_kid c) as (_ & _ & _ & _ & ?); [auto|lia].
  - destruct (pre_kid r1 r2 r Hraws c Hc) as (_ & _ & _ & _ & ?). lia.
  - apply list_elem_of_singleton in Hc as ->. lia.
  - apply list_elem_of_singleton in Hc as ->. lia.
  - pose proof (k_split r1 r2 r Hraws).
    apply elem_of_app in Hc as [Hc|Hc].
    + destruct (decide (length r1 = 0)); [inversion Hc|].
      apply list_elem_of_singleton in Hc as ->. lia.
    + destruct (post_kid r1 r2 r Hraws c Hc) as (_ & ? & _). lia.
  - pose proof (inv_kids_lt _ Hinv _ _ _ Hold Hc). fold N in H1. lia.
Qed.

Lemma sh_inv_cons y ks c :
  children_refs sheap y = Some ks → c ∈ ks →
  parent_of sheap c = Some y.
Proof.
  intros Hks Hc. pose proof k_pos as Hk0.
  destruct (sh_kids_inv _ _ Hks)
    as [(-> & ->)|[(r1 & r & r2 & Hraws & -> & ->)|[(-> & ->)|[(-> & ->)
       |[(r1 & r & r2 & Hraws & -> & ->)|(HyN & HyP & HyJ & Hold)]]]]].
  - rewrite !elem_of_app in Hc. destruct Hc as [Hc|[Hc|Hc]].
    + destruct (P_kid c) as (? & ? & ? & Hp & ?); [auto|].
      rewrite sh_parent_old by assumption. exact Hp.
    + rewrite !elem_of_cons in Hc. destruct Hc as [->|[->|[->|Hc]]];
        [apply sh_parent_prev|apply sh_parent_x|apply sh_parent_next
        |inversion Hc].
    + destruct (P_kid c) as (? & ? & ? & Hp & ?); [auto|].
      rewrite sh_parent_old by assumption. exact Hp.
  - destruct (pre_kid r1 r2 r Hraws c Hc) as (? & ? & ? & Hp & ?).
    rewrite sh_parent_old by assumption. exact Hp.
  - apply list_elem_of_singleton in Hc as ->. apply sh_parent_Q.
  - apply list_elem_of_singleton in Hc as ->.
    destruct (decomp_at raws 0) as (r1 & r & r2 & Hraws & Hlen); [fold k; lia|].
    pose proof (sh_parent_clone r1 r2 r Hraws) as Hp.
    rewrite Hlen, !Nat.add_0_r in Hp. exact Hp.
  - apply elem_of_app in Hc as [Hc|Hc].
    + destruct (decide (length r1 = 0)) as [|Hlen]; [inversion Hc|].
      apply list_elem_of_singleton in Hc as ->.
      destruct (decomp_snoc _ _ _ Hraws Hlen) as (r1' & r' & _ & Hraws' & _).
      pose proof (sh_parent_clone r1' (r :: r2) r' Hraws') as Hp.
      cbn [length] in Hp.
      replace (N + 2 + S (length r2)) with (N + 3 + length r2) in Hp by lia.
      replace (N + 1 + S (length r2)) with (N + 2 + length r2) in Hp by lia.
      exact Hp.
    + eapply sh_parent_post; eauto.
  - destruct (old_kid _ _ _ Hold Hc HyJ) as (? & ? & HcQ & Hp & ?).
    rewrite sh_parent_old by auto. exact Hp.
Qed.

Lemma sh_inv_nodup y ks :
  children_refs sheap y = Some ks → NoDup ks.
Proof.
  intros Hks.
  destruct (sh_kids_inv _ _ Hks)
    as [(-> & ->)|[(r1 & r & r2 & Hraws & -> & ->)|[(-> & ->)|[(-> & ->)
       |[(r1 & r & r2 & Hraws & -> & ->)|(HyN & HyP & HyJ & Hold)]]]]].
  - pose proof (inv_nodup _ Hinv _ _ kids_P) as Hnd.
    apply NoDup_app in Hnd as (Hnda & Hd & Hndb).
    apply NoDup_cons in Hndb as [_ Hndb]. pose proof x_lt.
    assert (Hlt : ∀ c, c ∈ as_ ∨ c ∈ bs_ → c ≠ x ∧ (c < N)%nat).
    { intros c Hc. destruct (P_kid c Hc) as (? & _ & _ & _ & ?). auto. }
    apply NoDup_app. split; [exact Hnda|]. split.
    + intros c Hc Hin. destruct (Hlt c (or_introl Hc)) as [Hcx HcN].
      cbn [app] in Hin. rewrite !elem_of_cons in Hin. destruct Hin as [->|[->|[->|Hin]]];
        [lia|congruence|lia|].
      apply (Hd _ Hc). right. exact Hin.
    + assert (Hnb : ∀ c, c ∈ bs_ → c ≠ x ∧ (c < N)%nat) by (intros; apply Hlt; auto).
      cbn [app]. repeat (apply NoDup_cons; split); [| |  |exact Hndb].
      * rewrite !not_elem_of_cons. repeat split; [lia|lia|].
        intros Hin. destruct (Hnb _ Hin). lia.
      * rewrite !not_elem_of_cons. repeat split; [lia|].
        intros Hin. destruct (Hnb _ Hin). congruence.
      * intros Hin. destruct (Hnb _ Hin). lia.
  - pose proof (level_nodup r1 r2 r Hraws) as Hnd.
    apply NoDup_app in Hnd as (Hnd & _). exact Hnd.
  - apply NoDup_singleton.
  - apply NoDup_singleton.
  - pose proof (level_nodup r1 r2 r Hraws) as Hnd.
    apply NoDup_app in Hnd as (_ & _ & Hnd).
    apply NoDup_cons in Hnd as [_ Hnd].
    destruct (decide (length r1 = 0)); [exact Hnd|].
    simpl. apply NoDup_cons. split; [|exact Hnd].
    intros Hin. destruct (post_kid r1 r2 r Hraws _ Hin) as (_ & ? & _). lia.
  - eapply inv_nodup; eauto.
Qed.

Lemma cls_P : cls_of h P = Some (o_cls oP).
Proof. unfold cls_of. rewrite HP. reflexivity. Qed.

Lemma sh_inv_line y ks c :
  cls_of sheap y = Some InlineLevelBox →
  children_refs sheap y = Some ks → c ∈ ks →
  cls_of sheap c ≠ Some LineBox.
Proof.
  intros Hy Hks Hc.
  destruct (sh_kids_inv _ _ Hks)
    as [(-> & ->)|[(r1 & r & r2 & Hraws & -> & ->)|[(-> & ->)|[(-> & ->)
       |[(r1 & r & r2 & Hraws & -> & ->)|(HyN & HyP & HyJ & Hold)]]]]].
  - rewrite sh_cls_old, cls_P in Hy by apply P_lt. injection Hy as Hy.
    rewrite Hy in HPblock. discriminate.
  - destruct (pre_kid r1 r2 r Hraws c Hc) as (_ & _ & _ & _ & HcN).
    rewrite sh_cls_old by exact HcN.
    pose proof (level_chain r1 r2 r Hraws) as (_ & HcJ & _).
    eapply inv_line; [exact Hinv|exact HcJ|apply (level_kids r1 r2 r Hraws)|].
    apply elem_of_app. left. exact Hc.
  - unfold cls_of in Hy. rewrite sh_prev in Hy. discriminate.
  - unfold cls_of in Hy. rewrite sh_next in Hy. discriminate.
  - apply elem_of_app in Hc as [Hc|Hc].
    + destruct (decide (length r1 = 0)) as [|Hlen]; [inversion Hc|].
      apply list_elem_of_singleton in Hc as ->.
      destruct (decomp_snoc _ _ _ Hraws Hlen) as (r1' & r' & _ & Hraws' & _).
      pose proof (sh_cls_clone r1' (r :: r2) r' Hraws') as Hcl.
      cbn [length] in Hcl.
      replace (N + 2 + S (length r2)) with (N + 3 + length r2) in Hcl by lia.
      rewrite Hcl. discriminate.
    + destruct (post_kid r1 r2 r Hraws c Hc) as (_ & HcN & _).
      rewrite sh_cls_old by exact HcN.
      pose proof (level_chain r1 r2 r Hraws) as (_ & HcJ & _).
      eapply inv_line; [exact Hinv|exact HcJ|apply (level_kids r1 r2 r Hraws)|].
      apply elem_of_app. right. right. exact Hc.
  - rewrite sh_cls_old in Hy by exact HyN.
    rewrite sh_cls_old by (eapply inv_kids_lt; eauto).
    eapply inv_line; eauto.
Qed.

Lemma sh_inv_text r o :
  boxes sheap !! r = Some o → o_children o = None → is_Some (o_text o).
Proof.
  intros Ho Hnone.
  assert (Hr : (r < N + 2 + k)%nat).
  { apply lookup_lt_Some in Ho. destruct sh_lengths as [Hlen _].
    rewrite Hlen in Ho. exact Ho. }
  destruct (decide (r < N)%nat) as [HrN|HrN].
  - destruct (sh_based _ _ Ho HrN) as (o0 & Ho0 & _ & _ & Ht & Hc).
    rewrite Ht. eapply inv_text; [exact Hinv|exact Ho0|].
    destruct (o_children o0) as [l|] eqn:El; [|reflexivity].
    destruct Hc as [_ Hc]. rewrite Hnone in Hc. destruct Hc as [? [=]]. eauto.
  - destruct (decide (r = N)) as [->|HrN0].
    { rewrite sh_prev in Ho. injection Ho as <-. discriminate. }
    destruct (decide (r = N + 1)) as [->|HrN1].
    { rewrite sh_next in Ho. injection Ho as <-. discriminate. }
    destruct (decomp_at raws (r - N - 2)) as (r1 & r' & r2 & Hraws & Hlen);
      [fold k; lia|].
    assert (Hreq : r = N + 2 + length r2) by lia.
    rewrite Hreq, (sh_clone_box r1 r2 r' Hraws) in Ho.
    injection Ho as <-. discriminate.
Qed.

Lemma sh_inv_ht : ∃ ht', descending sheap ht'.
Proof.
  destruct (inv_ht _ Hinv) as [ht Hd].
  set (ht' := λ r : ref,
         if decide (r < N)%nat then 2 * ht r
         else if decide (r < N + 2)%nat then 2 * ht Q + 1
         else 2 * ht (default 0 (r_J <$> raws !! (k - 1 - (r - N - 2)))) + 1).
  assert (Hold : ∀ r, (r < N)%nat → ht' r = 2 * ht r).
  { intros r Hr. unfold ht'. rewrite decide_True by exact Hr. reflexivity. }
  assert (HN0 : ht' N = 2 * ht Q + 1).
  { unfold ht'. rewrite decide_False, decide_True by lia. reflexivity. }
  assert (HN1 : ht' (N + 1) = 2 * ht Q + 1).
  { unfold ht'. rewrite decide_False, decide_True by lia. reflexivity. }
  assert (Hclone : ∀ r1 r r2, raws = r1 ++ r :: r2 →
            ht' (N + 2 + length r2) = 2 * ht (r_J r) + 1).
  { intros r1 r r2 Hraws. unfold ht'. rewrite !decide_False by lia.
    pose proof (k_split r1 r2 r Hraws) as Hk'.
    replace (k - 1 - (N + 2 + length r2 - N - 2)) with (length r1) by lia.
    rewrite Hraws, list_lookup_middle by reflexivity. reflexivity. }
  pose proof x_lt as HxN. pose proof Q_lt as HQN. pose proof P_lt as HPN.
  pose proof k_pos as Hk0.
  destruct (rchain_ht _ _ _ Hd _ _ Hchain) as [_ HxQ'].
  assert (HQP : (ht Q < ht P)%nat).
  { eapply Hd; [apply kids_P|]. apply elem_of_app. right. left. }
  exists ht'. intros y ks c Hks Hc.
  destruct (sh_kids_inv _ _ Hks)
    as [(-> & ->)|[(r1 & r & r2 & Hraws & -> & ->)|[(-> & ->)|[(-> & ->)
       |[(r1 & r & r2 & Hraws & -> & ->)|(HyN & HyP & HyJ & Hold')]]]]].
  - rewrite (Hold P) by exact HPN.
    assert (Hab : ∀ c, c ∈ as_ ∨ c ∈ bs_ → (ht' c < 2 * ht P)%nat).
    { intros c' Hc'. destruct (P_kid c' Hc') as (_ & _ & _ & _ & Hc'N).
      rewrite Hold by exact Hc'N.
      assert (ht c' < ht P)%nat; [|lia].
      eapply Hd; [apply kids_P|]. apply elem_of_app.
      destruct Hc'; [left|right; right]; assumption. }
    rewrite !elem_of_app in Hc. destruct Hc as [Hc|[Hc|Hc]]; [auto| |auto].
    rewrite !elem_of_cons in Hc. destruct Hc as [->|[->|[->|Hc]]];
      [lia|rewrite Hold by exact HxN; lia|lia|inversion Hc].
  - destruct (pre_kid r1 r2 r Hraws c Hc) as (_ & _ & _ & _ & HcN).
    pose proof (level_J_lt r1 r2 r Hraws) as [HJN _].
    rewrite !Hold by assumption.
    assert (ht c < ht (r_J r))%nat; [|lia].
    eapply Hd; [apply (level_kids r1 r2 r Hraws)|].
    apply elem_of_app. left. exact Hc.
  - apply list_elem_of_singleton in Hc as ->. rewrite Hold by exact HQN. lia.
  - apply list_elem_of_singleton in Hc as ->.
    destruct (decomp_at raws 0) as (r1 & r & r2 & Hraws & Hlen); [fold k; lia|].
    pose proof (Hclone r1 r r2 Hraws) as Hcl. rewrite Hlen, Nat.add_0_r in Hcl.
    rewrite Hcl, HN1.
    pose proof (level_chain r1 r2 r Hraws) as (_ & _ & _ & _ & _ & _ & Hrest).
    destruct (rchain_ht _ _ _ Hd _ _ Hrest) as [_ Hlt]. lia.
  - rewrite (Hclone r1 r r2 Hraws).
    apply elem_of_app in Hc as [Hc|Hc].
    + destruct (decide (length r1 = 0)) as [|Hlen]; [inversion Hc|].
      apply list_elem_of_singleton in Hc as ->.
      destruct (decomp_snoc _ _ _ Hraws Hlen) as (r1' & r' & _ & Hraws' & Hout).
      pose proof (Hclone r1' r' (r :: r2) Hraws') as Hcl. cbn [length] in Hcl.
      replace (N + 2 + S (length r2)) with (N + 3 + length r2) in Hcl by lia.
      rewrite Hcl.
      assert (ht (r_J r') < ht (r_J r))%nat; [|lia].
      eapply Hd; [apply (level_kids r1 r2 r Hraws)|].
      rewrite Hout. apply elem_of_app. right. left.
    + destruct (post_kid r1 r2 r Hraws c Hc) as (_ & HcN & _).
      rewrite Hold by exact HcN.
      assert (ht c < ht (r_J r))%nat; [|lia].
      eapply Hd; [apply (level_kids r1 r2 r Hraws)|].
      apply elem_of_app. right. right. exact Hc.
  - pose proof (inv_kids_lt _ Hinv _ _ _ Hold' Hc) as HcN. fold N in HcN.
    rewrite !Hold by assumption.
    assert (ht c < ht y)%nat; [|lia]. eapply Hd; eauto.
Qed.

Lemma sh_parent_inv s p :
  parent_of sheap s = Some p →
  (s = x ∧ p = P) ∨ (s = Q ∧ p = N)
  ∨ (∃ r1 r r2, raws = r1 ++ r :: r2 ∧ s ∈ r_post r ∧ p = N + 2 + length r2)
  ∨ (s = N ∧ p = P) ∨ (s = N + 1 ∧ p = P)
  ∨ (∃ r1 r r2, raws = r1 ++ r :: r2 ∧ s = N + 2 + length r2
       ∧ p = N + 1 + length r2)
  ∨ ((s < N)%nat ∧ s ≠ x ∧ s ≠ Q ∧ (s ∉ all_posts raws)
     ∧ parent_of h s = Some p).
Proof.
  intros Hp.
  assert (Hs : (s < N + 2 + k)%nat).
  { apply parent_of_lt in Hp. destruct sh_lengths as [Hlen _].
    rewrite Hlen in Hp. exact Hp. }
  destruct (decide (s = x)) as [->|Hsx].
  { left. rewrite sh_parent_x in Hp. injection Hp as <-. auto. }
  destruct (decide (s = Q)) as [->|HsQ].
  { right. left. rewrite sh_parent_Q in Hp. injection Hp as <-. auto. }
  destruct (decide (s ∈ all_posts raws)) as [Hpost|Hpost].
  { right. right. left. apply elem_of_all_posts in Hpost as (r & Hr & Hsr).
    apply list_elem_of_split in Hr as (r1 & r2 & Hraws).
    rewrite (sh_parent_post r1 r2 r Hraws s Hsr) in Hp. injection Hp as <-.
    exists r1, r, r2. auto. }
  destruct (decide (s < N)%nat) as [HsN|HsN].
  { do 6 right. rewrite sh_parent_old in Hp by assumption. auto. }
  destruct (decide (s = N)) as [->|HsN0].
  { do 3 right. left. rewrite sh_parent_prev in Hp. injection Hp as <-. auto. }
  destruct (decide (s = N + 1)) as [->|HsN1].
  { do 4 right. left. rewrite sh_parent_next in Hp. injection Hp as <-. auto. }
  do 5 right. left.
  destruct (decomp_at raws (s - N - 2)) as (r1 & r & r2 & Hraws & Hlen);
    [fold k; lia|].
  assert (Hseq : s = N + 2 + length r2) by lia.
  rewrite Hseq, (sh_parent_clone r1 r2 r Hraws) in Hp. injection Hp as <-.
  exists r1, r, r2. auto.
Qed.

Lemma sh_inv_parent_lt s p :
  parent_of sheap s = Some p → (p < length (boxes sheap))%nat.
Proof.
  intros Hp. destruct sh_lengths as [-> _]. pose proof P_lt.
  destruct (sh_parent_inv _ _ Hp)
    as [[_ ->]|[[_ ->]|[(r1 & r & r2 & Hraws & _ & ->)|[[_ ->]|[[_ ->]
       |[(r1 & r & r2 & Hraws & _ & ->)|(_ & _ & _ & _ & Hold)]]]]]];
    try pose proof (k_split r1 r2 r Hraws); try lia.
  pose proof (inv_parent_lt _ Hinv _ _ Hold) as Hlt. fold N in Hlt. lia.
Qed.

Lemma sh_inv_leaf r :
  cls_of sheap r = Some TextBox → clist sheap r = None.
Proof.
  intros Hc.
  assert (Hr : (r < N + 2 + k)%nat).
  { apply cls_of_lt in Hc. destruct sh_lengths as [Hlen _].
    rewrite Hlen in Hc. exact Hc. }
  destruct (decide (r < N)%nat) as [HrN|HrN].
  - rewrite sh_cls_old in Hc by exact HrN.
    rewrite sh_clist_old; [exact (inv_leaf _ Hinv _ Hc)|exact HrN|].
    intros HJ. apply list_elem_of_fmap in HJ as (r' & -> & Hr').
    pose proof (rchain_cls _ _ _ _ Hchain) as HF.
    rewrite Forall_forall in HF. rewrite (HF _ Hr') in Hc. discriminate.
  - destruct (decide (r = N)) as [->|HrN0].
    { unfold cls_of in Hc. rewrite sh_prev in Hc. discriminate. }
    destruct (decide (r = N + 1)) as [->|HrN1].
    { unfold cls_of in Hc. rewrite sh_next in Hc. discriminate. }
    destruct (decomp_at raws (r - N - 2)) as (r1 & r' & r2 & Hraws & Hlen);
      [fold k; lia|].
    assert (Hreq : r = N + 2 + length r2) by lia.
    unfold cls_of in Hc.
    rewrite Hreq, (sh_clone_box r1 r2 r' Hraws) in Hc. discriminate.
Qed.

Lemma sh_inv : inv sheap.
Proof.
  constructor.
  - apply sh_inv_clist_lt.
  - apply sh_inv_clist_inj.
  - apply sh_inv_kids_lt.
  - apply sh_inv_cons.
  - apply sh_inv_nodup.
  - apply sh_inv_line.
  - apply sh_inv_text.
  - apply sh_inv_parent_lt.
  - apply sh_inv_ht.
  - apply sh_inv_leaf.
Qed.

(** ** The context after the split *)

Lemma J_inline J : J ∈ map r_J raws → cls_of h J = Some InlineLevelBox.
Proof.
  intros HJ. apply list_elem_of_fmap in HJ as (r & -> & Hr).
  pose proof (rchain_cls _ _ _ _ Hchain) as HF.
  rewrite Forall_forall in HF. auto.
Qed.

Lemma sh_cls_P : cls_of sheap P = Some (o_cls oP).
Proof. rewrite sh_cls_old by apply P_lt. apply cls_P. Qed.

Lemma sh_top : top sheap P (N + 1).
Proof.
  constructor.
  - exists (o_cls oP). split; [apply sh_cls_P|exact HPblock].
  - exists AnonymousBlockLevelBox.
    split; [unfold cls_of; rewrite sh_next; reflexivity|reflexivity].
  - apply sh_parent_next.
  - exists (as_ ++ [N; x; N + 1] ++ bs_). split; [apply sh_kids_P|].
    apply elem_of_app. right. cbn [app]. right. right. left.
Qed.

Lemma sh_top_Q : top sheap N Q.
Proof.
  constructor.
  - exists AnonymousBlockLevelBox.
    split; [unfold cls_of; rewrite sh_prev; reflexivity|reflexivity].
  - exists (o_cls oQ). split; [|exact HQcls].
    rewrite sh_cls_old by apply Q_lt. unfold cls_of. rewrite HQ. reflexivity.
  - apply sh_parent_Q.
  - exists [Q]. split; [apply sh_kids_prev|left].
Qed.

Lemma sh_anchor A PA :
  top h PA A →
  ∃ PA', top sheap PA' A
    ∧ (PA' = PA ∨ (PA' = N ∧ clist sheap PA' = Some NL)).
Proof.
  intros [(cP & HcP & HbP) (cA & HcA & HiA) HpA (ks & Hks & HA)].
  destruct (decide (A = Q)) as [->|HAQ].
  { exists N. split; [apply sh_top_Q|]. right. split; [reflexivity|].
    unfold clist. rewrite sh_prev. reflexivity. }
  exists PA. split; [|left; reflexivity].
  assert (HPAJ : PA ∉ map r_J raws).
  { intros Hin. rewrite (J_inline _ Hin) in HcP. injection HcP as <-.
    discriminate. }
  destruct (old_kid _ _ _ Hks HA HPAJ) as (HAx & HApost & _ & _ & HAN).
  assert (HPAN : (PA < N)%nat) by (eapply cls_of_lt; eauto).
  constructor.
  - exists cP. rewrite sh_cls_old by exact HPAN. auto.
  - exists cA. rewrite sh_cls_old by exact HAN. auto.
  - rewrite sh_parent_old by assumption. exact HpA.
  - destruct (decide (PA = P)) as [->|HPAP].
    + exists (as_ ++ [N; x; N + 1] ++ bs_). split; [apply sh_kids_P|].
      rewrite kids_P in Hks. injection Hks as <-.
      apply elem_of_app in HA as [HA|HA]; [apply elem_of_app; auto|].
      apply elem_of_cons in HA as [HA|HA]; [contradiction|].
      apply elem_of_app. right. apply elem_of_app. auto.
    + exists ks. rewrite sh_kids_old by assumption. auto.
Qed.

Lemma sh_clone_chain : ∀ r2 r1,
  raws = r1 ++ r2 → r1 ≠ [] →
  rchain sheap (N + 1) (N + 2 + length r2) (clone_lvls N NL r2).
Proof.
  induction r2 as [|r r2 IH]; intros r1 Hraws Hr1;
    destruct (exists_last Hr1) as (r1' & r' & ->).
  - rewrite <- app_assoc in Hraws. simpl in Hraws.
    cbn [clone_lvls rchain length]. rewrite Nat.add_0_r. split.
    + pose proof (sh_parent_clone r1' [] r' Hraws) as Hp.
      cbn [length] in Hp. rewrite !Nat.add_0_r in Hp. exact Hp.
    + exists [N + 2]. split; [apply sh_kids_next|left].
  - assert (Hraws' : raws = r1' ++ r' :: (r :: r2))
      by (rewrite Hraws, <- app_assoc; reflexivity).
    cbn [clone_lvls rchain r_J r_lJ r_pre r_post r_e length].
    split; [|split; [|split; [|split; [|split; [|split]]]]].
    + pose proof (sh_parent_clone r1' (r :: r2) r' Hraws') as Hp.
      cbn [length] in Hp.
      replace (N + 1 + S (length r2)) with (N + 2 + length r2) in Hp by lia.
      exact Hp.
    + apply (sh_cls_clone _ _ _ Hraws).
    + unfold element_of. rewrite (sh_clone_box _ _ _ Hraws). reflexivity.
    + unfold clist. rewrite (sh_clone_box _ _ _ Hraws). reflexivity.
    + rewrite (sh_clone_list _ _ _ Hraws).
      rewrite decide_False by (rewrite length_app; simpl; lia).
      simpl. f_equal. f_equal. lia.
    + inversion 1.
    + apply (IH ((r1' ++ [r']) ++ [r])).
      * rewrite Hraws, <- !app_assoc. reflexivity.
      * intros Hnil. apply app_eq_nil in Hnil as [_ [=]].
Qed.

Lemma sh_pend_gen r0 rest :
  raws = r0 :: rest →
  pend_chain sheap (N + 1) (clone_lvls N NL (r0 :: rest)).
Proof.
  intros Hraws.
  assert (Hraws' : raws = [] ++ r0 :: rest) by exact Hraws.
  cbn [clone_lvls pend_chain r_J r_lJ r_pre r_post r_e].
  split; [|split; [|split; [|split]]].
  - apply (sh_cls_clone _ _ _ Hraws').
  - unfold element_of. rewrite (sh_clone_box _ _ _ Hraws'). reflexivity.
  - unfold clist. rewrite (sh_clone_box _ _ _ Hraws'). reflexivity.
  - rewrite (sh_clone_list _ _ _ Hraws'). reflexivity.
  - apply (sh_clone_chain rest [r0]); [exact Hraws|discriminate].
Qed.

Lemma sh_pend : pend_chain sheap (N + 1) (clone_lvls N NL raws).
Proof.
  destruct x_parent_J as (r0 & rest & Hraws & _).
  rewrite Hraws at 1. apply sh_pend_gen. exact Hraws.
Qed.

Lemma sh_trig s : triggers sheap s = true → triggers h s = true ∧ s ≠ x.
Proof.
  intros Ht. apply triggers_spec in Ht as (c & p & Hc & Hb & Hp & Hcp).
  assert (HPni : cls_of sheap P ≠ Some InlineLevelBox).
  { rewrite sh_cls_P. intros [= Heq]. rewrite Heq in HPblock. discriminate. }
  destruct (sh_parent_inv _ _ Hp)
    as [[-> ->]|[[-> ->]|[(r1 & r & r2 & Hraws & Hs & ->)|[[-> ->]|[[-> ->]
       |[(r1 & r & r2 & Hraws & -> & ->)|(HsN & Hsx & HsQ & Hspost & Hold)]]]]]].
  - contradiction.
  - unfold cls_of in Hcp. rewrite sh_prev in Hcp. discriminate.
  - destruct (post_kid r1 r2 r Hraws s Hs) as (Hps & HsN & _).
    split.
    + apply triggers_spec. exists c, (r_J r).
      rewrite sh_cls_old in Hc by exact HsN.
      repeat split; try assumption.
      apply J_inline. apply (level_J_in r1 r2 r Hraws).
    + intros ->. apply Hxposts. apply (level_post_in r1 r2 r Hraws). exact Hs.
  - contradiction.
  - contradiction.
  - rewrite (sh_cls_clone r1 r2 r Hraws) in Hc. injection Hc as <-. discriminate.
  - split; [|exact Hsx]. apply triggers_spec. exists c, p.
    pose proof (inv_parent_lt _ Hinv _ _ Hold) as HpN. fold N in HpN.
    rewrite sh_cls_old in Hc by exact HsN.
    rewrite sh_cls_old in Hcp by exact HpN. auto.
Qed.

Lemma sh_closed a b n :
  closed h a b n → (n ≤ N)%nat →
  inreg a b n x → inreg a b n Q → Forall (inreg a b n) (map r_J raws) →
  closed sheap a b n.
Proof.
  intros Hcl Hn Hx HQr HJs y ks c Hy Hks Hc.
  rewrite Forall_forall in HJs.
  assert (Hnew : ∀ c', (N ≤ c')%nat → inreg a b n c') by (intros; right; lia).
  destruct (sh_kids_inv _ _ Hks)
    as [(-> & ->)|[(r1 & r & r2 & Hraws & -> & ->)|[(-> & ->)|[(-> & ->)
       |[(r1 & r & r2 & Hraws & -> & ->)|(HyN & HyP & HyJ & Hold)]]]]].
  - rewrite !elem_of_app in Hc. destruct Hc as [Hc|[Hc|Hc]].
    + eapply Hcl; [exact Hy|apply kids_P|]. apply elem_of_app. auto.
    + rewrite !elem_of_cons in Hc. destruct Hc as [->|[->|[->|Hc]]];
        [apply Hnew; lia|exact Hx|apply Hnew; lia|inversion Hc].
    + eapply Hcl; [exact Hy|apply kids_P|]. apply elem_of_app. right. right. auto.
  - eapply Hcl; [exact Hy|apply (level_kids r1 r2 r Hraws)|].
    apply elem_of_app. auto.
  - apply list_elem_of_singleton in Hc as ->. exact HQr.
  - apply list_elem_of_singleton in Hc as ->. apply Hnew. lia.
  - apply elem_of_app in Hc as [Hc|Hc].
    + destruct (decide (length r1 = 0)); [inversion Hc|].
      apply list_elem_of_singleton in Hc as ->. apply Hnew. lia.
    + eapply Hcl; [apply HJs; apply (level_J_in r1 r2 r Hraws)
                  |apply (level_kids r1 r2 r Hraws)|].
      apply elem_of_app. right. right. exact Hc.
  - eapply Hcl; eauto.
Qed.

Lemma sh_res : split_res h x P Q raws sheap.
Proof.
  constructor.
  - apply sh_inv.
  - apply sh_lengths.
  - apply sh_lengths.
  - apply sh_based.
  - intros. apply sh_boxes_old; assumption.
  - intros l Hl Hne'. apply sh_lists_old; [exact Hl|].
    intros ->. apply Hne'. apply clist_P.
  - apply sh_boxes_x.
  - intros r1 r r2 s Hraws Hs. apply (sh_boxes_post r1 r2 r Hraws s Hs).
  - intros. apply sh_kids_old; assumption.
  - exists as_, bs_. split; [apply kids_P|apply sh_kids_P].
  - apply sh_top.
  - intros. apply sh_clist_old; assumption.
  - apply sh_anchor.
  - apply sh_pend.
  - apply sh_trig.
  - apply sh_closed.
Qed.

End split_exec.

Lemma rchain_clist h Q : ∀ raws sp,
  rchain h Q sp raws →
  Forall (λ r, clist h (r_J r) = Some (r_lJ r)) raws.
Proof.
  induction raws as [|r rest IH]; intros sp Hch; [constructor|].
  destruct Hch as (_ & _ & _ & Hcl & _ & _ & Hrest).
  constructor; [assumption|eauto].
Qed.

Lemma rchain_J_lt h Q : ∀ raws sp,
  rchain h Q sp raws →
  Forall (λ J, (J < length (boxes h))%nat) (map r_J raws).
Proof.
  induction raws as [|r rest IH]; intros sp Hch; [constructor|].
  destruct Hch as (_ & Hc & _ & _ & _ & _ & Hrest). cbn [map].
  constructor; [eapply cls_of_lt; eauto|eauto].
Qed.

(** A block-level box under a chain of inline boxes that ends below a box
    [Q] held by a block-level box [P] is split, and the store afterwards
    is as [split_res] says. *)
Lemma split_spec (h : heap) (x P Q : ref) (raws : list rlvl) :
  inv h → top h P Q → rchain h Q x raws → raws ≠ [] →
  ∃ h', split x h = Ok (tt, h') ∧ split_res h x P Q raws h'.
Proof.
  intros Hinv [(cP & HcP & HbP) (cQ & HcQ & HiQ) HpQ (ks & Hks & HQin)] Hch Hne.
  destruct (inv_ht _ Hinv) as [ht Hd].
  apply cls_of_Some in HcP as (oP & HoP & <-).
  apply cls_of_Some in HcQ as (oQ & HoQ & <-).
  pose proof Hks as Hks'.
  apply children_refs_Some in Hks' as (lP & HlP & HksP).
  unfold clist in HlP. rewrite HoP in HlP. simpl in HlP.
  pose proof (inv_nodup _ Hinv _ _ Hks) as Hnd.
  apply list_elem_of_split in HQin as (as_ & bs_ & ->).
  assert (HQas : Q ∉ as_).
  { apply NoDup_app in Hnd as (_ & Hdis & _). intros Hin.
    apply (Hdis _ Hin). left. }
  assert (Has : Forall (λ r, (r < length (boxes h))%nat) as_).
  { apply Forall_forall. intros r Hr. eapply inv_kids_lt; [exact Hinv|exact Hks|].
    apply elem_of_app. auto. }
  assert (HQp : o_parent oQ = Some P).
  { unfold parent_of in HpQ. rewrite HoQ in HpQ. exact HpQ. }
  destruct (rchain_ht _ _ _ Hd _ _ Hch) as [HhtJ HhtxQ].
  assert (HhtQP : (ht Q < ht P)%nat).
  { eapply Hd; [exact Hks|]. apply elem_of_app. right. left. }
  assert (HPQ : P ≠ Q) by (intros ->; lia).
  assert (HxQ : x ≠ Q) by (intros ->; lia).
  assert (HxP : x ≠ P) by (intros ->; lia).
  pose proof (rchain_nodup _ _ _ Hd _ _ Hch) as HND.
  pose proof (rchain_sp_notin_J _ _ _ Hd _ _ Hch) as HxJ.
  pose proof (rchain_cls _ _ _ _ Hch) as Hcls.
  assert (Hni : ∀ r o, boxes h !! r = Some o → o_cls o ≠ InlineLevelBox →
                       r ∉ map r_J raws).
  { intros r o Ho Hc Hin. apply list_elem_of_fmap in Hin as (r' & -> & Hr').
    rewrite Forall_forall in Hcls. specialize (Hcls _ Hr').
    unfold cls_of in Hcls. rewrite Ho in Hcls. injection Hcls as Hcls.
    contradiction. }
  assert (HJQ : Q ∉ map r_J raws).
  { eapply Hni; [exact HoQ|]. intros Heq. rewrite Heq in HiQ. discriminate. }
  assert (HJP : P ∉ map r_J raws).
  { eapply Hni; [exact HoP|]. apply block_not_inline. exact HbP. }
  assert (HlJP : lP ∉ map r_lJ raws).
  { intros Hin. apply list_elem_of_fmap in Hin as (r' & Heq & Hr').
    pose proof (rchain_clist _ _ _ _ Hch) as Hcl.
    rewrite Forall_forall in Hcl. specialize (Hcl _ Hr'). rewrite <- Heq in Hcl.
    assert (HclP : clist h P = Some lP) by (unfold clist; rewrite HoP; exact HlP).
    pose proof (inv_clist_inj _ Hinv _ _ _ Hcl HclP) as HJeq.
    apply HJP. rewrite <- HJeq. apply list_elem_of_fmap. eauto. }
  pose proof (rchain_posts_lt _ _ Hinv _ _ Hch) as Hposts.
  destruct (rchain_notin_posts _ _ Hinv _ _ Hch HND HJQ) as [Hxposts HJposts].
  pose proof (rchain_posts_nodup _ _ Hinv _ _ Hch HND) as Hposts_nd.
  assert (HQposts : Q ∉ all_posts raws).
  { intros Hin.
    destruct (rchain_post_parent _ _ Hinv _ _ _ Hch Hin) as (J & HJ & HpJ).
    rewrite HpQ in HpJ. injection HpJ as <-. contradiction. }
  assert (Hk : (length raws ≤ length (boxes h))%nat).
  { rewrite <- (length_map r_J). apply NoDup_bounded_length; [exact HND|].
    eapply rchain_J_lt; eauto. }
  exists (split_heap h x P Q oQ lP as_ bs_ raws). split.
  - apply split_exec with (oP := oP); assumption.
  - apply sh_res with (oP := oP); assumption.
Qed.

(** ** Box trees in the store, by position *)

(** ** Running the pass *)

Lemma cls_inline_iff (c : cls) :
  isinstance_InlineLevelBox c = true ↔ c = InlineLevelBox.
Proof. destruct c; simpl; split; congruence. Qed.

Lemma parent_is_inline_triggers (h : heap) (r : ref) (o : obj) :
  inv h → boxes h !! r = Some o →
  isinstance_BlockLevelBox (o_cls o) = true →
  parent_is_inline r h = Ok (triggers h r, h).
Proof.
  intros Hinv Ho Hb. unfold triggers. rewrite Ho, Hb. simpl.
  destruct (o_parent o) as [p|] eqn:Hp.
  - assert (Hpl : (p < length (boxes h))%nat).
    { eapply inv_parent_lt; [exact Hinv|]. unfold parent_of. rewrite Ho. exact Hp. }
    destruct (lookup_lt_is_Some_2 _ _ Hpl) as [po Hpo].
    rewrite (parent_is_inline_eq _ _ _ _ _ Ho Hp Hpo).
    unfold cls_of. rewrite Hpo. simpl.
    destruct (o_cls po); reflexivity.
  - apply (parent_is_inline_root _ _ _ Ho Hp).
Qed.

Lemma bii_no_trigger (fuel : nat) (h : heap) (r : ref) :
  inv h → (r < length (boxes h))%nat → triggers h r = false →
  block_in_inline (S fuel) r h = visit_children fuel r h.
Proof.
  intros Hinv Hr Ht. destruct (lookup_lt_is_Some_2 _ _ Hr) as [o Ho].
  rewrite bii_unfold, M_bind_eq, (get_cls_eq _ _ _ Ho).
  destruct (isinstance_BlockLevelBox (o_cls o)) eqn:Hb; [|reflexivity].
  rewrite !M_bind_eq, (parent_is_inline_triggers _ _ _ Hinv Ho Hb), Ht.
  reflexivity.
Qed.

Lemma bii_trigger (fuel : nat) (h : heap) (r : ref) :
  inv h → triggers h r = true →
  block_in_inline (S fuel) r h = (split r;; visit_children fuel r) h.
Proof.
  intros Hinv Ht. pose proof Ht as Ht'.
  apply triggers_spec in Ht' as (c & p & Hc & Hb & _).
  apply cls_of_Some in Hc as (o & Ho & <-).
  rewrite bii_unfold, M_bind_eq, (get_cls_eq _ _ _ Ho), Hb.
  rewrite !M_bind_eq, (parent_is_inline_triggers _ _ _ Hinv Ho Hb), Ht.
  reflexivity.
Qed.

Lemma visit_children_none (fuel : nat) (h : heap) (r : ref) :
  (r < length (boxes h))%nat → clist h r = None →
  visit_children fuel r h = Ok (tt, h).
Proof.
  intros Hr Hc. destruct (lookup_lt_is_Some_2 _ _ Hr) as [o Ho].
  unfold clist in Hc. rewrite Ho in Hc. simpl in Hc.
  unfold visit_children. rewrite M_bind_eq, (get_children_eq _ _ _ Ho), Hc.
  reflexivity.
Qed.

Lemma visit_children_nil (fuel : nat) (h : heap) (r l : ref) :
  clist h r = Some l → lists h !! l = Some [] →
  visit_children fuel r h = Ok (tt, h).
Proof.
  intros Hc Hl. apply clist_Some in Hc as (o & Ho & Hc).
  unfold visit_children. rewrite M_bind_eq, (get_children_eq _ _ _ Ho), Hc.
  rewrite M_bind_eq, (get_list_eq _ _ _ Hl). reflexivity.
Qed.

Lemma visit_children_loop (fuel : nat) (h : heap) (r l : ref) (xs : list ref) :
  clist h r = Some l → lists h !! l = Some xs → xs ≠ [] →
  visit_children fuel r h
  = child_boxes_loop (block_in_inline fuel) l fuel 0 h.
Proof.
  intros Hc Hl Hne. apply clist_Some in Hc as (o & Ho & Hc).
  unfold visit_children. rewrite M_bind_eq, (get_children_eq _ _ _ Ho), Hc.
  rewrite M_bind_eq, (get_list_eq _ _ _ Hl).
  destruct xs; [congruence|reflexivity].
Qed.

Lemma fuel_for_all {A} (P : nat → A → Prop) (xs : list A) :
  (∀ c, c ∈ xs → ∃ F, ∀ f, (F ≤ f)%nat → P f c) →
  ∃ F, ∀ f, (F ≤ f)%nat → ∀ c, c ∈ xs → P f c.
Proof.
  induction xs as [|x xs IH]; intros H.
  - exists 0. intros f _ c Hc. inversion Hc.
  - destruct (H x) as [F1 H1]; [left|].
    destruct IH as [F2 H2]; [intros c Hc; apply H; right; exact Hc|].
    exists (max F1 F2). intros f Hf c Hc.
    apply elem_of_cons in Hc as [->|Hc]; [apply H1; lia|apply H2; [lia|exact Hc]].
Qed.

(** A box in a part of the store that is closed under [children] and
    holds no block-level box under an inline-level one is passed over. *)
Lemma revisit (h : heap) (ra rb rn : nat) :
  inv h → closed h ra rb rn →
  (∀ s, inreg ra rb rn s → triggers h s = false) →
  ∀ r, inreg ra rb rn r → (r < length (boxes h))%nat →
       ∃ F, ∀ f, (F ≤ f)%nat → block_in_inline f r h = Ok (tt, h).
Proof.
  intros Hinv Hcl Htf. destruct (inv_ht _ Hinv) as [ht Hd].
  assert (Hind : ∀ n r, (ht r < n)%nat → inreg ra rb rn r →
            (r < length (boxes h))%nat →
            ∃ F, ∀ f, (F ≤ f)%nat → block_in_inline f r h = Ok (tt, h)).
  { induction n as [|n IH]; intros r Hn Hr Hlt; [lia|].
    destruct (clist h r) as [l|] eqn:Hc.
    - pose proof (inv_clist_lt _ Hinv _ _ Hc) as Hl.
      destruct (lookup_lt_is_Some_2 _ _ Hl) as [xs Hxs].
      assert (Hks : children_refs h r = Some xs)
        by (apply children_refs_Some; eauto).
      destruct (fuel_for_all (λ f c, block_in_inline f c h = Ok (tt, h)) xs)
        as [F HF].
      { intros c Hc'. apply IH.
        - specialize (Hd _ _ _ Hks Hc'). lia.
        - eapply Hcl; eauto.
        - eapply inv_kids_lt; eauto. }
      exists (S (max F (S (length xs)))). intros f Hf.
      destruct f as [|f]; [lia|].
      rewrite bii_no_trigger by auto.
      destruct xs as [|x0 xs'].
      + apply (visit_children_nil _ _ _ _ Hc Hxs).
      + rewrite (visit_children_loop _ _ _ _ _ Hc Hxs) by discriminate.
        apply (loop_id _ _ _ _ Hxs).
        * intros c Hc'. apply HF; [lia|]. rewrite drop_0 in Hc'. exact Hc'.
        * lia.
    - exists 1. intros f Hf. destruct f as [|f]; [lia|].
      rewrite bii_no_trigger by auto.
      apply visit_children_none; assumption. }
  intros r Hr Hlt. apply (Hind (S (ht r))); [lia|assumption|assumption].
Qed.

(** ** Loaded trees and what leaves them alone *)

Lemma same_on_sub (h h' : heap) (a b la lb a' b' la' lb' : nat) :
  same_on h h' a b la lb →
  (a ≤ a')%nat → (b' ≤ b)%nat → (la ≤ la')%nat → (lb' ≤ lb)%nat →
  same_on h h' a' b' la' lb'.
Proof.
  intros [H1 H2] ? ? ? ?. split; intros; [apply H1|apply H2]; lia.
Qed.

Lemma loaded_list_in (h : heap) : ∀ ts a la,
  loaded_list (loaded h) a la ts →
  ∀ y, (a ≤ y)%nat → (y < a + fsize ts)%nat →
  ∃ t a' la', t ∈ ts ∧ loaded h a' la' t
    ∧ (a ≤ a')%nat ∧ (a' + size t ≤ a + fsize ts)%nat
    ∧ (la ≤ la')%nat ∧ (la' + lsize t ≤ la + flsize ts)%nat
    ∧ (a' ≤ y)%nat ∧ (y < a' + size t)%nat.
Proof.
  induction ts as [|t ts IH]; intros a la Hl y Hy1 Hy2.
  - unfold fsize in Hy2. simpl in Hy2. lia.
  - destruct Hl as [Ht Hl]. rewrite fsize_cons, flsize_cons in *.
    destruct (decide (y < a + size t)%nat) as [Hlt|Hge].
    + exists t, a, la. repeat split; try lia; [left|exact Ht].
    + destruct (IH _ _ Hl y) as (t' & a' & la' & Hin & Hld & ?); [lia|lia|].
      exists t', a', la'. split; [right; exact Hin|]. split; [exact Hld|]. lia.
Qed.

Lemma loaded_list_in_l (h : heap) : ∀ ts a la,
  loaded_list (loaded h) a la ts →
  ∀ l, (la ≤ l)%nat → (l < la + flsize ts)%nat →
  ∃ t a' la', t ∈ ts ∧ loaded h a' la' t
    ∧ (a ≤ a')%nat ∧ (a' + size t ≤ a + fsize ts)%nat
    ∧ (la ≤ la')%nat ∧ (la' + lsize t ≤ la + flsize ts)%nat
    ∧ (la' ≤ l)%nat ∧ (l < la' + lsize t)%nat.
Proof.
  induction ts as [|t ts IH]; intros a la Hl l Hl1 Hl2.
  - unfold flsize in Hl2. simpl in Hl2. lia.
  - destruct Hl as [Ht Hl]. rewrite fsize_cons, flsize_cons in *.
    destruct (decide (l < la + lsize t)%nat) as [Hlt|Hge].
    + exists t, a, la. repeat split; try lia; [left|exact Ht].
    + destruct (IH _ _ Hl l) as (t' & a' & la' & Hin & Hld & ?); [lia|lia|].
      exists t', a', la'. split; [right; exact Hin|]. split; [exact Hld|]. lia.
Qed.

Lemma loaded_list_frame (h h' : heap) : ∀ ts,
  Forall (λ t, ∀ a la, loaded h a la t →
                 same_on h h' a (a + size t) la (la + lsize t) →
                 loaded h' a la t) ts →
  ∀ a la, loaded_list (loaded h) a la ts →
          same_on h h' a (a + fsize ts) la (la + flsize ts) →
          loaded_list (loaded h') a la ts.
Proof.
  induction 1 as [|t ts Ht _ IH]; intros a la Hl Hs; [exact I|].
  destruct Hl as [Hld Hl]. rewrite fsize_cons, flsize_cons in Hs. split.
  - apply Ht; [exact Hld|]. eapply same_on_sub; [exact Hs|lia..].
  - apply IH; [exact Hl|]. eapply same_on_sub; [exact Hs|lia..].
Qed.

Lemma loaded_frame (h h' : heap) (t : box) : ∀ a la,
  loaded h a la t →
  same_on h h' a (a + size t) la (la + lsize t) →
  loaded h' a la t.
Proof.
  induction t as [e s|c e ch IH] using box_ind'; intros a la Hl Hs.
  - destruct Hl as [Hc Hcl]. destruct Hs as [Hb _]. cbn [loaded].
    destruct (Hb a) as [-> ->]; [lia|simpl; lia|]. auto.
  - destruct Hl as (Hc & Hcl & Hks & Hch).
    rewrite size_Box, lsize_Box in Hs. pose proof Hs as [Hb Hll].
    cbn [loaded].
    destruct (Hb a) as [-> ->]; [lia|lia|].
    rewrite Hll by lia. repeat split; try assumption.
    apply (loaded_list_frame h h' ch IH); [exact Hch|].
    eapply same_on_sub; [exact Hs|lia..].
Qed.

Lemma loaded_list_frame' (h h' : heap) (ts : list box) (a la : nat) :
  loaded_list (loaded h) a la ts →
  same_on h h' a (a + fsize ts) la (la + flsize ts) →
  loaded_list (loaded h') a la ts.
Proof.
  apply loaded_list_frame. apply Forall_forall. intros t _ a' la'.
  apply loaded_frame.
Qed.

Lemma loaded_lt (h : heap) (t : box) : ∀ a la,
  loaded h a la t →
  (a + size t ≤ length (boxes h))%nat
  ∧ ((la ≤ length (lists h))%nat → (la + lsize t ≤ length (lists h))%nat).
Proof.
  induction t as [e s|c e ch IH] using box_ind'; intros a la Hl.
  - destruct Hl as [Hc _]. apply cls_of_lt in Hc. simpl. lia.
  - destruct Hl as (Hc & Hcl & Hks & Hch). rewrite size_Box, lsize_Box.
    apply cls_of_lt in Hc. apply lookup_lt_Some in Hks.
    assert (Hgen : ∀ ts a' la', Forall (λ t, ∀ a la, loaded h a la t →
               (a + size t ≤ length (boxes h))%nat
               ∧ ((la ≤ length (lists h))%nat →
                  (la + lsize t ≤ length (lists h))%nat)) ts →
             loaded_list (loaded h) a' la' ts →
             (a' ≤ length (boxes h))%nat → (la' ≤ length (lists h))%nat →
             (a' + fsize ts ≤ length (boxes h))%nat
             ∧ (la' + flsize ts ≤ length (lists h))%nat).
    { induction ts as [|t ts IHts]; intros a' la' HF Hl' Ha' Hla'.
      - unfold fsize, flsize. simpl. lia.
      - apply Forall_cons in HF as [Ht HF]. destruct Hl' as [Hld Hl'].
        rewrite fsize_cons, flsize_cons. destruct (Ht _ _ Hld) as [H1 H2].
        specialize (H2 Hla'). destruct (IHts _ _ HF Hl'); lia. }
    destruct (Hgen ch (a + 1) (la + 1) IH Hch); lia.
Qed.

Lemma loaded_list_lt (h : heap) : ∀ ts a la,
  loaded_list (loaded h) a la ts →
  (a ≤ length (boxes h))%nat → (la ≤ length (lists h))%nat →
  (a + fsize ts ≤ length (boxes h))%nat
  ∧ (la + flsize ts ≤ length (lists h))%nat.
Proof.
  induction ts as [|t ts IH]; intros a la Hl Ha Hla.
  - unfold fsize, flsize. simpl. lia.
  - destruct Hl as [Hld Hl]. rewrite fsize_cons, flsize_cons.
    destruct (loaded_lt _ _ _ _ Hld) as [H1 H2]. specialize (H2 Hla).
    destruct (IH _ _ Hl); lia.
Qed.

(** Every list of a loaded tree belongs to a box of the tree. *)
Lemma loaded_owner (h : heap) (t : box) : ∀ a la,
  loaded h a la t →
  ∀ l, (la ≤ l)%nat → (l < la + lsize t)%nat →
       ∃ r, (a ≤ r)%nat ∧ (r < a + size t)%nat ∧ clist h r = Some l.
Proof.
  induction t as [e s|c e ch IH] using box_ind'; intros a la Hl l Hl1 Hl2.
  - simpl in Hl2. lia.
  - destruct Hl as (Hc & Hcl & Hks & Hch). rewrite size_Box.
    rewrite lsize_Box in Hl2.
    destruct (decide (l = la)) as [->|Hne].
    + exists a. repeat split; [lia|lia|exact Hcl].
    + destruct (loaded_list_in_l _ _ _ _ Hch l)
        as (t & a' & la' & Hin & Hld & ? & ? & ? & ? & ? & ?); [lia|lia|].
      rewrite Forall_forall in IH.
      destruct (IH _ Hin _ _ Hld l) as (r & ? & ? & Hr); [lia|lia|].
      exists r. repeat split; [lia|lia|exact Hr].
Qed.

(** The children of a box of a loaded tree are boxes of the tree. *)
Lemma loaded_kids_range (h : heap) (t : box) : ∀ a la,
  loaded h a la t →
  ∀ y ks c, (a ≤ y)%nat → (y < a + size t)%nat →
            children_refs h y = Some ks → c ∈ ks →
            (a ≤ c)%nat ∧ (c < a + size t)%nat.
Proof.
  induction t as [e s|c e ch IH] using box_ind'; intros a la Hl y ks k Hy1 Hy2 Hks Hk.
  - simpl in Hy2. assert (y = a) as -> by lia. destruct Hl as [_ Hcl].
    apply children_refs_Some in Hks as (l & Hl' & _). congruence.
  - destruct Hl as (Hc & Hcl & Hkl & Hch). rewrite size_Box in *.
    destruct (decide (y = a)) as [->|Hne].
    + apply children_refs_Some in Hks as (l & Hl' & Hks).
      rewrite Hcl in Hl'. injection Hl' as <-. rewrite Hkl in Hks.
      injection Hks as <-. apply roots_range in Hk. lia.
    + destruct (loaded_list_in _ _ _ _ Hch y)
        as (t & a' & la' & Hin & Hld & ? & ? & ? & ? & ? & ?); [lia|lia|].
      rewrite Forall_forall in IH.
      destruct (IH _ Hin _ _ Hld y ks k); [lia|lia|assumption|assumption|]. lia.
Qed.

Lemma owned_outside (h : heap) (t : box) (a la : nat) (y l : ref) :
  inv h → loaded h a la t → clist h y = Some l →
  ¬ ((a ≤ y)%nat ∧ (y < a + size t)%nat) →
  ¬ ((la ≤ l)%nat ∧ (l < la + lsize t)%nat).
Proof.
  intros Hinv Hl Hc Hy [Hl1 Hl2].
  destruct (loaded_owner _ _ _ _ Hl l Hl1 Hl2) as (r & Hr1 & Hr2 & Hr).
  pose proof (inv_clist_inj _ Hinv _ _ _ Hc Hr) as ->. apply Hy. lia.
Qed.

Lemma loaded_closed (h : heap) (t : box) (a la : nat) :
  inv h → loaded h a la t →
  closed h a (a + size t) (length (boxes h)).
Proof.
  intros Hinv Hl y ks c Hy Hks Hc. left.
  destruct Hy as [[Hy1 Hy2]|Hy].
  - eapply loaded_kids_range; eauto.
  - unfold children_refs in Hks.
    rewrite lookup_ge_None_2 in Hks by exact Hy. discriminate.
Qed.

(** ** Observations that depend on a few boxes only *)

Lemma kframe_parent h h' y : kframe h h' y → parent_of h' y = parent_of h y.
Proof. intros [Hb _]. unfold parent_of. rewrite Hb. reflexivity. Qed.

Lemma kframe_cls h h' y : kframe h h' y → cls_of h' y = cls_of h y.
Proof. intros [Hb _]. unfold cls_of. rewrite Hb. reflexivity. Qed.

Lemma kframe_clist h h' y : kframe h h' y → clist h' y = clist h y.
Proof. intros [Hb _]. unfold clist. rewrite Hb. reflexivity. Qed.

Lemma kframe_element h h' y : kframe h h' y → element_of h' y = element_of h y.
Proof. intros [Hb _]. unfold element_of. rewrite Hb. reflexivity. Qed.

Lemma kframe_list h h' y l :
  kframe h h' y → clist h y = Some l → lists h' !! l = lists h !! l.
Proof.
  intros Hk Hc. pose proof (kframe_clist _ _ _ Hk) as Hc'.
  destruct Hk as [_ Hk]. rewrite !children_refs_clist, Hc', Hc in Hk.
  exact Hk.
Qed.

Lemma rchain_kframe (h h' : heap) (Q : ref) : ∀ fs sp,
  kframe h h' Q → kframe h h' sp → Forall (kframe h h') (map r_J fs) →
  rchain h Q sp fs → rchain h' Q sp fs.
Proof.
  induction fs as [|f fs IH]; intros sp HQ Hsp HJs Hch.
  - destruct Hch as (Hp & ks & Hks & Hin). split.
    + rewrite (kframe_parent _ _ _ Hsp). exact Hp.
    + exists ks. destruct HQ as [_ ->]. auto.
  - cbn [map] in HJs. apply Forall_cons in HJs as [HJ HJs].
    destruct Hch as (Hp & Hc & He & Hcl & Hl & Hpre & Hrest).
    split; [rewrite (kframe_parent _ _ _ Hsp); exact Hp|].
    split; [rewrite (kframe_cls _ _ _ HJ); exact Hc|].
    split; [rewrite (kframe_element _ _ _ HJ); exact He|].
    split; [rewrite (kframe_clist _ _ _ HJ); exact Hcl|].
    split; [rewrite (kframe_list _ _ _ _ HJ Hcl); exact Hl|].
    split; [exact Hpre|]. apply IH; assumption.
Qed.

Lemma pend_chain_kframe (h h' : heap) (Q : ref) (fs : list rlvl) :
  kframe h h' Q → Forall (kframe h h') (map r_J fs) →
  pend_chain h Q fs → pend_chain h' Q fs.
Proof.
  destruct fs as [|f fs]; [auto|]. intros HQ HJs Hch.
  cbn [map] in HJs. pose proof HJs as HJs'.
  apply Forall_cons in HJs' as [HJ HJs'].
  destruct Hch as (Hc & He & Hcl & Hl & Hrest).
  split; [rewrite (kframe_cls _ _ _ HJ); exact Hc|].
  split; [rewrite (kframe_element _ _ _ HJ); exact He|].
  split; [rewrite (kframe_clist _ _ _ HJ); exact Hcl|].
  split; [rewrite (kframe_list _ _ _ _ HJ Hcl); exact Hl|].
  apply (rchain_kframe h h'); assumption.
Qed.

Lemma top_kframe (h h' : heap) (P Q : ref) :
  kframe h h' P → kframe h h' Q → top h P Q → top h' P Q.
Proof.
  intros HP HQ [(c & Hc & Hb) (c' & Hc' & Hi) Hp (ks & Hks & Hin)].
  constructor.
  - exists c. rewrite (kframe_cls _ _ _ HP). auto.
  - exists c'. rewrite (kframe_cls _ _ _ HQ). auto.
  - rewrite (kframe_parent _ _ _ HQ). exact Hp.
  - exists ks. destruct HP as [_ ->]. auto.
Qed.

Local Open Scope nat_scope.

(** ** The state of the pass between two children *)

(** ** Pending children *)

Lemma pends_le (h : heap) : ∀ fs ps lo llo z zl,
  pends h lo llo fs ps z zl → lo ≤ z ∧ llo ≤ zl.
Proof.
  induction fs as [|f fs IH]; intros [|p ps] lo llo z zl H;
    try (simpl in H; tauto).
  destruct H as (H1 & H2 & _ & _ & _ & H). apply IH in H. lia.
Qed.

Lemma pends_lo (h : heap) (fs : list rlvl) (ps : list pend)
    (lo llo lo' llo' z zl : nat) :
  pends h lo llo fs ps z zl → lo' ≤ lo → llo' ≤ llo →
  pends h lo' llo' fs ps z zl.
Proof.
  destruct fs as [|f fs], ps as [|p ps]; simpl; try tauto.
  - lia.
  - intros (H1 & H2 & H) ? ?. split; [lia|]. split; [lia|]. exact H.
Qed.

Lemma pends_frame (h h' : heap) : ∀ fs fs' ps lo llo z zl,
  pends h lo llo fs ps z zl → same_on h h' lo z llo zl →
  map r_post fs' = map r_post fs →
  pends h' lo llo fs' ps z zl.
Proof.
  induction fs as [|f fs IH]; intros [|f' fs'] [|p ps] lo llo z zl H Hs Hm;
    try discriminate; try (simpl in H; tauto); [exact H|].
  destruct H as (H1 & H2 & H3 & H4 & H5 & H6). cbn [map] in Hm.
  injection Hm as Hm1 Hm2. pose proof (pends_le _ _ _ _ _ _ _ H6) as [Hz Hzl].
  cbn [pends]. split; [exact H1|]. split; [exact H2|].
  split; [congruence|]. split; [|split; [exact H5|]].
  - apply (loaded_list_frame' h h'); [exact H4|].
    eapply same_on_sub; [exact Hs|lia..].
  - apply (IH fs'); [exact H6| |exact Hm2].
    eapply same_on_sub; [exact Hs|lia..].
Qed.

Lemma pends_posts_range (h : heap) : ∀ fs ps lo llo z zl s,
  pends h lo llo fs ps z zl → s ∈ all_posts fs → lo ≤ s ∧ s < z.
Proof.
  induction fs as [|f fs IH]; intros [|p ps] lo llo z zl s H Hs;
    try (simpl in H; tauto); [inversion Hs|].
  destruct H as (H1 & H2 & H3 & H4 & H5 & H6).
  pose proof (pends_le _ _ _ _ _ _ _ H6) as [Hz Hzl].
  unfold all_posts in Hs. cbn [map concat] in Hs.
  apply elem_of_app in Hs as [Hs|Hs].
  - rewrite H3 in Hs. apply roots_range in Hs. lia.
  - destruct (IH _ _ _ _ _ _ H6 Hs). lia.
Qed.

Lemma clone_lvls_post (N NL : nat) (raws : list rlvl) :
  map r_post (clone_lvls N NL raws) = map r_post raws.
Proof. induction raws as [|r raws IH]; simpl; [|rewrite IH]; reflexivity. Qed.

Lemma clone_lvls_J (N NL : nat) (raws : list rlvl) :
  Forall (λ J, N + 2 ≤ J ∧ J < N + 2 + length raws)
         (map r_J (clone_lvls N NL raws)).
Proof.
  induction raws as [|r raws IH]; simpl; constructor.
  - simpl. lia.
  - eapply Forall_impl; [exact IH|]. simpl. intros. lia.
Qed.

(** ** Composing steps *)

Lemma anchored_trans (h h1 h2 : heap) (A PA : ref) :
  length (boxes h) ≤ length (boxes h1) →
  length (lists h) ≤ length (lists h1) →
  anchored h h1 A PA →
  (∀ PA1, top h1 PA1 A → anchored h1 h2 A PA1) →
  anchored h h2 A PA.
Proof.
  intros Hlen Hllen (PA1 & Ht1 & Hc1 & Hcase1) H2.
  destruct (H2 _ Ht1) as (PA2 & Ht2 & Hc2 & Hcase2).
  exists PA2. split; [exact Ht2|]. split; [congruence|].
  destruct Hcase1 as [[-> Hcl1]|(Hn1 & l1 & Hl1 & Hln1)];
    destruct Hcase2 as [[-> Hcl2]|(Hn2 & l2 & Hl2 & Hln2)].
  - left. split; [reflexivity|congruence].
  - right. split; [lia|]. exists l2. split; [exact Hl2|lia].
  - right. split; [lia|]. exists l1. split; [congruence|lia].
  - right. split; [lia|]. exists l2. split; [exact Hl2|lia].
Qed.

Lemma itrans_refl (h : heap) (P : ref) (a la z zl ra rb rn : nat) :
  inv h → itrans h h P a a la z zl ra rb rn.
Proof.
  intros Hinv. constructor; auto.
  - intros s Hs. split; [exact Hs|lia].
  - intros A PA Ht _. exists PA. split; [exact Ht|]. split; [reflexivity|].
    left. auto.
Qed.

Lemma itrans_trans (h h1 h2 : heap) (P : ref)
    (a a1 a2 la la1 z zl ra rb rn : nat) :
  a ≤ a1 → la ≤ la1 →
  itrans h h1 P a a1 la z zl ra rb rn →
  itrans h1 h2 P a1 a2 la1 z zl ra rb rn →
  itrans h h2 P a a2 la z zl ra rb rn.
Proof.
  intros Ha Hla H1 H2. constructor.
  - pose proof (it_len _ _ _ _ _ _ _ _ _ _ _ H1).
    pose proof (it_len _ _ _ _ _ _ _ _ _ _ _ H2). lia.
  - pose proof (it_llen _ _ _ _ _ _ _ _ _ _ _ H1).
    pose proof (it_llen _ _ _ _ _ _ _ _ _ _ _ H2). lia.
  - intros r Hr Hnr.
    rewrite (it_boxes _ _ _ _ _ _ _ _ _ _ _ H2) by assumption.
    apply (it_boxes _ _ _ _ _ _ _ _ _ _ _ H1); assumption.
  - intros l0 Hl0 Hnl HP.
    pose proof (it_llen _ _ _ _ _ _ _ _ _ _ _ H1).
    rewrite (it_lists _ _ _ _ _ _ _ _ _ _ _ H2).
    + apply (it_lists _ _ _ _ _ _ _ _ _ _ _ H1); assumption.
    + lia.
    + lia.
    + rewrite (it_clistP _ _ _ _ _ _ _ _ _ _ _ H1). exact HP.
  - rewrite (it_clistP _ _ _ _ _ _ _ _ _ _ _ H2).
    apply (it_clistP _ _ _ _ _ _ _ _ _ _ _ H1).
  - intros s Hs.
    destruct (it_trig _ _ _ _ _ _ _ _ _ _ _ H2 s Hs) as [Hs1 Hn1].
    destruct (it_trig _ _ _ _ _ _ _ _ _ _ _ H1 s Hs1) as [Hs0 Hn0].
    split; [exact Hs0|lia].
  - intros A PA Ht HA. eapply anchored_trans.
    + apply (it_len _ _ _ _ _ _ _ _ _ _ _ H1).
    + apply (it_llen _ _ _ _ _ _ _ _ _ _ _ H1).
    + apply (it_anchor _ _ _ _ _ _ _ _ _ _ _ H1); assumption.
    + intros PA1 Ht1. apply (it_anchor _ _ _ _ _ _ _ _ _ _ _ H2); [exact Ht1|lia].
  - intros B0 HB0 Hk. apply (it_kids_in _ _ _ _ _ _ _ _ _ _ _ H2); [exact HB0|].
    apply (it_kids_in _ _ _ _ _ _ _ _ _ _ _ H1); assumption.
Qed.

(** The step of [block_res] leaves every box outside the tree alone. *)
Lemma block_res_kframe (h h' : heap) (t : box) (a la : nat) (y : ref) :
  inv h → loaded h a la t → block_res h h' a (size t) la (lsize t) →
  y < length (boxes h) → ¬ (a ≤ y ∧ y < a + size t) →
  kframe h h' y.
Proof.
  intros Hinv Hld Hres Hy Hny.
  pose proof (br_boxes _ _ _ _ _ _ Hres y Hy Hny) as Hb.
  split; [exact Hb|]. rewrite !children_refs_clist.
  unfold clist at 1. rewrite Hb. fold (clist h y).
  destruct (clist h y) as [l|] eqn:Hc; [|reflexivity]. simpl.
  apply (br_lists _ _ _ _ _ _ Hres).
  - eapply inv_clist_lt; eauto.
  - eapply owned_outside; eauto.
Qed.

(** ** What the visit of one child does *)

Section item.
Variables (h : heap) (P Q : ref) (f : rlvl) (fs : list rlvl) (a la : nat)
          (t : box) (rest : list box) (ps : list pend)
          (z zl ra rb rn : nat).
Hypothesis Hst : istate h P Q f fs a la (t :: rest) ps z zl ra rb rn.

Lemma item_loaded : loaded h a la t.
Proof.
  destruct Hst as [is_inv is_top is_chain is_pends is_cfgQ is_cfgJ is_P is_lP is_ra is_rb is_rn is_len is_llen is_closed]. destruct is_pends as (_ & _ & _ & [Hl _] & _). exact Hl.
Qed.

Lemma item_ok_t : item_ok t = true.
Proof.
  destruct Hst as [is_inv is_top is_chain is_pends is_cfgQ is_cfgJ is_P is_lP is_ra is_rb is_rn is_len is_llen is_closed]. destruct is_pends as (_ & _ & _ & _ & Hok & _).
  cbn [forallb] in Hok. apply andb_true_iff in Hok as [Hok _]. exact Hok.
Qed.

Lemma item_post : r_post f = a :: roots (a + size t) rest.
Proof.
  destruct Hst as [is_inv is_top is_chain is_pends is_cfgQ is_cfgJ is_P is_lP is_ra is_rb is_rn is_len is_llen is_closed]. destruct is_pends as (_ & _ & Hp & _). exact Hp.
Qed.

Lemma item_kids :
  children_refs h (r_J f) = Some (r_pre f ++ a :: roots (a + size t) rest).
Proof.
  destruct Hst as [is_inv is_top is_chain is_pends is_cfgQ is_cfgJ is_P is_lP is_ra is_rb is_rn is_len is_llen is_closed]. destruct is_chain as (_ & _ & Hcl & Hl & _).
  apply children_refs_Some. exists (r_lJ f). rewrite <- item_post. auto.
Qed.

Lemma item_parent : parent_of h a = Some (r_J f).
Proof.
  destruct Hst as [is_inv is_top is_chain is_pends is_cfgQ is_cfgJ is_P is_lP is_ra is_rb is_rn is_len is_llen is_closed]. eapply inv_cons; [exact is_inv|apply item_kids|].
  apply elem_of_app. right. left.
Qed.

Lemma item_notin_pre : a ∉ r_pre f.
Proof.
  destruct Hst as [is_inv is_top is_chain is_pends is_cfgQ is_cfgJ is_P is_lP is_ra is_rb is_rn is_len is_llen is_closed]. pose proof (inv_nodup _ is_inv _ _ item_kids) as Hnd.
  apply NoDup_app in Hnd as (_ & Hnd & _). intros Hin.
  apply (Hnd _ Hin). left.
Qed.

Lemma item_bounds : a + size t ≤ z ∧ la + lsize t ≤ zl.
Proof.
  destruct Hst as [is_inv is_top is_chain is_pends is_cfgQ is_cfgJ is_P is_lP is_ra is_rb is_rn is_len is_llen is_closed]. destruct is_pends as (_ & _ & _ & _ & _ & Hp).
  cbn [p_a p_la p_ts] in Hp.
  apply pends_le in Hp. rewrite fsize_cons, flsize_cons in Hp.
  pose proof (fsize_length rest). lia.
Qed.

Lemma item_lt : a < length (boxes h).
Proof.
  pose proof item_bounds. pose proof (size_pos t). destruct Hst as [is_inv is_top is_chain is_pends is_cfgQ is_cfgJ is_P is_lP is_ra is_rb is_rn is_len is_llen is_closed]. lia.
Qed.

Lemma item_rchain :
  rchain h Q a
    (RLvl (r_J f) (r_lJ f) (r_pre f) (roots (a + size t) rest) (r_e f) :: fs).
Proof.
  destruct Hst as [is_inv is_top is_chain is_pends is_cfgQ is_cfgJ is_P is_lP is_ra is_rb is_rn is_len is_llen is_closed]. destruct is_chain as (Hc & He & Hcl & Hl & Hr).
  cbn [rchain r_J r_lJ r_pre r_post r_e].
  split; [apply item_parent|]. split; [exact Hc|]. split; [exact He|].
  split; [exact Hcl|]. split; [rewrite Hl, item_post; reflexivity|].
  split; [apply item_notin_pre|exact Hr].
Qed.

(** The state once the child at [a] is done, in a store that is the same
    where it matters. *)
Lemma istate_advance :
  istate h P Q (advance f a (roots (a + size t) rest)) fs
    (a + size t) (la + lsize t) rest ps z zl ra rb rn.
Proof.
  pose proof item_bounds as [Hz Hzl]. pose proof item_post as Hpost.
  pose proof (size_pos t) as Hpos.
  destruct Hst as [is_inv is_top is_chain is_pends is_cfgQ is_cfgJ is_P is_lP is_ra is_rb is_rn is_len is_llen is_closed]. constructor; try assumption.
  - destruct is_chain as (Hc & He & Hcl & Hl & Hr).
    cbn [pend_chain advance r_J r_lJ r_pre r_post r_e].
    split; [exact Hc|]. split; [exact He|]. split; [exact Hcl|].
    split; [|exact Hr]. rewrite Hl, Hpost, <- app_assoc. reflexivity.
  - destruct is_pends as (H1 & H2 & H3 & [H4 H4'] & H5 & H6).
    cbn [pends p_a p_la p_ts advance r_post].
    split; [lia|]. split; [lia|]. split; [reflexivity|].
    split; [exact H4'|]. cbn [forallb] in H5.
    apply andb_true_iff in H5 as [_ H5]. split; [exact H5|].
    cbn [p_a p_la p_ts] in H6. rewrite fsize_cons, flsize_cons in H6.
    rewrite <- !Nat.add_assoc. exact H6.
  - destruct is_cfgQ as [[? ?]|?]; [left|right]; lia.
  - cbn [map advance r_J] in *. eapply Forall_impl; [exact is_cfgJ|].
    intros r [[? ?]|?]; [left|right]; lia.
  - intros lP HlP [? ?]. apply (is_lP lP HlP). lia.
  - lia.
Qed.

End item.

Lemma itrans_same (h : heap) (P : ref) (a a' la z zl ra rb rn : nat) :
  (∀ s, a ≤ s → s < a' → triggers h s = false) →
  itrans h h P a a' la z zl ra rb rn.
Proof.
  intros Hnt. constructor; auto.
  - intros s Hs. split; [exact Hs|]. intros [H1 H2].
    rewrite (Hnt s H1 H2) in Hs. discriminate.
  - intros A PA Ht _. exists PA. split; [exact Ht|]. split; [reflexivity|].
    left. auto.
Qed.

Lemma triggers_not_block (h : heap) (s : ref) (c : cls) :
  cls_of h s = Some c → isinstance_BlockLevelBox c = false →
  triggers h s = false.
Proof.
  intros Hc Hb. destruct (triggers h s) eqn:Ht; [|reflexivity].
  apply triggers_spec in Ht as (c' & p & Hc' & Hb' & _). congruence.
Qed.

Lemma same_on_refl (h : heap) (a b la lb : nat) : same_on h h a b la lb.
Proof. split; auto. Qed.

Lemma same_on_trans (h h1 h2 : heap) (a1 a2 b la1 la2 lb : nat) :
  same_on h h1 a1 b la1 lb → same_on h1 h2 a2 b la2 lb →
  a1 ≤ a2 → la1 ≤ la2 → same_on h h2 a2 b la2 lb.
Proof.
  intros [A1 A2] [B1 B2] Ha Hla. split.
  - intros r H1 H2. destruct (B1 r H1 H2) as [-> ->]. apply A1; lia.
  - intros l H1 H2. rewrite (B2 l H1 H2). apply A2; lia.
Qed.

Lemma item_spec_text (e : element) (s : string) : item_spec (Text e s).
Proof.
  intros h P Q f fs a la rest ps z zl ra rb rn Hst.
  pose proof (item_loaded _ _ _ _ _ _ _ _ _ _ _ _ _ _ _ Hst) as [Hc Hcl].
  pose proof (item_lt _ _ _ _ _ _ _ _ _ _ _ _ _ _ _ Hst) as Hlt.
  pose proof (triggers_not_block _ _ _ Hc eq_refl) as Hnt.
  exists 1, h, Q, (advance f a (roots (a + size (Text e s)) rest)), fs.
  split; [|split; [|split; [|split]]].
  - intros fu Hfu. destruct fu as [|fu]; [lia|].
    rewrite bii_no_trigger; [|destruct Hst as [is_inv is_top is_chain is_pends is_cfgQ is_cfgJ is_P is_lP is_ra is_rb is_rn is_len is_llen is_closed]; assumption|exact Hlt|exact Hnt].
    apply visit_children_none; assumption.
  - apply (istate_advance _ _ _ _ _ _ _ _ _ _ _ _ _ _ _ Hst).
  - apply itrans_same. cbn [size]. intros s0 H1 H2.
    replace s0 with a by lia. exact Hnt.
  - reflexivity.
  - apply same_on_refl.
Qed.

(** ** A block-level child of an inline-level box *)

Lemma loaded_cls (h : heap) (a la : nat) (t : box) :
  loaded h a la t → cls_of h a = Some (box_cls t).
Proof. destruct t; cbn [loaded box_cls]; tauto. Qed.

Lemma clone_lvls_length (N NL : nat) (raws : list rlvl) :
  length (clone_lvls N NL raws) = length raws.
Proof. induction raws as [|r raws IH]; simpl; [|rewrite IH]; reflexivity. Qed.

Lemma cfg_inreg (ra a rb rn : nat) (r : ref) :
  a ≤ rb → cfg ra a rn r → inreg ra rb rn r.
Proof. intros Ha [[? ?]|?]; [left|right]; lia. Qed.

Lemma cfg_out (ra a rn : nat) (r s : ref) :
  cfg ra a rn r → a ≤ s → s < rn → r ≠ s.
Proof. intros [[? ?]|?] ? ?; lia. Qed.

Lemma cfg_notin (ra a rn : nat) (Js : list ref) (s : ref) :
  Forall (cfg ra a rn) Js → a ≤ s → s < rn → s ∉ Js.
Proof.
  intros HF H1 H2 Hin. rewrite Forall_forall in HF.
  exact (cfg_out _ _ _ _ _ (HF _ Hin) H1 H2 eq_refl).
Qed.

Lemma cfg_notin_low (ra a rn : nat) (Js : list ref) (s : ref) :
  Forall (cfg ra a rn) Js → s < ra → s < rn → s ∉ Js.
Proof.
  intros HF H1 H2 Hin. rewrite Forall_forall in HF.
  destruct (HF _ Hin) as [[? ?]|?]; lia.
Qed.

(** The visit of a block keeps what is closed around it closed. *)
Lemma closed_block_res (h1 h2 : heap) (t : box) (a la ra rb rn : nat) :
  inv h1 → loaded h1 a la t → block_res h1 h2 a (size t) la (lsize t) →
  closed h1 ra rb rn → ra ≤ a → a + size t ≤ rb → rn ≤ length (boxes h1) →
  closed h2 ra rb rn.
Proof.
  intros Hinv Hld Hres Hcl Hra Hrb Hrn y ks c Hy Hks Hc.
  destruct (decide ((a ≤ y ∧ y < a + size t) ∨ length (boxes h1) ≤ y))
    as [Hin|Hout].
  - assert (Hy' : inreg a (a + size t) (length (boxes h1)) y).
    { destruct Hin as [[? ?]|?]; [left|right]; lia. }
    destruct (br_closed _ _ _ _ _ _ Hres y ks c Hy' Hks Hc) as [[? ?]|?];
      [left|right]; lia.
  - assert (Hk : kframe h1 h2 y).
    { eapply block_res_kframe; eauto; lia. }
    destruct Hk as [_ Hk]. rewrite Hk in Hks. eapply Hcl; eauto.
Qed.

Section after_split.
Variables (h : heap) (P Q : ref) (f : rlvl) (fs : list rlvl) (a la : nat)
          (t : box) (rest : list box) (ps : list pend)
          (z zl ra rb rn : nat) (raws : list rlvl) (h1 : heap).
Hypothesis Hst : istate h P Q f fs a la (t :: rest) ps z zl ra rb rn.
Hypothesis Hraws :
  raws = RLvl (r_J f) (r_lJ f) (r_pre f) (roots (a + size t) rest) (r_e f)
         :: fs.
Hypothesis Hsr : split_res h a P Q raws h1.

Lemma sp_bounds :
  ra ≤ a ∧ a + size t ≤ z ∧ z ≤ rb ∧ rb ≤ rn ∧ rn ≤ length (boxes h)
  ∧ la + lsize t ≤ zl ∧ zl ≤ length (lists h)
  ∧ length (boxes h) ≤ length (boxes h1)
  ∧ length (lists h) ≤ length (lists h1).
Proof.
  pose proof (item_bounds _ _ _ _ _ _ _ _ _ _ _ _ _ _ _ Hst) as [? ?].
  pose proof (sr_len _ _ _ _ _ _ Hsr). pose proof (sr_llen _ _ _ _ _ _ Hsr).
  destruct Hst as [is_inv is_top is_chain is_pends is_cfgQ is_cfgJ is_P is_lP is_ra is_rb is_rn is_len is_llen is_closed]. lia.
Qed.

Lemma sp_Js_cfg : Forall (cfg ra a rn) (map r_J raws).
Proof. rewrite Hraws. destruct Hst as [is_inv is_top is_chain is_pends is_cfgQ is_cfgJ is_P is_lP is_ra is_rb is_rn is_len is_llen is_closed]. exact is_cfgJ. Qed.

Lemma sp_Js_inline :
  Forall (λ J, cls_of h J = Some InlineLevelBox) (map r_J raws).
Proof.
  pose proof (item_rchain _ _ _ _ _ _ _ _ _ _ _ _ _ _ _ Hst) as Hr.
  rewrite <- Hraws in Hr. apply rchain_cls in Hr.
  apply Forall_fmap. exact Hr.
Qed.

Lemma sp_posts_range (s : ref) :
  s ∈ all_posts raws → a + size t ≤ s ∧ s < z.
Proof.
  intros Hs.
  pose proof (istate_advance _ _ _ _ _ _ _ _ _ _ _ _ _ _ _ Hst) as Hadv.
  destruct Hadv as [is_inv is_top is_chain is_pends is_cfgQ is_cfgJ is_P is_lP is_ra is_rb is_rn is_len is_llen is_closed]. eapply pends_posts_range; [exact is_pends|].
  rewrite Hraws in Hs. exact Hs.
Qed.

Lemma sp_cls (r : ref) : r < length (boxes h) → cls_of h1 r = cls_of h r.
Proof.
  intros Hr. pose proof sp_bounds. unfold cls_of.
  apply based_cls; [exact (sr_based _ _ _ _ _ _ Hsr)|lia|exact Hr].
Qed.

Lemma sp_element (r : ref) :
  r < length (boxes h) → element_of h1 r = element_of h r.
Proof.
  intros Hr. pose proof sp_bounds. unfold element_of.
  apply based_element; [exact (sr_based _ _ _ _ _ _ Hsr)|lia|exact Hr].
Qed.

Lemma sp_not_J (r : ref) (c : cls) :
  cls_of h r = Some c → isinstance_InlineLevelBox c = false →
  r ∉ map r_J raws.
Proof.
  intros Hc Hi Hin. pose proof sp_Js_inline as HF.
  rewrite Forall_forall in HF. specialize (HF _ Hin).
  rewrite Hc in HF. injection HF as ->. discriminate.
Qed.

Lemma sp_same_on : same_on h h1 a z la zl.
Proof.
  pose proof sp_bounds as Hb. split.
  - intros r H1 H2. split; [apply sp_cls; lia|].
    apply (sr_clist_old _ _ _ _ _ _ Hsr); [lia|].
    apply (cfg_notin ra a rn); [apply sp_Js_cfg|lia|lia].
  - intros l H1 H2. apply (sr_lists_old _ _ _ _ _ _ Hsr); [lia|].
    intros HlP. destruct Hst as [is_inv is_top is_chain is_pends is_cfgQ is_cfgJ is_P is_lP is_ra is_rb is_rn is_len is_llen is_closed]. apply (is_lP l HlP). lia.
Qed.

Lemma sp_loaded : loaded h1 a la t.
Proof.
  pose proof sp_bounds as Hb.
  apply (loaded_frame h h1); [eapply item_loaded; exact Hst|].
  eapply same_on_sub; [apply sp_same_on|lia..].
Qed.

Lemma sp_P : P < length (boxes h) ∧ (P ∉ map r_J raws)
             ∧ ¬ (a ≤ P ∧ P < z).
Proof.
  pose proof sp_bounds as Hb. destruct Hst as [is_inv is_top is_chain is_pends is_cfgQ is_cfgJ is_P is_lP is_ra is_rb is_rn is_len is_llen is_closed].
  destruct is_top as [(c & Hc & Hblk) _ _ _].
  split; [eapply cls_of_lt; eauto|]. split.
  - eapply sp_not_J; [exact Hc|]. destruct c; (discriminate || reflexivity).
  - lia.
Qed.

Lemma sp_clist_P : clist h1 P = clist h P.
Proof.
  destruct sp_P as (H1 & H2 & _).
  apply (sr_clist_old _ _ _ _ _ _ Hsr); assumption.
Qed.

Lemma sp_trigger : is_block t = true → triggers h a = true.
Proof.
  intros Hb. apply triggers_spec. exists (box_cls t), (r_J f).
  split; [apply loaded_cls with la; eapply item_loaded; exact Hst|].
  split; [exact Hb|]. split; [eapply item_parent; exact Hst|].
  destruct Hst as [is_inv is_top is_chain is_pends is_cfgQ is_cfgJ is_P is_lP is_ra is_rb is_rn is_len is_llen is_closed]. destruct is_chain as (Hc & _). exact Hc.
Qed.

End after_split.

Section after_visit.
Variables (h : heap) (P Q : ref) (f : rlvl) (fs : list rlvl) (a la : nat)
          (t : box) (rest : list box) (ps : list pend)
          (z zl ra rb rn : nat) (raws : list rlvl) (h1 h2 : heap).
Hypothesis Hst : istate h P Q f fs a la (t :: rest) ps z zl ra rb rn.
Hypothesis Hraws :
  raws = RLvl (r_J f) (r_lJ f) (r_pre f) (roots (a + size t) rest) (r_e f)
         :: fs.
Hypothesis Hsr : split_res h a P Q raws h1.
Hypothesis Hbr : block_res h1 h2 a (size t) la (lsize t).

Lemma av_bounds :
  ra ≤ a ∧ a + size t ≤ z ∧ z ≤ rb ∧ rb ≤ rn ∧ rn ≤ length (boxes h)
  ∧ la + lsize t ≤ zl ∧ zl ≤ length (lists h)
  ∧ length (boxes h) ≤ length (boxes h1)
  ∧ length (lists h) ≤ length (lists h1)
  ∧ length (boxes h1) ≤ length (boxes h2)
  ∧ length (lists h1) ≤ length (lists h2).
Proof.
  pose proof (sp_bounds _ _ _ _ _ _ _ _ _ _ _ _ _ _ _ _ _ Hst Hsr).
  pose proof (br_len _ _ _ _ _ _ Hbr). pose proof (br_llen _ _ _ _ _ _ Hbr).
  lia.
Qed.

Lemma av_kframe (y : ref) :
  y < length (boxes h1) → ¬ (a ≤ y ∧ y < a + size t) → kframe h1 h2 y.
Proof.
  intros Hy Hny.
  apply (block_res_kframe h1 h2 t a la y); try assumption.
  - exact (sr_inv _ _ _ _ _ _ Hsr).
  - exact (sp_loaded _ _ _ _ _ _ _ _ _ _ _ _ _ _ _ _ _ Hst Hraws Hsr).
Qed.

Lemma av_same_on :
  same_on h h2 (a + size t) z (la + lsize t) zl.
Proof.
  pose proof av_bounds as Hb.
  destruct (sp_same_on _ _ _ _ _ _ _ _ _ _ _ _ _ _ _ _ _ Hst Hraws Hsr)
    as [S1 S2].
  split.
  - intros r H1 H2. destruct (S1 r) as [<- <-]; [lia|lia|].
    assert (Hk : kframe h1 h2 r) by (apply av_kframe; lia).
    split; [apply kframe_cls|apply kframe_clist]; exact Hk.
  - intros l H1 H2. rewrite <- S2 by lia.
    apply (br_lists _ _ _ _ _ _ Hbr); lia.
Qed.

Lemma av_clist_P : clist h2 P = clist h P.
Proof.
  pose proof av_bounds as Hb.
  destruct (sp_P _ _ _ _ _ _ _ _ _ _ _ _ _ _ _ _ _ Hst Hraws Hsr)
    as (H1 & H2 & H3).
  rewrite <- (sp_clist_P _ _ _ _ _ _ _ _ _ _ _ _ _ _ _ _ _ Hst Hraws Hsr).
  apply kframe_clist, av_kframe; lia.
Qed.

Lemma av_istate :
  ∃ f' fs',
    f' :: fs' = clone_lvls (length (boxes h)) (length (lists h)) raws
    ∧ istate h2 P (length (boxes h) + 1) f' fs'
        (a + size t) (la + lsize t) rest ps z zl ra rb rn.
Proof.
  pose proof av_bounds as Hb.
  pose proof (sr_len _ _ _ _ _ _ Hsr) as Hlen1.
  destruct (sp_P _ _ _ _ _ _ _ _ _ _ _ _ _ _ _ _ _ Hst Hraws Hsr)
    as (HP1 & HP2 & HP3).
  pose proof (istate_advance _ _ _ _ _ _ _ _ _ _ _ _ _ _ _ Hst) as Hadv.
  set (N := length (boxes h)) in *. set (NL := length (lists h)) in *.
  exists (RLvl (N + 2 + length fs) (NL + 2 + length fs) []
            (roots (a + size t) rest) (r_e f)),
         (clone_lvls N NL fs).
  split; [rewrite Hraws; reflexivity|].
  assert (HJs : Forall (λ J, N + 2 ≤ J ∧ J < N + 2 + length raws)
                  (map r_J (clone_lvls N NL raws)))
    by apply clone_lvls_J.
  assert (Hclones : clone_lvls N NL raws
                    = RLvl (N + 2 + length fs) (NL + 2 + length fs) []
                        (roots (a + size t) rest) (r_e f)
                      :: clone_lvls N NL fs)
    by (rewrite Hraws; reflexivity).
  rewrite Hclones in HJs.
  assert (HkJ : Forall (kframe h1 h2)
                  (map r_J (RLvl (N + 2 + length fs) (NL + 2 + length fs) []
                              (roots (a + size t) rest) (r_e f)
                            :: clone_lvls N NL fs))).
  { eapply Forall_impl; [exact HJs|]. cbn beta. intros J [HJ1 HJ2].
    apply av_kframe; lia. }
  assert (HkQ : kframe h1 h2 (N + 1)).
  { apply av_kframe; [|lia]. rewrite Hraws in Hlen1. cbn [length] in Hlen1.
    lia. }
  assert (HkP : kframe h1 h2 P) by (apply av_kframe; lia).
  constructor.
  - exact (br_inv _ _ _ _ _ _ Hbr).
  - apply (top_kframe h1 h2); [exact HkP|exact HkQ|].
    exact (sr_top _ _ _ _ _ _ Hsr).
  - apply (pend_chain_kframe h1 h2); [exact HkQ|exact HkJ|].
    rewrite <- Hclones. exact (sr_pend _ _ _ _ _ _ Hsr).
  - destruct Hadv as [is_inv is_top is_chain is_pends is_cfgQ is_cfgJ is_P is_lP is_ra is_rb is_rn is_len is_llen is_closed]. eapply pends_frame; [exact is_pends|apply av_same_on|].
    cbn [map advance r_post]. rewrite clone_lvls_post. reflexivity.
  - right. destruct Hst as [is_inv is_top is_chain is_pends is_cfgQ is_cfgJ is_P is_lP is_ra is_rb is_rn is_len is_llen is_closed]. lia.
  - eapply Forall_impl; [exact HJs|]. cbn beta. intros J [HJ1 HJ2].
    right. destruct Hst as [is_inv is_top is_chain is_pends is_cfgQ is_cfgJ is_P is_lP is_ra is_rb is_rn is_len is_llen is_closed]. lia.
  - destruct Hst as [is_inv is_top is_chain is_pends is_cfgQ is_cfgJ is_P is_lP is_ra is_rb is_rn is_len is_llen is_closed]. exact is_P.
  - intros lP HlP [H1 H2]. rewrite av_clist_P in HlP.
    destruct Hst as [is_inv is_top is_chain is_pends is_cfgQ is_cfgJ is_P is_lP is_ra is_rb is_rn is_len is_llen is_closed]. apply (is_lP lP HlP). lia.
  - lia.
  - lia.
  - lia.
  - lia.
  - lia.
  - apply (closed_block_res h1 h2 t a la); try assumption; try lia.
    + exact (sr_inv _ _ _ _ _ _ Hsr).
    + exact (sp_loaded _ _ _ _ _ _ _ _ _ _ _ _ _ _ _ _ _ Hst Hraws Hsr).
    + apply (sr_closed _ _ _ _ _ _ Hsr).
      * destruct Hst as [is_inv is_top is_chain is_pends is_cfgQ is_cfgJ is_P is_lP is_ra is_rb is_rn is_len is_llen is_closed]. exact is_closed.
      * lia.
      * left. pose proof (size_pos t). lia.
      * apply (cfg_inreg ra a); [lia|]. destruct Hst as [is_inv is_top is_chain is_pends is_cfgQ is_cfgJ is_P is_lP is_ra is_rb is_rn is_len is_llen is_closed]. exact is_cfgQ.
      * eapply Forall_impl;
          [eapply sp_Js_cfg; [exact Hst|exact Hraws]|].
        cbn beta. intros J. apply cfg_inreg. lia.
Qed.

Lemma av_itrans : itrans h h2 P a (a + size t) la z zl ra rb rn.
Proof.
  pose proof av_bounds as Hb. pose proof (size_pos t) as Hpos.
  pose proof (sr_len _ _ _ _ _ _ Hsr) as Hlen1.
  destruct (sp_P _ _ _ _ _ _ _ _ _ _ _ _ _ _ _ _ _ Hst Hraws Hsr)
    as (HP1 & HP2 & HP3).
  assert (HJcfg : Forall (cfg ra a rn) (map r_J raws))
    by (eapply sp_Js_cfg; [exact Hst|exact Hraws]).
  assert (HQcfg : cfg ra a rn Q) by (destruct Hst as [is_inv is_top is_chain is_pends is_cfgQ is_cfgJ is_P is_lP is_ra is_rb is_rn is_len is_llen is_closed]; exact is_cfgQ).
  assert (Hld : loaded h a la t) by (eapply item_loaded; exact Hst).
  assert (Hinv : inv h) by (destruct Hst as [is_inv is_top is_chain is_pends is_cfgQ is_cfgJ is_P is_lP is_ra is_rb is_rn is_len is_llen is_closed]; exact is_inv).
  constructor.
  - lia.
  - lia.
  - intros r Hr Hnr.
    rewrite (br_boxes _ _ _ _ _ _ Hbr) by lia.
    apply (sr_boxes_old _ _ _ _ _ _ Hsr).
    + lia.
    + destruct HQcfg as [[? ?]|?]; lia.
    + lia.
    + intros Hin. rewrite Forall_forall in HJcfg.
      destruct (HJcfg _ Hin) as [[? ?]|?]; lia.
    + intros Hin.
      apply (sp_posts_range _ _ _ _ _ _ _ _ _ _ _ _ _ _ _ _ Hst Hraws) in Hin.
      lia.
  - intros l0 Hl0 Hnl HlP.
    rewrite (br_lists _ _ _ _ _ _ Hbr) by lia.
    apply (sr_lists_old _ _ _ _ _ _ Hsr); assumption.
  - apply av_clist_P.
  - intros s Hs.
    destruct (br_trig _ _ _ _ _ _ Hbr s Hs) as [Hs1 Hn1].
    destruct (sr_trig _ _ _ _ _ _ Hsr s Hs1) as [Hs0 Hne].
    split; [exact Hs0|lia].
  - intros A PA Ht HA.
    destruct (sr_anchor _ _ _ _ _ _ Hsr A PA Ht) as (PA' & Ht1 & Hcase).
    destruct Ht as [(cP & HcP & HbP) (cA & HcA & HiA) HpA (ks & Hks & HAin)].
    assert (HA_lt : A < length (boxes h)) by (eapply cls_of_lt; eauto).
    assert (HPA_lt : PA < length (boxes h)) by (eapply cls_of_lt; eauto).
    assert (HPA_out : ¬ (a ≤ PA ∧ PA < a + size t)).
    { intros [H1 H2].
      destruct (loaded_kids_range _ _ _ _ Hld PA ks A H1 H2 Hks HAin). lia. }
    assert (HkA : kframe h1 h2 A) by (apply av_kframe; lia).
    assert (HcA1 : clist h1 A = clist h A).
    { apply (sr_clist_old _ _ _ _ _ _ Hsr); [exact HA_lt|].
      eapply sp_not_J; eauto. }
    assert (HcPA1 : clist h1 PA = clist h PA).
    { apply (sr_clist_old _ _ _ _ _ _ Hsr); [exact HPA_lt|].
      eapply sp_not_J; [exact Hst|exact Hraws|exact HcP|].
      destruct cP; (discriminate || reflexivity). }
    assert (HkPA' : kframe h1 h2 PA').
    { destruct Hcase as [->|[-> _]]; apply av_kframe; lia. }
    exists PA'. split; [apply (top_kframe h1 h2); assumption|].
    split; [rewrite (kframe_clist _ _ _ HkA); exact HcA1|].
    destruct Hcase as [->|[-> Hcl]].
    + left. split; [reflexivity|].
      rewrite (kframe_clist _ _ _ HkPA'). exact HcPA1.
    + right. split; [lia|]. exists (length (lists h)).
      split; [rewrite (kframe_clist _ _ _ HkPA'); exact Hcl|lia].
  - intros B0 HB0 (ks & Hks & Hin).
    assert (HB0_lt : B0 < length (boxes h)) by lia.
    assert (HkB : kframe h1 h2 B0) by (apply av_kframe; lia).
    destruct HkB as [_ HkB]. unfold kids_in. rewrite HkB.
    destruct (decide (B0 = P)) as [->|Hne].
    + destruct (sr_kids_P _ _ _ _ _ _ Hsr) as (as_ & bs_ & HkP & HkP1).
      rewrite HkP in Hks. injection Hks as <-.
      exists (as_ ++ [length (boxes h); a; length (boxes h) + 1] ++ bs_).
      split; [exact HkP1|].
      apply Forall_app in Hin as [Has Hbs].
      apply Forall_cons in Hbs as [_ Hbs].
      apply Forall_app. split; [exact Has|]. cbn [app].
      apply Forall_cons. split; [right; lia|].
      apply Forall_cons. split; [left; lia|].
      apply Forall_cons. split; [right; lia|exact Hbs].
    + exists ks. split; [|exact Hin]. rewrite <- Hks.
      apply (sr_kids_old _ _ _ _ _ _ Hsr); [exact HB0_lt|exact Hne|].
      apply (cfg_notin_low ra a rn); [exact HJcfg|lia|lia].
Qed.

End after_visit.

Lemma item_spec_block (t : box) :
  is_block t = true → block_spec t → item_spec t.
Proof.
  intros Hblk Hbs h P Q f fs a la rest ps z zl ra rb rn Hst.
  set (raws := RLvl (r_J f) (r_lJ f) (r_pre f) (roots (a + size t) rest)
                 (r_e f) :: fs).
  assert (Hraws : raws = RLvl (r_J f) (r_lJ f) (r_pre f)
                           (roots (a + size t) rest) (r_e f) :: fs)
    by reflexivity.
  clearbody raws.
  assert (Hinv : inv h) by (destruct Hst as [is_inv is_top is_chain is_pends is_cfgQ is_cfgJ is_P is_lP is_ra is_rb is_rn is_len is_llen is_closed]; assumption).
  assert (Htop : top h P Q) by (destruct Hst as [is_inv is_top is_chain is_pends is_cfgQ is_cfgJ is_P is_lP is_ra is_rb is_rn is_len is_llen is_closed]; assumption).
  pose proof (item_rchain _ _ _ _ _ _ _ _ _ _ _ _ _ _ _ Hst) as Hrch.
  rewrite <- Hraws in Hrch.
  destruct (split_spec h a P Q raws Hinv Htop Hrch) as (h1 & Hsplit & Hsr).
  { rewrite Hraws. discriminate. }
  pose proof (sp_loaded _ _ _ _ _ _ _ _ _ _ _ _ _ _ _ _ _ Hst Hraws Hsr)
    as Hld1.
  pose proof (item_ok_t _ _ _ _ _ _ _ _ _ _ _ _ _ _ _ Hst) as Hok.
  apply andb_true_iff in Hok as [_ Hwf].
  destruct (Hbs h1 a la (sr_inv _ _ _ _ _ _ Hsr) Hld1 Hwf Hblk)
    as (F & h2 & Hvis & Hbr).
  destruct (av_istate _ _ _ _ _ _ _ _ _ _ _ _ _ _ _ _ _ _ Hst Hraws Hsr Hbr)
    as (f' & fs' & Hcl & Hst2).
  exists (S F), h2, (length (boxes h) + 1), f', fs'.
  split; [|split; [exact Hst2|split; [|split]]].
  - intros fu Hfu. destruct fu as [|fu]; [lia|].
    rewrite bii_trigger;
      [|exact Hinv
       |exact (sp_trigger _ _ _ _ _ _ _ _ _ _ _ _ _ _ _ Hst Hblk)].
    rewrite M_bind_eq, Hsplit. apply Hvis. lia.
  - exact (av_itrans _ _ _ _ _ _ _ _ _ _ _ _ _ _ _ _ _ _ Hst Hraws Hsr Hbr).
  - apply (f_equal length) in Hcl. rewrite clone_lvls_length, Hraws in Hcl.
    cbn [length] in Hcl. lia.
  - exact (av_same_on _ _ _ _ _ _ _ _ _ _ _ _ _ _ _ _ _ _ Hst Hraws Hsr Hbr).
Qed.

(** ** The children of an inline-level box, one after the other *)

Lemma drop_roots_cons (xs : list ref) (i : nat) (a : ref) (rs : list ref) :
  drop i xs = a :: rs → xs !! i = Some a ∧ drop (S i) xs = rs.
Proof.
  intros H. split.
  - rewrite <- (Nat.add_0_r i), <- lookup_drop, H. reflexivity.
  - rewrite <- (Nat.add_1_l i), Nat.add_comm, <- drop_drop, H. reflexivity.
Qed.

Lemma drop_nil_length {A} (xs : list A) (i : nat) :
  drop i xs = [] → length xs ≤ i.
Proof.
  intros H. apply (f_equal length) in H. rewrite length_drop in H.
  simpl in H. lia.
Qed.

Lemma forest (ts : list box) :
  Forall item_spec ts →
  ∀ h P Q f fs a la ps z zl ra rb rn (lloop : ref) (xs : list ref) (i : nat),
    istate h P Q f fs a la ts ps z zl ra rb rn →
    lists h !! lloop = Some xs → drop i xs = roots a ts →
    lloop < la → clist h P ≠ Some lloop →
    ∃ F h' Q' f' fs',
      (∀ fu n, F ≤ fu → length ts < n →
         child_boxes_loop (block_in_inline fu) lloop n i h = Ok (tt, h'))
      ∧ istate h' P Q' f' fs' (a + fsize ts) (la + flsize ts) [] ps
          z zl ra rb rn
      ∧ itrans h h' P a (a + fsize ts) la z zl ra rb rn
      ∧ length fs' = length fs
      ∧ lists h' !! lloop = Some xs
      ∧ same_on h h' (a + fsize ts) z (la + flsize ts) zl.
Proof.
  induction 1 as [|t ts Ht _ IH];
    intros h P Q f fs a la ps z zl ra rb rn lloop xs i Hst Hl Hdrop Hlt HlP.
  - exists 0, h, Q, f, fs. cbn [roots] in Hdrop.
    unfold fsize, flsize. cbn [map list_sum]. rewrite !Nat.add_0_r.
    split; [|split; [exact Hst|split;
      [|split; [reflexivity|split; [exact Hl|apply same_on_refl]]]]].
    + intros fu n _ Hn. destruct n as [|n]; [simpl in Hn; lia|].
      apply (loop_end _ _ _ _ _ _ Hl). apply drop_nil_length. exact Hdrop.
    + apply itrans_same. intros s H1 H2. lia.
  - cbn [roots] in Hdrop. apply drop_roots_cons in Hdrop as [Hi Hdrop].
    destruct (Ht _ _ _ _ _ _ _ _ _ _ _ _ _ _ Hst)
      as (F1 & h1 & Q1 & f1 & fs1 & Hrun1 & Hst1 & Htr1 & Hlen1 & Hso1).
    assert (Hllen : lloop < length (lists h))
      by (eapply lookup_lt_Some; eauto).
    assert (Hzl : la + lsize t ≤ zl)
      by (apply (item_bounds _ _ _ _ _ _ _ _ _ _ _ _ _ _ _ Hst)).
    assert (Hl1 : lists h1 !! lloop = Some xs).
    { rewrite (it_lists _ _ _ _ _ _ _ _ _ _ _ Htr1); [exact Hl| |lia|exact HlP].
      exact Hllen. }
    assert (HlP1 : clist h1 P ≠ Some lloop)
      by (rewrite (it_clistP _ _ _ _ _ _ _ _ _ _ _ Htr1); exact HlP).
    destruct (IH _ _ _ _ _ _ _ _ _ _ _ _ _ _ _ _ Hst1 Hl1 Hdrop
                ltac:(lia) HlP1)
      as (F2 & h2 & Q2 & f2 & fs2 & Hrun2 & Hst2 & Htr2 & Hlen2 & Hl2 & Hso2).
    exists (F1 `max` F2), h2, Q2, f2, fs2.
    rewrite fsize_cons, flsize_cons, !Nat.add_assoc.
    split; [|split; [exact Hst2|split; [|split; [lia|split; [exact Hl2|]]]]].
    + intros fu n Hfu Hn. destruct n as [|n]; [lia|].
      rewrite (loop_step _ _ h h1 _ _ _ _ Hl Hi); [|apply Hrun1; lia].
      apply Hrun2; [lia|]. cbn [length] in Hn. lia.
    + eapply itrans_trans; [| |exact Htr1|exact Htr2]; lia.
    + eapply same_on_trans; [exact Hso1|exact Hso2|lia|lia].
Qed.

Lemma itrans_widen (h h' : heap) (P : ref)
    (a a1 a' la la1 z zl ra rb rn : nat) :
  itrans h h' P a1 a' la1 z zl ra rb rn →
  a ≤ a1 → la ≤ la1 →
  (∀ s, a ≤ s → s < a1 → triggers h s = false) →
  itrans h h' P a a' la z zl ra rb rn.
Proof.
  intros [T1 T2 T3 T4 T5 T6 T7 T8] Ha Hla Hnt. constructor; auto.
  - intros l0 Hl0 Hn HP. apply T4; [exact Hl0|lia|exact HP].
  - intros s Hs. destruct (T6 s Hs) as [Hs0 Hn]. split; [exact Hs0|].
    intros [H1 H2]. destruct (decide (s < a1)) as [Hlt|Hge].
    + rewrite (Hnt s H1 Hlt) in Hs0. discriminate.
    + apply Hn. lia.
  - intros A PA Ht HA. apply T7; [exact Ht|lia].
Qed.

Lemma forallb_item_ok (ch : list box) :
  forallb (λ x, negb (is_line x)) ch = true →
  forallb well_formed ch = true →
  forallb item_ok ch = true.
Proof.
  induction ch as [|x ch IH]; [reflexivity|]. cbn [forallb].
  rewrite !andb_true_iff. intros [H1 H2] [H3 H4]. unfold item_ok at 1.
  rewrite H1, H3. auto.
Qed.

Section item_inline.
Variables (h : heap) (P Q : ref) (f : rlvl) (fs : list rlvl) (a la : nat)
          (e : element) (ch : list box) (rest : list box) (ps : list pend)
          (z zl ra rb rn : nat) (ea : element).
Hypothesis Hst :
  istate h P Q f fs a la (Box InlineLevelBox e ch :: rest) ps
    z zl ra rb rn.
Hypothesis Hea : element_of h a = Some ea.

Lemma ii_loaded :
  cls_of h a = Some InlineLevelBox ∧ clist h a = Some la
  ∧ lists h !! la = Some (roots (a + 1) ch)
  ∧ loaded_list (loaded h) (a + 1) (la + 1) ch.
Proof. exact (item_loaded _ _ _ _ _ _ _ _ _ _ _ _ _ _ _ Hst). Qed.

Lemma ii_no_trigger : triggers h a = false.
Proof.
  destruct ii_loaded as (Hc & _). eapply triggers_not_block; eauto.
Qed.

Lemma ii_enter :
  istate h P Q (RLvl a la [] (roots (a + 1) ch) ea)
    (RLvl (r_J f) (r_lJ f) (r_pre f)
       (roots (a + size (Box InlineLevelBox e ch)) rest) (r_e f) :: fs)
    (a + 1) (la + 1) ch
    (Pend (a + size (Box InlineLevelBox e ch))
       (la + lsize (Box InlineLevelBox e ch)) rest :: ps)
    z zl ra rb rn.
Proof.
  destruct ii_loaded as (Hc & Hcl & Hl & Hch).
  pose proof (item_rchain _ _ _ _ _ _ _ _ _ _ _ _ _ _ _ Hst) as Hrch.
  pose proof (item_ok_t _ _ _ _ _ _ _ _ _ _ _ _ _ _ _ Hst) as Hok.
  pose proof (istate_advance _ _ _ _ _ _ _ _ _ _ _ _ _ _ _ Hst) as Hadv.
  pose proof (item_bounds _ _ _ _ _ _ _ _ _ _ _ _ _ _ _ Hst) as [Hz Hzl].
  rewrite size_Box in Hz. rewrite lsize_Box in Hzl.
  apply andb_true_iff in Hok as [_ Hwf]. cbn [well_formed] in Hwf.
  apply andb_true_iff in Hwf as [Hnl Hwf].
  destruct Hst as [is_inv is_top is_chain is_pends is_cfgQ is_cfgJ is_P is_lP is_ra is_rb is_rn is_len is_llen is_closed]. constructor; try assumption.
  - cbn [pend_chain r_J r_lJ r_pre r_post r_e].
    split; [exact Hc|]. split; [exact Hea|]. split; [exact Hcl|].
    split; [exact Hl|exact Hrch].
  - cbn [pends p_a p_la p_ts r_post].
    split; [lia|]. split; [lia|]. split; [reflexivity|].
    split; [exact Hch|]. split; [apply forallb_item_ok; assumption|].
    destruct Hadv as [_ _ _ Hp _ _ _ _ _ _ _ _ _ _].
    cbn [pends p_a p_la p_ts advance r_post] in Hp.
    destruct Hp as (_ & _ & _ & H4 & H5 & H6).
    rewrite size_Box, lsize_Box in *.
    split; [lia|]. split; [lia|]. split; [reflexivity|].
    split; [exact H4|]. split; [exact H5|exact H6].
  - destruct is_cfgQ as [[? ?]|?]; [left|right]; lia.
  - cbn [map r_J] in *. constructor; [left; lia|].
    eapply Forall_impl; [exact is_cfgJ|].
    intros r [[? ?]|?]; [left|right]; lia.
  - intros lP HlP [? ?]. apply (is_lP lP HlP). lia.
  - lia.
Qed.

Lemma ii_lP : clist h P ≠ Some la.
Proof.
  pose proof (item_bounds _ _ _ _ _ _ _ _ _ _ _ _ _ _ _ Hst) as [_ Hzl].
  rewrite lsize_Box in Hzl. destruct Hst as [is_inv is_top is_chain is_pends is_cfgQ is_cfgJ is_P is_lP is_ra is_rb is_rn is_len is_llen is_closed]. intros HlP.
  apply (is_lP la HlP). lia.
Qed.

End item_inline.

(** Back at the level above, once the children are done. *)
Lemma istate_leave (h : heap) (P Q : ref) (fin fout : rlvl)
    (fs : list rlvl) (a la a2 la2 : nat) (rest : list box) (ps : list pend)
    (z zl ra rb rn : nat) :
  istate h P Q fin (fout :: fs) a la [] (Pend a2 la2 rest :: ps)
    z zl ra rb rn →
  a ≤ a2 → la ≤ la2 →
  istate h P Q (advance fout (r_J fin) (r_post fout)) fs a2 la2 rest ps
    z zl ra rb rn.
Proof.
  intros [I1 I2 I3 I4 I5 I6 I7 I8 I9 I10 I11 I12 I13 I14] Ha Hla.
  cbn [pends p_a p_la p_ts] in I4.
  destruct I4 as (_ & _ & _ & _ & _ & H1 & H2 & H3 & H4 & H5 & H6).
  destruct I3 as (_ & _ & _ & _ & (Hp & Hc & He & Hcl & Hl & Hn & Hr)).
  constructor; try assumption.
  - cbn [pend_chain advance r_J r_lJ r_pre r_post r_e].
    split; [exact Hc|]. split; [exact He|]. split; [exact Hcl|].
    split; [|exact Hr]. rewrite Hl, <- app_assoc. reflexivity.
  - cbn [pends p_a p_la p_ts advance r_post].
    split; [lia|]. split; [lia|]. split; [exact H3|].
    split; [exact H4|]. split; [exact H5|exact H6].
  - destruct I5 as [[? ?]|?]; [left|right]; lia.
  - cbn [map advance r_J] in *. apply Forall_cons in I6 as [_ I6].
    eapply Forall_impl; [exact I6|].
    intros r [[? ?]|?]; [left|right]; lia.
  - intros lP HlP [? ?]. apply (I8 lP HlP). lia.
  - lia.
Qed.

Lemma item_spec_inline (e : element) (ch : list box) :
  Forall item_spec ch → item_spec (Box InlineLevelBox e ch).
Proof.
  intros Hch h P Q f fs a la rest ps z zl ra rb rn Hst.
  destruct (ii_loaded _ _ _ _ _ _ _ _ _ _ _ _ _ _ _ _ Hst)
    as (Hc & Hcl & Hl & Hld).
  pose proof (ii_no_trigger _ _ _ _ _ _ _ _ _ _ _ _ _ _ _ _ Hst) as Hnt.
  pose proof (item_lt _ _ _ _ _ _ _ _ _ _ _ _ _ _ _ Hst) as Hlt.
  assert (Hinv : inv h) by (destruct Hst as [is_inv is_top is_chain is_pends is_cfgQ is_cfgJ is_P is_lP is_ra is_rb is_rn is_len is_llen is_closed]; assumption).
  destruct ch as [|c0 ch0].
  - exists 1, h, Q,
      (advance f a (roots (a + size (Box InlineLevelBox e [])) rest)), fs.
    split; [|split; [|split; [|split]]].
    + intros fu Hfu. destruct fu as [|fu]; [lia|].
      rewrite bii_no_trigger by assumption.
      apply (visit_children_nil _ _ _ _ Hcl Hl).
    + apply (istate_advance _ _ _ _ _ _ _ _ _ _ _ _ _ _ _ Hst).
    + apply itrans_same. rewrite size_Box. unfold fsize. cbn.
      intros s H1 H2. replace s with a by lia. exact Hnt.
    + reflexivity.
    + apply same_on_refl.
  - set (ch := c0 :: ch0) in *.
    destruct (cls_of_Some _ _ _ Hc) as (o & Ho & _).
    assert (Hea : element_of h a = Some (o_element o))
      by (unfold element_of; rewrite Ho; reflexivity).
    pose proof (ii_enter _ _ _ _ _ _ _ _ _ _ _ _ _ _ _ _ _ Hst Hea) as Hent.
    destruct (forest ch Hch _ _ _ _ _ _ _ _ _ _ _ _ _ la
                (roots (a + 1) ch) 0 Hent Hl (drop_0 _) ltac:(lia)
                (ii_lP _ _ _ _ _ _ _ _ _ _ _ _ _ _ _ _ Hst))
      as (F & h' & Q' & fin' & fs'' & Hrun & Hst' & Htr & Hlen & Hl' & Hso).
    destruct fs'' as [|fout' fs']; [discriminate|].
    cbn [length] in Hlen.
    assert (Hsz : a + 1 + fsize ch = a + size (Box InlineLevelBox e ch))
      by (rewrite size_Box; lia).
    assert (Hlsz : la + 1 + flsize ch = la + lsize (Box InlineLevelBox e ch))
      by (rewrite lsize_Box; lia).
    rewrite Hsz, Hlsz in Hst'. rewrite Hsz in Htr. rewrite Hsz, Hlsz in Hso.
    exists (S (F `max` S (length ch))), h', Q',
      (advance fout' (r_J fin') (r_post fout')), fs'.
    split; [|split; [|split; [|split]]].
    + intros fu Hfu. destruct fu as [|fu]; [lia|].
      rewrite bii_no_trigger by assumption.
      rewrite (visit_children_loop _ _ _ _ _ Hcl Hl) by discriminate.
      apply Hrun; lia.
    + apply (istate_leave _ _ _ _ _ _ _ _ _ _ _ _ _ _ _ _ _ Hst'); lia.
    + apply (itrans_widen h h' P a (a + 1) _ la (la + 1)); [exact Htr|lia|lia|].
      intros s H1 H2. replace s with a by lia. exact Hnt.
    + lia.
    + exact Hso.
Qed.

(** ** Any child of an inline-level box *)

Lemma item_spec_of (t : box) :
  match t with
  | Box _ _ ch => Forall item_spec ch
  | Text _ _ => True
  end →
  (is_block t = true → block_spec t) →
  item_spec t.
Proof.
  intros Hch Hblk. destruct t as [c e ch|e s]; [|apply item_spec_text].
  destruct c.
  - apply item_spec_block; [reflexivity|]. apply Hblk. reflexivity.
  - apply item_spec_block; [reflexivity|]. apply Hblk. reflexivity.
  - intros h P Q f fs a la rest ps z zl ra rb rn Hst.
    pose proof (item_ok_t _ _ _ _ _ _ _ _ _ _ _ _ _ _ _ Hst) as Hok.
    discriminate.
  - apply item_spec_inline. exact Hch.
  - intros h P Q f fs a la rest ps z zl ra rb rn Hst.
    pose proof (item_ok_t _ _ _ _ _ _ _ _ _ _ _ _ _ _ _ Hst) as Hok.
    discriminate.
Qed.

(** ** The children of a line box *)

Lemma ltrans_of_itrans (h h' : heap) (PL : ref) (a a' la z zl ra rn : nat) :
  itrans h h' PL a a' la z zl ra z rn → ltrans h h' PL a a' la z zl ra rn.
Proof. intros [T1 T2 T3 T4 T5 T6 T7 T8]. constructor; assumption. Qed.

Lemma ltrans_refl (h : heap) (PL : ref) (a la z zl ra rn : nat) :
  ltrans h h PL a a la z zl ra rn.
Proof.
  apply ltrans_of_itrans, itrans_same. intros s H1 H2. lia.
Qed.

Lemma ltrans_trans (h h1 h2 : heap) (PL PL1 : ref)
    (a a1 a2 la la1 z zl ra rn : nat) :
  a ≤ a1 → la ≤ la1 →
  ltrans h h1 PL a a1 la z zl ra rn →
  ltrans h1 h2 PL1 a1 a2 la1 z zl ra rn →
  (PL1 = PL ∧ clist h1 PL = clist h PL
   ∨ ∃ l, clist h1 PL1 = Some l ∧ length (lists h) ≤ l) →
  ltrans h h2 PL a a2 la z zl ra rn.
Proof.
  intros Ha Hla [A1 A2 A3 A4 A5 A6 A7] [B1 B2 B3 B4 B5 B6 B7] HPL.
  constructor.
  - lia.
  - lia.
  - intros r Hr Hn. rewrite B3 by assumption. apply A3; assumption.
  - intros l0 Hl0 Hn HP. rewrite B4.
    + apply A4; assumption.
    + lia.
    + lia.
    + destruct HPL as [[-> Hc]|(l & Hl & Hge)].
      * rewrite Hc. exact HP.
      * rewrite Hl. intros [= ->]. lia.
  - intros s Hs. destruct (B5 s Hs) as [Hs1 Hn1].
    destruct (A5 s Hs1) as [Hs0 Hn0]. split; [exact Hs0|lia].
  - intros A PA Ht HA. eapply anchored_trans.
    + exact A1.
    + exact A2.
    + apply A6; assumption.
    + intros PA1 Ht1. apply B6; [exact Ht1|lia].
  - intros B0 HB0 Hk. apply B7; [exact HB0|]. apply A7; assumption.
Qed.

Lemma line_item (x : box) :
  line_ready x →
  ∀ h PL L a la z zl ra rn ks,
    inv h → top h PL L → (PL < ra ∨ rn ≤ PL) →
    (∀ lP, clist h PL = Some lP → ¬ (la ≤ lP ∧ lP < zl)) →
    children_refs h L = Some ks → a ∈ ks →
    ra ≤ L → L < a →
    loaded h a la x → is_inline x || is_text x = true →
    well_formed x = true →
    a + size x ≤ z → la + lsize x ≤ zl → z ≤ rn →
    rn ≤ length (boxes h) → zl ≤ length (lists h) →
    closed h ra z rn →
    ∃ F h',
      (∀ fu, F ≤ fu → block_in_inline fu a h = Ok (tt, h'))
      ∧ inv h' ∧ closed h' ra z rn
      ∧ itrans h h' PL a (a + size x) la z zl ra z rn
      ∧ same_on h h' (a + size x) z (la + lsize x) zl.
Proof.
  intros Hready h PL L a la z zl ra rn ks Hinv Htop HPL HlP Hks Hin HraL HLa
    Hld Hcls Hwf Hz Hzl Hzrn Hrn Hzll Hclosed.
  pose proof (size_pos x) as Hpos.
  assert (Hlt : a < length (boxes h)) by lia.
  destruct x as [c e ch|e s].
  - assert (c = InlineLevelBox) as ->.
    { destruct c; try discriminate. reflexivity. }
    destruct Hld as (Hc & Hcl & Hl & Hch).
    pose proof (triggers_not_block _ _ _ Hc eq_refl) as Hnt.
    destruct ch as [|c0 ch0].
    + exists 1, h. split; [|split; [exact Hinv|split; [exact Hclosed|split]]].
      * intros fu Hfu. destruct fu as [|fu]; [lia|].
        rewrite bii_no_trigger by assumption.
        apply (visit_children_nil _ _ _ _ Hcl Hl).
      * apply itrans_same. rewrite size_Box. unfold fsize. cbn.
        intros s0 H1 H2. replace s0 with a by lia. exact Hnt.
      * apply same_on_refl.
    + set (ch := c0 :: ch0) in *.
      rewrite size_Box in Hz. rewrite lsize_Box in Hzl.
      destruct (cls_of_Some _ _ _ Hc) as (o & Ho & _).
      assert (Hea : element_of h a = Some (o_element o))
        by (unfold element_of; rewrite Ho; reflexivity).
      cbn [well_formed] in Hwf. apply andb_true_iff in Hwf as [Hnl Hwf].
      assert (Hst : istate h PL L (RLvl a la [] (roots (a + 1) ch)
                                     (o_element o)) []
                      (a + 1) (la + 1) ch [] z zl ra z rn).
      { constructor; try assumption; try lia.
        - cbn [pend_chain r_J r_lJ r_pre r_post r_e rchain].
          split; [exact Hc|]. split; [exact Hea|]. split; [exact Hcl|].
          split; [exact Hl|]. split; [eapply inv_cons; eauto|eauto].
        - cbn [pends p_a p_la p_ts r_post].
          split; [lia|]. split; [lia|]. split; [reflexivity|].
          split; [exact Hch|]. split; [apply forallb_item_ok; assumption|].
          lia.
        - left. lia.
        - cbn [map r_J]. constructor; [left; lia|constructor].
        - intros lP Hc' [H1 H2]. apply (HlP lP Hc'). lia. }
      assert (HlPa : clist h PL ≠ Some la).
      { intros Hc'. apply (HlP la Hc'). lia. }
      destruct (forest ch Hready _ _ _ _ _ _ _ _ _ _ _ _ _ la
                  (roots (a + 1) ch) 0 Hst Hl (drop_0 _) ltac:(lia) HlPa)
        as (F & h' & Q' & f' & fs' & Hrun & Hst' & Htr & _ & _ & Hso).
      assert (Hsz : a + 1 + fsize ch = a + size (Box InlineLevelBox e ch))
        by (rewrite size_Box; lia).
      assert (Hlsz : la + 1 + flsize ch
                     = la + lsize (Box InlineLevelBox e ch))
        by (rewrite lsize_Box; lia).
      rewrite Hsz in Htr. rewrite Hsz, Hlsz in Hso.
      exists (S (F `max` S (length ch))), h'.
      split; [|split; [|split; [|split; [|exact Hso]]]].
      * intros fu Hfu. destruct fu as [|fu]; [lia|].
        rewrite bii_no_trigger by assumption.
        rewrite (visit_children_loop _ _ _ _ _ Hcl Hl) by discriminate.
        apply Hrun; lia.
      * destruct Hst'; assumption.
      * destruct Hst'; assumption.
      * apply (itrans_widen h h' PL a (a + 1) _ la (la + 1));
          [exact Htr|lia|lia|].
        intros s0 H1 H2. replace s0 with a by lia. exact Hnt.
  - destruct Hld as [Hc Hcl].
    pose proof (triggers_not_block _ _ _ Hc eq_refl) as Hnt.
    exists 1, h. split; [|split; [exact Hinv|split; [exact Hclosed|split]]].
    + intros fu Hfu. destruct fu as [|fu]; [lia|].
      rewrite bii_no_trigger by assumption.
      apply visit_children_none; assumption.
    + apply itrans_same. cbn [size]. intros s0 H1 H2.
      replace s0 with a by lia. exact Hnt.
    + apply same_on_refl.
Qed.

Lemma top_neq (h : heap) (P Q : ref) : inv h → top h P Q → P ≠ Q.
Proof.
  intros Hinv [_ _ _ (ks & Hks & Hin)] ->.
  destruct (inv_ht _ Hinv) as [ht Hd]. specialize (Hd _ _ _ Hks Hin). lia.
Qed.

Lemma line_loop (todo : list box) :
  Forall line_ready todo →
  ∀ h PL L laL xs i a la z zl ra rn,
    inv h → top h PL L → (PL < ra ∨ rn ≤ PL) →
    (∀ lP, clist h PL = Some lP → ¬ (la ≤ lP ∧ lP < zl)) →
    clist h L = Some laL → lists h !! laL = Some xs →
    drop i xs = roots a todo →
    laL < la → ra ≤ L → L < a →
    loaded_list (loaded h) a la todo →
    forallb (λ x, (is_inline x || is_text x) && well_formed x) todo = true →
    a + fsize todo ≤ z → la + flsize todo ≤ zl → z ≤ rn →
    rn ≤ length (boxes h) → zl ≤ length (lists h) →
    closed h ra z rn →
    ∃ F h',
      (∀ fu n, F ≤ fu → length todo < n →
         child_boxes_loop (block_in_inline fu) laL n i h = Ok (tt, h'))
      ∧ inv h' ∧ closed h' ra z rn
      ∧ ltrans h h' PL a (a + fsize todo) la z zl ra rn.
Proof.
  induction 1 as [|x rest Hx _ IH];
    intros h PL L laL xs i a la z zl ra rn Hinv Htop HPL HlP HcL Hl Hdrop
      HlaL HraL HLa Hld Hok Hz Hzl Hzrn Hrn Hzll Hclosed.
  - exists 0, h. unfold fsize. cbn [map list_sum]. rewrite Nat.add_0_r.
    split; [|split; [exact Hinv|split; [exact Hclosed|apply ltrans_refl]]].
    intros fu n _ Hn. destruct n as [|n]; [simpl in Hn; lia|].
    apply (loop_end _ _ _ _ _ _ Hl). apply drop_nil_length. exact Hdrop.
  - cbn [roots] in Hdrop. apply drop_roots_cons in Hdrop as [Hi Hdrop].
    rewrite fsize_cons in Hz. rewrite flsize_cons in Hzl.
    destruct Hld as [Hldx Hldr]. cbn [forallb] in Hok.
    apply andb_true_iff in Hok as [Hokx Hokr].
    apply andb_true_iff in Hokx as [Hclsx Hwfx].
    assert (Hks : children_refs h L = Some xs)
      by (apply children_refs_Some; eauto).
    assert (Hin : a ∈ xs) by (eapply list_elem_of_lookup_2; eauto).
    destruct (line_item x Hx h PL L a la z zl ra rn xs Hinv Htop HPL HlP
                Hks Hin HraL HLa Hldx Hclsx Hwfx ltac:(lia) ltac:(lia)
                Hzrn Hrn Hzll Hclosed)
      as (F1 & h1 & Hrun1 & Hinv1 & Hclosed1 & Htr1 & Hso1).
    destruct (it_anchor _ _ _ _ _ _ _ _ _ _ _ Htr1 L PL Htop ltac:(lia))
      as (PL1 & Htop1 & HcL1 & Hcase).
    pose proof (it_len _ _ _ _ _ _ _ _ _ _ _ Htr1) as Hlen1.
    pose proof (it_llen _ _ _ _ _ _ _ _ _ _ _ Htr1) as Hllen1.
    assert (HlaL_lt : laL < length (lists h))
      by (eapply lookup_lt_Some; eauto).
    assert (Hl1 : lists h1 !! laL = Some xs).
    { rewrite (it_lists _ _ _ _ _ _ _ _ _ _ _ Htr1); [exact Hl| |lia|].
      - exact HlaL_lt.
      - intros HcP.
        pose proof (inv_clist_inj _ Hinv _ _ _ HcP HcL) as Heq.
        exact (top_neq _ _ _ Hinv Htop Heq). }
    destruct (IH h1 PL1 L laL xs (S i) (a + size x) (la + lsize x) z zl ra rn
                Hinv1 Htop1) as (F2 & h2 & Hrun2 & Hinv2 & Hclosed2 & Htr2).
    + destruct Hcase as [[-> _]|[Hge _]]; [exact HPL|right; lia].
    + intros lP Hc' [H1 H2].
      destruct Hcase as [[-> Hc]|(_ & l0 & Hl0 & Hge)].
      * rewrite Hc in Hc'. apply (HlP lP Hc'). lia.
      * rewrite Hl0 in Hc'. injection Hc' as <-. lia.
    + rewrite HcL1. exact HcL.
    + exact Hl1.
    + exact Hdrop.
    + lia.
    + exact HraL.
    + pose proof (size_pos x). lia.
    + apply (loaded_list_frame' h h1); [exact Hldr|].
      eapply same_on_sub; [exact Hso1|lia..].
    + exact Hokr.
    + lia.
    + lia.
    + exact Hzrn.
    + lia.
    + lia.
    + exact Hclosed1.
    + exists (F1 `max` F2), h2.
      rewrite fsize_cons, !Nat.add_assoc.
      split; [|split; [exact Hinv2|split; [exact Hclosed2|]]].
      * intros fu n Hfu Hn. destruct n as [|n]; [lia|].
        rewrite (loop_step _ _ h h1 _ _ _ _ Hl Hi); [|apply Hrun1; lia].
        apply Hrun2; [lia|]. cbn [length] in Hn. lia.
      * eapply (ltrans_trans h h1 h2 PL PL1 a (a + size x) _ la
                  (la + lsize x)); [lia|lia| |exact Htr2|].
        -- apply ltrans_of_itrans. exact Htr1.
        -- destruct Hcase as [[-> Hc]|(_ & l0 & Hl0 & Hge)];
             [left; auto|right; eauto].
Qed.

(** ** A block-level box with a line box *)

Lemma forallb_line_items (items : list box) :
  forallb (λ x, is_inline x || is_text x) items = true →
  forallb well_formed items = true →
  forallb (λ x, (is_inline x || is_text x) && well_formed x) items = true.
Proof.
  induction items as [|x items IH]; [reflexivity|]. cbn [forallb].
  rewrite !andb_true_iff. intros [H1 H2] [H3 H4]. auto.
Qed.

(** The visit of the line box of a block-level box. *)
Lemma line_visit (eL : element) (items : list box) :
  Forall line_ready items →
  ∀ h B c aL laL,
    inv h → cls_of h B = Some c → isinstance_BlockLevelBox c = true →
    children_refs h B = Some [aL] → B < aL →
    (∀ lB, clist h B = Some lB → lB < laL) →
    loaded h aL laL (Box LineBox eL items) →
    well_formed (Box LineBox eL items) = true →
    ∃ F h',
      (∀ fu, F ≤ fu → block_in_inline fu aL h = Ok (tt, h'))
      ∧ inv h'
      ∧ closed h' aL (aL + size (Box LineBox eL items)) (length (boxes h))
      ∧ ltrans h h' B (aL + 1) (aL + size (Box LineBox eL items)) (laL + 1)
          (aL + size (Box LineBox eL items))
          (laL + lsize (Box LineBox eL items)) aL (length (boxes h)).
Proof.
  intros Hready h B c aL laL Hinv HcB HbB HkB HBa HlB Hld Hwf.
  pose proof (loaded_closed _ _ _ _ Hinv Hld) as Hclosed.
  pose proof (loaded_lt _ _ _ _ Hld) as [Hlt Hllt].
  destruct Hld as (Hc & Hcl & Hl & Hch).
  assert (HlaL : laL < length (lists h)) by (eapply lookup_lt_Some; eauto).
  specialize (Hllt ltac:(lia)).
  rewrite size_Box in *. rewrite lsize_Box in *.
  pose proof (triggers_not_block _ _ _ Hc eq_refl) as Hnt.
  assert (HaL : aL < length (boxes h)) by lia.
  cbn [well_formed] in Hwf. apply andb_true_iff in Hwf as [Hit Hwf].
  destruct items as [|x0 items0].
  - exists 1, h. split; [|split; [exact Hinv|split; [exact Hclosed|]]].
    + intros fu Hfu. destruct fu as [|fu]; [lia|].
      rewrite bii_no_trigger by assumption.
      apply (visit_children_nil _ _ _ _ Hcl Hl).
    + unfold fsize. cbn [map list_sum]. replace (aL + 1) with (aL + 1) by lia.
      apply ltrans_refl.
  - set (items := x0 :: items0) in *.
    assert (Htop : top h B aL).
    { constructor.
      - eauto.
      - exists LineBox. auto.
      - eapply inv_cons; [exact Hinv|exact HkB|left].
      - exists [aL]. split; [exact HkB|left]. }
    destruct (line_loop items Hready h B aL laL (roots (aL + 1) items) 0
                (aL + 1) (laL + 1) (aL + S (fsize items))
                (laL + S (flsize items)) aL (length (boxes h))
                Hinv Htop ltac:(lia))
      as (F & h' & Hrun & Hinv' & Hclosed' & Htr).
    + intros lP HcP [H1 H2]. specialize (HlB lP HcP). lia.
    + exact Hcl.
    + exact Hl.
    + apply drop_0.
    + lia.
    + lia.
    + lia.
    + exact Hch.
    + apply forallb_line_items; assumption.
    + lia.
    + lia.
    + lia.
    + lia.
    + lia.
    + exact Hclosed.
    + exists (S (F `max` S (length items))), h'.
      split; [|split; [exact Hinv'|split; [exact Hclosed'|]]].
      * intros fu Hfu. destruct fu as [|fu]; [lia|].
        rewrite bii_no_trigger by assumption.
        rewrite (visit_children_loop _ _ _ _ _ Hcl Hl) by discriminate.
        apply Hrun; lia.
      * replace (aL + S (fsize items)) with (aL + 1 + fsize items) at 1 by lia.
        exact Htr.
Qed.

Lemma block_spec_line (c : cls) (e eL : element) (items : list box) :
  Forall line_ready items →
  block_spec (Box c e [Box LineBox eL items]).
Proof.
  intros Hready h a la Hinv Hld Hwf Hblk.
  set (L := Box LineBox eL items) in *.
  pose proof (loaded_lt _ _ _ _ Hld) as [Hlt _].
  destruct Hld as (Hc & Hcl & Hl & [HldL _]).
  cbn [roots] in Hl.
  unfold is_block in Hblk. cbn [box_cls] in Hblk.
  cbn [well_formed forallb] in Hwf.
  apply andb_true_iff in Hwf as [_ Hwf]. rewrite andb_true_r in Hwf.
  assert (Hks : children_refs h a = Some [a + 1])
    by (apply children_refs_Some; eauto).
  assert (Hsz : size (Box c e [L]) = S (size L)).
  { unfold L. simpl. lia. }
  assert (Hlsz : lsize (Box c e [L]) = S (lsize L)).
  { unfold L. simpl. lia. }
  rewrite Hsz in Hlt.
  destruct (line_visit eL items Hready h a c (a + 1) (la + 1) Hinv Hc Hblk
              Hks ltac:(lia)) as (F1 & h1 & Hrun1 & Hinv1 & Hclosed1 & Htr);
    [|exact HldL|exact Hwf|].
  { intros lB HlB. rewrite Hcl in HlB. injection HlB as <-. lia. }
  fold L in Hclosed1, Htr.
  set (N0 := length (boxes h)) in *.
  assert (Hbox_a : boxes h1 !! a = boxes h !! a).
  { apply (lt_boxes _ _ _ _ _ _ _ _ _ _ Htr); lia. }
  assert (Hcl1 : clist h1 a = Some la).
  { unfold clist. rewrite Hbox_a. exact Hcl. }
  destruct (lt_kids_in _ _ _ _ _ _ _ _ _ _ Htr a ltac:(lia))
    as (ks1 & Hks1 & Hin1).
  { exists [a + 1]. split; [exact Hks|]. constructor; [|constructor].
    left. pose proof (size_pos L). lia. }
  assert (Hl1 : lists h1 !! la = Some ks1).
  { rewrite children_refs_clist, Hcl1 in Hks1. exact Hks1. }
  assert (Hntf : ∀ s, inreg (a + 1) (a + 1 + size L) N0 s →
                      triggers h1 s = false).
  { intros s Hs. destruct (triggers h1 s) eqn:Ht; [|reflexivity].
    destruct (lt_trig _ _ _ _ _ _ _ _ _ _ Htr s Ht) as [Ht0 Hn].
    pose proof Ht0 as Ht0'.
    apply triggers_spec in Ht0' as (cs & p & Hcs & Hbs & _).
    pose proof (cls_of_lt _ _ _ Hcs) as Hslt.
    destruct Hs as [[H1 H2]|H1]; [|unfold N0 in H1; lia].
    assert (s = a + 1) as -> by lia.
    destruct HldL as (HcL & _). rewrite HcL in Hcs. injection Hcs as <-.
    discriminate. }
  destruct (fuel_for_all (λ f c0, block_in_inline f c0 h1 = Ok (tt, h1)) ks1)
    as [F2 HF2].
  { intros c0 Hc0. apply (revisit h1 (a + 1) (a + 1 + size L) N0 Hinv1
                            Hclosed1 Hntf).
    - rewrite Forall_forall in Hin1. exact (Hin1 _ Hc0).
    - eapply inv_kids_lt; eauto. }
  exists (S ((F1 `max` F2) `max` S (length ks1))), h1. split.
  - intros fu Hfu. destruct fu as [|fu]; [lia|].
    rewrite (visit_children_loop _ _ _ _ _ Hcl Hl) by discriminate.
    rewrite (loop_step _ _ h h1 [a + 1] fu 0 (a + 1) Hl eq_refl);
      [|apply Hrun1; lia].
    apply (loop_id _ _ _ _ Hl1).
    + intros c0 Hc0. apply HF2; [lia|].
      exact (subseteq_drop _ _ _ Hc0).
    + lia.
  - constructor.
    + exact Hinv1.
    + exact (lt_len _ _ _ _ _ _ _ _ _ _ Htr).
    + exact (lt_llen _ _ _ _ _ _ _ _ _ _ Htr).
    + intros r Hr Hn. apply (lt_boxes _ _ _ _ _ _ _ _ _ _ Htr); lia.
    + intros l Hll Hn. apply (lt_lists _ _ _ _ _ _ _ _ _ _ Htr).
      * exact Hll.
      * lia.
      * rewrite Hcl. intros [= ->]. lia.
    + intros s Hs. destruct (lt_trig _ _ _ _ _ _ _ _ _ _ Htr s Hs) as [Hs0 Hn].
      split; [exact Hs0|]. intros [H1 H2].
      destruct (decide (s = a + 1)) as [->|Hne]; [|lia].
      apply triggers_spec in Hs0 as (cs & p & Hcs & Hbs & _).
      destruct HldL as (HcL & _). rewrite HcL in Hcs. injection Hcs as <-.
      discriminate.
    + rewrite Hsz. intros y ks k Hy Hyk Hk.
      assert (Hreg : inreg (a + 1) (a + 1 + size L) N0 k).
      { destruct (decide (y = a)) as [->|Hne].
        - rewrite Hks1 in Hyk. injection Hyk as <-.
          rewrite Forall_forall in Hin1. exact (Hin1 _ Hk).
        - apply (Hclosed1 y ks k); [|exact Hyk|exact Hk].
          destruct Hy as [[? ?]|?]; [left|right]; lia. }
      destruct Hreg as [[? ?]|?]; [left|right]; lia.
Qed.

(** ** A block-level box with block-level boxes *)

Lemma block_res_same_on (h h' : heap) (a sz la lsz a2 b la2 lb : nat) :
  block_res h h' a sz la lsz →
  a + sz ≤ a2 → b ≤ length (boxes h) →
  la + lsz ≤ la2 → lb ≤ length (lists h) →
  same_on h h' a2 b la2 lb.
Proof.
  intros Hbr Ha Hb Hla Hlb. split.
  - intros r H1 H2.
    assert (Hr : boxes h' !! r = boxes h !! r)
      by (apply (br_boxes _ _ _ _ _ _ Hbr); lia).
    unfold cls_of, clist. rewrite Hr. auto.
  - intros l H1 H2. apply (br_lists _ _ _ _ _ _ Hbr); lia.
Qed.

Lemma block_loop (todo : list box) :
  Forall block_spec todo →
  ∀ h B cB laB xs i a la,
    inv h → cls_of h B = Some cB → isinstance_BlockLevelBox cB = true →
    clist h B = Some laB → lists h !! laB = Some xs →
    drop i xs = roots a todo → B < a → laB < la →
    la ≤ length (lists h) →
    loaded_list (loaded h) a la todo →
    forallb (λ x, is_block x && well_formed x) todo = true →
    ∃ F h',
      (∀ fu n, F ≤ fu → length todo < n →
         child_boxes_loop (block_in_inline fu) laB n i h = Ok (tt, h'))
      ∧ inv h'
      ∧ length (boxes h) ≤ length (boxes h')
      ∧ length (lists h) ≤ length (lists h')
      ∧ (∀ r, r < length (boxes h) → ¬ (a ≤ r ∧ r < a + fsize todo) →
              boxes h' !! r = boxes h !! r)
      ∧ (∀ l, l < length (lists h) → ¬ (la ≤ l ∧ l < la + flsize todo) →
              lists h' !! l = lists h !! l)
      ∧ (∀ s, triggers h' s = true →
              triggers h s = true ∧ ¬ (a ≤ s ∧ s < a + fsize todo))
      ∧ (∀ ra rb rn, closed h ra rb rn → ra ≤ a → a + fsize todo ≤ rb →
                     rn ≤ length (boxes h) → closed h' ra rb rn).
Proof.
  induction 1 as [|x rest Hx _ IH];
    intros h B cB laB xs i a la Hinv HcB HbB HclB Hl Hdrop HBa Hla Hlal
      Hld Hok.
  - exists 0, h. unfold fsize, flsize. cbn [map list_sum].
    split; [|split; [exact Hinv|split; [lia|split; [lia|
      split; [|split; [|split]]]]]].
    + intros fu n _ Hn. destruct n as [|n]; [simpl in Hn; lia|].
      apply (loop_end _ _ _ _ _ _ Hl). apply drop_nil_length. exact Hdrop.
    + reflexivity.
    + reflexivity.
    + intros s Hs. split; [exact Hs|]. simpl. lia.
    + intros ra rb rn Hcl _ _ _. exact Hcl.
  - cbn [roots] in Hdrop. apply drop_roots_cons in Hdrop as [Hi Hdrop].
    destruct Hld as [Hldx Hldr]. cbn [forallb] in Hok.
    apply andb_true_iff in Hok as [Hokx Hokr].
    apply andb_true_iff in Hokx as [Hblkx Hwfx].
    pose proof (loaded_lt _ _ _ _ Hldx) as [Hlt Hllt].
    specialize (Hllt Hlal). pose proof (size_pos x) as Hpos.
    assert (Hks : children_refs h B = Some xs)
      by (apply children_refs_Some; eauto).
    assert (Hin : a ∈ xs) by (eapply list_elem_of_lookup_2; eauto).
    assert (Hnt : triggers h a = false).
    { destruct (triggers h a) eqn:Ht; [|reflexivity].
      apply triggers_spec in Ht as (c & p & _ & _ & Hp & Hcp).
      rewrite (inv_cons _ Hinv _ _ _ Hks Hin) in Hp. injection Hp as <-.
      rewrite HcB in Hcp. injection Hcp as ->. discriminate. }
    destruct (Hx h a la Hinv Hldx Hwfx Hblkx) as (F1 & h1 & Hvis & Hbr).
    pose proof (br_len _ _ _ _ _ _ Hbr) as Hlen1.
    pose proof (br_llen _ _ _ _ _ _ Hbr) as Hllen1.
    assert (HB1 : boxes h1 !! B = boxes h !! B).
    { apply (br_boxes _ _ _ _ _ _ Hbr); [|lia].
      eapply cls_of_lt; eauto. }
    assert (HlaB : laB < length (lists h)) by (eapply lookup_lt_Some; eauto).
    destruct (IH h1 B cB laB xs (S i) (a + size x) (la + lsize x))
      as (F2 & h2 & Hrun2 & Hinv2 & Hlen2 & Hllen2 & Hb2 & Hl2 & Ht2 & Hc2).
    + exact (br_inv _ _ _ _ _ _ Hbr).
    + unfold cls_of. rewrite HB1. exact HcB.
    + exact HbB.
    + unfold clist. rewrite HB1. exact HclB.
    + rewrite (br_lists _ _ _ _ _ _ Hbr); [exact Hl|exact HlaB|lia].
    + exact Hdrop.
    + lia.
    + lia.
    + lia.
    + destruct (loaded_list_lt _ _ _ _ Hldr ltac:(lia) ltac:(lia))
        as [Hr1 Hr2].
      apply (loaded_list_frame' h h1); [exact Hldr|].
      eapply block_res_same_on; [exact Hbr|lia..].
    + exact Hokr.
    + exists (S (F1 `max` F2)), h2.
      rewrite fsize_cons, flsize_cons, !Nat.add_assoc.
      split; [|split; [exact Hinv2|split; [lia|split; [lia|
        split; [|split; [|split]]]]]].
      * intros fu n Hfu Hn. destruct n as [|n]; [lia|].
        destruct fu as [|fu]; [lia|].
        rewrite (loop_step _ _ h h1 _ _ _ _ Hl Hi).
        -- apply Hrun2; [lia|]. cbn [length] in Hn. lia.
        -- rewrite bii_no_trigger by (try assumption; lia).
           apply Hvis. lia.
      * intros r Hr Hn. rewrite Hb2 by lia.
        apply (br_boxes _ _ _ _ _ _ Hbr); lia.
      * intros l Hll Hn. rewrite Hl2 by lia.
        apply (br_lists _ _ _ _ _ _ Hbr); lia.
      * intros s Hs. destruct (Ht2 s Hs) as [Hs1 Hn1].
        destruct (br_trig _ _ _ _ _ _ Hbr s Hs1) as [Hs0 Hn0].
        split; [exact Hs0|]. intros [H1 H2].
        destruct (decide (s = a)) as [->|Hne]; [congruence|lia].
      * intros ra rb rn Hcl Hra Hrb Hrn. apply Hc2; [|lia|lia|lia].
        apply (closed_block_res h h1 x a la); try assumption; lia.
Qed.

Lemma forallb_blocks (ch : list box) :
  forallb is_block ch = true → forallb well_formed ch = true →
  forallb (λ x, is_block x && well_formed x) ch = true.
Proof.
  induction ch as [|x ch IH]; [reflexivity|]. cbn [forallb].
  rewrite !andb_true_iff. intros [H1 H2] [H3 H4]. auto.
Qed.

Lemma block_spec_blocks (c : cls) (e : element) (ch : list box) :
  Forall block_spec ch → forallb is_block ch = true →
  block_spec (Box c e ch).
Proof.
  intros Hch Hblocks h a la Hinv Hld Hwf Hblk.
  pose proof (loaded_closed _ _ _ _ Hinv Hld) as Hclosed.
  pose proof (loaded_lt _ _ _ _ Hld) as [Hlt Hllt].
  destruct Hld as (Hc & Hcl & Hl & Hldch).
  assert (Hla : la < length (lists h)) by (eapply lookup_lt_Some; eauto).
  specialize (Hllt ltac:(lia)).
  rewrite size_Box in *. rewrite lsize_Box in *.
  unfold is_block in Hblk. cbn [box_cls] in Hblk.
  cbn [well_formed] in Hwf. apply andb_true_iff in Hwf as [_ Hwf].
  destruct ch as [|c0 ch0].
  - exists 0, h. split.
    + intros fu _. apply (visit_children_nil _ _ _ _ Hcl Hl).
    + constructor; auto.
      intros s Hs. split; [exact Hs|]. unfold fsize. simpl. lia.
  - set (ch := c0 :: ch0) in *.
    destruct (block_loop ch Hch h a c la (roots (a + 1) ch) 0 (a + 1) (la + 1)
                Hinv Hc Hblk Hcl Hl (drop_0 _) ltac:(lia) ltac:(lia)
                ltac:(lia) Hldch (forallb_blocks _ Hblocks Hwf))
      as (F & h' & Hrun & Hinv' & Hlen & Hllen & Hb & Hls & Ht & Hcls).
    exists (F `max` S (length ch)), h'. split.
    + intros fu Hfu.
      rewrite (visit_children_loop _ _ _ _ _ Hcl Hl) by discriminate.
      apply Hrun; lia.
    + constructor.
      * exact Hinv'.
      * exact Hlen.
      * exact Hllen.
      * intros r Hr Hn. apply Hb; [exact Hr|lia].
      * intros l Hll Hn. apply Hls; [exact Hll|lia].
      * intros s Hs. destruct (Ht s Hs) as [Hs0 Hn].
        split; [exact Hs0|lia].
      * apply Hcls; [exact Hclosed|lia|lia|lia].
Qed.

(** ** Every box meets its specification *)

Lemma block_spec_text (e : element) (s : string) : block_spec (Text e s).
Proof. intros h a la _ _ _ Hblk. discriminate. Qed.

Lemma block_spec_of (c : cls) (e : element) (ch : list box) :
  Forall block_spec ch → Forall kids_ready ch →
  block_spec (Box c e ch).
Proof.
  intros Hbs Hkr h a la Hinv Hld Hwf Hblk.
  pose proof Hwf as Hwf0.
  unfold is_block in Hblk. cbn [box_cls] in Hblk.
  cbn [well_formed] in Hwf. apply andb_true_iff in Hwf as [Hshape _].
  assert (Hsh : already_done ch || forallb is_block ch = true)
    by (destruct c; try discriminate; exact Hshape).
  destruct (already_done ch) eqn:Hdone.
  - destruct ch as [|only [|? ?]]; try discriminate.
    cbn [already_done] in Hdone.
    destruct only as [cL eL items|? ?]; [|discriminate].
    destruct cL; try discriminate.
    apply Forall_cons in Hkr as [Hkr _].
    exact (block_spec_line c e eL items Hkr h a la Hinv Hld Hwf0 Hblk).
  - simpl in Hsh.
    exact (block_spec_blocks c e ch Hbs Hsh h a la Hinv Hld Hwf0 Hblk).
Qed.

Lemma all_specs (t : box) :
  block_spec t ∧ item_spec t ∧ line_ready t ∧ kids_ready t.
Proof.
  induction t as [e s|c e ch IH] using box_ind'.
  - split; [apply block_spec_text|].
    split; [apply item_spec_text|]. split; exact I.
  - assert (Hbs : Forall block_spec ch).
    { eapply Forall_impl; [exact IH|]. intros x Hx. apply Hx. }
    assert (His : Forall item_spec ch).
    { eapply Forall_impl; [exact IH|]. intros x Hx. apply Hx. }
    assert (Hlr : Forall line_ready ch).
    { eapply Forall_impl; [exact IH|]. intros x Hx. apply Hx. }
    assert (Hkr : Forall kids_ready ch).
    { eapply Forall_impl; [exact IH|]. intros x Hx. apply Hx. }
    assert (Hb : block_spec (Box c e ch)) by (apply block_spec_of; assumption).
    split; [exact Hb|]. split; [|split; [exact His|exact Hlr]].
    apply item_spec_of; [exact His|]. intros _. exact Hb.
Qed.

Lemma block_spec_all (t : box) : block_spec t.
Proof. apply all_specs. Qed.

(** ** The store that [load] builds *)

Lemma placed_loaded (h : heap) (b : box) :
  ∀ p a la, placed h p a la b → loaded h a la b.
Proof.
  induction b as [e s|c e ch IH] using box_ind'; intros p a la.
  - cbn [placed loaded]. intros Hb. unfold cls_of, clist. rewrite Hb.
    split; reflexivity.
  - cbn [placed loaded]. intros (Hb & Hl & Hch). unfold cls_of, clist.
    rewrite Hb. split; [reflexivity|]. split; [reflexivity|].
    split; [exact Hl|]. clear Hb Hl. revert Hch. generalize (a + 1) (la + 1).
    induction IH as [|t ts Ht _ IHts]; intros a' la'; cbn; [trivial|].
    intros [H1 H2]. split; [eapply Ht; exact H1|apply IHts; exact H2].
Qed.

Lemma roots_NoDup (ts : list box) : ∀ a, NoDup (roots a ts).
Proof.
  induction ts as [|t ts IH]; intros a; cbn [roots]; constructor.
  - intros Hin. apply roots_range in Hin. pose proof (size_pos t). lia.
  - apply IH.
Qed.

Lemma placed_list_at (h : heap) (q : option ref) : ∀ ts a la,
  placed_list (placed h q) a la ts →
  ∀ r, a ≤ r → r < a + fsize ts →
  ∃ t a' la', t ∈ ts ∧ placed h q a' la' t
    ∧ a ≤ a' ∧ a' + size t ≤ a + fsize ts
    ∧ la ≤ la' ∧ la' + lsize t ≤ la + flsize ts
    ∧ a' ≤ r ∧ r < a' + size t.
Proof.
  induction ts as [|t ts IH]; intros a la Hl r Hr1 Hr2.
  - unfold fsize in Hr2. simpl in Hr2. lia.
  - destruct Hl as [Ht Hl]. rewrite fsize_cons, flsize_cons in *.
    destruct (decide (r < a + size t)) as [Hlt|Hge].
    + exists t, a, la. repeat split; try lia; [left|exact Ht].
    + destruct (IH _ _ Hl r) as (t' & a' & la' & Hin & Hld & ?); [lia|lia|].
      exists t', a', la'. split; [right; exact Hin|]. split; [exact Hld|]. lia.
Qed.

Lemma well_formed_children (c : cls) (e : element) (ch : list box) (t : box) :
  well_formed (Box c e ch) = true → t ∈ ch → well_formed t = true.
Proof.
  cbn [well_formed]. intros H Hin. apply andb_true_iff in H as [_ H].
  rewrite forallb_forall in H. apply H. apply list_elem_of_In. exact Hin.
Qed.

(** Every box of a tree in the store is the root of a tree in the store,
    below its parent. *)
Lemma placed_at (h : heap) (b : box) :
  ∀ p a la, placed h p a la b → well_formed b = true →
  ∀ r, a ≤ r → r < a + size b →
  ∃ p' la' b', placed h p' r la' b' ∧ well_formed b' = true
    ∧ r + size b' ≤ a + size b
    ∧ la ≤ la' ∧ la' + lsize b' ≤ la + lsize b
    ∧ (p' = p ∨ ∃ q, p' = Some q ∧ a ≤ q ∧ q < r).
Proof.
  induction b as [e s|c e ch IH] using box_ind'; intros p a la Hp Hwf r Hr1 Hr2.
  - cbn [size] in Hr2. assert (r = a) as -> by lia.
    exists p, la, (Text e s). split; [exact Hp|]. split; [reflexivity|].
    split; [lia|]. split; [lia|]. split; [lia|]. left. reflexivity.
  - destruct (decide (r = a)) as [->|Hne].
    + exists p, la, (Box c e ch).
      split; [exact Hp|]. split; [exact Hwf|].
      split; [lia|]. split; [lia|]. split; [lia|]. left. reflexivity.
    + pose proof Hp as (Hb & Hl & Hch). rewrite size_Box in Hr2.
      destruct (placed_list_at _ _ _ _ _ Hch r)
        as (t & a' & la' & Hin & Ht & B1 & B2 & B3 & B4 & B5 & B6); [lia|lia|].
      rewrite Forall_forall in IH.
      destruct (IH t Hin _ _ _ Ht (well_formed_children _ _ _ _ Hwf Hin)
                  r B5 B6)
        as (p' & la'' & b' & Hp' & Hwf' & C1 & C2 & C3 & C4).
      exists p', la'', b'. rewrite size_Box, lsize_Box.
      split; [exact Hp'|]. split; [exact Hwf'|].
      split; [lia|]. split; [lia|]. split; [lia|]. right.
      destruct C4 as [->|(q & -> & ? & ?)].
      * exists a. split; [reflexivity|lia].
      * exists q. split; [reflexivity|lia].
Qed.

Lemma placed_clist (h : heap) (p : option ref) (a la : nat) (b : box) (l : ref) :
  placed h p a la b → clist h a = Some l →
  l = la ∧ ∃ c e ch, b = Box c e ch.
Proof.
  destruct b as [c e ch|e s]; cbn [placed]; unfold clist.
  - intros (Hb & _). rewrite Hb. cbn. intros [= <-]. split; [reflexivity|eauto].
  - intros Hb. rewrite Hb. discriminate.
Qed.

Lemma placed_clist_range (h : heap) (b : box) (p : option ref) (a la : nat) :
  placed h p a la b → well_formed b = true →
  ∀ r l, a ≤ r → r < a + size b → clist h r = Some l →
         la ≤ l ∧ l < la + lsize b.
Proof.
  intros Hp Hwf r l Hr1 Hr2 Hc.
  destruct (placed_at _ _ _ _ _ Hp Hwf r Hr1 Hr2)
    as (p' & la' & b' & Hp' & _ & _ & C2 & C3 & _).
  destruct (placed_clist _ _ _ _ _ _ Hp' Hc) as (-> & c & e & ch & ->).
  rewrite lsize_Box in C3. lia.
Qed.

Lemma placed_list_clist_range (h : heap) (q : option ref) (ts : list box)
    (a la : nat) :
  placed_list (placed h q) a la ts → forallb well_formed ts = true →
  ∀ r l, a ≤ r → r < a + fsize ts → clist h r = Some l →
         la ≤ l ∧ l < la + flsize ts.
Proof.
  intros Hp Hwf r l Hr1 Hr2 Hc.
  destruct (placed_list_at _ _ _ _ _ Hp r Hr1 Hr2)
    as (t & a' & la' & Hin & Ht & B1 & B2 & B3 & B4 & B5 & B6).
  rewrite forallb_forall in Hwf.
  assert (Hwt : well_formed t = true)
    by (apply Hwf; apply list_elem_of_In; exact Hin).
  pose proof (placed_clist_range _ _ _ _ _ Ht Hwt r l B5 B6 Hc). lia.
Qed.

(** No two boxes of a tree in the store share their list of children. *)
Lemma placed_clist_inj (h : heap) (b : box) :
  ∀ p a la, placed h p a la b → well_formed b = true →
  ∀ r r' l, a ≤ r → r < a + size b → a ≤ r' → r' < a + size b →
            clist h r = Some l → clist h r' = Some l → r = r'.
Proof.
  induction b as [e s|c e ch IH] using box_ind'; intros p a la Hp Hwf
    r r' l Hr1 Hr2 Hr1' Hr2' Hc Hc'.
  - cbn [size] in *. lia.
  - pose proof Hp as (Hb & Hl & Hch). rewrite size_Box in *.
    assert (Hwfch : forallb well_formed ch = true).
    { cbn [well_formed] in Hwf. apply andb_true_iff in Hwf as [_ H]. exact H. }
    assert (Ha : clist h a = Some la) by (unfold clist; rewrite Hb; reflexivity).
    destruct (decide (r = a)) as [->|Hne]; destruct (decide (r' = a)) as [->|Hne'].
    + reflexivity.
    + rewrite Ha in Hc. injection Hc as <-.
      pose proof (placed_list_clist_range _ _ _ _ _ Hch Hwfch r' la
                    ltac:(lia) ltac:(lia) Hc'). lia.
    + rewrite Ha in Hc'. injection Hc' as <-.
      pose proof (placed_list_clist_range _ _ _ _ _ Hch Hwfch r la
                    ltac:(lia) ltac:(lia) Hc). lia.
    + assert (Hr3 : a + 1 ≤ r) by lia. assert (Hr4 : r < a + 1 + fsize ch) by lia.
      assert (Hr3' : a + 1 ≤ r') by lia.
      assert (Hr4' : r' < a + 1 + fsize ch) by lia.
      clear Hb Hl Ha Hp Hwf Hr1 Hr2 Hr1' Hr2' Hne Hne'.
      revert Hch Hr3 Hr4 Hr3' Hr4'. generalize (a + 1) (la + 1).
      induction IH as [|t ts Ht _ IHts]; intros a' la' Hch Hr3 Hr4 Hr3' Hr4'.
      { unfold fsize in Hr4. simpl in Hr4. lia. }
      destruct Hch as [H1 H2]. rewrite fsize_cons in *.
      cbn [forallb] in Hwfch. apply andb_true_iff in Hwfch as [Hwt Hwts].
      destruct (decide (r < a' + size t)) as [Hlt|Hge];
        destruct (decide (r' < a' + size t)) as [Hlt'|Hge'].
      * eapply Ht; eauto.
      * pose proof (placed_clist_range _ _ _ _ _ H1 Hwt r l Hr3 Hlt Hc).
        pose proof (placed_list_clist_range _ _ _ _ _ H2 Hwts r' l
                      ltac:(lia) ltac:(lia) Hc'). lia.
      * pose proof (placed_clist_range _ _ _ _ _ H1 Hwt r' l Hr3' Hlt' Hc').
        pose proof (placed_list_clist_range _ _ _ _ _ H2 Hwts r l
                      ltac:(lia) ltac:(lia) Hc). lia.
      * apply (IHts Hwts _ _ H2); lia.
Qed.

Section loaded_store.
Variable h : heap.
Variable b : box.
Hypothesis Hp : placed h None 0 0 b.
Hypothesis Hwf : well_formed b = true.
Hypothesis Hlen : length (boxes h) = size b.
Hypothesis Hllen : length (lists h) = lsize b.

Lemma ls_at (r : ref) :
  r < length (boxes h) →
  ∃ p' la' b', placed h p' r la' b' ∧ well_formed b' = true
    ∧ r + size b' ≤ size b ∧ la' + lsize b' ≤ lsize b
    ∧ (p' = None ∨ ∃ q, p' = Some q ∧ q < r).
Proof.
  intros Hr. rewrite Hlen in Hr.
  destruct (placed_at _ _ _ _ _ Hp Hwf r ltac:(lia) ltac:(lia))
    as (p' & la' & b' & H1 & H2 & H3 & _ & H5 & H6).
  exists p', la', b'. split; [exact H1|]. split; [exact H2|].
  split; [exact H3|]. split; [exact H5|].
  destruct H6 as [->|(q & -> & _ & Hq)]; [left; reflexivity|right; eauto].
Qed.

Lemma ls_kids (y : ref) (ks : list ref) :
  children_refs h y = Some ks →
  ∃ p' la' c e ch, placed h p' y la' (Box c e ch)
    ∧ well_formed (Box c e ch) = true
    ∧ ks = roots (y + 1) ch ∧ y + 1 + fsize ch ≤ size b.
Proof.
  intros Hks. pose proof Hks as Hks0.
  apply children_refs_Some in Hks as (l & Hcl & Hl).
  assert (Hy : y < length (boxes h)).
  { unfold clist in Hcl. destruct (boxes h !! y) as [o|] eqn:Ho; [|discriminate].
    eapply lookup_lt_Some; eauto. }
  destruct (ls_at y Hy) as (p' & la' & b' & H1 & H2 & H3 & _ & _).
  destruct (placed_clist _ _ _ _ _ _ H1 Hcl) as (-> & c & e & ch & ->).
  exists p', la', c, e, ch. split; [exact H1|]. split; [exact H2|].
  destruct H1 as (_ & Hl' & _). rewrite Hl' in Hl. injection Hl as <-.
  split; [reflexivity|]. rewrite size_Box in H3. lia.
Qed.

Lemma ls_kid (y : ref) (ks : list ref) (k : ref) :
  children_refs h y = Some ks → k ∈ ks →
  y < k ∧ k < length (boxes h)
  ∧ ∃ c e ch t lk, placed h (Some y) k lk t ∧ t ∈ ch
       ∧ cls_of h y = Some c ∧ well_formed (Box c e ch) = true.
Proof.
  intros Hks Hk.
  destruct (ls_kids _ _ Hks) as (p' & la' & c & e & ch & H1 & H2 & -> & H4).
  pose proof (roots_range _ _ _ Hk) as [R1 R2].
  split; [lia|]. split; [lia|].
  destruct H1 as (Hb & _ & Hch).
  destruct (placed_list_root _ _ _ _ _ Hch Hk) as (t & lk & Hin & Ht).
  exists c, e, ch, t, lk. split; [exact Ht|]. split; [exact Hin|].
  split; [unfold cls_of; rewrite Hb; reflexivity|exact H2].
Qed.

Lemma ls_inv : inv h.
Proof.
  constructor.
  - intros r l Hc.
    assert (Hr : r < length (boxes h)).
    { unfold clist in Hc.
      destruct (boxes h !! r) as [o|] eqn:Ho; [|discriminate].
      eapply lookup_lt_Some; eauto. }
    rewrite Hlen in Hr.
    pose proof (placed_clist_range _ _ _ _ _ Hp Hwf r l ltac:(lia) ltac:(lia) Hc).
    lia.
  - intros r1 r2 l H1 H2.
    assert (Hr : ∀ r, clist h r = Some l → r < size b).
    { intros r Hc. rewrite <- Hlen. unfold clist in Hc.
      destruct (boxes h !! r) as [o|] eqn:Ho; [|discriminate].
      eapply lookup_lt_Some; eauto. }
    pose proof (Hr _ H1). pose proof (Hr _ H2).
    apply (placed_clist_inj _ _ _ _ _ Hp Hwf r1 r2 l); auto; lia.
  - intros y ks c Hks Hc. apply (ls_kid _ _ _ Hks Hc).
  - intros y ks c Hks Hc.
    destruct (ls_kid _ _ _ Hks Hc) as (_ & _ & c0 & e & ch & t & lk & Ht & _).
    destruct (placed_root _ _ _ _ _ Ht) as (o & Ho & Hpar & _).
    unfold parent_of. rewrite Ho. exact Hpar.
  - intros y ks Hks.
    destruct (ls_kids _ _ Hks) as (p' & la' & c & e & ch & _ & _ & -> & _).
    apply roots_NoDup.
  - intros y ks c Hy Hks Hc.
    destruct (ls_kid _ _ _ Hks Hc)
      as (_ & _ & c0 & e & ch & t & lk & Ht & Hin & Hc0 & Hw).
    rewrite Hy in Hc0. injection Hc0 as <-.
    cbn [well_formed] in Hw. apply andb_true_iff in Hw as [Hw _].
    rewrite forallb_forall in Hw.
    specialize (Hw t ltac:(apply list_elem_of_In; exact Hin)).
    destruct (placed_root _ _ _ _ _ Ht) as (o & Ho & _ & Hcls).
    unfold cls_of. rewrite Ho. cbn. rewrite Hcls. intros [= Heq].
    unfold is_line in Hw. rewrite Heq in Hw. discriminate.
  - intros r o Ho Hnone.
    destruct (ls_at r (lookup_lt_Some _ _ _ Ho)) as (p' & la' & b' & H1 & _).
    destruct b' as [c e ch|e s]; cbn [placed] in H1.
    + destruct H1 as (Hb & _). rewrite Hb in Ho. injection Ho as <-.
      discriminate.
    + rewrite H1 in Ho. injection Ho as <-. eexists. reflexivity.
  - intros r p0 Hpar.
    assert (Hr : r < length (boxes h)).
    { unfold parent_of in Hpar.
      destruct (boxes h !! r) as [o|] eqn:Ho; [|discriminate].
      eapply lookup_lt_Some; eauto. }
    destruct (ls_at r Hr) as (p' & la' & b' & H1 & _ & _ & _ & H5).
    destruct (placed_root _ _ _ _ _ H1) as (o & Ho & Hpo & _).
    unfold parent_of in Hpar. rewrite Ho in Hpar. cbn in Hpar.
    rewrite Hpo in Hpar. subst p'.
    destruct H5 as [?|(q & [= <-] & Hq)]; [discriminate|lia].
  - exists (λ r, length (boxes h) - r). intros y ks c Hks Hc.
    destruct (ls_kid _ _ _ Hks Hc) as (? & ? & _). lia.
  - intros r Hc.
    destruct (ls_at r (cls_of_lt _ _ _ Hc)) as (p' & la' & b' & H1 & H2 & _).
    destruct b' as [c e ch|e s]; cbn [placed] in H1.
    + destruct H1 as (Hb & _). unfold cls_of in Hc. rewrite Hb in Hc.
      injection Hc as ->. discriminate.
    + unfold clist. rewrite H1. reflexivity.
Qed.

Lemma ls_root_no_trigger (s : ref) :
  ¬ (0 < s ∧ s < 0 + size b) → triggers h s = false.
Proof.
  intros Hs. destruct (triggers h s) eqn:Ht; [|reflexivity].
  apply triggers_spec in Ht as (c & p & Hc & _ & Hpar & _).
  apply cls_of_lt in Hc. rewrite Hlen in Hc.
  assert (s = 0) as -> by lia.
  destruct (placed_root _ _ _ _ _ Hp) as (o & Ho & Hpo & _).
  unfold parent_of in Hpar. rewrite Ho in Hpar. cbn in Hpar. congruence.
Qed.
End loaded_store.

(** ** Reading the tree back *)

Section settled.
Variable h : heap.
Hypothesis Hinv : inv h.
Hypothesis Htrig : ∀ s, triggers h s = false.

Lemma settled_kid (y : ref) (ks : list ref) (c : ref) :
  cls_of h y = Some InlineLevelBox → children_refs h y = Some ks → c ∈ ks →
  cls_of h c = Some InlineLevelBox ∨ cls_of h c = Some TextBox.
Proof.
  intros Hy Hks Hc.
  pose proof (inv_kids_lt _ Hinv _ _ _ Hks Hc) as Hlt.
  pose proof (inv_cons _ Hinv _ _ _ Hks Hc) as Hpar.
  pose proof (inv_line _ Hinv _ _ _ Hy Hks Hc) as Hline.
  destruct (lookup_lt_is_Some_2 _ _ Hlt) as [o Ho].
  assert (Hcls : cls_of h c = Some (o_cls o))
    by (unfold cls_of; rewrite Ho; reflexivity).
  destruct (isinstance_BlockLevelBox (o_cls o)) eqn:Hb.
  - assert (Ht : triggers h c = true).
    { apply triggers_spec. exists (o_cls o), y. auto. }
    rewrite Htrig in Ht. discriminate.
  - rewrite Hcls in *. destruct (o_cls o); try discriminate; auto.
    contradiction.
Qed.

Lemma extract_no_block : ∀ n r b,
  extract n h r = Some b →
  cls_of h r = Some InlineLevelBox ∨ cls_of h r = Some TextBox →
  has_block b = false.
Proof.
  induction n as [|n IH]; intros r b H Hc; [discriminate|].
  rewrite extract_S in H.
  destruct (boxes h !! r) as [o|] eqn:Ho; [|discriminate]. cbn in H.
  destruct (o_children o) as [l|] eqn:Hl.
  - destruct (lists h !! l) as [xs|] eqn:Hxs; [|discriminate]. cbn in H.
    destruct (mapM (extract n h) xs) as [ch|] eqn:Hch; [|discriminate].
    cbn in H. injection H as <-. apply mapM_Some in Hch.
    assert (Hcl : clist h r = Some l)
      by (unfold clist; rewrite Ho; exact Hl).
    destruct Hc as [Hc|Hc];
      [|rewrite (inv_leaf _ Hinv _ Hc) in Hcl; discriminate].
    assert (Hks : children_refs h r = Some xs)
      by (apply children_refs_Some; eauto).
    cbn [has_block]. unfold cls_of in Hc. rewrite Ho in Hc.
    injection Hc as Hc. rewrite Hc. cbn [isinstance_BlockLevelBox orb].
    assert (Hall : ∀ c, c ∈ xs → cls_of h c = Some InlineLevelBox
                                  ∨ cls_of h c = Some TextBox).
    { intros c Hin. eapply settled_kid; [|exact Hks|exact Hin].
      unfold cls_of. rewrite Ho. cbn. rewrite Hc. reflexivity. }
    clear Hks Hxs. induction Hch as [|x y xs ch Hxy _ IHch]; [reflexivity|].
    cbn [existsb]. rewrite (IH _ _ Hxy) by (apply Hall; left).
    apply IHch. intros c Hin. apply Hall. right. exact Hin.
  - destruct (o_text o) as [t|]; [|discriminate]. cbn in H.
    injection H as <-. reflexivity.
Qed.

Lemma extract_block_free : ∀ n r b,
  extract n h r = Some b → block_free_inlines b = true.
Proof.
  induction n as [|n IH]; intros r b H; [discriminate|].
  rewrite extract_S in H.
  destruct (boxes h !! r) as [o|] eqn:Ho; [|discriminate]. cbn in H.
  destruct (o_children o) as [l|] eqn:Hl.
  - destruct (lists h !! l) as [xs|] eqn:Hxs; [|discriminate]. cbn in H.
    destruct (mapM (extract n h) xs) as [ch|] eqn:Hch; [|discriminate].
    cbn in H. injection H as <-. apply mapM_Some in Hch.
    assert (Hks : children_refs h r = Some xs).
    { apply children_refs_Some. exists l. split; [|exact Hxs].
      unfold clist. rewrite Ho. exact Hl. }
    cbn [block_free_inlines]. apply andb_true_iff. split.
    + destruct (isinstance_InlineLevelBox (o_cls o)) eqn:Hi; [|reflexivity].
      apply cls_inline_iff in Hi.
      assert (Hy : cls_of h r = Some InlineLevelBox)
        by (unfold cls_of; rewrite Ho; cbn; rewrite Hi; reflexivity).
      assert (Hall : ∀ c, c ∈ xs → cls_of h c = Some InlineLevelBox
                                    ∨ cls_of h c = Some TextBox).
      { intros c Hin. eapply settled_kid; eauto. }
      apply negb_true_iff. clear Hks Hxs.
      induction Hch as [|x y xs ch Hxy _ IHch]; [reflexivity|].
      cbn [existsb].
      rewrite (extract_no_block _ _ _ Hxy) by (apply Hall; left).
      apply IHch. intros c Hin. apply Hall. right. exact Hin.
    + clear Hks Hxs. induction Hch as [|x y xs ch Hxy _ IHch]; [reflexivity|].
      cbn [forallb]. rewrite (IH _ _ Hxy). exact IHch.
  - destruct (o_text o) as [t|]; [|discriminate]. cbn in H.
    injection H as <-. reflexivity.
Qed.

Lemma extract_total (r : ref) :
  r < length (boxes h) → ∃ n b, extract n h r = Some b.
Proof.
  destruct (inv_ht _ Hinv) as [ht Hd].
  assert (Hind : ∀ n r, ht r < n → r < length (boxes h) →
                        ∃ b, extract n h r = Some b).
  { induction n as [|n IH]; intros r0 Hn Hr; [lia|].
    destruct (lookup_lt_is_Some_2 _ _ Hr) as [o Ho].
    rewrite extract_S, Ho. cbn.
    destruct (o_children o) as [l|] eqn:Hl.
    - assert (Hcl : clist h r0 = Some l)
        by (unfold clist; rewrite Ho; exact Hl).
      pose proof (inv_clist_lt _ Hinv _ _ Hcl) as Hll.
      destruct (lookup_lt_is_Some_2 _ _ Hll) as [xs Hxs].
      rewrite Hxs. cbn.
      assert (Hks : children_refs h r0 = Some xs)
        by (apply children_refs_Some; eauto).
      assert (Hch : ∃ ch, mapM (extract n h) xs = Some ch).
      { assert (Hall : ∀ c, c ∈ xs → ∃ b, extract n h c = Some b).
        { intros c Hin. apply IH.
          - specialize (Hd _ _ _ Hks Hin). lia.
          - eapply inv_kids_lt; eauto. }
        clear Hks Hxs. induction xs as [|x xs IHxs].
        - exists []. reflexivity.
        - destruct (Hall x) as [bx Hbx]; [left|].
          destruct IHxs as [ch Hch];
            [intros c Hin; apply Hall; right; exact Hin|].
          exists (bx :: ch). apply mapM_Some. constructor; [exact Hbx|].
          apply mapM_Some. exact Hch. }
      destruct Hch as [ch ->]. cbn. eauto.
    - destruct (inv_text _ Hinv _ _ Ho Hl) as [t Ht]. rewrite Ht. cbn. eauto. }
  intros Hr. exists (S (ht r)). apply Hind; [lia|exact Hr].
Qed.
End settled.

(** ** The pass on a whole tree *)

(** The pass returns on every well-formed tree with a block-level root,
    and leaves no block-level box under an inline-level one. *)
Lemma run_block_in_inline_settles (b : box) :
  is_block b = true → well_formed b = true →
  ∃ F b', (∀ fuel, F ≤ fuel → run_block_in_inline fuel b = Ok b')
          ∧ block_free_inlines b' = true.
Proof.
  intros Hblk Hwf.
  destruct (load_placed b empty_heap)
    as (h & Hload & Hlen & Hllen & _ & _ & Hp).
  cbn [empty_heap boxes lists length] in Hload, Hp, Hlen, Hllen.
  pose proof (ls_inv h b Hp Hwf Hlen Hllen) as Hinv.
  pose proof (placed_loaded _ _ _ _ _ Hp) as Hld.
  destruct (block_spec_all b h 0 0 Hinv Hld Hwf Hblk) as (F & h' & Hrun & Hres).
  pose proof (size_pos b) as Hsz.
  assert (Htrig : ∀ s, triggers h' s = false).
  { intros s. destruct (triggers h' s) eqn:Ht; [|reflexivity].
    destruct (br_trig _ _ _ _ _ _ Hres s Ht) as [Ht0 Hs].
    rewrite (ls_root_no_trigger h b Hp Hlen Hllen s Hs) in Ht0.
    discriminate. }
  pose proof (br_inv _ _ _ _ _ _ Hres) as Hinv'.
  pose proof (br_len _ _ _ _ _ _ Hres) as Hlen'.
  destruct (extract_total h' Hinv' 0 ltac:(lia)) as (n & b' & Hex).
  exists (max (S F) n), b'. split.
  - intros fuel Hfuel. destruct fuel as [|fu]; [lia|].
    unfold run_block_in_inline.
    rewrite M_bind_eq, Hload, M_bind_eq.
    rewrite bii_no_trigger;
      [|exact Hinv|lia|apply (ls_root_no_trigger h b Hp Hlen Hllen); lia].
    rewrite Hrun by lia. unfold mret, M_ret.
    rewrite (extract_mono h' n (S fu) 0 b' ltac:(lia) Hex). reflexivity.
  - exact (extract_block_free h' Hinv' Htrig _ _ _ Hex).
Qed.

(** X15: on every tree with a block-level root and the shape
    [inline_in_block] leaves (a block-level box holds one [LineBox] or
    block-level boxes only, a [LineBox] holds inline-level boxes and text,
    an inline-level box holds no [LineBox]), [block_in_inline] returns,
    whatever the depth at which block-level boxes sit in inline-level
    ones, and in the tree it leaves no inline-level box holds a
    block-level box at any depth. *)
Theorem block_in_inline_clears_inlines (b : box) :
  is_block b = true → well_formed b = true →
  ∃ F b', (∀ fuel, F ≤ fuel → run_block_in_inline fuel b = Ok b')
          ∧ block_free_inlines b' = true.
Proof. apply run_block_in_inline_settles. Qed.

Lemma block_in_inline_clears_inlines_witness :
  ∃ F b',
    (∀ fuel, F ≤ fuel →
       run_block_in_inline fuel
         (Box BlockLevelBox (Element "block" None None [])
            [Box LineBox (Element "block" None None [])
               [Box InlineLevelBox (Element "inline" None None [])
                  [Text (Element "inline" None None []) "a";
                   Box InlineLevelBox (Element "inline" None None [])
                     [Text (Element "inline" None None []) "b";
                      Box BlockLevelBox (Element "block" None None [])
                        [Box LineBox (Element "block" None None [])
                           [Text (Element "block" None None []) "c"]];
                      Text (Element "inline" None None []) "d"];
                   Text (Element "inline" None None []) "e"]]])
       = Ok b')
    ∧ block_free_inlines b' = true.
Proof.
  apply block_in_inline_clears_inlines; reflexivity.
Defined.

(** ** From the document to the settled tree *)

Lemma flow_plain (b : box) : flow b = true → plain b = true.
Proof.
  induction b as [e s|c e ch IH] using box_ind'; [reflexivity|].
  cbn [flow plain]. rewrite !andb_true_iff. intros [Hc Hch]. split.
  - destruct c; (discriminate || reflexivity).
  - apply forallb_Forall. apply forallb_Forall in Hch.
    rewrite Forall_forall in *. auto.
Qed.

Lemma text_child_flow (e : element) (o : option string) :
  forallb flow (text_child e o) = true.
Proof. unfold text_child. destruct (truthy o); reflexivity. Qed.

Lemma children_loop_flow (e : element) (l : list element) (bs : list box) :
  Forall (λ k, ∀ b, dom_to_box k = Ok b → flow b = true) l →
  children_loop dom_to_box e l = Ok bs →
  forallb flow bs = true.
Proof.
  intros HF. revert bs.
  induction HF as [|k l Hk _ IH]; intros bs.
  - intros [= <-]. reflexivity.
  - cbn [children_loop].
    destruct (String.eqb (display k) "none"); cbn [negb].
    + cbn [mbind result_bind].
      destruct (children_loop dom_to_box e l) as [later|]; [|discriminate].
      intros [= <-]. cbn [app].
      rewrite forallb_app, text_child_flow, (IH later eq_refl). reflexivity.
    + destruct (dom_to_box k) as [b|] eqn:Eb; [|discriminate].
      cbn [mbind result_bind].
      destruct (children_loop dom_to_box e l) as [later|]; [|discriminate].
      intros [= <-]. cbn [app forallb].
      rewrite forallb_app, text_child_flow, (IH later eq_refl), (Hk b eq_refl).
      reflexivity.
Qed.

Lemma dom_to_box_flow (e : element) (b : box) :
  dom_to_box e = Ok b → flow b = true.
Proof.
  revert b. induction e as [d t tl ks IH] using element_ind'. intros b Hb.
  apply dom_to_box_returns in Hb as (c & rest & Hc & Hrest & ->).
  cbn [flow]. rewrite forallb_app, text_child_flow.
  rewrite (children_loop_flow _ _ _ IH Hrest).
  apply classify_Ok in Hc as [-> | ->]; reflexivity.
Qed.

Lemma flow_kind (x y : box) :
  flow x = true → inline_in_block x = Ok y →
  is_block y || is_inline y || is_text y = true.
Proof.
  intros Hf Hy. pose proof (inline_in_block_cls _ _ Hy) as Hc.
  destruct x as [c e ch|e s].
  - cbn [flow] in Hf. apply andb_true_iff in Hf as [Hf _].
    unfold is_block, is_inline. rewrite Hc. cbn [box_cls].
    destruct c; (discriminate || reflexivity).
  - injection Hy as <-. reflexivity.
Qed.

Lemma well_formed_line (e : element) (line : list box) :
  Forall (λ x, well_formed x = true ∧ is_inline x || is_text x = true) line →
  well_formed (Box LineBox e line) = true.
Proof.
  intros H. cbn [well_formed]. apply andb_true_iff.
  split; apply forallb_Forall; eapply Forall_impl; try exact H;
    cbn; intros x Hx; apply Hx.
Qed.

Lemma wrap_runs_well_formed (e : element) :
  ∀ children line out res,
    wrap_runs e children line out = Ok res →
    Forall (λ x, well_formed x = true
                 ∧ is_block x || is_inline x || is_text x = true) children →
    Forall (λ x, well_formed x = true ∧ is_inline x || is_text x = true) line →
    Forall (λ x, well_formed x = true) out →
    Forall (λ x, well_formed x = true) res.
Proof.
  assert (Hanon : ∀ line,
    Forall (λ x, well_formed x = true ∧ is_inline x || is_text x = true) line →
    well_formed (Box AnonymousBlockLevelBox e [Box LineBox e line]) = true).
  { intros line Hl. pose proof (well_formed_line e line Hl) as Hw.
    cbn [well_formed forallb already_done is_line box_cls isinstance_LineBox]
      in *.
    rewrite Hw. reflexivity. }
  induction children as [|x children IH]; cbn [wrap_runs];
    intros line out res.
  - destruct (nonempty line).
    + destruct (nonempty out); intros [= <-] _ Hl Ho.
      * apply Forall_app. split; [exact Ho|].
        apply Forall_cons. split; [apply Hanon; exact Hl|constructor].
      * apply Forall_cons. split; [apply well_formed_line; exact Hl|constructor].
    + intros [= <-] _ _ Ho. exact Ho.
  - destruct (is_line x) eqn:Hxl; [discriminate|]. intros Hres Hch Hl Ho.
    apply Forall_cons in Hch as [[Hx Hk] Hch].
    destruct (is_block x) eqn:Hxb.
    + destruct (nonempty line); apply (IH _ _ _ Hres); try assumption.
      * constructor.
      * rewrite !Forall_app. split; [exact Ho|]. split.
        -- apply Forall_cons. split; [apply Hanon; exact Hl|constructor].
        -- apply Forall_cons. split; [exact Hx|constructor].
      * rewrite Forall_app. split; [exact Ho|].
        apply Forall_cons. split; [exact Hx|constructor].
    + apply (IH _ _ _ Hres); try assumption.
      rewrite Forall_app. split; [exact Hl|].
      apply Forall_cons. split; [|constructor]. split; [exact Hx|].
      cbn [orb] in Hk. exact Hk.
Qed.

Lemma inline_in_block_flow (b : box) :
  flow b = true → ∀ b', inline_in_block b = Ok b' → well_formed b' = true.
Proof.
  induction b as [e s|c e ch IH] using box_ind'; intros Hf b' Hb.
  { injection Hb as <-. reflexivity. }
  cbn [flow] in Hf. apply andb_true_iff in Hf as [Hc Hfch].
  apply forallb_Forall in Hfch.
  apply inline_in_block_returns in Hb as (ch' & Hch & Hb).
  assert (Hall : Forall (λ x, well_formed x = true
                   ∧ is_block x || is_inline x || is_text x = true) ch').
  { apply each_child_Forall2 in Hch. clear Hb.
    induction Hch as [|x y l l' Hxy _ IHl]; [constructor|].
    apply Forall_cons in IH as [IHx IH].
    apply Forall_cons in Hfch as [Hfx Hfch].
    constructor; [|apply IHl; assumption].
    split; [apply IHx; assumption|eapply flow_kind; eassumption]. }
  assert (Hwf : forallb well_formed ch' = true).
  { apply forallb_Forall. eapply Forall_impl; [exact Hall|].
    cbn. intros x Hx. apply Hx. }
  destruct Hb as [[Hk ->]|(Hk & Hd & res & Hres & ->)]; cbn [well_formed].
  - rewrite Hwf, andb_true_r. destruct c; try discriminate.
    + destruct Hk as [Hk|Hk]; [discriminate|]. rewrite Hk. reflexivity.
    + apply forallb_Forall. eapply Forall_impl; [exact Hall|].
      cbn. intros x [_ Hx]. unfold is_line, is_block, is_inline, is_text in *.
      destruct x as [cx ? ?|? ?]; [|reflexivity].
      destruct cx; (discriminate || reflexivity).
  - assert (Hshape : already_done res || forallb is_block res = true)
      by (apply (wrap_runs_shape _ _ _ _ _ Hres); reflexivity).
    assert (Hres' : forallb well_formed res = true).
    { apply forallb_Forall.
      apply (wrap_runs_well_formed e ch' [] [] res Hres Hall);
        constructor. }
    rewrite Hshape, Hres'. destruct c; (discriminate || reflexivity).
Qed.

(** X16: on every tree of block-level boxes, inline-level boxes and
    text only, as [dom_to_box] builds them, [inline_in_block] returns, and
    in its result a block-level box holds one [LineBox] or block-level
    boxes only, a [LineBox] holds inline-level boxes and text only, and an
    inline-level box holds no [LineBox]: the shape on which
    [block_in_inline] is shown to return. *)
Theorem inline_in_block_well_formed (b : box) :
  flow b = true →
  ∃ b', inline_in_block b = Ok b' ∧ well_formed b' = true.
Proof.
  intros Hf. pose proof (inline_in_block_is_ok b) as Hok.
  rewrite (plain_no_nested_LineBox _ (flow_plain _ Hf)) in Hok.
  destruct (inline_in_block b) as [b'|] eqn:Hb; [|discriminate].
  exists b'. split; [reflexivity|]. exact (inline_in_block_flow b Hf b' Hb).
Qed.

Lemma inline_in_block_well_formed_witness :
  ∃ b',
    inline_in_block
      (Box BlockLevelBox (Element "block" None None [])
         [Text (Element "block" None None []) "a";
          Box InlineLevelBox (Element "inline" None None [])
            [Box BlockLevelBox (Element "block" None None []) []];
          Box BlockLevelBox (Element "block" None None []) []]) = Ok b'
    ∧ well_formed b' = true.
Proof. apply inline_in_block_well_formed. reflexivity. Defined.

(** X17: the three steps in a row.  On every document whose root has a
    block display and whose elements all have a supported display (or
    [none], below the root), [dom_to_box] returns a tree, [inline_in_block]
    returns on that tree, [block_in_inline] returns on the result, and in
    the final tree no inline-level box holds a block-level box at any
    depth. *)
Theorem dom_to_settled_tree (e : element) :
  supported e = true → block_display (display e) = true →
  ∃ b1 b2 F b3,
    dom_to_box e = Ok b1 ∧ inline_in_block b1 = Ok b2
    ∧ (∀ fuel, F ≤ fuel → run_block_in_inline fuel b2 = Ok b3)
    ∧ block_free_inlines b3 = true.
Proof.
  intros Hs Hd. destruct (dom_to_box_supported e Hs) as [b1 Hb1].
  pose proof (dom_to_box_flow _ _ Hb1) as Hf.
  pose proof (inline_in_block_is_ok b1) as Hok.
  rewrite (plain_no_nested_LineBox _ (flow_plain _ Hf)) in Hok.
  destruct (inline_in_block b1) as [b2|] eqn:Hb2; [|discriminate].
  pose proof (inline_in_block_flow b1 Hf b2 Hb2) as Hwf.
  assert (Hblk : is_block b2 = true).
  { unfold is_block. rewrite (inline_in_block_cls _ _ Hb2).
    apply dom_to_box_returns in Hb1 as (c & rest & Hc & _ & ->).
    unfold classify in Hc. rewrite Hd in Hc. injection Hc as <-. reflexivity. }
  destruct (run_block_in_inline_settles b2 Hblk Hwf) as (F & b3 & Hrun & Hfree).
  exists b1, b2, F, b3. auto.
Qed.

Lemma dom_to_settled_tree_witness :
  ∃ b1 b2 F b3,
    dom_to_box
      (Element "block" (Some "a") None
         [Element "inline" (Some "b") (Some "e")
            [Element "block" (Some "c") (Some "d") []]]) = Ok b1
    ∧ inline_in_block b1 = Ok b2
    ∧ (∀ fuel, F ≤ fuel → run_block_in_inline fuel b2 = Ok b3)
    ∧ block_free_inlines b3 = true.
Proof. apply dom_to_settled_tree; reflexivity. Defined.

(** X18: the pass is idempotent on the trees it is made for.  On a
    well-formed tree with a block-level root, [block_in_inline] returns a
    tree on which a second run of [block_in_inline] returns the same
    tree. *)
Theorem block_in_inline_twice (b : box) :
  is_block b = true → well_formed b = true →
  ∃ F b', ∀ fuel, F ≤ fuel →
    run_block_in_inline fuel b = Ok b'
    ∧ run_block_in_inline fuel b' = Ok b'.
Proof.
  intros Hblk Hwf.
  destruct (run_block_in_inline_settles b Hblk Hwf) as (F & b' & Hrun & Hfree).
  exists (max F (S (size b'))), b'. intros fuel Hfuel.
  split; [apply Hrun; lia|].
  destruct (load_placed b' empty_heap) as (h & Hload & _ & _ & _ & _ & Hp).
  cbn [empty_heap boxes lists length] in Hload, Hp.
  unfold run_block_in_inline.
  rewrite M_bind_eq, Hload, M_bind_eq.
  rewrite (bii_placed h b' fuel None 0 0 Hp Hfree I) by lia.
  cbn. rewrite (extract_placed h b' fuel None 0 0 Hp) by lia. reflexivity.
Qed.

Lemma block_in_inline_twice_witness :
  ∃ F b', ∀ fuel, F ≤ fuel →
    run_block_in_inline fuel
      (Box BlockLevelBox (Element "block" None None [])
         [Box LineBox (Element "block" None None [])
            [Box InlineLevelBox (Element "inline" None None [])
               [Text (Element "inline" None None []) "a";
                Box BlockLevelBox (Element "block" None None []) [];
                Text (Element "inline" None None []) "b"]]]) = Ok b'
    ∧ run_block_in_inline fuel b' = Ok b'.
Proof. apply block_in_inline_twice; reflexivity. Defined.
